(** * Serena multi-server supervisor and BSL symbol indexer

    A shallow embedding of the supervisor and its admin handlers
    ([serena/multi_server.py]), the compose file
    ([serena/docker_compose.py]), the BSL parser ([solidlsp/bsl_parser.py]),
    the symbol cache and its queries ([solidlsp/bsl_cache.py]) and the
    fingerprint, statistics and indexing code of the BSL language server
    ([solidlsp/language_servers/bsl_language_server.py]), together with the
    properties the specification states about them and further properties
    of the code. *)

From Stdlib Require Import ZArith Lia Ascii String.
From stdpp Require Import base option list strings pretty gmap sorting.

(* ===================================================================== *)
(** * Part I: the supervisor ([serena/multi_server.py])                   *)
(* ===================================================================== *)

Module Supervisor.

(** [Literal["sse", "streamable-http"]] *)
Inductive transport_t := Sse | StreamableHttp.

(** The exceptions that the modelled functions raise. *)
Inductive exn :=
| ValueError (msg : string)
| RuntimeError (msg : string)
| KeyError (key : string)
| OverflowError
| AttributeError.

(** A [subprocess.Popen] object as the supervisor observes it: its pid and
    its [returncode] ([poll()] is [None] while the child runs). *)
Record Popen := mkPopen { popen_pid : nat; returncode : option Z }.

Definition poll (p : Popen) : option Z := returncode p.

(** [ManagedServerProcess].  The two log-file handles are left out: no
    modelled operation reads them. *)
Record ManagedServerProcess := mkServer {
  project_name : string;
  project_path : string;
  port : Z;
  transport : transport_t;
  host : string;
  context : option string;
  modes : list string;
  log_level : option string;
  auto_restart : bool;
  _process : option Popen;
  _start_time : option Z;
  _restart_count : nat
}.

Definition set_auto_restart (b : bool) (s : ManagedServerProcess) :=
  mkServer (project_name s) (project_path s) (port s) (transport s) (host s)
           (context s) (modes s) (log_level s) b
           (_process s) (_start_time s) (_restart_count s).

Definition set_process (p : option Popen) (s : ManagedServerProcess) :=
  mkServer (project_name s) (project_path s) (port s) (transport s) (host s)
           (context s) (modes s) (log_level s) (auto_restart s)
           p (_start_time s) (_restart_count s).

Definition set_start_time (t : option Z) (s : ManagedServerProcess) :=
  mkServer (project_name s) (project_path s) (port s) (transport s) (host s)
           (context s) (modes s) (log_level s) (auto_restart s)
           (_process s) t (_restart_count s).

Definition set_restart_count (n : nat) (s : ManagedServerProcess) :=
  mkServer (project_name s) (project_path s) (port s) (transport s) (host s)
           (context s) (modes s) (log_level s) (auto_restart s)
           (_process s) (_start_time s) n.

(** What the supervisor does to the outside world. *)
Inductive event :=
| Sleep (secs : Z)                      (* time.sleep(secs) *)
| Spawn (name : string) (pid : nat)     (* subprocess.Popen(cmd, ...) *)
| Terminate (pid : nat).                (* Popen.terminate() + wait / kill *)

(** The supervisor's state: the registry [_servers] (a Python dict, kept in
    insertion order), the wall clock in seconds, the next pid the operating
    system hands out, and the events so far. *)
Record World := mkWorld {
  servers : list (string * ManagedServerProcess);
  clock : Z;
  next_pid : nat;
  trace : list event
}.

(** State-and-exception monad: a raised exception keeps the state reached. *)
Definition M (A : Type) : Type := World → (exn + A) * World.

Definition ret {A} (a : A) : M A := λ w, (inr a, w).
Definition raise {A} (e : exn) : M A := λ w, (inl e, w).
Definition bind {A B} (m : M A) (k : A → M B) : M B :=
  λ w, match m w with
       | (inr a, w') => k a w'
       | (inl e, w') => (inl e, w')
       end.

Notation "x <- m ;; k" := (bind m (λ x, k))
  (at level 100, m at next level, right associativity).
Notation "m ;;; k" := (bind m (λ _, k))
  (at level 100, right associativity).

Definition time_time : M Z := λ w, (inr (clock w), w).

Definition time_sleep (secs : Z) : M unit := λ w,
  (inr tt, mkWorld (servers w) (clock w + secs) (next_pid w) (trace w ++ [Sleep secs])).

Definition popen (name : string) : M Popen := λ w,
  (inr (mkPopen (next_pid w) None),
   mkWorld (servers w) (clock w) (S (next_pid w)) (trace w ++ [Spawn name (next_pid w)])).

Definition terminate (p : Popen) : M unit := λ w,
  (inr tt, mkWorld (servers w) (clock w) (next_pid w) (trace w ++ [Terminate (popen_pid p)])).

Definition get_servers : M (list (string * ManagedServerProcess)) :=
  λ w, (inr (servers w), w).

Definition put_servers (l : list (string * ManagedServerProcess)) : M unit :=
  λ w, (inr tt, mkWorld l (clock w) (next_pid w) (trace w)).

(** ** ManagedServerProcess *)

(** [is_alive] *)
Definition is_alive (s : ManagedServerProcess) : bool :=
  match _process s with
  | None => false
  | Some p => match poll p with None => true | Some _ => false end
  end.

(** [start].  The child is taken to start: [os.makedirs], [open] and
    [subprocess.Popen] can raise [OSError], which is not modelled. *)
Definition start (s : ManagedServerProcess) : M ManagedServerProcess :=
  if is_alive s then ret s
  else
    p <- popen (project_name s) ;;
    t <- time_time ;;
    ret (set_start_time (Some t) (set_process (Some p) s)).

(** [stop]: graceful termination, then force-kill; either way the handle
    forgets its process object. *)
Definition stop (s : ManagedServerProcess) : M ManagedServerProcess :=
  match _process s with
  | None => ret (set_process None s)
  | Some p =>
      match poll p with
      | Some _ => ret (set_process None s)
      | None => terminate p ;;; ret (set_process None s)
      end
  end.

Definition max_retries : nat := 3.

(** [restart] *)
Definition restart (s : ManagedServerProcess) : M (bool * ManagedServerProcess) :=
  if bool_decide (max_retries ≤ _restart_count s) then ret (false, s)
  else
    let backoff := Z.min (2 ^ Z.of_nat (_restart_count s)) 30 in
    time_sleep backoff ;;;
    s1 <- stop s ;;
    s2 <- start s1 ;;
    ret (true, set_restart_count (S (_restart_count s2)) s2).

(** [reset_restart_count] *)
Definition reset_restart_count (s : ManagedServerProcess) :=
  set_restart_count 0 s.

(** [pid] *)
Definition pid (s : ManagedServerProcess) : option nat :=
  match _process s with
  | Some p => match poll p with None => Some (popen_pid p) | Some _ => None end
  | None => None
  end.

(** [uptime], at wall-clock time [t] *)
Definition uptime (t : Z) (s : ManagedServerProcess) : option Z :=
  match _start_time s with
  | Some t0 => if is_alive s then Some (t - t0)%Z else None
  | None => None
  end.

(** [status] *)
Definition status (s : ManagedServerProcess) : string :=
  if is_alive s then "running"
  else if bool_decide (_process s ≠ None) then "crashed"
  else if negb (auto_restart s) then "stopped"
  else "stopped".

(** [to_dict]; [memory_rss_mb] (read from procfs) is left out. *)
Record ServerInfo := mkInfo {
  info_project_name : string;
  info_project_path : string;
  info_port : Z;
  info_transport : transport_t;
  info_host : string;
  info_status : string;
  info_pid : option nat;
  info_uptime_seconds : option Z;
  info_auto_restart : bool
}.

Definition to_dict (s : ManagedServerProcess) : M ServerInfo :=
  t <- time_time ;;
  ret (mkInfo (project_name s) (project_path s) (port s) (transport s) (host s)
              (status s) (pid s) (uptime t s) (auto_restart s)).

(** ** Dictionary helpers for [_servers] *)

Fixpoint dict_get {V} (k : string) (d : list (string * V)) : option V :=
  match d with
  | [] => None
  | (k', v) :: d' => if bool_decide (k' = k) then Some v else dict_get k d'
  end.

(** [d[k] = v]: replaces in place when the key is present, appends otherwise *)
Fixpoint dict_set {V} (k : string) (v : V) (d : list (string * V)) : list (string * V) :=
  match d with
  | [] => [(k, v)]
  | (k', v') :: d' =>
      if bool_decide (k' = k) then (k, v) :: d' else (k', v') :: dict_set k v d'
  end.

(** [del d[k]] *)
Fixpoint dict_del {V} (k : string) (d : list (string * V)) : list (string * V) :=
  match d with
  | [] => []
  | (k', v') :: d' =>
      if bool_decide (k' = k) then d' else (k', v') :: dict_del k d'
  end.

Definition keys {V} (d : list (string * V)) : list string := d.*1.
Definition values {V} (d : list (string * V)) : list V := d.*2.

(** ** MultiServerManager *)

Definition STABLE_PERIOD : Z := 60.

(** [add_server]; [auto_restart] takes the dataclass default [True]. *)
Definition add_server (name path : string) (prt : Z) (tr : transport_t) (hst : string)
    (ctx : option string) (mds : list string) (lvl : option string) : M unit :=
  d <- get_servers ;;
  if bool_decide (name ∈ keys d) then
    raise (ValueError ("Server for project '" +:+ name +:+ "' already registered"))
  else
    put_servers (dict_set name (mkServer name path prt tr hst ctx mds lvl true None None 0) d).

(** Run a handle operation on the registered server [name] and store the
    handle back (the Python code mutates the shared object). *)
Definition with_server (name : string)
    (f : ManagedServerProcess → M ManagedServerProcess) : M unit :=
  d <- get_servers ;;
  match dict_get name d with
  | None => raise (ValueError ("Unknown project: " +:+ name))
  | Some s =>
      s' <- f s ;;
      d' <- get_servers ;;
      put_servers (dict_set name s' d')
  end.

(** [stop_server] *)
Definition stop_server (name : string) : M unit :=
  with_server name (λ s, stop (set_auto_restart false s)).

(** [start_server] *)
Definition start_server (name : string) : M unit :=
  with_server name (λ s, start (set_auto_restart true s)).

(** [restart_server] *)
Definition restart_server (name : string) : M unit :=
  with_server name (λ s,
    s1 <- stop s ;;
    start (reset_restart_count (set_auto_restart true s1))).

(** [remove_server] *)
Definition remove_server (name : string) : M unit :=
  with_server name (λ s, stop (set_auto_restart false s)) ;;;
  d <- get_servers ;;
  put_servers (dict_del name d).

Fixpoint mapM {A B} (f : A → M B) (l : list A) : M (list B) :=
  match l with
  | [] => ret []
  | a :: l' => b <- f a ;; bs <- mapM f l' ;; ret (b :: bs)
  end.

(** [list_servers] *)
Definition list_servers : M (list ServerInfo) :=
  d <- get_servers ;;
  mapM to_dict (values d).

(** [start_all] (without the printed table) *)
Definition start_all : M unit :=
  d <- get_servers ;;
  d' <- mapM (λ kv : string * ManagedServerProcess,
                s' <- (if auto_restart kv.2 && negb (is_alive kv.2)
                       then start kv.2 else ret kv.2) ;;
                ret (kv.1, s')) d ;;
  put_servers d'.

(** [max(used_ports)] of a non-empty collection [p :: ps] *)
Definition max_port (p : Z) (ps : list Z) : Z := foldr Z.max p ps.

(** The ports [range(start, start + n)] probed in order with
    [socket.bind]; [bindable p] tells whether the bind succeeds.  A port
    above 65535 makes [bind] raise [OverflowError], which the
    [except OSError] clause does not catch.  The probed ports are taken
    not to be negative: [bind] raises [OverflowError] for a negative port
    too, which can only be probed when the registry holds a port below
    -1. *)
Fixpoint probe_ports (bindable : Z → bool) (p : Z) (n : nat) : exn + option Z :=
  match n with
  | O => inr None
  | S n' =>
      if bool_decide (65535 < p)%Z then inl OverflowError
      else if bindable p then inr (Some p)
      else probe_ports bindable (p + 1)%Z n'
  end.

(** [find_free_port] *)
Definition find_free_port (bindable : Z → bool) : M Z :=
  d <- get_servers ;;
  let used_ports := port <$> values d in
  let start_port :=
    match used_ports with [] => 9200%Z | p :: ps => (max_port p ps + 1)%Z end in
  match probe_ports bindable start_port 100 with
  | inl e => raise e
  | inr (Some p) => ret p
  | inr None =>
      raise (RuntimeError ("No free port found in range " +:+ pretty start_port
                           +:+ "-" +:+ pretty (start_port + 99)%Z))
  end.


(** [str.rstrip(chars)] *)
Fixpoint rstrip (chars : list ascii) (s : string) : string :=
  match s with
  | EmptyString => EmptyString
  | String c s' =>
      let r := rstrip chars s' in
      if bool_decide (r = EmptyString) && bool_decide (c ∈ chars)
      then EmptyString else String c r
  end.

Fixpoint has_char (c : ascii) (s : string) : bool :=
  match s with
  | EmptyString => false
  | String c' s' => bool_decide (c' = c) || has_char c s'
  end.

(** [os.path.basename] (POSIX): what follows the last ['/'] *)
Fixpoint basename (p : string) : string :=
  match p with
  | EmptyString => EmptyString
  | String c p' =>
      if has_char "/" p' then basename p'
      else if bool_decide (c = "/"%char) then p' else p
  end.

(** [f"{base_name}_{counter}"] *)
Definition suffixed (base_name : string) (counter : nat) : string :=
  base_name +:+ "_" +:+ pretty counter.

(** The de-duplication loop of [add_and_start_server]:
    [while project_name in existing_names: counter += 1; project_name = ...].
    [fuel] bounds the number of iterations; [dedup_loop_exits] below shows
    that with [S (length existing_names)] the loop leaves by its own test. *)
Fixpoint dedup_loop (fuel : nat) (existing_names : list string) (base_name : string)
    (counter : nat) (project_name : string) : string :=
  match fuel with
  | O => project_name
  | S fuel' =>
      if bool_decide (project_name ∈ existing_names)
      then dedup_loop fuel' existing_names base_name (S counter)
                      (suffixed base_name (S counter))
      else project_name
  end.

Definition dedup_name (existing_names : list string) (base_name : string) : string :=
  dedup_loop (S (length existing_names)) existing_names base_name 1 base_name.

(** [add_and_start_server].  [bindable] is the answer of [socket.bind] on
    the chosen host at the time of the call. *)
Definition add_and_start_server (bindable : Z → bool) (path : string)
    (tr : option transport_t) (hst : option string)
    (ctx : option string) (mds : list string) (lvl : option string) : M ServerInfo :=
  let base_name := basename (rstrip ["/"%char; "\"%char] path) in
  if bool_decide (base_name = EmptyString) then
    raise (ValueError ("Cannot derive project name from path: " +:+ path))
  else
    d <- get_servers ;;
    let name := dedup_name (keys d) base_name in
    let tr' := match tr with
               | Some t => t
               | None => match values d with s :: _ => transport s | [] => Sse end
               end in
    let hst' := match hst with
                | Some h => h
                | None => match values d with s :: _ => host s | [] => "0.0.0.0" end
                end in
    prt <- find_free_port bindable ;;
    add_server name path prt tr' hst' ctx mds lvl ;;;
    start_server name ;;;
    d' <- get_servers ;;
    match dict_get name d' with
    | Some s => to_dict s
    | None => raise (KeyError name)
    end.

(** [shutdown] (the control file is not modelled) *)
Definition shutdown : M unit :=
  d <- get_servers ;;
  d' <- mapM (λ kv : string * ManagedServerProcess,
                s' <- stop kv.2 ;; ret (kv.1, s')) d ;;
  put_servers d'.

(** The body of the [for server in servers_snapshot] loop of [run_forever] *)
Definition monitor_server (s : ManagedServerProcess) : M ManagedServerProcess :=
  s1 <- (if negb (is_alive s) && auto_restart s then
           r <- restart s ;;
           if r.1 then ret r.2 else ret (set_auto_restart false r.2)
         else ret s) ;;
  t <- time_time ;;
  if is_alive s1 &&
     match uptime t s1 with
     | Some u => bool_decide (STABLE_PERIOD < u)%Z
     | None => false
     end
  then ret (reset_restart_count s1)
  else ret s1.

(** One pass of the monitor loop over the snapshot of the registry *)
Definition monitor_pass : M unit :=
  d <- get_servers ;;
  d' <- mapM (λ kv : string * ManagedServerProcess,
                s' <- monitor_server kv.2 ;; ret (kv.1, s')) d ;;
  put_servers d'.

(** [try: ... except Exception: log.error(...)] *)
Definition catch (m : M unit) : M unit := λ w,
  match m w with
  | (inl _, w') => (inr tt, w')
  | r => r
  end.

(** An entry of the control file's [commands] list that is a JSON object:
    what [cmd.get("action")] and [cmd.get("project")] give.  [None] stands
    for a missing key, for [null] and for a value that is not a string: no
    action equals such a value, and a server operation called with such a
    project raises ([ValueError], or [TypeError] when the value cannot be
    hashed) before it changes anything, which the loop catches. *)
Record command := mkCommand { action : option string; project : option string }.

(** An entry of the [commands] list: any JSON value *)
Inductive entry :=
| ObjectEntry (c : command)
| OtherEntry.                   (* a string, a number, a list, a truth value, null *)

(** The [try] block of the command loop *)
Definition run_command (c : command) : M unit :=
  catch
    match action c, project c with
    | Some a, Some p =>
        if bool_decide (p = EmptyString) then ret tt
        else if bool_decide (a = "stop") then stop_server p
        else if bool_decide (a = "start") then start_server p
        else if bool_decide (a = "restart") then restart_server p
        else ret tt
    | _, _ => ret tt
    end.

(** One round of the command loop: [cmd.get] stands before the [try], and
    what is not an object has no [get]. *)
Definition run_entry (cmd : entry) : M unit :=
  match cmd with
  | ObjectEntry c => run_command c
  | OtherEntry => raise AttributeError
  end.

(** The command loop of [_process_control_commands] over the list
    [commands]; an exception ends it, and [AttributeError] is not among
    those that [_process_control_commands] catches. *)
Definition process_control_commands (cmds : list entry) : M unit :=
  mapM run_entry cmds ;;; ret tt.

(** [self._shutdown_event.wait(timeout)] while the event is not set: the
    clock moves on, nothing else happens. *)
Definition event_wait (timeout : Z) : M unit := λ w,
  (inr tt, mkWorld (servers w) (clock w + timeout) (next_pid w) (trace w)).

(** One iteration of the [while not self._shutdown_event.is_set()] loop of
    [run_forever]; [cmds] are the commands found in the control file. *)
Definition run_iteration (cmds : list entry) : M unit :=
  monitor_pass ;;;
  process_control_commands cmds ;;;
  event_wait 5.

(** ** The environment *)

(** The child of a handle exits with return code [rc]. *)
Definition child_exits (rc : Z) (s : ManagedServerProcess) : ManagedServerProcess :=
  match _process s with
  | Some p =>
      match poll p with
      | None => set_process (Some (mkPopen (popen_pid p) (Some rc))) s
      | Some _ => s
      end
  | None => s
  end.

(** A worker whose child dies on every start: one monitor step on the
    handle, after which the child (if one runs) exits. *)
Definition crash_cycle (rc : Z) (sw : ManagedServerProcess * World)
    : ManagedServerProcess * World :=
  match monitor_server sw.1 sw.2 with
  | (inr s', w') => (child_exits rc s', w')
  | (inl _, w') => (sw.1, w')
  end.

(** The seconds slept, in order. *)
Definition sleeps (tr : list event) : list Z :=
  omap (λ e, match e with Sleep n => Some n | _ => None end) tr.

(** ** The published port range ([serena/docker_compose.py]) *)

(** [max_port] of [generate_compose_dict] *)
Definition compose_max_port (base_port headroom : Z) (mounts : nat) : Z :=
  let max_port := (base_port + Z.of_nat mounts - 1 + headroom)%Z in
  if bool_decide (65535 < max_port)%Z then 65535%Z else max_port.

(** ** A client of the admin API *)

(** The arguments of one [add_and_start_server] call, together with the
    state of the host's sockets when it is made. *)
Record add_request := mkAddRequest {
  req_bindable : Z → bool;
  req_path : string;
  req_transport : option transport_t;
  req_host : option string;
  req_context : option string;
  req_modes : list string;
  req_log_level : option string
}.

(** [add_and_start_server] called once per request, in order; the first
    exception ends the run. *)
Definition add_and_start_all (reqs : list add_request) : M (list ServerInfo) :=
  mapM (λ r, add_and_start_server (req_bindable r) (req_path r) (req_transport r)
               (req_host r) (req_context r) (req_modes r) (req_log_level r)) reqs.

(** One [add_server] call *)
Record add_server_args := mkAddServerArgs {
  arg_name : string;
  arg_path : string;
  arg_port : Z
}.

Definition add_server_all (calls : list add_server_args) : M unit :=
  mapM (λ a, add_server (arg_name a) (arg_path a) (arg_port a) Sse "0.0.0.0" None [] None)
       calls ;;; ret tt.

Definition empty_world : World := mkWorld [] 0 1 [].

End Supervisor.

(* ===================================================================== *)
(** * Part II: Python text                                                *)
(* ===================================================================== *)

Module Text.

(** A Python [str]: a sequence of Unicode code points. *)
Abbreviation str := (list N).

(** What the modelled code takes from the Unicode character database.
    The tables themselves belong to the Python runtime, not to this
    program, so they are an interface here. *)
Class Unicode := {
  (** [c.isspace()], which is also the regular-expression class [\s] *)
  isspace : N → bool;
  (** the regular-expression class [\w] *)
  isword : N → bool;
  (** [s.lower()] *)
  lower : str → str;
  (** under [re.IGNORECASE]: does the text character [c] match the
      pattern character [p]? *)
  ci_eq : N → N → bool
}.

(** ** UTF-8 *)

(** [s.encode("utf-8")]: one to four bytes per code point *)
Definition encode_char (c : N) : list N :=
  if (c <? 128)%N then [c]
  else if (c <? 2048)%N then
    [192 + c / 64; 128 + c mod 64]%N
  else if (c <? 65536)%N then
    [224 + c / 4096; 128 + (c / 64) mod 64; 128 + c mod 64]%N
  else
    [240 + c / 262144; 128 + (c / 4096) mod 64; 128 + (c / 64) mod 64; 128 + c mod 64]%N.

Definition encode_utf8 (s : str) : list N := s ≫= encode_char.

(** Reading a source literal of this file (UTF-8 bytes) as a [str]. *)
Fixpoint decode_bytes (fuel : nat) (bs : list N) : str :=
  match fuel with
  | O => []
  | S fuel' =>
      match bs with
      | [] => []
      | b :: r =>
          if (b <? 128)%N then b :: decode_bytes fuel' r
          else if (b <? 224)%N then
            match r with
            | b1 :: r' => ((b - 192) * 64 + (b1 - 128))%N :: decode_bytes fuel' r'
            | _ => []
            end
          else if (b <? 240)%N then
            match r with
            | b1 :: b2 :: r' =>
                ((b - 224) * 4096 + (b1 - 128) * 64 + (b2 - 128))%N :: decode_bytes fuel' r'
            | _ => []
            end
          else
            match r with
            | b1 :: b2 :: b3 :: r' =>
                ((b - 240) * 262144 + (b1 - 128) * 4096 + (b2 - 128) * 64 + (b3 - 128))%N
                  :: decode_bytes fuel' r'
            | _ => []
            end
      end
  end.

Fixpoint bytes_of_string (s : string) : list N :=
  match s with
  | EmptyString => []
  | String a s' => N_of_ascii a :: bytes_of_string s'
  end.

Definition u (s : string) : str :=
  decode_bytes (String.length s) (bytes_of_string s).

(** ** String methods *)

(** [s.split(sep)] for a one-character separator *)
Fixpoint split (sep : N) (s : str) : list str :=
  match s with
  | [] => [[]]
  | c :: s' =>
      if bool_decide (c = sep) then [] :: split sep s'
      else match split sep s' with
           | l :: ls => (c :: l) :: ls
           | [] => [[c]]
           end
  end.

(** [s.count(c)] for one character *)
Definition count (c : N) (s : str) : nat := length (filter (λ x, x = c) s).

(** [sep.join(parts)] *)
Fixpoint join (sep : str) (parts : list str) : str :=
  match parts with
  | [] => []
  | [p] => p
  | p :: ps => p ++ sep ++ join sep ps
  end.

(** [s.find(sub, start)] for a non-empty [sub]: [None] stands for -1.
    [i] is the index of the first character of [s] in the whole string. *)
Fixpoint find_from (sub : str) (s : str) (i : nat) : option nat :=
  match s with
  | [] => None
  | _ :: s' =>
      if bool_decide (sub `prefix_of` s) then Some i else find_from sub s' (S i)
  end.

Definition find (sub : str) (s : str) (start : nat) : option nat :=
  find_from sub (drop start s) start.

(** [sub in s] *)
Definition contains (sub : str) (s : str) : bool :=
  match find sub s 0 with Some _ => true | None => false end.

(** [s.startswith(p)] *)
Definition startswith (p : str) (s : str) : bool := bool_decide (p `prefix_of` s).

(** [s[a:b]] for non-negative [a] and [b] *)
Definition slice (a b : nat) (s : str) : str := take (b - a) (drop a s).

Section StringMethods.
Context {U : Unicode}.

(** [s.lstrip()] *)
Fixpoint lstrip (s : str) : str :=
  match s with
  | [] => []
  | c :: s' => if isspace c then lstrip s' else s
  end.

(** [s.rstrip()] *)
Definition rstrip (s : str) : str := reverse (lstrip (reverse s)).

(** [s.strip()] *)
Definition strip (s : str) : str := rstrip (lstrip s).

End StringMethods.

End Text.

(* ===================================================================== *)
(** * Part III: regular expressions (the part of [re] the parser uses)    *)
(* ===================================================================== *)

Module Regex.
Import Text.

(** One item of a bracketed character set *)
Inductive set_item :=
| SChar (c : N)              (* a single character *)
| SRange (lo hi : N)         (* lo-hi *)
| SWord.                     (* \w *)

Inductive re :=
| Eps                        (* the empty pattern *)
| Chr (c : N)                (* a literal character *)
| Space                      (* \s *)
| InSet (items : list set_item)      (* [...] *)
| NotInSet (items : list set_item)   (* [^...] *)
| Bol                        (* ^ under re.MULTILINE *)
| WordBoundary               (* \b *)
| Seq (r1 r2 : re)
| Alt (r1 r2 : re)           (* r1|r2, r1 tried first *)
| Star (r : re)              (* r*, greedy *)
| Group (n : nat) (r : re).  (* the n-th capturing group *)

(** [r+], [r?] and a sequence of patterns *)
Definition Plus (r : re) : re := Seq r (Star r).
Definition Opt (r : re) : re := Alt r Eps.
Definition seqs (rs : list re) : re := foldr Seq Eps rs.
Definition lit (s : str) : re := seqs (Chr <$> s).
Definition alts (r : re) (rs : list re) : re := foldl Alt r rs.

(** A position in the subject string: its index, the character before it
    and the characters from it on. *)
Record cursor := mkCursor { pos : nat; prev : option N; rest : str }.

Definition start_of (s : str) : cursor := mkCursor 0 None s.

Definition advance (c : cursor) : option cursor :=
  match rest c with
  | [] => None
  | x :: r => Some (mkCursor (S (pos c)) (Some x) r)
  end.

(** The spans of the capturing groups that took part in a match *)
Definition captures := list (nat * (nat * nat)).

(** The span recorded last for group [n] *)
Definition capture_get (n : nat) (caps : captures) : option (nat * nat) :=
  snd <$> head (filter (λ p : nat * (nat * nat), p.1 = n) caps).

Section Matcher.
Context {U : Unicode}.

(** All patterns of the parser are compiled with [re.IGNORECASE]. *)
Definition item_matches (x : N) (it : set_item) : bool :=
  match it with
  | SChar c => ci_eq c x
  | SRange lo hi =>
      existsb (λ k, ci_eq (lo + N.of_nat k)%N x) (seq 0 (S (N.to_nat (hi - lo))))
  | SWord => isword x
  end.

Definition is_word_at (o : option N) : bool :=
  match o with Some x => isword x | None => false end.

Definition continuation (R : Type) : Type := cursor → captures → option R.

(** [r*]: at most [n] more rounds of [body]; a round that consumes
    nothing ends the loop.  Backtracking gives up rounds from the last.
    Each round consumes a character, so the rounds a subject allows are
    never used up ([star_rounds_suffice] in [RegexProofs]). *)
Fixpoint match_star {R} (n : nat)
    (body : cursor → captures → continuation R → option R)
    (c : cursor) (caps : captures) (k : continuation R) : option R :=
  match n with
  | O => k c caps
  | S n' =>
      match body c caps
              (λ c' caps', if (pos c <? pos c')%nat
                           then match_star n' body c' caps' k else None) with
      | Some x => Some x
      | None => k c caps
      end
  end.

(** Backtracking matcher in continuation-passing style: [k] is tried on
    every way [r] can match at [c], in the order [re] tries them. *)
Fixpoint match_re {R} (r : re) (c : cursor) (caps : captures)
    (k : continuation R) : option R :=
  match r with
  | Eps => k c caps
  | Chr p =>
      match rest c with
      | x :: r' => if ci_eq p x then k (mkCursor (S (pos c)) (Some x) r') caps else None
      | [] => None
      end
  | Space =>
      match rest c with
      | x :: r' => if isspace x then k (mkCursor (S (pos c)) (Some x) r') caps else None
      | [] => None
      end
  | InSet items =>
      match rest c with
      | x :: r' =>
          if existsb (item_matches x) items
          then k (mkCursor (S (pos c)) (Some x) r') caps else None
      | [] => None
      end
  | NotInSet items =>
      match rest c with
      | x :: r' =>
          if existsb (item_matches x) items then None
          else k (mkCursor (S (pos c)) (Some x) r') caps
      | [] => None
      end
  | Bol =>
      match prev c with
      | None => k c caps
      | Some x => if bool_decide (x = 10%N) then k c caps else None
      end
  | WordBoundary =>
      if xorb (is_word_at (prev c)) (is_word_at (head (rest c))) then k c caps else None
  | Seq r1 r2 => match_re r1 c caps (λ c' caps', match_re r2 c' caps' k)
  | Alt r1 r2 =>
      match match_re r1 c caps k with
      | Some x => Some x
      | None => match_re r2 c caps k
      end
  | Star r' =>
      match_star (S (length (rest c))) (λ c' caps' k', match_re r' c' caps' k') c caps k
  | Group n r' =>
      match_re r' c caps (λ c' caps', k c' ((n, (pos c, pos c')) :: caps'))
  end.

(** A match object: [start()], [end()] and the group spans *)
Record Match := mkMatch { m_start : nat; m_end : nat; m_caps : captures }.

(** [pattern.match] at a cursor *)
Definition match_at (r : re) (c : cursor) : option Match :=
  match_re r c [] (λ c' caps, Some (mkMatch (pos c) (pos c') caps)).

(** Scan forward for the first position where the pattern matches;
    [fuel] is the number of further positions to try. *)
Fixpoint search_from (r : re) (fuel : nat) (c : cursor) : option (Match * cursor) :=
  match match_at r c with
  | Some m => Some (m, c)
  | None =>
      match fuel with
      | O => None
      | S fuel' =>
          match advance c with
          | Some c' => search_from r fuel' c'
          | None => None
          end
      end
  end.

(** [pattern.search(s)] *)
Definition search (r : re) (s : str) : option Match :=
  fst <$> search_from r (length s) (start_of s).

Fixpoint skip (n : nat) (c : cursor) : cursor :=
  match n with
  | O => c
  | S n' => match advance c with Some c' => skip n' c' | None => c end
  end.

(** [pattern.finditer(s)]: the matches from left to right, each search
    resuming where the previous match ended (one further on after an
    empty match).  [fuel] bounds the number of matches; more than the
    subject has characters left is never needed ([finditer_from_fuel]). *)
Fixpoint finditer_from (r : re) (fuel : nat) (c : cursor) : list Match :=
  match fuel with
  | O => []
  | S fuel' =>
      match search_from r (length (rest c)) c with
      | None => []
      | Some (m, c0) =>
          let width := m_end m - m_start m in
          if bool_decide (width = 0) then
            match advance c0 with
            | Some c1 => m :: finditer_from r fuel' c1
            | None => [m]
            end
          else m :: finditer_from r fuel' (skip width c0)
      end
  end.

Definition finditer (r : re) (s : str) : list Match :=
  finditer_from r (S (length s)) (start_of s).

(** [m.group(n)] on the subject [s]; [None] when the group took no part *)
Definition group (s : str) (m : Match) (n : nat) : option str :=
  match n with
  | O => Some (slice (m_start m) (m_end m) s)
  | _ => (λ p : nat * nat, slice p.1 p.2 s) <$> capture_get n (m_caps m)
  end.

(** [m.group(n)] for a group that every match of the pattern contains *)
Definition group1 (s : str) (m : Match) (n : nat) : str :=
  default [] (group s m n).

End Matcher.

End Regex.

(* ===================================================================== *)
(** * Part IV: the BSL data classes  ([solidlsp/bsl_parser.py])           *)
(* ===================================================================== *)

Module BSL.
Import Text.

(** [BSLParam] *)
Record BSLParam := mkParam {
  param_name : str;
  byval : bool;
  default_value : option str
}.

(** [BSLCallPosition] *)
Record BSLCallPosition := mkCallPosition {
  call : str;
  call_line : nat;
  character : nat
}.

(** [BSLModuleVar] *)
Record BSLModuleVar := mkModuleVar {
  var_name : str;
  var_is_export : bool;
  var_description : str
}.

(** [BSLMethod] *)
Record BSLMethod := mkMethod {
  name : str;
  line : nat;
  endline : nat;
  isproc : bool;
  is_export : bool;
  params : list BSLParam;
  description : str;
  context : str;
  calls_position : list BSLCallPosition
}.

(** [BSLParseResult] *)
Record BSLParseResult := mkParseResult {
  methods : list BSLMethod;
  global_calls : list BSLCallPosition;
  module_vars : list (str * BSLModuleVar)
}.

End BSL.

(* ===================================================================== *)
(** * Part V: the symbol cache ([solidlsp/bsl_cache.py])                  *)
(* ===================================================================== *)

Module Cache.
Import Text BSL.

(** [BSLCallInfo] *)
Record BSLCallInfo := mkCallInfo {
  ci_filename : str;
  ci_call : str;
  ci_line : nat;
  ci_character : nat;
  ci_method_name : str;
  ci_module : str
}.

(** [BSLModuleInfo] *)
Record BSLModuleInfo := mkModuleInfo {
  mod_filename : str;
  mod_module : str;
  mod_type : str;
  mod_parenttype : str;
  mod_project : str
}.

(** [BSLMethodInfo] *)
Record BSLMethodInfo := mkMethodInfo {
  method : BSLMethod;
  filename : str;
  module : str
}.

(** [BSLCache]; the lock is not modelled (operations run one at a time). *)
Record BSLCache := mkCache {
  cache_methods : list BSLMethodInfo;
  cache_module_vars : gmap str (list BSLModuleVar);
  cache_calls : gmap str (list BSLCallInfo);
  cache_modules : list BSLModuleInfo;
  _method_name_index : gmap str (list nat);
  _method_module_index : gmap str (list nat);
  _method_export_index : list nat
}.

(** [BSLCache()] *)
Definition empty_cache : BSLCache := mkCache [] ∅ ∅ [] ∅ ∅ [].

(** [if k not in d: d[k] = []] followed by [d[k].append(x)] *)
Definition dict_append {A} (k : str) (x : A) (d : gmap str (list A)) : gmap str (list A) :=
  let d1 := match d !! k with None => <[k := []]> d | Some _ => d end in
  match d1 !! k with
  | Some l => <[k := l ++ [x]]> d1
  | None => d1
  end.

Section WithUnicode.
Context {U : Unicode}.

(** [add_method] *)
Definition add_method (m : BSLMethod) (fn : str) (md : str) (c : BSLCache) : BSLCache :=
  let method_info := mkMethodInfo m fn md in
  let index := length (cache_methods c) in
  let methods' := cache_methods c ++ [method_info] in
  let name_index' := dict_append (lower (name m)) index (_method_name_index c) in
  let module_index' :=
    if bool_decide (md ≠ []) then dict_append (lower md) index (_method_module_index c)
    else _method_module_index c in
  let export_index' :=
    if is_export m then _method_export_index c ++ [index] else _method_export_index c in
  mkCache methods' (cache_module_vars c) (cache_calls c) (cache_modules c)
          name_index' module_index' export_index'.

(** [add_module_var] *)
Definition add_module_var (v : BSLModuleVar) (fn : str) (c : BSLCache) : BSLCache :=
  mkCache (cache_methods c) (dict_append fn v (cache_module_vars c)) (cache_calls c)
          (cache_modules c) (_method_name_index c) (_method_module_index c)
          (_method_export_index c).

(** [add_call] *)
Definition add_call (cp : BSLCallPosition) (fn : str) (method_name : str) (md : str)
    (c : BSLCache) : BSLCache :=
  let call_name := call cp in
  let call_info := mkCallInfo fn call_name (call_line cp) (character cp) method_name md in
  mkCache (cache_methods c) (cache_module_vars c)
          (dict_append call_name call_info (cache_calls c))
          (cache_modules c) (_method_name_index c) (_method_module_index c)
          (_method_export_index c).

(** [add_methods_batch] *)
Definition add_methods_batch (methods_data : list (BSLMethod * str * str))
    (c : BSLCache) : BSLCache :=
  foldl (λ c '(m, fn, md),
    let method_info := mkMethodInfo m fn md in
    let index := length (cache_methods c) in
    let methods' := cache_methods c ++ [method_info] in
    let name_index' := dict_append (lower (name m)) index (_method_name_index c) in
    let module_index' :=
      if bool_decide (md ≠ []) then dict_append (lower md) index (_method_module_index c)
      else _method_module_index c in
    let export_index' :=
      if is_export m then _method_export_index c ++ [index] else _method_export_index c in
    mkCache methods' (cache_module_vars c) (cache_calls c) (cache_modules c)
            name_index' module_index' export_index') c methods_data.

(** [add_module_vars_batch] *)
Definition add_module_vars_batch (vars_data : list (BSLModuleVar * str))
    (c : BSLCache) : BSLCache :=
  foldl (λ c '(v, fn),
    mkCache (cache_methods c) (dict_append fn v (cache_module_vars c)) (cache_calls c)
            (cache_modules c) (_method_name_index c) (_method_module_index c)
            (_method_export_index c)) c vars_data.

(** [add_calls_batch] *)
Definition add_calls_batch (calls_data : list (BSLCallPosition * str * str * str))
    (c : BSLCache) : BSLCache :=
  foldl (λ c '(cp, fn, method_name, md),
    let call_name := call cp in
    let call_info := mkCallInfo fn call_name (call_line cp) (character cp) method_name md in
    mkCache (cache_methods c) (cache_module_vars c)
            (dict_append call_name call_info (cache_calls c))
            (cache_modules c) (_method_name_index c) (_method_module_index c)
            (_method_export_index c)) c calls_data.

(** [add_module] *)
Definition add_module (info : BSLModuleInfo) (c : BSLCache) : BSLCache :=
  mkCache (cache_methods c) (cache_module_vars c) (cache_calls c)
          (cache_modules c ++ [info]) (_method_name_index c) (_method_module_index c)
          (_method_export_index c).

(** [clear] *)
Definition clear (c : BSLCache) : BSLCache := mkCache [] ∅ ∅ [] ∅ ∅ [].

(** [_rebuild_indices]: the three indices are cleared and filled again
    from [enumerate(self.methods)]. *)
Definition _rebuild_indices (c : BSLCache) : BSLCache :=
  foldl (λ c '(idx, method_info),
    let m := method method_info in
    let name_index' := dict_append (lower (name m)) idx (_method_name_index c) in
    let module_index' :=
      if bool_decide (module method_info ≠ [])
      then dict_append (lower (module method_info)) idx (_method_module_index c)
      else _method_module_index c in
    let export_index' :=
      if is_export m then _method_export_index c ++ [idx] else _method_export_index c in
    mkCache (cache_methods c) (cache_module_vars c) (cache_calls c) (cache_modules c)
            name_index' module_index' export_index')
    (mkCache (cache_methods c) (cache_module_vars c) (cache_calls c) (cache_modules c)
             ∅ ∅ [])
    (imap (λ idx method_info, (idx, method_info)) (cache_methods c)).

(** [remove_file_data].  [self.methods.pop(idx)] is [delete idx]: the
    positions come from [range(len(self.methods) - 1, -1, -1)], and every
    pop is within the list it pops from ([pops_are_filter] below). *)
Definition remove_file_data (fn : str) (c : BSLCache) : BSLCache :=
  (* 1. the positions to remove, highest first, popped one by one *)
  let indices_to_remove :=
    filter (λ idx, filename <$> cache_methods c !! idx = Some fn)
           (reverse (seq 0 (length (cache_methods c)))) in
  let methods' := foldl (λ ms idx, delete idx ms) (cache_methods c) indices_to_remove in
  let c1 := _rebuild_indices
              (mkCache methods' (cache_module_vars c) (cache_calls c) (cache_modules c)
                       (_method_name_index c) (_method_module_index c)
                       (_method_export_index c)) in
  (* 2. module variables *)
  let module_vars' := delete fn (cache_module_vars c1) in
  (* 3. calls: filtered lists are stored back, emptied keys are collected
        and popped afterwards *)
  let filtered := λ call_list : list BSLCallInfo,
                    filter (λ ci, ci_filename ci ≠ fn) call_list in
  let calls_to_remove :=
    (filter (λ kv : str * list BSLCallInfo, filtered kv.2 = []) (map_to_list (cache_calls c1))).*1 in
  let calls1 :=
    (λ call_list, match filtered call_list with [] => call_list | l => l end)
      <$> cache_calls c1 in
  let calls' := foldl (λ d call_name, delete call_name d) calls1 calls_to_remove in
  (* 4. modules *)
  let modules' := filter (λ mi, mod_filename mi ≠ fn) (cache_modules c1) in
  mkCache (cache_methods c1) module_vars' calls' modules'
          (_method_name_index c1) (_method_module_index c1) (_method_export_index c1).

(** [get_stats] *)
Record CacheStats := mkStats {
  stat_methods : nat;
  stat_exported_methods : nat;
  stat_module_vars : nat;
  stat_calls : nat;
  stat_unique_calls : nat;
  stat_modules : nat
}.

Definition get_stats (c : BSLCache) : CacheStats :=
  mkStats (length (cache_methods c))
          (length (_method_export_index c))
          (map_fold (λ _ l n, length l + n) 0 (cache_module_vars c))
          (map_fold (λ _ l n, length l + n) 0 (cache_calls c))
          (size (cache_calls c))
          (length (cache_modules c)).

(** ** Sequences of cache operations *)

Inductive cache_op :=
| AddMethod (m : BSLMethod) (fn md : str)
| AddModuleVar (v : BSLModuleVar) (fn : str)
| AddCall (cp : BSLCallPosition) (fn method_name md : str)
| AddModule (info : BSLModuleInfo)
| AddMethodsBatch (methods_data : list (BSLMethod * str * str))
| AddModuleVarsBatch (vars_data : list (BSLModuleVar * str))
| AddCallsBatch (calls_data : list (BSLCallPosition * str * str * str))
| RemoveFileData (fn : str)
| Clear.

Definition apply_op (c : BSLCache) (o : cache_op) : BSLCache :=
  match o with
  | AddMethod m fn md => add_method m fn md c
  | AddModuleVar v fn => add_module_var v fn c
  | AddCall cp fn mn md => add_call cp fn mn md c
  | AddModule info => add_module info c
  | AddMethodsBatch l => add_methods_batch l c
  | AddModuleVarsBatch l => add_module_vars_batch l c
  | AddCallsBatch l => add_calls_batch l c
  | RemoveFileData fn => remove_file_data fn c
  | Clear => clear c
  end.

Definition run_ops (ops : list cache_op) : BSLCache := foldl apply_op empty_cache ops.

End WithUnicode.

End Cache.

(* ===================================================================== *)
(** * Part VI: fingerprints and cache statistics
      ([solidlsp/language_servers/bsl_language_server.py])                *)
(* ===================================================================== *)

(** [hashlib.md5] (RFC 1321), on lists of bytes *)
Module MD5.

Definition w32 (x : N) : N := (x mod 4294967296)%N.
Definition add32 (a b : N) : N := w32 (a + b).
Definition not32 (x : N) : N := (4294967295 - x)%N.
Definition rotl32 (x n : N) : N := w32 (N.lor (N.shiftl x n) (N.shiftr x (32 - n))).

Definition shifts : list N :=
  [ 7; 12; 17; 22; 7; 12; 17; 22; 7; 12; 17; 22; 7; 12; 17; 22;
    5; 9; 14; 20; 5; 9; 14; 20; 5; 9; 14; 20; 5; 9; 14; 20;
    4; 11; 16; 23; 4; 11; 16; 23; 4; 11; 16; 23; 4; 11; 16; 23;
    6; 10; 15; 21; 6; 10; 15; 21; 6; 10; 15; 21; 6; 10; 15; 21 ]%N.

(** [floor(abs(sin(i + 1)) * 2^32)] for i = 0 .. 63 *)
Definition sines : list N :=
  [ 3614090360; 3905402710; 606105819; 3250441966; 4118548399; 1200080426;
    2821735955; 4249261313; 1770035416; 2336552879; 4294925233; 2304563134;
    1804603682; 4254626195; 2792965006; 1236535329; 4129170786; 3225465664;
    643717713; 3921069994; 3593408605; 38016083; 3634488961; 3889429448;
    568446438; 3275163606; 4107603335; 1163531501; 2850285829; 4243563512;
    1735328473; 2368359562; 4294588738; 2272392833; 1839030562; 4259657740;
    2763975236; 1272893353; 4139469664; 3200236656; 681279174; 3936430074;
    3572445317; 76029189; 3654602809; 3873151461; 530742520; 3299628645;
    4096336452; 1126891415; 2878612391; 4237533241; 1700485571; 2399980690;
    4293915773; 2240044497; 1873313359; 4264355552; 2734768916; 1309151649;
    4149444226; 3174756917; 718787259; 3951481745 ]%N.

Definition state : Type := N * N * N * N.

Definition round (words : list N) (st : state) (i : nat) : state :=
  let '(a, b, c, d) := st in
  let '(f, g) :=
    if (i <? 16)%nat then (N.lor (N.land b c) (N.land (not32 b) d), i)
    else if (i <? 32)%nat then
      (N.lor (N.land d b) (N.land (not32 d) c), ((5 * i + 1) mod 16)%nat)
    else if (i <? 48)%nat then (N.lxor (N.lxor b c) d, ((3 * i + 5) mod 16)%nat)
    else (N.lxor c (N.lor b (not32 d)), ((7 * i) mod 16)%nat) in
  let f' := add32 (add32 (add32 f a) (sines !!! i)) (words !!! g) in
  (d, add32 b (rotl32 f' (shifts !!! i)), b, c).

(** Four bytes, least significant first, as one word *)
Definition word_of (bs : list N) : N :=
  foldr (λ b acc, (b + 256 * acc)%N) 0%N bs.

Fixpoint chunks {A} (fuel size : nat) (l : list A) : list (list A) :=
  match fuel with
  | O => []
  | S fuel' =>
      match l with
      | [] => []
      | _ => take size l :: chunks fuel' size (drop size l)
      end
  end.

Definition process_block (st : state) (block : list N) : state :=
  let words := word_of <$> chunks 16 4 block in
  let '(a, b, c, d) := foldl (round words) st (seq 0 64) in
  let '(a0, b0, c0, d0) := st in
  (add32 a0 a, add32 b0 b, add32 c0 c, add32 d0 d).

(** [n] as [k] bytes, least significant first *)
Fixpoint le_bytes (k : nat) (n : N) : list N :=
  match k with
  | O => []
  | S k' => (n mod 256)%N :: le_bytes k' (n / 256)%N
  end.

Definition pad (msg : list N) : list N :=
  let len := length msg in
  msg ++ [128%N] ++ replicate ((55 + 64 - len mod 64) mod 64) 0%N
      ++ le_bytes 8 (8 * N.of_nat len).

Definition initial : state := (1732584193, 4023233417, 2562383102, 271733878)%N.

(** The 16 bytes of the digest *)
Definition digest (msg : list N) : list N :=
  let padded := pad msg in
  let '(a, b, c, d) :=
    foldl process_block initial (chunks (length padded) 64 padded) in
  le_bytes 4 a ++ le_bytes 4 b ++ le_bytes 4 c ++ le_bytes 4 d.

Definition hex_digit (n : N) : N := if (n <? 10)%N then (48 + n)%N else (87 + n)%N.

(** [hashlib.md5(msg).hexdigest()] *)
Definition hexdigest (msg : list N) : Text.str :=
  digest msg ≫= λ b, [hex_digit (b / 16); hex_digit (b mod 16)].

End MD5.

Module Fingerprint.
Import Text.

(** [s.replace(old, new)] for a non-empty [old]: the occurrences of [old]
    are found from left to right and do not overlap.  [skip] counts the
    characters of a matched occurrence that are still to be passed over. *)
Fixpoint replace_from (old new : str) (skip : nat) (s : str) : str :=
  match s with
  | [] => []
  | c :: s' =>
      match skip with
      | S k => replace_from old new k s'
      | O =>
          if bool_decide (old `prefix_of` s)
          then new ++ replace_from old new (length old - 1) s'
          else c :: replace_from old new 0 s'
      end
  end.

Definition replace (old new : str) (s : str) : str := replace_from old new 0 s.

Definition CR : N := 13.
Definition LF : N := 10.

(** [content.replace("\r\n", "\n").replace("\r", "\n")] *)
Definition normalise (content : str) : str :=
  replace [CR] [LF] (replace [CR; LF] [LF] content).

(** The fingerprint of file content that has been read *)
Definition content_hash (content : str) : str :=
  MD5.hexdigest (encode_utf8 (normalise content)).

(** [f.read()] on a file opened in text mode with the default
    [newline=None]: universal newlines are on, and the decoder translates
    CR+LF and then CR to LF before the text reaches the caller. *)
Definition read_text (decoded : str) : str :=
  replace [CR] [LF] (replace [CR; LF] [LF] decoded).

(** [_compute_file_hash]: [file] is the decoded text of the file, [None]
    when opening or reading it raises; the empty string is returned on
    failure. *)
Definition _compute_file_hash (file : option str) : str :=
  match file with
  | Some decoded =>
      let content := read_text decoded in
      let content := replace [CR] [LF] (replace [CR; LF] [LF] content) in
      MD5.hexdigest (encode_utf8 content)
  | None => []
  end.

(** [_is_file_cached] *)
Definition _is_file_cached {A} (cache : gmap str (str * A)) (path : str) (file_hash : str) : bool :=
  match cache !! path with
  | Some (cached_hash, _) => bool_decide (cached_hash = file_hash)
  | None => false
  end.

End Fingerprint.

Module Stats.
Import Text Cache.

(** A JSON document as [json.load] returns it (numbers are integers here;
    the statistics file holds counts). *)
#[local] Unset Elimination Schemes.
Inductive json :=
| JNull
| JBool (b : bool)
| JInt (n : Z)
| JStr (s : str)
| JList (l : list json)
| JObj (fields : list (str * json)).
#[local] Set Elimination Schemes.

(** [d.get(k)] on a decoded object; a repeated key keeps its last value *)
Definition obj_get (k : str) (fields : list (str * json)) : option json :=
  foldl (λ acc kv, if bool_decide (kv.1 = k) then Some kv.2 else acc) None fields.

(** Python truth value *)
Definition truthy (j : json) : bool :=
  match j with
  | JNull => false
  | JBool b => b
  | JInt n => negb (n =? 0)%Z
  | JStr s => negb (bool_decide (s = []))
  | JList l => match l with [] => false | _ => true end
  | JObj fields => match fields with [] => false | _ => true end
  end.

Inductive py_error := AttributeError | TypeError.

(** [existing.get("bsl") and existing["bsl"].get("methods", 0) > 0]: when
    it holds, the previous [bsl] block; [.get] on something that is not an
    object raises [AttributeError], comparing a non-number with 0 raises
    [TypeError]. *)
Definition previous_bsl (existing : json) : py_error + option json :=
  match existing with
  | JObj fields =>
      match obj_get (u "bsl") fields with
      | None => inr None
      | Some bsl =>
          if truthy bsl then
            match bsl with
            | JObj bsl_fields =>
                match default (JInt 0) (obj_get (u "methods") bsl_fields) with
                | JInt n => inr (if (0 <? n)%Z then Some bsl else None)
                | JBool b => inr (if b then Some bsl else None)
                | _ => inl TypeError
                end
            | _ => inl AttributeError
            end
          else inr None
      end
  | _ => inl AttributeError
  end.

(** [self._local_cache.get_stats()] as the dict it is *)
Definition stats_dict (s : CacheStats) : json :=
  JObj [ (u "methods", JInt (Z.of_nat (stat_methods s)));
         (u "exported_methods", JInt (Z.of_nat (stat_exported_methods s)));
         (u "module_vars", JInt (Z.of_nat (stat_module_vars s)));
         (u "calls", JInt (Z.of_nat (stat_calls s)));
         (u "unique_calls", JInt (Z.of_nat (stat_unique_calls s)));
         (u "modules", JInt (Z.of_nat (stat_modules s))) ].

(** What a call of [_save_cache_stats] does to [cache_stats.json] *)
Inductive save_result :=
| NotAttempted                  (* returned before touching the file *)
| Failed                        (* an exception was caught and logged *)
| Wrote (document : json).      (* [json.dump(stats, f)] *)

(** [_save_cache_stats].
    - [modified] is [_document_symbols_cache_is_modified];
    - [stats_file] is the file as found: [None] when it does not exist,
      [Some None] when opening or decoding it raises [OSError] or
      [JSONDecodeError], [Some (Some j)] when [json.load] returns [j]; the
      file is taken to be valid UTF-8 (a [UnicodeDecodeError] is not among
      the exceptions the inner handler catches, and is not modelled);
    - [indexed_files] is [len(self._document_symbols_cache)], [now] the
      timestamp;
    - [writable] tells whether creating the directory and writing the
      file succeed. *)
Definition _save_cache_stats (modified : bool) (local_cache : BSLCache)
    (stats_file : option (option json)) (indexed_files : nat)
    (language_id : str) (now : str) (writable : bool) : save_result :=
  if negb modified then NotAttempted
  else
    let bsl_stats := get_stats local_cache in
    let chosen : py_error + json :=
      if bool_decide (stat_methods bsl_stats = 0) then
        match stats_file with
        | Some (Some existing) =>
            match previous_bsl existing with
            | inr (Some bsl) => inr bsl
            | inr None => inr (stats_dict bsl_stats)
            | inl e => inl e
            end
        | Some None => inr (stats_dict bsl_stats)
        | None => inr (stats_dict bsl_stats)
        end
      else inr (stats_dict bsl_stats) in
    match chosen with
    | inl _ => Failed
    | inr bsl =>
        if writable then
          Wrote (JObj [ (u "indexed_files", JInt (Z.of_nat indexed_files));
                        (u "language", JStr language_id);
                        (u "last_updated", JStr now);
                        (u "bsl", bsl) ])
        else Failed
    end.

End Stats.

(* ===================================================================== *)
(** * Part VII: the BSL parser ([solidlsp/bsl_parser.py])                 *)
(* ===================================================================== *)

Module Parser.
Import Text Regex BSL.

(** The exceptions the parser's operations can raise on their own:
    [lines[i]] out of range and a failed [assert]. *)
Inductive py_exn := IndexError | AssertionError.

Definition E (A : Type) : Type := py_exn + A.

Definition bindE {A B} (m : E A) (k : A → E B) : E B :=
  match m with
  | inl e => inl e
  | inr a => k a
  end.

Notation "x <- m ;; k" := (bindE m (λ x, k))
  (at level 100, m at next level, right associativity).

Fixpoint mapE {A B} (f : A → E B) (l : list A) : E (list B) :=
  match l with
  | [] => inr []
  | a :: l' => b <- f a ;; bs <- mapE f l' ;; inr (b :: bs)
  end.

(** [lines[i]] *)
Definition getitem {A} (l : list A) (i : nat) : E A :=
  match l !! i with
  | Some x => inr x
  | None => inl IndexError
  end.

(** The first character of a one-character literal *)
Definition ch (s : string) : N := default 0%N (head (u s)).

Section WithUnicode.
Context {U : Unicode}.

(** ** The patterns *)

(** [[а-яёА-ЯЁ\w]] *)
Definition name_char : re :=
  InSet [SRange (ch "а") (ch "я"); SChar (ch "ё");
         SRange (ch "А") (ch "Я"); SChar (ch "Ё"); SWord].

(** [(?:&НаСервере|&НаКлиенте|&НаСервереБезКонтекста)] *)
Definition directive : re :=
  alts (lit (u "&НаСервере")) [lit (u "&НаКлиенте"); lit (u "&НаСервереБезКонтекста")].

Definition declaration (keyword : string) : re :=
  seqs [Bol; Star Space; Opt directive; Star Space;
        Opt (seqs [lit (u "Экспорт"); Plus Space]);
        lit (u keyword); Plus Space; Group 1 (Plus name_char);
        Star Space; Chr (ch "(")].

Definition PROC_PATTERN : re := declaration "Процедура".
Definition FUNC_PATTERN : re := declaration "Функция".

Definition PROC_END_PATTERN : re := seqs [Bol; Star Space; lit (u "КонецПроцедуры")].
Definition FUNC_END_PATTERN : re := seqs [Bol; Star Space; lit (u "КонецФункции")].

Definition CONTEXT_PATTERN : re :=
  seqs [Chr (ch "&");
        Group 1 (alts (lit (u "НаСервере"))
                      [lit (u "НаКлиенте"); lit (u "НаСервереБезКонтекста")])].

Definition EXPORT_PATTERN : re := seqs [WordBoundary; lit (u "Экспорт"); WordBoundary].

Definition PARAM_PATTERN : re :=
  seqs [Opt (seqs [lit (u "Знач"); Plus Space]);
        Group 1 (Plus name_char);
        Opt (seqs [Star Space; Chr (ch "="); Star Space;
                   Group 2 (Plus (NotInSet [SChar (ch ","); SChar (ch ")")]))])].

Definition MODULE_VAR_PATTERN : re :=
  seqs [Bol; Star Space; lit (u "Перем"); Plus Space; Group 1 (Plus name_char);
        Opt (seqs [Plus Space; lit (u "Экспорт")]); Star Space; Chr (ch ";")].

Definition CALL_PATTERN : re :=
  seqs [WordBoundary; Group 1 (Plus name_char); Star Space; Chr (ch "(")].

(** Keywords that are not treated as calls *)
Definition KEYWORDS : list str :=
  u <$> [ "если"; "иначе"; "иначеесли"; "конецесли"; "пока"; "конеццикла";
          "для"; "каждого"; "из"; "цикл"; "процедура"; "функция";
          "конецпроцедуры"; "конецфункции"; "возврат"; "прервать";
          "продолжить"; "попытка"; "исключение"; "вызватьисключение";
          "новый"; "тип"; "типзнч"; "неопределено"; "истина"; "ложь";
          "сообщить"; "сообщениепользователю"; "пустаястрока"; "стршаблон";
          "насервере"; "наклиенте"; "насерверебезконтекста"; "экспорт";
          "знач"; "перем"; "конецобласти"; "область" ].

(** ** Docstrings *)

(** The loop of [_extract_description_before] over the line numbers
    [idxs]; a non-comment line ends it. *)
Fixpoint description_loop (lines : list str) (idxs : list nat)
    (description_lines : list str) : E (list str) :=
  match idxs with
  | [] => inr description_lines
  | i :: idxs' =>
      raw <- getitem lines i ;;
      let line := strip raw in
      if bool_decide (description_lines = []) && bool_decide (line = []) then
        description_loop lines idxs' description_lines
      else if startswith (u "//") line then
        description_loop lines idxs' (description_lines ++ [strip (drop 2 line)])
      else if contains (u "/*") line then
        if contains (u "*/") line then
          let a := default 0 (find (u "/*") line 0) + 2 in
          let b := default 0 (find (u "*/") line 0) in
          let comment := strip (slice a b line) in
          if bool_decide (comment ≠ []) then
            description_loop lines idxs' (description_lines ++ [comment])
          else description_loop lines idxs' description_lines
        else description_loop lines idxs' description_lines
      else if bool_decide (line ≠ []) then inr description_lines
      else description_loop lines idxs' description_lines
  end.

(** [_extract_description_before] *)
Definition _extract_description_before (lines : list str) (line_num : nat) : E str :=
  let first := line_num - 20 in
  description_lines <- description_loop lines (seq first (line_num - first)) [] ;;
  inr (strip (join [10%N] (reverse description_lines))).

(** ** Module variables *)

(** [d[k] = v] on a dict kept in insertion order *)
Fixpoint dict_set {V} (k : str) (v : V) (d : list (str * V)) : list (str * V) :=
  match d with
  | [] => [(k, v)]
  | (k', v') :: d' =>
      if bool_decide (k' = k) then (k, v) :: d' else (k', v') :: dict_set k v d'
  end.

(** The line on which position [p] of [source] lies:
    [source[:p].count("\n")] *)
Definition line_of (source : str) (p : nat) : nat := count 10%N (take p source).

(** [_parse_module_vars] *)
Definition _parse_module_vars (source : str) (lines : list str)
    : E (list (str * BSLModuleVar)) :=
  foldl (λ acc m,
           vars_dict <- acc ;;
           let var_name := group1 source m 1 in
           let var_line := line_of source (m_start m) in
           let var_text := group1 source m 0 in
           let is_export := contains (u "Экспорт") var_text || contains (u "экспорт") var_text in
           description <- _extract_description_before lines var_line ;;
           inr (dict_set var_name (mkModuleVar var_name is_export description) vars_dict))
        (inr []) (finditer MODULE_VAR_PATTERN source).

(** ** Methods *)

(** [_extract_context] *)
Definition _extract_context (line : str) : str :=
  let context_map :=
    [ (u "насервере", u "НаСервере"); (u "наклиенте", u "НаКлиенте");
      (u "насерверебезконтекста", u "НаСервереБезКонтекста") ] in
  match search CONTEXT_PATTERN line with
  | Some m =>
      let key := lower (group1 line m 1) in
      default [] (snd <$> head (filter (λ kv : str * str, kv.1 = key) context_map))
  | None => []
  end.

(** [_extract_params] *)
Definition _extract_params (source : str) (start_pos : nat) (lines : list str)
    (start_line : nat) : list BSLParam :=
  let declaration_line := default [] (lines !! start_line) in
  match find (u "(") declaration_line 0 with
  | None => []
  | Some paren_start =>
      let params_text :=
        match find (u ")") declaration_line (paren_start + 1) with
        | Some paren_end => Some (slice (paren_start + 1) paren_end declaration_line)
        | None =>
            let search_start := start_pos + paren_start + 1 in
            match find (u ")") source search_start with
            | None => None
            | Some paren_end_pos => Some (slice search_start paren_end_pos source)
            end
        end in
      match params_text with
      | None => []
      | Some params_text =>
          if bool_decide (strip params_text ≠ []) then
            (λ m,
               let param_name := group1 params_text m 1 in
               let whole := group1 params_text m 0 in
               let byval := contains (u "Знач") whole || contains (u "знач") whole in
               let default_text :=
                 match group params_text m 2 with
                 | Some d => if bool_decide (d ≠ []) then Some d else None
                 | None => None
                 end in
               mkParam param_name byval (strip <$> default_text))
              <$> finditer PARAM_PATTERN params_text
          else []
      end
  end.

(** The loop of [_find_method_end] over the line numbers [idxs] *)
Fixpoint end_loop (lines : list str) (end_pattern : re) (idxs : list nat)
    (depth : Z) : E (option nat) :=
  match idxs with
  | [] => inr None
  | i :: idxs' =>
      line <- getitem lines i ;;
      let proc_match := search PROC_PATTERN line in
      let func_match := search FUNC_PATTERN line in
      if bool_decide (proc_match ≠ None) || bool_decide (func_match ≠ None) then
        match_obj <- match (if bool_decide (proc_match ≠ None)
                            then proc_match else func_match) with
                     | Some m => inr m
                     | None => inl AssertionError
                     end ;;
        let match_pos := m_start match_obj in
        if bool_decide (match_pos = length line - length (lstrip line)) then
          end_loop lines end_pattern idxs' (depth + 1)
        else end_loop lines end_pattern idxs' depth
      else if bool_decide (search end_pattern line ≠ None) then
        let depth := (depth - 1)%Z in
        if bool_decide (depth = 0%Z) then inr (Some i)
        else end_loop lines end_pattern idxs' depth
      else end_loop lines end_pattern idxs' depth
  end.

(** [_find_method_end] *)
Definition _find_method_end (source : str) (start_line : nat) (is_proc : bool)
    : E (option nat) :=
  let lines := split 10%N source in
  let end_pattern := if is_proc then PROC_END_PATTERN else FUNC_END_PATTERN in
  end_loop lines end_pattern
           (seq (start_line + 1) (length lines - (start_line + 1))) 1.

(** The [for offset in range(3)] loop of [_parse_method_from_match]: the
    first of the three lines from [start_line] on that holds the name and
    a declaration keyword. *)
Definition verify_start_line (lines : list str) (method_name : str)
    (start_line : nat) : nat :=
  let ok := λ offset,
    let check_line := start_line + offset in
    match lines !! check_line with
    | Some line_text =>
        contains method_name line_text &&
        ((contains (u "Процедура") line_text || contains (u "Функция") line_text)
         && contains method_name line_text)
    | None => false
    end in
  match filter (λ o, ok o = true) [0; 1; 2] with
  | offset :: _ => start_line + offset
  | [] => start_line
  end.

Definition is_Some_b {A} (o : option A) : bool :=
  match o with Some _ => true | None => false end.

(** [_parse_method_from_match] *)
Definition _parse_method_from_match (source : str) (lines : list str) (m : Match)
    (is_proc : bool) : E (option BSLMethod) :=
  let method_name := group1 source m 1 in
  let start_pos := m_start m in
  let start_line := line_of source start_pos in
  let start_line := verify_start_line lines method_name start_line in
  let declaration_line := default [] (lines !! start_line) in
  let context := _extract_context declaration_line in
  let is_export := is_Some_b (search EXPORT_PATTERN declaration_line) in
  let params := _extract_params source start_pos lines start_line in
  end_line <- _find_method_end source start_line is_proc ;;
  match end_line with
  | None => inr None
  | Some end_line =>
      description <- _extract_description_before lines start_line ;;
      inr (Some (mkMethod method_name start_line end_line is_proc is_export
                          params description context []))
  end.

(** [list.sort(key=lambda m: m.line)]: the sort is stable; an element goes
    behind the elements whose key is not larger. *)
Fixpoint insert_by_line (m : BSLMethod) (l : list BSLMethod) : list BSLMethod :=
  match l with
  | [] => [m]
  | x :: l' => if (line m <? line x)%nat then m :: l else x :: insert_by_line m l'
  end.

Definition sort_by_line (l : list BSLMethod) : list BSLMethod :=
  foldl (λ acc m, insert_by_line m acc) [] l.

(** [_parse_methods] *)
Definition _parse_methods (source : str) (lines : list str) : E (list BSLMethod) :=
  procs <- mapE (λ m, _parse_method_from_match source lines m true)
                (finditer PROC_PATTERN source) ;;
  funcs <- mapE (λ m, _parse_method_from_match source lines m false)
                (finditer FUNC_PATTERN source) ;;
  let methods := omap id procs ++ omap id funcs in
  inr (sort_by_line methods).

(** ** Calls *)

(** The call sites that the inner loops of [_parse_global_calls] and
    [_parse_method_calls] meet on one line, before any filtering *)
Definition call_matches (line_num : nat) (line : str) : list BSLCallPosition :=
  (λ m, mkCallPosition (group1 line m 1) line_num (m_start m))
    <$> finditer CALL_PATTERN line.

(** [_parse_global_calls] *)
Definition _parse_global_calls (lines : list str) (methods : list BSLMethod)
    : list BSLCallPosition :=
  let method_ranges : list nat :=
    methods ≫= (λ m, seq (line m) (endline m + 1 - line m)) in
  mjoin (imap (λ line_num text,
                 if bool_decide (line_num ∈ method_ranges) then []
                 else filter (λ cp, lower (call cp) ∉ KEYWORDS)
                             (call_matches line_num text))
              lines).

(** [_parse_method_calls] *)
Definition _parse_method_calls (lines : list str) (m : BSLMethod)
    : list BSLCallPosition :=
  let method_lines := take (endline m + 1 - line m) (drop (line m) lines) in
  mjoin (imap (λ line_offset text,
                 let line_num := line m + line_offset in
                 filter (λ cp, (lower (call cp) ∉ KEYWORDS) ∧ (call cp ≠ name m))
                        (call_matches line_num text))
              method_lines).

Definition set_calls_position (cps : list BSLCallPosition) (m : BSLMethod) : BSLMethod :=
  mkMethod (name m) (line m) (endline m) (isproc m) (is_export m) (params m)
           (description m) (context m) cps.

(** ** [parse] *)

Definition parse (source : str) : E BSLParseResult :=
  let lines := split 10%N source in
  module_vars <- _parse_module_vars source lines ;;
  methods <- _parse_methods source lines ;;
  let global_calls := _parse_global_calls lines methods in
  let methods := (λ m, set_calls_position (_parse_method_calls lines m) m) <$> methods in
  inr (mkParseResult methods global_calls module_vars).

End WithUnicode.

End Parser.

(** ** A small character database for the examples

    ASCII and the Cyrillic block; every other character counts as a
    caseless symbol. *)
Module SimpleUnicode.
Import Text.

Definition simple_isspace (c : N) : bool :=
  ((9 <=? c) && (c <=? 13) || (28 <=? c) && (c <=? 32) || (c =? 133) || (c =? 160))%N.

Definition simple_isword (c : N) : bool :=
  ((48 <=? c) && (c <=? 57) || (65 <=? c) && (c <=? 90) || (97 <=? c) && (c <=? 122)
   || (c =? 95) || (1024 <=? c) && (c <=? 1153) || (1162 <=? c) && (c <=? 1327))%N.

Definition lower_char (c : N) : N :=
  if ((65 <=? c) && (c <=? 90))%N then (c + 32)%N
  else if ((1040 <=? c) && (c <=? 1071))%N then (c + 32)%N
  else if ((1024 <=? c) && (c <=? 1039))%N then (c + 80)%N
  else c.

#[export] Instance simple_unicode : Unicode := {|
  isspace := simple_isspace;
  isword := simple_isword;
  lower := fmap lower_char;
  ci_eq := λ p x, (lower_char p =? lower_char x)%N
|}.

End SimpleUnicode.

(* ===================================================================== *)
(** * Part VIII: sessions of the supervisor                               *)
(* ===================================================================== *)

Module Session.
Import Supervisor.

(** The child of the registered server [name] exits with return code [rc]
    (nothing happens when no such server is registered). *)
Definition child_exit (name : string) (rc : Z) : M unit :=
  d <- get_servers ;;
  match dict_get name d with
  | Some s => put_servers (dict_set name (child_exits rc s) d)
  | None => ret tt
  end.

(** One step of a session with a manager: a call of its public interface,
    an iteration of the monitor loop, or the exit of a child. *)
Inductive step :=
| CallAddServer (name path : string) (prt : Z) (tr : transport_t) (hst : string)
                (ctx : option string) (mds : list string) (lvl : option string)
| CallStartAll
| CallStopServer (name : string)
| CallStartServer (name : string)
| CallRestartServer (name : string)
| CallRemoveServer (name : string)
| CallListServers
| CallAddAndStartServer (r : add_request)
| CallShutdown
| MonitorIteration (cmds : list entry)
| ChildExit (name : string) (rc : Z).

(** The state a computation leaves, whether it returns or raises *)
Definition state_after {A} (m : M A) (w : World) : World := (m w).2.

Definition run_step (w : World) (s : step) : World :=
  match s with
  | CallAddServer name path prt tr hst ctx mds lvl =>
      state_after (add_server name path prt tr hst ctx mds lvl) w
  | CallStartAll => state_after start_all w
  | CallStopServer name => state_after (stop_server name) w
  | CallStartServer name => state_after (start_server name) w
  | CallRestartServer name => state_after (restart_server name) w
  | CallRemoveServer name => state_after (remove_server name) w
  | CallListServers => state_after list_servers w
  | CallAddAndStartServer r =>
      state_after (add_and_start_server (req_bindable r) (req_path r) (req_transport r)
                     (req_host r) (req_context r) (req_modes r) (req_log_level r)) w
  | CallShutdown => state_after shutdown w
  | MonitorIteration cmds => state_after (run_iteration cmds) w
  | ChildExit name rc => state_after (child_exit name rc) w
  end.

(** The state of a manager created empty after the steps [steps] *)
Definition run_session (steps : list step) : World := foldl run_step empty_world steps.

End Session.

(* ===================================================================== *)
(** * Part IX: logs and the admin handlers                                *)
(* ===================================================================== *)

Module Admin.
Import Text Supervisor.

(** [f.readlines()] on text whose line ends are all ["\n"]: the lines,
    each with its terminator *)
Fixpoint readlines (s : str) : list str :=
  match s with
  | [] => []
  | c :: s' =>
      if bool_decide (c = 10%N) then [c] :: readlines s'
      else match readlines s' with
           | l :: ls => (c :: l) :: ls
           | [] => [[c]]
           end
  end.

(** [line.rstrip("\n")]: the line without the newlines at its end *)
Fixpoint lstrip_newlines (s : str) : str :=
  match s with
  | [] => []
  | c :: s' => if bool_decide (c = 10%N) then lstrip_newlines s' else s
  end.

Definition rstrip_newlines (line : str) : str :=
  reverse (lstrip_newlines (reverse line)).

(** [l[start:]] for an integer [start]; a negative one counts from the end *)
Definition slice_from {A} (start : Z) (l : list A) : list A :=
  if (start <? 0)%Z then drop (length l - Z.to_nat (- start)) l
  else drop (Z.to_nat start) l.

(** [get_server_logs].  [log_file] is the log directory as the call finds
    it, by file name: [None] when the file does not exist, [Some None] when
    opening or reading it raises [OSError], [Some (Some raw)] when it holds
    the decoded text [raw]. *)
Definition get_server_logs (log_file : string → option (option str))
    (project_name log_type : string) (num_lines : Z) : M (list str) :=
  d <- get_servers ;;
  if bool_decide (project_name ∉ keys d) then
    raise (ValueError ("Unknown project: " +:+ project_name))
  else if bool_decide (log_type ∉ ["stderr"; "stdout"]) then
    raise (ValueError ("Invalid log type: " +:+ log_type
                       +:+ ". Must be 'stderr' or 'stdout'."))
  else
    match log_file (project_name +:+ "." +:+ log_type +:+ ".log") with
    | None => ret []
    | Some None => ret []
    | Some (Some raw) =>
        let lines := readlines (Fingerprint.read_text raw) in
        ret (rstrip_newlines <$> slice_from (- num_lines) lines)
    end.

(** ** The admin HTTP interface ([AdminServer]) *)

(** The JSON documents the handlers answer with *)
Inductive content :=
| ErrorContent (error : string)                   (* {"error": ...} *)
| ActionContent (action project : string)         (* {"status": "ok", "action": ..., "project": ...} *)
| RemovedContent (removed : string)               (* {"status": "ok", "removed": ...} *)
| LinesContent (lines : list str).                (* {"lines": [...]} *)






End Admin.

(* ===================================================================== *)
(** * Part X: the compose file ([serena/docker_compose.py])               *)
(* ===================================================================== *)

Module Compose.
Import Text Stats.

(** What the module takes from [os.path]; the functions depend on the
    platform the generator runs on. *)
Class OsPath := {
  normpath : string → string;
  isdir : string → bool;
  basename : string → string
}.

Section Mounts.
Context {P : OsPath}.

(** One round of the loop of [resolve_project_mounts] on the state
    [(used_names, result)] *)
Definition resolve_step (st : gmap string nat * list (string * string))
    (raw_path : string) : gmap string nat * list (string * string) :=
  let '(used_names, result) := st in
  let host_path := normpath raw_path in
  if negb (isdir host_path) then st
  else
    let base := basename host_path in
    let base := if bool_decide (base = "") then "project" else base in
    match used_names !! base with
    | Some n =>
        let used_names := <[base := S n]> used_names in
        (used_names, result ++ [(host_path, Supervisor.suffixed base (S n))])
    | None =>
        (<[base := 1]> used_names, result ++ [(host_path, base)])
    end.

(** [resolve_project_mounts] *)
Definition resolve_project_mounts (project_paths : list string) : list (string * string) :=
  (foldl resolve_step (∅, []) project_paths).2.

End Mounts.

(** The values of the [docker] section that [generate_compose_dict]
    reads, after its conversions with [int(...)] and [str(...)];
    [image] is [None] when the key is missing or its value is false. *)
Record DockerSection := mkDockerSection {
  admin_port : Z;
  base_port : Z;
  port_headroom : Z;
  transport : string;
  host : string;
  serena_data_volume : string;
  image : option string;
  build_context : string;
  build_target : string
}.

Definition CONTAINER_PROJECTS_DIR : string := "/projects".

(** The [serena] service of the compose document *)
Record Service := mkService {
  service_image : option string;
  service_build : option (string * string);     (* context, target *)
  service_volumes : list string;
  service_environment : list (string * string);
  service_ports : list string
}.

(** The compose document: its one service and the named volume *)
Record ComposeDict := mkCompose {
  serena : Service;
  named_volume : string
}.

(** [generate_compose_dict] *)
Definition generate_compose_dict (docker : DockerSection)
    (mounts : list (string * string)) : ComposeDict :=
  let max_port := (base_port docker + Z.of_nat (length mounts) - 1 + port_headroom docker)%Z in
  let max_port := if bool_decide (65535 < max_port)%Z then 65535%Z else max_port in
  let volumes :=
    (serena_data_volume docker +:+ ":/root/.serena") ::
    ((λ m : string * string, m.1 +:+ ":" +:+ CONTAINER_PROJECTS_DIR +:+ "/" +:+ m.2)
       <$> mounts) in
  let environment :=
    [ ("SERENA_MULTI_SERVER", "1");
      ("SERENA_PROJECTS_DIR", CONTAINER_PROJECTS_DIR);
      ("SERENA_TRANSPORT", transport docker);
      ("SERENA_BASE_PORT", pretty (base_port docker));
      ("SERENA_HOST", host docker);
      ("SERENA_ADMIN_PORT", pretty (admin_port docker)) ] in
  let ports :=
    (if bool_decide (0 < admin_port docker)%Z
     then [pretty (admin_port docker) +:+ ":" +:+ pretty (admin_port docker)] else []) ++
    [pretty (base_port docker) +:+ "-" +:+ pretty max_port +:+ ":" +:+
     pretty (base_port docker) +:+ "-" +:+ pretty max_port] in
  mkCompose
    (match image docker with
     | Some i => mkService (Some i) None volumes environment ports
     | None => mkService None (Some (build_context docker, build_target docker))
                         volumes environment ports
     end)
    (serena_data_volume docker).

(** ** [load_docker_config] *)

Inductive config_error := FileNotFoundError | ConfigValueError.

(** [d.get(k)] on a mapping *)
Fixpoint dict_get (k : str) (d : list (str * json)) : option json :=
  match d with
  | [] => None
  | (k', v) :: d' => if bool_decide (k' = k) then Some v else dict_get k d'
  end.

(** [d.setdefault(k, v)] *)
Definition setdefault (k : str) (v : json) (d : list (str * json)) : list (str * json) :=
  match dict_get k d with
  | Some _ => d
  | None => d ++ [(k, v)]
  end.

Definition _DOCKER_DEFAULTS : list (str * json) :=
  [ (u "build_context", JStr (u "."));
    (u "build_target", JStr (u "production"));
    (u "admin_port", JInt 9000);
    (u "base_port", JInt 9200);
    (u "port_headroom", JInt 5);
    (u "transport", JStr (u "streamable-http"));
    (u "host", JStr (u "0.0.0.0"));
    (u "serena_data_volume", JStr (u "serena-data")) ].

Definition is_dict (j : json) : bool := match j with JObj _ => true | _ => false end.
Definition is_list (j : json) : bool := match j with JList _ => true | _ => false end.

(** [load_docker_config].  [file] is [None] when [config_path] is not a
    file, and else the document that [load_yaml] returns. *)
Definition load_docker_config (file : option json) : config_error + json :=
  match file with
  | None => inl FileNotFoundError
  | Some data =>
      match data with
      | JObj fields =>
          let projects := default JNull (dict_get (u "projects") fields) in
          if negb (truthy projects) || negb (is_list projects) then inl ConfigValueError
          else
            let docker_section := default (JObj []) (dict_get (u "docker") fields) in
            let docker_section :=
              match docker_section with JObj s => s | _ => [] end in
            let docker_section :=
              foldl (λ s kv, setdefault kv.1 kv.2 s) docker_section _DOCKER_DEFAULTS in
            inr (JObj (Parser.dict_set (u "docker") (JObj docker_section) fields))
      | _ => inl ConfigValueError
      end
  end.

End Compose.

(* ===================================================================== *)
(** * Part XI: cache queries ([solidlsp/bsl_cache.py])                    *)
(* ===================================================================== *)

Module Queries.
Import Text Regex BSL Cache.

(** The value of a [name] or [module] entry of a query: a dict with a
    [$regex] key, given here as the compiled pattern, or anything else,
    given as its [str(...)]. *)
Inductive pattern :=
| RegexPattern (r : re)
| ExactPattern (s : str).

(** A query of [find_methods]: the entries it looks at, each [None] when
    the key is not in the dict.  The empty dict has them all [None]. *)
Record query := mkQuery {
  q_name : option pattern;
  q_module : option pattern;
  q_is_export : option bool;
  q_isExport : option bool;
  q_context : option str;
  q_isproc : option bool
}.

(** [not query]: the dict is empty *)
Definition is_empty (q : query) : bool :=
  match q with
  | mkQuery None None None None None None => true
  | _ => false
  end.

Section WithUnicode.
Context {U : Unicode}.

(** The positions that an index holds for a pattern *)
Definition index_candidates (p : pattern) (index : gmap str (list nat)) : gset nat :=
  match p with
  | RegexPattern r =>
      ⋃ ((λ kv : str * list nat,
            if Parser.is_Some_b (search r kv.1) then list_to_set kv.2 else ∅)
           <$> map_to_list index)
  | ExactPattern s => list_to_set (default [] (index !! lower s))
  end.

(** [a if candidate_indices is None else candidate_indices & a] *)
Definition narrow (candidate_indices : option (gset nat)) (a : gset nat) : option (gset nat) :=
  match candidate_indices with
  | None => Some a
  | Some c => Some (c ∩ a)
  end.

Definition range_set (n : nat) : gset nat := list_to_set (seq 0 n).

(** [find_methods].  Python does not fix the order in which a set is gone
    through; here the positions are taken in the order of [elements]. *)
Definition find_methods (q : option query) (c : BSLCache) : list BSLMethodInfo :=
  match q with
  | None => cache_methods c
  | Some q =>
      if is_empty q then cache_methods c
      else
        let candidate_indices : option (gset nat) := None in
        (* filter by name *)
        let candidate_indices :=
          match q_name q with
          | Some p => narrow candidate_indices (index_candidates p (_method_name_index c))
          | None => candidate_indices
          end in
        (* filter by module *)
        let candidate_indices :=
          match q_module q with
          | Some p => narrow candidate_indices (index_candidates p (_method_module_index c))
          | None => candidate_indices
          end in
        (* filter by export *)
        let candidate_indices :=
          if bool_decide (q_is_export q ≠ None ∨ q_isExport q ≠ None) then
            let is_export := default (default false (q_isExport q)) (q_is_export q) in
            let export_indices : gset nat := list_to_set (_method_export_index c) in
            match candidate_indices with
            | Some ci => Some (if is_export then ci ∩ export_indices else ci ∖ export_indices)
            | None =>
                Some (if is_export then export_indices
                      else range_set (length (cache_methods c)) ∖ export_indices)
            end
          else candidate_indices in
        let candidate_indices :=
          default (range_set (length (cache_methods c))) candidate_indices in
        (* the remaining filters look at the method objects *)
        omap (λ idx,
                match cache_methods c !! idx with
                | None => None
                | Some method_info =>
                    let m := method method_info in
                    if match q_context q with
                       | Some ctx => bool_decide (context m ≠ ctx)
                       | None => false
                       end then None
                    else if match q_isproc q with
                            | Some b => bool_decide (isproc m ≠ b)
                            | None => false
                            end then None
                    else Some method_info
                end)
             (elements candidate_indices)
  end.

(** [find_calls] *)
Definition find_calls (call_name : str) (c : BSLCache) : list BSLCallInfo :=
  default [] (cache_calls c !! call_name).

(** [find_methods_by_module] *)
Definition find_methods_by_module (md : str) (c : BSLCache) : list BSLMethodInfo :=
  find_methods (Some (mkQuery None (Some (ExactPattern md)) None None None None)) c.

(** [find_exported_methods] *)
Definition find_exported_methods (md : option str) (c : BSLCache) : list BSLMethodInfo :=
  let with_module :=
    match md with
    | Some m => if bool_decide (m ≠ []) then Some (ExactPattern m) else None
    | None => None
    end in
  find_methods (Some (mkQuery None with_module (Some true) None None None)) c.

End WithUnicode.

End Queries.

(* ===================================================================== *)
(** * Part XII: indexing in the BSL language server                       *)
(* ===================================================================== *)

Module LanguageServer.
Import Text Regex BSL Cache Parser Fingerprint.

(** [ls_types.Position] and [ls_types.Range] *)
Record Position := mkPosition { position_line : nat; position_character : nat }.
Record Range := mkRange { range_start : Position; range_end : Position }.

(** The entries of a [UnifiedSymbolInformation] that are made from the
    method and the file's text (the URI of the location is left out). *)
Record Symbol := mkSymbol {
  symbol_name : str;
  symbol_kind : nat;
  symbol_range : Range;
  symbol_absolute_path : str;
  symbol_relative_path : str;
  symbol_body : str;
  symbol_detail : str;
  symbol_description : option str
}.

(** The state of a [BslLanguageServer] that indexing reads and writes *)
Record Server := mkServer {
  repository_root_path : str;
  enable_hash_prefiltering : bool;
  _document_symbols_cache : gmap str (str * list Symbol);
  _document_symbols_cache_is_modified : bool;
  _raw_document_symbols_cache : gmap str str;    (* the hash; the symbols are [None] *)
  _raw_document_symbols_cache_is_modified : bool;
  _local_cache : BSLCache;
  _file_content_cache : gmap str str;
  _converted_files : gset str
}.

(** A path of the repository as the server finds it *)
Inductive file :=
| Missing                       (* [os.path.exists] is false *)
| Unreadable                    (* it exists, and [open] or [read] raises [OSError]:
                                   a directory, a file without read permission *)
| Readable (decoded : str).     (* it holds the decoded text *)

(** The files of the repository, by relative path *)
Definition FileSystem : Type := str → file.

(** What [open] and [read] inside a [try] give: [None] when they raise *)
Definition read_file (f : file) : option str :=
  match f with
  | Readable decoded => Some decoded
  | Missing | Unreadable => None
  end.

Definition SLASH : N := 47.
Definition BACKSLASH : N := 92.

(** [s.endswith(p)] *)
Definition endswith (p s : str) : bool := bool_decide (p `suffix_of` s).

(** [os.path.join(root, relative)] on a POSIX system *)
Definition path_join (root relative : str) : str :=
  if startswith [SLASH] relative then relative
  else if bool_decide (root = []) || endswith [SLASH] root then root ++ relative
  else root ++ [SLASH] ++ relative.

(** [s.find(sub)]: [None] stands for -1 *)
Definition str_find (sub s : str) : option nat :=
  if bool_decide (sub = []) then Some 0 else find sub s 0.

(** The exceptions of indexing: those of the parser, the [ValueError] of
    [pathlib], and the [OSError] of reading a file. *)
Inductive ls_exn := Raised (e : py_exn) | ValueError | OSError.

Definition L (A : Type) : Type := ls_exn + A.

Definition bindL {A B} (m : L A) (k : A → L B) : L B :=
  match m with
  | inl e => inl e
  | inr a => k a
  end.

Notation "x <~ m ;; k" := (bindL m (λ x, k))
  (at level 100, m at next level, right associativity).

Definition liftE {A} (m : E A) : L A :=
  match m with
  | inl e => inl (Raised e)
  | inr a => inr a
  end.

Fixpoint mapL {A B} (f : A → L B) (l : list A) : L (list B) :=
  match l with
  | [] => inr []
  | a :: l' => b <~ f a ;; bs <~ mapL f l' ;; inr (b :: bs)
  end.

(** [pathlib.Path(p).as_uri()] on a POSIX system: a path that is not
    absolute has no file URI, and [ValueError] is raised.  The text of the
    URI is not modelled. *)
Definition as_uri (p : str) : L unit :=
  if startswith [SLASH] p then inr tt else inl ValueError.

Section WithUnicode.
Context {U : Unicode}.

(** ** Module names *)

Definition type_mapping : list (str * str) :=
  [ (u "Documents", u "Документы");
    (u "Catalogs", u "Справочники");
    (u "InformationRegisters", u "РегистрыСведений");
    (u "AccumulationRegisters", u "РегистрыНакопления");
    (u "Enums", u "Перечисления");
    (u "Constants", u "Константы");
    (u "CommonCommands", u "ОбщиеКоманды");
    (u "WebServices", u "ВебСервисы");
    (u "BusinessProcesses", u "БизнесПроцессы");
    (u "Tasks", u "Задачи") ].

(** [_get_module_for_path] *)
Definition _get_module_for_path (fullpath root_path : str) : str :=
  let rel_path :=
    if endswith [BACKSLASH] root_path || endswith [SLASH] root_path
    then drop (length root_path) fullpath
    else drop (length root_path + 1) fullpath in
  let parts := split SLASH (replace [BACKSLASH] [SLASH] rel_path) in
  let hierarchy := length parts in
  if bool_decide (3 < hierarchy) then
    let parent_type := default [] (parts !! (hierarchy - 4)) in
    if startswith (u "CommonModules") parent_type || startswith (u "ОбщиеМодули") parent_type
    then default [] (parts !! (hierarchy - 3))
    else
      let mapped_type :=
        default parent_type
          (snd <$> head (filter (λ kv : str * str, kv.1 = parent_type) type_mapping)) in
      mapped_type ++ u "." ++ default [] (parts !! (hierarchy - 3))
  else [].

(** ** Symbols *)

(** The last line of a method within the text: [min(endline, len(lines) - 1)] *)
Definition clamp_end_line (m : BSLMethod) (lines : list str) : nat :=
  if bool_decide (endline m < length lines)
  then endline m `min` (length lines - 1) else length lines - 1.

(** [_extract_method_body] *)
Definition _extract_method_body (file_content : str) (m : BSLMethod) : str :=
  let lines := split 10%N file_content in
  let start_line := line m in
  let end_line := clamp_end_line m lines in
  if bool_decide (end_line < start_line) || bool_decide (length lines ≤ start_line) then []
  else join [10%N] (take (end_line + 1 - start_line) (drop start_line lines)).

(** [_create_symbol_from_method].  [lines] is the text split at line
    ends and so never empty: [len(lines) - 1] is not negative. *)
Definition _create_symbol_from_method (m : BSLMethod) (file_content : str)
    (lines : list str) (abs_path relative_file_path : str) : L Symbol :=
  let kind := if negb (isproc m) then 12 else 6 in
  let start_line := line m in
  let end_line := clamp_end_line m lines in
  start_char <~
    (if bool_decide (start_line < length lines) then
       text <~ liftE (getitem lines start_line) ;;
       inr (default 0 (str_find (name m) text))
     else inr 0) ;;
  end_char <~
    (if bool_decide (end_line < length lines) then
       text <~ liftE (getitem lines end_line) ;; inr (length text)
     else inr 0) ;;
  let range_obj := mkRange (mkPosition start_line start_char)
                           (mkPosition end_line end_char) in
  uri <~ as_uri abs_path ;;
  let detail_parts :=
    (if bool_decide (context m ≠ []) then [context m] else []) ++
    (if is_export m then [u "Экспорт"] else []) in
  let detail := join (u " | ") detail_parts in
  let body := _extract_method_body file_content m in
  inr (mkSymbol (name m) kind range_obj abs_path relative_file_path body detail
                (if bool_decide (description m ≠ []) then Some (description m) else None)).

(** [_convert_file_to_document_symbols] *)
Definition _convert_file_to_document_symbols (relative_file_path abs_path file_content
    file_hash : str) (methods : list BSLMethod) (md : str) (s : Server) : L Server :=
  let lines := split 10%N file_content in
  unified_symbols <~
    mapL (λ m, _create_symbol_from_method m file_content lines abs_path relative_file_path)
         methods ;;
  inr (mkServer (repository_root_path s) (enable_hash_prefiltering s)
         (<[relative_file_path := (file_hash, unified_symbols)]> (_document_symbols_cache s))
         true
         (<[relative_file_path := file_hash]> (_raw_document_symbols_cache s))
         true
         (_local_cache s) (_file_content_cache s)
         (if bool_decide (methods ≠ [])
          then {[relative_file_path]} ∪ _converted_files s else _converted_files s)).

Definition set_local_cache (c : BSLCache) (s : Server) : Server :=
  mkServer (repository_root_path s) (enable_hash_prefiltering s)
           (_document_symbols_cache s) (_document_symbols_cache_is_modified s)
           (_raw_document_symbols_cache s) (_raw_document_symbols_cache_is_modified s)
           c (_file_content_cache s) (_converted_files s).

(** What [_parse_file_local] adds to the call-graph cache for one parsed
    file *)
Definition add_parse_result (relative_file_path md : str) (r : BSLParseResult)
    (c : BSLCache) : BSLCache :=
  let c := if bool_decide (methods r ≠ [])
           then add_methods_batch ((λ m, (m, relative_file_path, md)) <$> methods r) c
           else c in
  let c := if bool_decide (module_vars r ≠ [])
           then add_module_vars_batch ((λ kv : str * BSLModuleVar, (kv.2, relative_file_path))
                                         <$> module_vars r) c
           else c in
  let c := if bool_decide (global_calls r ≠ [])
           then add_calls_batch ((λ cp, (cp, relative_file_path, u "GlobalModuleText", md))
                                   <$> global_calls r) c
           else c in
  let method_calls :=
    methods r ≫= (λ m, (λ cp, (cp, relative_file_path, name m, md)) <$> calls_position m) in
  if bool_decide (method_calls ≠ []) then add_calls_batch method_calls c else c.

(** [_parse_file_local]: the new state, or the exception that is logged
    and raised again.  The state that an exception leaves behind is not
    modelled. *)
Definition _parse_file_local (fs : FileSystem) (relative_file_path : str)
    (s : Server) : L Server :=
  let abs_path := path_join (repository_root_path s) relative_file_path in
  match fs relative_file_path with
  | Missing => inr s
  | Unreadable => inl OSError
  | Readable decoded =>
      let source := read_text decoded in
      let source := replace [CR] [LF] (replace [CR; LF] [LF] source) in
      let file_hash := MD5.hexdigest (encode_utf8 source) in
      if match _document_symbols_cache s !! relative_file_path with
         | Some (cached_hash, _) => bool_decide (cached_hash = file_hash)
         | None => false
         end then inr s
      else if bool_decide (strip source = []) then inr s
      else
        parse_result <~ liftE (parse source) ;;
        let md := _get_module_for_path abs_path (repository_root_path s) in
        let s := set_local_cache
                   (add_parse_result relative_file_path md parse_result (_local_cache s)) s in
        _convert_file_to_document_symbols relative_file_path abs_path source file_hash
          (methods parse_result) md s
  end.


(** The body of the loop of [_find_files_to_index]: is the file appended
    to [files_to_index]? *)
Definition to_index (fs : FileSystem) (s : Server) (file_path : str) : bool :=
  let file_hash := _compute_file_hash (read_file (fs file_path)) in
  if bool_decide (file_hash = []) then true
  else if enable_hash_prefiltering s &&
          _is_file_cached (_document_symbols_cache s) file_path file_hash
       then false
       else true.

(** [_find_files_to_index] *)
Definition _find_files_to_index (fs : FileSystem) (all_files : list str) (s : Server)
    : list str :=
  filter (λ file_path, to_index fs s file_path = true) all_files.

(** One round of the loop of [_remove_deleted_files_from_cache] *)
Definition remove_deleted_step (existing_files : list str) (st : Server * nat)
    (cache_key : str) : Server * nat :=
  let '(s, removed_count) := st in
  let relative_file_path := cache_key in
  if bool_decide (relative_file_path ∉ existing_files) then
    let in_raw := bool_decide (is_Some (_raw_document_symbols_cache s !! relative_file_path)) in
    (mkServer (repository_root_path s) (enable_hash_prefiltering s)
       (delete cache_key (_document_symbols_cache s))
       true
       (if in_raw then delete relative_file_path (_raw_document_symbols_cache s)
        else _raw_document_symbols_cache s)
       (if in_raw then true else _raw_document_symbols_cache_is_modified s)
       (remove_file_data relative_file_path (_local_cache s))
       (delete relative_file_path (_file_content_cache s))
       (_converted_files s ∖ {[relative_file_path]}),
     S removed_count)
  else st.

(** The loop of [_remove_deleted_files_from_cache] over [cache_keys]: the
    new state and the number of files removed *)
Definition remove_deleted_loop (existing_files cache_keys : list str) (s : Server)
    : Server * nat :=
  foldl (remove_deleted_step existing_files) (s, 0) cache_keys.

(** [_remove_deleted_files_from_cache].  The keys are gone through in the
    order of [map_to_list]; Python goes through them in the order in which
    they were inserted. *)
Definition _remove_deleted_files_from_cache (existing_files : list str) (s : Server)
    : Server * nat :=
  remove_deleted_loop existing_files (map_to_list (_document_symbols_cache s)).*1 s.

End WithUnicode.

End LanguageServer.

(* PROOFS-BELOW *)

(* ===================================================================== *)
(** * Properties of the supervisor                                        *)
(* ===================================================================== *)

Module SupervisorProofs.
Import Supervisor.

(** ** The de-duplication loop *)

(** The candidate name tried when the loop's counter is [c]. *)
Definition candidate (base_name : string) (c : nat) : string :=
  if bool_decide (c = 1) then base_name else suffixed base_name c.

Lemma append_length (s t : string) :
  String.length (s +:+ t) = String.length s + String.length t.
Proof. induction s as [|a s IH]; simpl; [done | by rewrite IH]. Qed.

Lemma suffixed_ne_base base c : suffixed base c ≠ base.
Proof.
  intros H. apply (f_equal String.length) in H.
  unfold suffixed in H. rewrite !append_length in H. simpl in H. lia.
Qed.

Lemma suffixed_inj base c1 c2 : suffixed base c1 = suffixed base c2 → c1 = c2.
Proof.
  unfold suffixed. intros H.
  apply (inj (String.append base)) in H.
  apply (inj (String.append "_")) in H.
  by apply (inj pretty) in H.
Qed.

Lemma candidate_inj base c1 c2 :
  1 ≤ c1 → 1 ≤ c2 → candidate base c1 = candidate base c2 → c1 = c2.
Proof.
  unfold candidate. intros H1 H2.
  repeat case_bool_decide; subst; try done; intros Heq.
  - symmetry in Heq. by apply suffixed_ne_base in Heq.
  - by apply suffixed_ne_base in Heq.
  - by apply suffixed_inj in Heq.
Qed.

Lemma dedup_loop_run existing base j : ∀ c fuel,
  1 ≤ c →
  (∀ i, c ≤ i < c + j → candidate base i ∈ existing) →
  candidate base (c + j) ∉ existing →
  j < fuel →
  dedup_loop fuel existing base c (candidate base c) = candidate base (c + j).
Proof.
  induction j as [|j IH]; intros c fuel Hc Hin Hout Hfuel.
  - destruct fuel as [|fuel]; [lia|]. simpl.
    rewrite Nat.add_0_r in Hout. rewrite bool_decide_eq_false_2 by done.
    by rewrite Nat.add_0_r.
  - destruct fuel as [|fuel]; [lia|]. simpl.
    rewrite bool_decide_eq_true_2 by (apply Hin; lia).
    replace (suffixed base (S c)) with (candidate base (S c))
      by (unfold candidate; rewrite bool_decide_eq_false_2; [done | lia]).
    rewrite (IH (S c) fuel); [f_equal; lia | lia | | | lia].
    + intros i Hi. apply Hin. lia.
    + by replace (S c + j) with (c + S j) by lia.
Qed.

Lemma dedup_loop_stuck existing base : ∀ fuel c,
  1 ≤ c →
  dedup_loop fuel existing base c (candidate base c) ∈ existing →
  ∀ i, c ≤ i ≤ c + fuel → candidate base i ∈ existing.
Proof.
  induction fuel as [|fuel IH]; intros c Hc Hres i Hi; simpl in Hres.
  - by replace i with c by lia.
  - case_bool_decide as Hd; [|done].
    destruct (decide (i = c)) as [->|Hne]; [done|].
    replace (suffixed base (S c)) with (candidate base (S c)) in Hres
      by (unfold candidate; rewrite bool_decide_eq_false_2; [done | lia]).
    apply (IH (S c)); [lia | done | lia].
Qed.

(** The loop always leaves through its own test: the name it returns is
    not registered. *)
Lemma dedup_loop_exits existing base : dedup_name existing base ∉ existing.
Proof.
  unfold dedup_name. intros Hin.
  change base with (candidate base 1) in Hin at 2.
  pose proof (dedup_loop_stuck existing base _ 1 (le_n 1) Hin) as Hall.
  set (cands := candidate base <$> seq 1 (S (length existing))).
  assert (NoDup cands) as Hnd.
  { apply NoDup_fmap_2_strong; [|apply NoDup_seq].
    intros x y Hx Hy. apply elem_of_seq in Hx, Hy.
    apply candidate_inj; lia. }
  assert (cands ⊆+ existing) as Hsub.
  { apply NoDup_submseteq; [done|]. intros x Hx.
    apply list_elem_of_fmap in Hx as (i & -> & Hi).
    apply elem_of_seq in Hi. apply Hall. lia. }
  apply submseteq_length in Hsub.
  unfold cands in Hsub. rewrite length_fmap, length_seq in Hsub. lia.
Qed.

(** ** The registry as a dictionary *)

Lemma dict_get_None {V} k (d : list (string * V)) : k ∉ keys d → dict_get k d = None.
Proof.
  induction d as [|[k' v'] d IH]; simpl; [done|].
  intros Hk. apply not_elem_of_cons in Hk as [Hne Hk].
  rewrite bool_decide_eq_false_2 by done. by apply IH.
Qed.

Lemma dict_get_fresh {V} k (v : V) d :
  k ∉ keys d → dict_get k (d ++ [(k, v)]) = Some v.
Proof.
  induction d as [|[k' v'] d IH]; simpl.
  - intros _. by rewrite bool_decide_eq_true_2.
  - intros Hk. apply not_elem_of_cons in Hk as [Hne Hk].
    rewrite bool_decide_eq_false_2 by done. by apply IH.
Qed.

Lemma dict_set_fresh {V} k (v : V) d : k ∉ keys d → dict_set k v d = d ++ [(k, v)].
Proof.
  induction d as [|[k' v'] d IH]; simpl; [done|].
  intros Hk. apply not_elem_of_cons in Hk as [Hne Hk].
  rewrite bool_decide_eq_false_2 by done. by rewrite IH.
Qed.

Lemma dict_set_last {V} k (v v' : V) d :
  k ∉ keys d → dict_set k v' (d ++ [(k, v)]) = d ++ [(k, v')].
Proof.
  induction d as [|[k0 v0] d IH]; simpl.
  - intros _. by rewrite bool_decide_eq_true_2.
  - intros Hk. apply not_elem_of_cons in Hk as [Hne Hk].
    rewrite bool_decide_eq_false_2 by done. by rewrite IH.
Qed.

Lemma keys_dict_set_fresh {V} k (v : V) d :
  k ∉ keys d → keys (dict_set k v d) = keys d ++ [k].
Proof. intros Hk. rewrite dict_set_fresh by done. unfold keys. by rewrite fmap_app. Qed.

(** ** Port probing *)

Lemma probe_ports_spec bindable n : ∀ p q,
  probe_ports bindable p n = inr (Some q) →
  (p ≤ q < p + Z.of_nat n)%Z ∧ (q ≤ 65535)%Z ∧ bindable q = true.
Proof.
  induction n as [|n IH]; intros p q; simpl; [done|].
  case_bool_decide as Hov; [done|].
  destruct (bindable p) eqn:Hb.
  - intros [= <-]. repeat split; [lia | lia | lia | done].
  - intros Hq. apply IH in Hq as (? & ? & ?). repeat split; [lia | lia | lia | done].
Qed.

Lemma max_port_ge p ps x : x ∈ p :: ps → (x ≤ max_port p ps)%Z.
Proof.
  unfold max_port. induction ps as [|a ps IH]; simpl.
  - intros Hx. apply list_elem_of_singleton in Hx. lia.
  - intros Hx. apply elem_of_cons in Hx as [->|Hx].
    + assert (p ≤ foldr Z.max p ps)%Z by (apply IH; left). lia.
    + apply elem_of_cons in Hx as [->|Hx]; [lia|].
      assert (x ≤ foldr Z.max p ps)%Z by (apply IH; by right). lia.
Qed.

Lemma max_port_in p ps : max_port p ps ∈ p :: ps.
Proof.
  unfold max_port. induction ps as [|a ps IH]; simpl; [left|].
  destruct (Z.max_spec a (foldr Z.max p ps)) as [[_ ->]|[_ ->]].
  - apply elem_of_cons in IH as [->|IH]; [left | right; by right].
  - right; left.
Qed.

(** The first port [find_free_port] probes *)
Definition start_port (used_ports : list Z) : Z :=
  match used_ports with [] => 9200%Z | p :: ps => (max_port p ps + 1)%Z end.

Lemma find_free_port_ok bindable w q w' :
  find_free_port bindable w = (inr q, w') →
  w' = w ∧
  let used := port <$> values (servers w) in
  (start_port used ≤ q < start_port used + 100)%Z ∧ (q ≤ 65535)%Z ∧ bindable q = true.
Proof.
  unfold find_free_port, bind, get_servers, ret, raise.
  fold (start_port (port <$> values (servers w))).
  cbv beta iota.
  destruct (probe_ports bindable _ 100) as [e|[p|]] eqn:Hp; try done.
  intros [= -> ->]. split; [done|]. by apply probe_ports_spec in Hp.
Qed.

Lemma start_port_fresh used x : x ∈ used → (x < start_port used)%Z.
Proof.
  destruct used as [|p ps]; simpl; [by intros ?%elem_of_nil|].
  intros Hx%max_port_ge. lia.
Qed.

Definition ports_of (w : World) : list Z := port <$> values (servers w).

Lemma find_free_port_free bindable w :
  (∀ p, bindable p = true) → (start_port (ports_of w) ≤ 65535)%Z →
  find_free_port bindable w = (inr (start_port (ports_of w)), w).
Proof.
  intros Hfree Hmax. unfold find_free_port, bind, get_servers, ret, raise.
  fold (ports_of w). fold (start_port (ports_of w)). cbv beta iota.
  change 100 with (S 99). cbn [probe_ports].
  rewrite bool_decide_eq_false_2 by lia. by rewrite Hfree.
Qed.

Lemma start_port_snoc ps q : (start_port ps ≤ q)%Z → start_port (ps ++ [q]) = (q + 1)%Z.
Proof.
  intros Hq. destruct (ps ++ [q]) as [|p rest] eqn:Heq; [by destruct ps|].
  cbn [start_port]. f_equal.
  pose proof (max_port_in p rest) as Hin.
  assert (q ≤ max_port p rest)%Z as Hge.
  { apply max_port_ge. rewrite <- Heq. apply elem_of_app. right. left. }
  rewrite <- Heq in Hin. apply elem_of_app in Hin as [Hin|Hin].
  - apply start_port_fresh in Hin. lia.
  - by apply list_elem_of_singleton in Hin.
Qed.

(** ** [add_and_start_server] *)

Definition derive_base_name (path : string) : string :=
  basename (rstrip ["/"%char; "\"%char] path).

(** What a successful [add_and_start_server] has done: it appended one
    running handle under the de-duplicated name, on a port that
    [find_free_port] chose. *)
Lemma add_and_start_server_ok bindable path tr hst ctx mds lvl w info w' :
  add_and_start_server bindable path tr hst ctx mds lvl w = (inr info, w') →
  ∃ s,
    let name := dedup_name (keys (servers w)) (derive_base_name path) in
    let used := port <$> values (servers w) in
    derive_base_name path ≠ EmptyString ∧
    servers w' = servers w ++ [(name, s)] ∧
    project_name s = name ∧
    info_project_name info = name ∧
    info_port info = port s ∧
    (start_port used ≤ port s < start_port used + 100)%Z ∧
    (port s ≤ 65535)%Z.
Proof.
  unfold add_and_start_server. fold (derive_base_name path).
  case_bool_decide as Hbase; [done|].
  unfold bind at 1. unfold get_servers at 1.
  unfold bind at 1.
  destruct (find_free_port bindable w) as [[e|q] w1] eqn:Hq; [done|].
  apply find_free_port_ok in Hq as (-> & Hrange & Hmax & _).
  pose proof (dedup_loop_exits (keys (servers w)) (derive_base_name path)) as Hfresh.
  set (name := dedup_name (keys (servers w)) (derive_base_name path)) in *.
  unfold add_server, start_server, with_server, bind, get_servers, put_servers,
    raise, ret; cbn [servers clock next_pid trace].
  rewrite bool_decide_eq_false_2 by done.
  rewrite dict_set_fresh by done. cbn [servers clock next_pid trace].
  rewrite dict_get_fresh by done.
  unfold start, is_alive, bind, popen, time_time, ret;
    cbn [servers clock next_pid trace set_auto_restart set_process _process].
  rewrite dict_set_last by done. cbn [servers clock next_pid trace].
  rewrite dict_get_fresh by done.
  unfold to_dict, bind, time_time, ret; cbn [servers clock next_pid trace].
  intros [= <- <-]. eexists.
  cbn [set_start_time set_process set_auto_restart project_name port
       info_project_name info_port].
  repeat split; try done;
    cbn [set_start_time set_process set_auto_restart port]; lia.
Qed.

(** With a non-empty basename and a port to be had, the call returns. *)
Lemma add_and_start_server_succeeds bindable path tr hst ctx mds lvl w q :
  derive_base_name path ≠ EmptyString →
  find_free_port bindable w = (inr q, w) →
  ∃ info w', add_and_start_server bindable path tr hst ctx mds lvl w = (inr info, w').
Proof.
  intros Hbase Hq. unfold add_and_start_server. fold (derive_base_name path).
  rewrite bool_decide_eq_false_2 by done.
  unfold bind at 1. unfold get_servers at 1.
  unfold bind at 1. rewrite Hq.
  pose proof (dedup_loop_exits (keys (servers w)) (derive_base_name path)) as Hfresh.
  set (name := dedup_name (keys (servers w)) (derive_base_name path)) in *.
  unfold add_server, start_server, with_server, bind, get_servers, put_servers,
    raise, ret; cbn [servers clock next_pid trace].
  rewrite bool_decide_eq_false_2 by done.
  rewrite dict_set_fresh by done. cbn [servers clock next_pid trace].
  rewrite dict_get_fresh by done.
  unfold start, is_alive, bind, popen, time_time, ret;
    cbn [servers clock next_pid trace set_auto_restart set_process _process].
  rewrite dict_set_last by done. cbn [servers clock next_pid trace].
  rewrite dict_get_fresh by done.
  unfold to_dict, bind, time_time, ret. by eexists _, _.
Qed.

Lemma add_and_start_all_succeeds reqs : ∀ w,
  Forall (λ r, derive_base_name (req_path r) ≠ EmptyString) reqs →
  Forall (λ r, ∀ p, req_bindable r p = true) reqs →
  (start_port (ports_of w) + 100 * Z.of_nat (length reqs) ≤ 65536)%Z →
  ∃ infos w', add_and_start_all reqs w = (inr infos, w').
Proof.
  induction reqs as [|r reqs IH]; intros w Hbase Hfree Hroom; [by eexists _, _|].
  apply Forall_cons in Hbase as [Hb Hbase]. apply Forall_cons in Hfree as [Hf Hfree].
  cbn [length] in Hroom.
  unfold add_and_start_all. cbn [mapM]. unfold bind at 1.
  destruct (add_and_start_server_succeeds (req_bindable r) (req_path r) (req_transport r)
              (req_host r) (req_context r) (req_modes r) (req_log_level r) w
              (start_port (ports_of w)) Hb) as (info & w1 & Hcall);
    [apply find_free_port_free; [done | lia]|].
  rewrite Hcall.
  apply add_and_start_server_ok in Hcall as (s & _ & Hs & _ & _ & _ & Hrange & _).
  fold (ports_of w) in Hrange.
  destruct (IH w1 Hbase Hfree) as (infos & w2 & Hrest).
  - assert (ports_of w1 = ports_of w ++ [port s]) as ->.
    { unfold ports_of, values. rewrite Hs. by rewrite !fmap_app. }
    rewrite start_port_snoc by lia. lia.
  - unfold bind at 1. fold (add_and_start_all reqs). rewrite Hrest.
    unfold ret. by eexists _, _.
Qed.

(** ** Name derivation *)

(** [base, base_2, ..., base_K] *)
Definition expected_names (base : string) (K : nat) : list string :=
  match K with
  | O => []
  | S k => base :: (suffixed base <$> seq 2 k)
  end.

Lemma expected_names_candidates base K :
  expected_names base K = candidate base <$> seq 1 K.
Proof.
  destruct K as [|k]; [done|]. simpl. f_equal.
  apply list_fmap_ext. intros i x Hx.
  apply lookup_seq in Hx as [-> _]. unfold candidate.
  by rewrite bool_decide_eq_false_2 by lia.
Qed.

Lemma dedup_name_next keys0 base j :
  (∀ c, 1 ≤ c → candidate base c ∉ keys0) →
  dedup_name (keys0 ++ (candidate base <$> seq 1 j)) base = candidate base (S j).
Proof.
  intros Hfree. unfold dedup_name.
  change base with (candidate base 1) at 2.
  rewrite (dedup_loop_run _ base j 1); [done | lia | | |].
  - intros i Hi. apply elem_of_app. right.
    apply list_elem_of_fmap. exists i. split; [done|]. apply elem_of_seq. lia.
  - intros Hin. apply elem_of_app in Hin as [Hin|Hin].
    + by apply (Hfree (1 + j)); [lia|].
    + apply list_elem_of_fmap in Hin as (i & Heq & Hi). apply elem_of_seq in Hi.
      apply candidate_inj in Heq; lia.
  - rewrite length_app, length_fmap, length_seq. lia.
Qed.

Lemma add_and_start_all_names keys0 base reqs : ∀ j w infos w',
  Forall (λ r, derive_base_name (req_path r) = base) reqs →
  (∀ c, 1 ≤ c → candidate base c ∉ keys0) →
  keys (servers w) = keys0 ++ (candidate base <$> seq 1 j) →
  add_and_start_all reqs w = (inr infos, w') →
  info_project_name <$> infos = candidate base <$> seq (S j) (length reqs).
Proof.
  induction reqs as [|r reqs IH]; intros j w infos w' Hbase Hfree Hkeys.
  - intros [= <- <-]. done.
  - apply Forall_cons in Hbase as [Hr Hbase].
    unfold add_and_start_all. cbn [mapM]. unfold bind at 1.
    destruct (add_and_start_server _ _ _ _ _ _ _ w) as [[e|info] w1] eqn:Hcall; [done|].
    apply add_and_start_server_ok in Hcall as (s & _ & Hs & _ & Hname & _).
    rewrite Hr, Hkeys, dedup_name_next in Hs, Hname by done.
    unfold bind at 1. fold (add_and_start_all reqs).
    destruct (add_and_start_all reqs w1) as [[e|infos'] w2] eqn:Hrest; [done|].
    intros [= <- <-].
    apply (IH (S j)) in Hrest; [|done|done|].
    + cbn [fmap list_fmap length seq]. by rewrite Hname, <- Hrest.
    + rewrite Hs. unfold keys in *. rewrite fmap_app, Hkeys. cbn [fmap list_fmap fst].
      rewrite <- (assoc_L (++)). f_equal.
      by rewrite seq_S, fmap_app.
Qed.

(** C5.  [add_and_start_server] called K times (K >= 1) with paths whose
    basenames all equal [base], on a registry that holds neither [base]
    nor any [base_k], returns the project names [base, base_2, ..., base_K];
    the name [base_1] is not among them.  The K calls do return when the
    basename is not empty, every probed port is free and the ports do not
    run out. *)
Theorem name_derivation (reqs : list add_request) (base : string) (w : World) :
  1 ≤ length reqs →
  Forall (λ r, derive_base_name (req_path r) = base) reqs →
  (∀ n, n ∈ keys (servers w) → n ≠ base ∧ ∀ k, n ≠ suffixed base k) →
  (∀ infos w',
     add_and_start_all reqs w = (inr infos, w') →
     info_project_name <$> infos = expected_names base (length reqs) ∧
     suffixed base 1 ∉ info_project_name <$> infos) ∧
  (base ≠ EmptyString →
   Forall (λ r, ∀ p, req_bindable r p = true) reqs →
   (start_port (ports_of w) + 100 * Z.of_nat (length reqs) ≤ 65536)%Z →
   ∃ infos w', add_and_start_all reqs w = (inr infos, w')).
Proof.
  intros HK Hbase Hfree. split.
  - intros infos w' Hrun.
    assert (∀ c, 1 ≤ c → candidate base c ∉ keys (servers w)) as Hfree'.
    { intros c Hc Hin. apply Hfree in Hin as [Hne Hnk]. unfold candidate in *.
      case_bool_decide; [done | by apply (Hnk c)]. }
    apply (add_and_start_all_names (keys (servers w)) base reqs 0) in Hrun;
      [| done | done | by cbn [seq fmap list_fmap]; rewrite app_nil_r].
    rewrite expected_names_candidates. split; [done|].
    rewrite Hrun. intros Hin.
    apply list_elem_of_fmap in Hin as (i & Heq & Hi). apply elem_of_seq in Hi.
    unfold candidate in Heq. case_bool_decide; subst.
    + by apply suffixed_ne_base in Heq.
    + apply suffixed_inj in Heq. lia.
  - intros Hne Hports Hroom. apply add_and_start_all_succeeds; [|done|done].
    eapply Forall_impl; [exact Hbase|]. intros r ->. done.
Qed.

(** A registry that already holds an unrelated project, and three requests
    for paths that all end in [proj]; ports 9201 and 9202 are taken by other
    programs when the second request arrives. *)
Definition alpha_world : World :=
  mkWorld [("alpha", mkServer "alpha" "/srv/alpha" 9200 Sse "0.0.0.0" None [] None
                              true None None 0)] 0 1 [].

Definition proj_requests : list add_request :=
  [ mkAddRequest (λ _, true) "/x/proj" None None None [] None;
    mkAddRequest (λ p, negb ((p =? 9201) || (p =? 9202))%Z) "/y/proj/" None None None [] None;
    mkAddRequest (λ _, true) "/z/w/proj" (Some StreamableHttp) None None [] None ].

Definition proj_infos : list ServerInfo :=
  Eval vm_compute in
    match add_and_start_all proj_requests alpha_world with
    | (inr infos, _) => infos
    | _ => []
    end.

Definition proj_world : World :=
  Eval vm_compute in (add_and_start_all proj_requests alpha_world).2.

Lemma name_derivation_witness :
  add_and_start_all proj_requests alpha_world = (inr proj_infos, proj_world) ∧
  info_project_name <$> proj_infos = ["proj"; "proj_2"; "proj_3"] ∧
  "proj_1" ∉ info_project_name <$> proj_infos.
Proof.
  assert (add_and_start_all proj_requests alpha_world = (inr proj_infos, proj_world))
    as Hrun by (vm_compute; reflexivity).
  split; [exact Hrun|].
  refine (proj1 (name_derivation proj_requests "proj" alpha_world _ _ _)
                proj_infos proj_world Hrun).
  - simpl; lia.
  - repeat constructor.
  - intros n Hn. apply list_elem_of_singleton in Hn. subst n.
    split; [discriminate|]. intros k. unfold suffixed. discriminate.
Defined.

(** ** Port allocation *)

(** C2, as the claim states it, fails: [add_server] checks the name only,
    so calls with distinct names succeed whatever their ports are.  Two
    workers then share port 9200, and with a third on 9300 no range of
    N + headroom = 3 + 5 ports holds them all, wherever it starts.  Even a
    port that [find_free_port] chooses can lie outside the range: it is
    the first free port of a window of 100. *)
Lemma port_uniqueness_counterexample :
  (∃ w',
     add_server_all [mkAddServerArgs "alpha" "/tmp/alpha" 9200;
                     mkAddServerArgs "beta" "/tmp/beta" 9200;
                     mkAddServerArgs "gamma" "/tmp/gamma" 9300] empty_world = (inr tt, w') ∧
     port <$> values (servers w') = [9200; 9200; 9300]%Z ∧
     ¬ NoDup (port <$> values (servers w')) ∧
     ∀ base_port : Z,
       ¬ (∀ p, p ∈ port <$> values (servers w') →
               (base_port ≤ p < base_port + 3 + 5)%Z)) ∧
  (∃ infos w',
     add_and_start_all [mkAddRequest (λ p, 9250 <=? p)%Z "/srv/alpha" None None None [] None]
                       empty_world = (inr infos, w') ∧
     port <$> values (servers w') = [9250]%Z ∧
     ¬ (9250 < 9200 + 1 + 5)%Z).
Proof.
  split.
  - eexists. split; [vm_compute; reflexivity|]. split; [reflexivity|].
    cbn [servers values fmap list_fmap port snd]. split.
    + intros Hnd. apply NoDup_cons in Hnd as [Hin _]. apply Hin. left.
    + intros base_port Hall.
      assert (base_port ≤ 9200 < base_port + 3 + 5)%Z by (apply Hall; left).
      assert (base_port ≤ 9300 < base_port + 3 + 5)%Z
        by (apply Hall; right; right; left).
      lia.
  - eexists _, _. split; [vm_compute; reflexivity|]. split; [reflexivity | lia].
Qed.

(** The invariant of a registry that only [add_and_start_server] fills *)
Definition ports_inv (ps : list Z) : Prop :=
  NoDup ps ∧ ∀ p, p ∈ ps → (9200 ≤ p < 9200 + 100 * Z.of_nat (length ps))%Z ∧ (p ≤ 65535)%Z.

Lemma ports_inv_step ps q :
  ports_inv ps →
  (start_port ps ≤ q < start_port ps + 100)%Z → (q ≤ 65535)%Z →
  ports_inv (ps ++ [q]).
Proof.
  intros [Hnd Hrange] Hq Hmax.
  assert (q ∉ ps) as Hfresh.
  { intros Hin%start_port_fresh. lia. }
  assert (9200 ≤ start_port ps ≤ 9200 + 100 * Z.of_nat (length ps))%Z as Hstart.
  { destruct ps as [|p ps]; [simpl; lia|].
    cbn [start_port]. destruct (Hrange _ (max_port_in p ps)) as [? _]. lia. }
  split.
  - apply NoDup_app. repeat split; [done | | apply NoDup_singleton].
    intros x Hx Hxq. apply list_elem_of_singleton in Hxq. by subst.
  - intros p Hp. rewrite length_app. cbn [length].
    apply elem_of_app in Hp as [Hp|Hp].
    + destruct (Hrange _ Hp). lia.
    + apply list_elem_of_singleton in Hp. subst. lia.
Qed.

Lemma add_and_start_all_ports reqs : ∀ w infos w',
  ports_inv (ports_of w) →
  add_and_start_all reqs w = (inr infos, w') →
  ports_inv (ports_of w') ∧
  length (ports_of w') = length (ports_of w) + length reqs.
Proof.
  induction reqs as [|r reqs IH]; intros w infos w' Hinv.
  - intros [= <- <-]. split; [done | simpl; lia].
  - unfold add_and_start_all. cbn [mapM]. unfold bind at 1.
    destruct (add_and_start_server _ _ _ _ _ _ _ w) as [[e|info] w1] eqn:Hcall; [done|].
    apply add_and_start_server_ok in Hcall as (s & _ & Hs & _ & _ & _ & Hrange & Hmax).
    unfold bind at 1. fold (add_and_start_all reqs).
    destruct (add_and_start_all reqs w1) as [[e|infos'] w2] eqn:Hrest; [done|].
    intros [= <- <-].
    assert (ports_of w1 = ports_of w ++ [port s]) as Hw1.
    { unfold ports_of, values. rewrite Hs. by rewrite !fmap_app. }
    apply IH in Hrest as [Hinv' Hlen].
    + split; [done|]. rewrite Hlen, Hw1, length_app. simpl. lia.
    + rewrite Hw1. by apply ports_inv_step.
Qed.

(** C2, amended.  When every worker is registered through
    [add_and_start_server] (so that its port comes from [find_free_port]),
    starting from an empty registry, and all N calls succeed, the N
    registered ports are pairwise distinct, lie in [9200, 9200 + 100 * N)
    and do not exceed 65535.  [add_server] itself, on any registry,
    rejects a project name that is registered and nothing else: it accepts
    any port, also one that is in use, and stores it as given.  The range
    from [base_port] to [base_port + N - 1 + headroom], capped at 65535, is
    the port range that [generate_compose_dict] publishes for N mounts. *)
Theorem port_allocation (reqs : list add_request) (w w' : World)
    (infos : list ServerInfo) :
  servers w = [] →
  add_and_start_all reqs w = (inr infos, w') →
  NoDup (ports_of w') ∧
  length (ports_of w') = length reqs ∧
  (∀ p, p ∈ ports_of w' →
     (9200 ≤ p < 9200 + 100 * Z.of_nat (length reqs))%Z ∧ (p ≤ 65535)%Z) ∧
  (∀ (w0 : World) name path prt tr hst ctx mds lvl,
     if bool_decide (name ∈ keys (servers w0)) then
       add_server name path prt tr hst ctx mds lvl w0 =
       (inl (ValueError ("Server for project '" +:+ name +:+ "' already registered")), w0)
     else
       ∃ w1, add_server name path prt tr hst ctx mds lvl w0 = (inr tt, w1) ∧
             keys (servers w1) = keys (servers w0) ++ [name] ∧
             ports_of w1 = ports_of w0 ++ [prt]) ∧
  (∀ (docker : Compose.DockerSection) (mounts : list (string * string)),
     let first := Compose.base_port docker in
     let last := Z.min (first + Z.of_nat (length mounts) - 1 + Compose.port_headroom docker)
                       65535 in
     Compose.service_ports (Compose.serena (Compose.generate_compose_dict docker mounts)) =
       (if bool_decide (0 < Compose.admin_port docker)%Z
        then [pretty (Compose.admin_port docker) +:+ ":" +:+
              pretty (Compose.admin_port docker)]
        else []) ++
       [pretty first +:+ "-" +:+ pretty last +:+ ":" +:+
        pretty first +:+ "-" +:+ pretty last] ∧
     compose_max_port first (Compose.port_headroom docker) (length mounts) = last).
Proof.
  intros Hempty Hrun.
  apply add_and_start_all_ports in Hrun as [[Hnd Hrange] Hlen].
  - unfold ports_of at 2 in Hlen. rewrite Hempty in Hlen. simpl in Hlen.
    split; [done|]. split; [done|]. split; [|split].
    + intros p Hp. rewrite <- Hlen. by apply Hrange.
    + intros w0 name path prt tr hst ctx mds lvl.
      unfold add_server, bind, get_servers, raise, put_servers.
      case_bool_decide as Hname; [done|].
      eexists. split; [done|]. cbn [servers]. rewrite dict_set_fresh by done.
      unfold ports_of, keys, values. cbn [servers]. by rewrite !fmap_app.
    + intros docker mounts. cbn zeta.
      assert ((if bool_decide
                    (65535 < Compose.base_port docker + Z.of_nat (length mounts) - 1 +
                             Compose.port_headroom docker)%Z
               then 65535%Z
               else (Compose.base_port docker + Z.of_nat (length mounts) - 1 +
                     Compose.port_headroom docker)%Z) =
              Z.min (Compose.base_port docker + Z.of_nat (length mounts) - 1 +
                     Compose.port_headroom docker) 65535) as Hcap.
      { case_bool_decide; lia. }
      split.
      * unfold Compose.generate_compose_dict. cbn zeta. rewrite Hcap.
        by destruct (Compose.image docker).
      * unfold compose_max_port. cbn zeta. exact Hcap.
  - unfold ports_of. rewrite Hempty. split; [constructor|].
    intros p Hp. by apply elem_of_nil in Hp.
Qed.

Lemma port_allocation_witness :
  servers empty_world = [] ∧
  ports_of (add_and_start_all proj_requests empty_world).2 = [9200; 9203; 9204]%Z ∧
  NoDup (ports_of (add_and_start_all proj_requests empty_world).2).
Proof.
  split; [reflexivity|]. split; [vm_compute; reflexivity|].
  refine (proj1 (port_allocation proj_requests empty_world
             (add_and_start_all proj_requests empty_world).2
             (match (add_and_start_all proj_requests empty_world).1 with
              | inr infos => infos | inl _ => [] end) _ _)).
  - reflexivity.
  - vm_compute. reflexivity.
Defined.

(** ** The monitor loop *)

(** [min(2**n, 30)] *)
Definition backoff (n : nat) : Z := Z.min (2 ^ Z.of_nat n) 30.

(** The handle a successful restart leaves behind *)
Definition restarted (s : ManagedServerProcess) (w : World) : ManagedServerProcess :=
  mkServer (project_name s) (project_path s) (port s) (transport s) (host s)
           (context s) (modes s) (log_level s) (auto_restart s)
           (Some (mkPopen (next_pid w) None))
           (Some (clock w + backoff (_restart_count s))%Z)
           (S (_restart_count s)).

(** ... and the world after it: the sleep comes first, then the spawn. *)
Definition after_restart (s : ManagedServerProcess) (w : World) : World :=
  mkWorld (servers w) (clock w + backoff (_restart_count s))%Z (S (next_pid w))
          (trace w ++ [Sleep (backoff (_restart_count s));
                       Spawn (project_name s) (next_pid w)]).

Lemma restart_dead s w :
  is_alive s = false → _restart_count s < max_retries →
  restart s w = (inr (true, restarted s w), after_restart s w).
Proof.
  intros Hdead Hn. unfold restart.
  rewrite bool_decide_eq_false_2 by lia.
  fold (backoff (_restart_count s)).
  unfold bind, time_sleep, stop, start, restarted, after_restart.
  unfold is_alive in Hdead.
  destruct s as [nm pth prt tr hst ctx mds lvl ar [[ppid [rc|]]|] st n];
    cbn in Hdead |- *; try done;
    by rewrite <- (assoc_L (++)).
Qed.

Lemma restart_refused s w :
  max_retries ≤ _restart_count s → restart s w = (inr (false, s), w).
Proof. intros Hn. unfold restart. by rewrite bool_decide_eq_true_2. Qed.

Lemma monitor_server_restarts s w :
  is_alive s = false → auto_restart s = true → _restart_count s < max_retries →
  monitor_server s w = (inr (restarted s w), after_restart s w).
Proof.
  intros Hdead Hauto Hn. unfold monitor_server.
  rewrite Hdead, Hauto. cbn [negb andb]. unfold bind at 1. unfold bind at 1.
  rewrite restart_dead by done. cbn [fst snd].
  unfold ret at 1. unfold bind, time_time, uptime, is_alive, restarted, after_restart.
  cbn. rewrite bool_decide_eq_false_2; [done|]. unfold STABLE_PERIOD. lia.
Qed.

Lemma monitor_server_gives_up s w :
  is_alive s = false → auto_restart s = true → max_retries ≤ _restart_count s →
  monitor_server s w = (inr (set_auto_restart false s), w).
Proof.
  intros Hdead Hauto Hn. unfold monitor_server.
  rewrite Hdead, Hauto. cbn [negb andb]. unfold bind at 1. unfold bind at 1.
  rewrite restart_refused by done. cbn [fst snd].
  unfold ret at 1. unfold bind, time_time.
  replace (is_alive (set_auto_restart false s)) with false by done.
  done.
Qed.

Lemma child_exits_restarted rc s w :
  child_exits rc (restarted s w) =
  mkServer (project_name s) (project_path s) (port s) (transport s) (host s)
           (context s) (modes s) (log_level s) (auto_restart s)
           (Some (mkPopen (next_pid w) (Some rc)))
           (Some (clock w + backoff (_restart_count s))%Z)
           (S (_restart_count s)).
Proof. done. Qed.

Lemma crash_cycle_restarts rc s w :
  is_alive s = false → auto_restart s = true → _restart_count s < max_retries →
  crash_cycle rc (s, w) = (child_exits rc (restarted s w), after_restart s w).
Proof.
  intros. unfold crash_cycle. cbn [fst snd]. by rewrite monitor_server_restarts.
Qed.

Lemma crash_cycle_gives_up rc s w :
  is_alive s = false → auto_restart s = true → max_retries ≤ _restart_count s →
  crash_cycle rc (s, w) = (set_auto_restart false s, w).
Proof.
  intros Hdead ??. unfold crash_cycle. cbn [fst snd].
  rewrite monitor_server_gives_up by done.
  unfold child_exits. unfold is_alive in Hdead.
  destruct s as [nm pth prt tr hst ctx mds lvl ar [[ppid [rc'|]]|] st n]; done.
Qed.

(** C6.  A worker with a fresh restart counter whose child dies after every
    start: the monitor's three restart attempts sleep 1, 2 and 4 seconds,
    each before it spawns the child ([min(2^n, 30)] for a restart counter
    of n); the fourth attempt is refused without sleeping or spawning, and
    the monitor sets [auto_restart] to false. *)
Theorem restart_backoff (s : ManagedServerProcess) (w : World) (rc : Z) :
  is_alive s = false → auto_restart s = true → _restart_count s = 0 →
  let r1 := crash_cycle rc (s, w) in
  let r2 := crash_cycle rc r1 in
  let r3 := crash_cycle rc r2 in
  let r4 := crash_cycle rc r3 in
  trace r1.2 = trace w ++ [Sleep 1; Spawn (project_name s) (next_pid w)] ∧
  trace r2.2 = trace r1.2 ++ [Sleep 2; Spawn (project_name s) (S (next_pid w))] ∧
  trace r3.2 = trace r2.2 ++ [Sleep 4; Spawn (project_name s) (S (S (next_pid w)))] ∧
  sleeps (trace r4.2) = sleeps (trace w) ++ [1; 2; 4]%Z ∧
  _restart_count r3.1 = 3 ∧ auto_restart r3.1 = true ∧
  restart r3.1 r3.2 = (inr (false, r3.1), r3.2) ∧
  r4.2 = r3.2 ∧ auto_restart r4.1 = false ∧
  (∀ (s0 : ManagedServerProcess) (w0 : World),
     is_alive s0 = false → _restart_count s0 < max_retries →
     ∃ s' w',
       restart s0 w0 = (inr (true, s'), w') ∧
       _restart_count s' = S (_restart_count s0) ∧
       trace w' = trace w0 ++ [Sleep (Z.min (2 ^ Z.of_nat (_restart_count s0)) 30);
                               Spawn (project_name s0) (next_pid w0)]).
Proof.
  intros Hdead Hauto Hcount.
  unfold max_retries in *.
  rewrite (crash_cycle_restarts rc s w) by (done || unfold max_retries; lia).
  rewrite child_exits_restarted.
  rewrite crash_cycle_restarts by (done || unfold max_retries; cbn; lia).
  rewrite child_exits_restarted.
  rewrite crash_cycle_restarts by (done || unfold max_retries; cbn; lia).
  rewrite child_exits_restarted.
  rewrite crash_cycle_gives_up by (done || unfold max_retries; cbn; lia).
  cbn -[Z.add Z.pow Z.min]. rewrite Hcount. cbn.
  repeat split; try done.
  - unfold sleeps. rewrite <- !(assoc_L (++)). by rewrite omap_app.
  - intros s0 w0 Hd Hn. eexists _, _. split; [by apply restart_dead|]. done.
Qed.

(** A worker that was registered, never came up, and dies on every start *)
Definition flaky_worker : ManagedServerProcess :=
  mkServer "alpha" "/tmp/alpha" 9200 Sse "0.0.0.0" None [] None true None None 0.

Lemma restart_backoff_witness :
  is_alive flaky_worker = false ∧ auto_restart flaky_worker = true ∧
  _restart_count flaky_worker = 0 ∧
  sleeps (trace (crash_cycle 1 (crash_cycle 1 (crash_cycle 1 (crash_cycle 1
            (flaky_worker, empty_world))))).2) = [1; 2; 4]%Z.
Proof.
  split; [reflexivity|]. split; [reflexivity|]. split; [reflexivity|].
  exact (proj1 (proj2 (proj2 (proj2
    (restart_backoff flaky_worker empty_world 1 eq_refl eq_refl eq_refl))))).
Defined.

(** ** The status of a worker whose retries are exhausted *)

(** The handle of [flaky_worker] after the three allowed restarts, and a
    registry that holds it. *)
Definition exhausted_worker : ManagedServerProcess :=
  Eval vm_compute in
    (crash_cycle 1 (crash_cycle 1 (crash_cycle 1 (flaky_worker, empty_world)))).1.

Definition exhausted_world : World :=
  Eval vm_compute in
    let w := (crash_cycle 1 (crash_cycle 1 (crash_cycle 1 (flaky_worker, empty_world)))).2 in
    mkWorld [("alpha", exhausted_worker)] (clock w) (next_pid w) (trace w).

(** The handle [stop_server] leaves behind *)
Definition stopped_worker : ManagedServerProcess :=
  set_process None (set_auto_restart false flaky_worker).

(** C1, as the claim states it, fails: the refused restart leaves the dead
    child's process object in the handle, so the status is ["crashed"];
    and two handles that agree on liveness and on [auto_restart] report
    different statuses. *)
Lemma exhausted_status_counterexample :
  _restart_count exhausted_worker = 3 ∧
  is_alive exhausted_worker = false ∧
  auto_restart exhausted_worker = true ∧
  restart exhausted_worker exhausted_world = (inr (false, exhausted_worker), exhausted_world) ∧
  (∃ w' s',
     monitor_pass exhausted_world = (inr tt, w') ∧
     dict_get "alpha" (servers w') = Some s' ∧
     auto_restart s' = false ∧
     status s' = "crashed" ∧ status s' ≠ "stopped" ∧
     is_alive s' = is_alive stopped_worker ∧
     auto_restart s' = auto_restart stopped_worker ∧
     status s' ≠ status stopped_worker).
Proof.
  repeat split; try reflexivity.
  eexists _, _. split; [vm_compute; reflexivity|].
  split; [vm_compute; reflexivity|].
  repeat split; try reflexivity; vm_compute; discriminate.
Qed.

Lemma monitor_pass_gives_up d : ∀ w,
  ∃ d' w',
    mapM (λ kv : string * ManagedServerProcess,
            s' <- monitor_server kv.2 ;; ret (kv.1, s')) d w = (inr d', w') ∧
    servers w' = servers w ∧
    keys d' = keys d ∧
    ∀ i name s,
      d !! i = Some (name, s) →
      is_alive s = false → auto_restart s = true → max_retries ≤ _restart_count s →
      d' !! i = Some (name, set_auto_restart false s).
Proof.
  induction d as [|[k s] d IH]; intros w.
  - exists [], w. repeat split; try done.
  - cbn [mapM]. unfold bind at 1. unfold bind at 1. cbn [fst snd].
    assert (∃ s1 w1, monitor_server s w = (inr s1, w1) ∧ servers w1 = servers w ∧
              (is_alive s = false → auto_restart s = true →
               max_retries ≤ _restart_count s → s1 = set_auto_restart false s))
      as (s1 & w1 & -> & Hw1 & Hs1).
    { destruct (is_alive s) eqn:Halive; [|destruct (auto_restart s) eqn:Hauto].
      - unfold monitor_server. rewrite Halive. cbn [negb andb].
        unfold bind, ret, time_time.
        destruct (_ && _); eexists _, _; repeat split; done.
      - destruct (decide (max_retries ≤ _restart_count s)) as [Hn|Hn].
        + rewrite monitor_server_gives_up by done. eexists _, _; repeat split; done.
        + rewrite monitor_server_restarts by (done || lia).
          eexists _, _; repeat split; try done; lia.
      - unfold monitor_server. rewrite Halive, Hauto. cbn [negb andb].
        unfold bind, ret, time_time. rewrite Halive. cbn [andb].
        eexists _, _; repeat split; done. }
    unfold ret at 1.
    destruct (IH w1) as (d' & w' & Hrun & Hw' & Hkeys & Hd').
    unfold bind at 1. rewrite Hrun. unfold ret.
    exists ((k, s1) :: d'), w'. repeat split.
    + congruence.
    + unfold keys in *. cbn. by rewrite Hkeys.
    + intros [|i] name s0 Hi Hdead Hauto Hn.
      * injection Hi as -> ->. by rewrite Hs1.
      * by apply (Hd' i).
Qed.

Lemma monitor_pass_unfold w :
  monitor_pass w =
  match mapM (λ kv : string * ManagedServerProcess,
                s' <- monitor_server kv.2 ;; ret (kv.1, s')) (servers w) w with
  | (inr d', w') => (inr tt, mkWorld d' (clock w') (next_pid w') (trace w'))
  | (inl e, w') => (inl e, w')
  end.
Proof. done. Qed.

(** C1, amended.  When the monitor finds a dead worker with [auto_restart]
    on and at least three restarts behind it, the restart is refused; after
    the pass the worker is still registered, with [auto_restart] false and
    its process object as it was, and its status is ["crashed"] when the
    handle holds the dead child's process object and ["stopped"] only when
    it holds none.  A restart by the monitor leaves a process object in the
    handle, so a worker whose child then dies is ["crashed"].  The status
    of any handle is determined by whether its child is live and whether it
    holds a process object, and it is one of running, crashed, stopped. *)
Theorem exhausted_worker_status (w : World) (i : nat) (name : string)
    (s : ManagedServerProcess) :
  servers w !! i = Some (name, s) →
  is_alive s = false → auto_restart s = true → max_retries ≤ _restart_count s →
  restart s w = (inr (false, s), w) ∧
  (∃ w' s',
     monitor_pass w = (inr tt, w') ∧
     keys (servers w') = keys (servers w) ∧
     servers w' !! i = Some (name, s') ∧
     auto_restart s' = false ∧
     _process s' = _process s ∧
     status s' = (if bool_decide (_process s = None) then "stopped" else "crashed")) ∧
  (∀ (h : ManagedServerProcess) (w0 : World) (rc : Z),
     is_alive h = false → auto_restart h = true → _restart_count h < max_retries →
     let h' := (crash_cycle rc (h, w0)).1 in
     _process h' ≠ None ∧ status h' = "crashed") ∧
  (∀ h : ManagedServerProcess,
     status h = (if is_alive h then "running"
                 else if bool_decide (_process h = None) then "stopped"
                 else "crashed") ∧
     status h ∈ ["running"; "crashed"; "stopped"]).
Proof.
  intros Hi Hdead Hauto Hn.
  assert (∀ h : ManagedServerProcess,
            status h = (if is_alive h then "running"
                        else if bool_decide (_process h = None) then "stopped"
                        else "crashed")) as Hstatus.
  { intros h. unfold status. destruct (is_alive h); [done|].
    destruct (_process h); cbn; [done|]. by destruct (auto_restart h). }
  split_and!; [by apply restart_refused | | |].
  - destruct (monitor_pass_gives_up (servers w) w) as (d' & w' & Hrun & Hw' & Hkeys & Hd').
    exists (mkWorld d' (clock w') (next_pid w') (trace w')), (set_auto_restart false s).
    rewrite monitor_pass_unfold, Hrun. cbn [servers].
    repeat split; try done.
    + by apply Hd'.
    + rewrite Hstatus. by replace (is_alive (set_auto_restart false s)) with false.
  - intros h w0 rc Hd Ha Hc. rewrite crash_cycle_restarts by done.
    by rewrite child_exits_restarted.
  - intros h. split; [done|]. rewrite Hstatus.
    destruct (is_alive h); [set_solver|]. case_bool_decide; set_solver.
Qed.

Lemma exhausted_worker_status_witness :
  servers exhausted_world !! 0 = Some ("alpha", exhausted_worker) ∧
  is_alive exhausted_worker = false ∧ auto_restart exhausted_worker = true ∧
  max_retries ≤ _restart_count exhausted_worker ∧
  restart exhausted_worker exhausted_world = (inr (false, exhausted_worker), exhausted_world).
Proof.
  split; [reflexivity|]. split; [reflexivity|]. split; [reflexivity|].
  split; [vm_compute; lia|].
  refine (proj1 (exhausted_worker_status exhausted_world 0 "alpha" exhausted_worker
                   eq_refl eq_refl eq_refl _)).
  vm_compute. lia.
Defined.

End SupervisorProofs.
(* ===================================================================== *)
(** * Properties of the symbol cache                                      *)
(* ===================================================================== *)

Module CacheProofs.
Import Text BSL Cache.

Section WithUnicode.
Context {U : Unicode}.

(** ** Dictionaries of lists *)

Lemma dict_append_lookup {A} (k k' : str) (x : A) (d : gmap str (list A)) :
  dict_append k x d !! k' =
  if decide (k = k') then Some (default [] (d !! k) ++ [x]) else d !! k'.
Proof.
  unfold dict_append. destruct (d !! k) as [l|] eqn:Hk.
  - rewrite Hk. rewrite lookup_insert. by case_decide.
  - rewrite lookup_insert_eq. rewrite lookup_insert. case_decide; [done|].
    by rewrite lookup_insert_ne.
Qed.

Lemma lookup_foldl_delete {A} (ks : list str) : ∀ (d : gmap str A) k,
  foldl (λ d k, delete k d) d ks !! k = if decide (k ∈ ks) then None else d !! k.
Proof.
  induction ks as [|k0 ks IH]; intros d k.
  - destruct (decide (k ∈ [])) as [Hin|_]; [by apply elem_of_nil in Hin | done].
  - cbn [foldl]. rewrite IH.
    destruct (decide (k ∈ ks)) as [Hin|Hnin];
      destruct (decide (k ∈ k0 :: ks)) as [Hin'|Hnin']; try done.
    + exfalso. apply Hnin'. by right.
    + apply elem_of_cons in Hin' as [->|?]; [|done]. apply lookup_delete_eq.
    + apply lookup_delete_ne. intros ->. apply Hnin'. left.
Qed.

Lemma filter_ext_elem {A} (P1 P2 : A → Prop)
    `{!∀ x, Decision (P1 x)} `{!∀ x, Decision (P2 x)} (l : list A) :
  (∀ x, x ∈ l → P1 x ↔ P2 x) → filter P1 l = filter P2 l.
Proof.
  induction l as [|a l IH]; intros Hext; [done|].
  rewrite !filter_cons.
  rewrite IH by (intros x Hx; apply Hext; by right).
  destruct (decide (P1 a)) as [H1|H1], (decide (P2 a)) as [H2|H2]; try done.
  - exfalso. apply H2, Hext; [left | done].
  - exfalso. apply H1, Hext; [left | done].
Qed.

(** ** Popping the removed positions *)

(** Every [pop] of a run is within the list it pops from. *)
Fixpoint pops_in_range {A} (l : list A) (idxs : list nat) : Prop :=
  match idxs with
  | [] => True
  | i :: r => i < length l ∧ pops_in_range (delete i l) r
  end.

Lemma delete_snoc {A} (l : list A) x i :
  i < length l → delete i (l ++ [x]) = delete i l ++ [x].
Proof.
  revert i. induction l as [|a l IH]; intros [|i] Hi; simpl in *; try lia; [done|].
  f_equal. apply IH. lia.
Qed.

Lemma pops_snoc {A} (idxs : list nat) : ∀ (l : list A) x,
  pops_in_range l idxs →
  pops_in_range (l ++ [x]) idxs ∧
  foldl (λ ms idx, delete idx ms) (l ++ [x]) idxs =
    foldl (λ ms idx, delete idx ms) l idxs ++ [x].
Proof.
  induction idxs as [|i r IH]; intros l x; simpl; [done|].
  intros [Hi Hr]. rewrite delete_snoc by done.
  destruct (IH _ x Hr) as [? ?]. rewrite length_app. simpl. repeat split; [lia|done|done].
Qed.

Definition positions_of (fn : str) (ms : list BSLMethodInfo) : list nat :=
  filter (λ idx, filename <$> ms !! idx = Some fn) (reverse (seq 0 (length ms))).

Lemma positions_of_snoc fn ms mi :
  positions_of fn (ms ++ [mi]) =
  (if decide (filename mi = fn) then [length ms] else []) ++ positions_of fn ms.
Proof.
  unfold positions_of. rewrite length_app. simpl.
  rewrite Nat.add_1_r, seq_S, reverse_snoc. simpl.
  rewrite filter_cons.
  assert (filter (λ idx, filename <$> (ms ++ [mi]) !! idx = Some fn)
                 (reverse (seq 0 (length ms))) =
          filter (λ idx, filename <$> ms !! idx = Some fn)
                 (reverse (seq 0 (length ms)))) as ->.
  { apply filter_ext_elem. intros i Hi.
    apply elem_of_reverse, elem_of_seq in Hi.
    by rewrite lookup_app_l by lia. }
  rewrite list_lookup_middle by done. simpl.
  destruct (decide (filename mi = fn)) as [->|Hne].
  - by rewrite decide_True.
  - rewrite decide_False; [done|]. by intros [= ?].
Qed.

Lemma pops_are_filter fn (ms : list BSLMethodInfo) :
  pops_in_range ms (positions_of fn ms) ∧
  foldl (λ ms idx, delete idx ms) ms (positions_of fn ms) =
    filter (λ mi, filename mi ≠ fn) ms.
Proof.
  induction ms as [|mi ms [IHr IHf]] using rev_ind; [done|].
  rewrite positions_of_snoc, filter_app, filter_cons, filter_nil.
  destruct (decide (filename mi = fn)) as [Heq|Hne]; cbn [app foldl pops_in_range].
  - assert (delete (length ms) (ms ++ [mi]) = ms) as Hpop.
    { clear. induction ms as [|a ms IH]; [done|]. cbn. by f_equal. }
    rewrite Hpop.
    rewrite decide_False by (by intros ?). rewrite app_nil_r, length_app.
    cbn [length]. repeat split; [lia|done|done].
  - rewrite decide_True by done.
    destruct (pops_snoc _ ms mi IHr) as [? ->]. by rewrite IHf.
Qed.

(** ** The three method indices *)

Definition indices : Type := gmap str (list nat) * gmap str (list nat) * list nat.

Definition indices_of (c : BSLCache) : indices :=
  (_method_name_index c, _method_module_index c, _method_export_index c).

(** What indexing one method at position [idx] does to the indices *)
Definition index_step (t : indices) (p : nat * BSLMethodInfo) : indices :=
  (dict_append (lower (name (method p.2))) p.1 t.1.1,
   if bool_decide (module p.2 ≠ []) then dict_append (lower (module p.2)) p.1 t.1.2
   else t.1.2,
   if is_export (method p.2) then t.2 ++ [p.1] else t.2).

(** The indices of a method list, built from scratch *)
Definition build (ms : list BSLMethodInfo) : indices :=
  foldl index_step (∅, ∅, []) (imap (λ idx mi, (idx, mi)) ms).

Lemma build_snoc ms mi : build (ms ++ [mi]) = index_step (build ms) (length ms, mi).
Proof.
  unfold build. rewrite imap_app, foldl_app. cbn [imap foldl].
  by rewrite Nat.add_0_r.
Qed.

Lemma rebuild_fold (l : list (nat * BSLMethodInfo)) : ∀ c0,
  let c1 :=
    foldl (λ c '(idx, method_info),
      let m := method method_info in
      let name_index' := dict_append (lower (name m)) idx (_method_name_index c) in
      let module_index' :=
        if bool_decide (module method_info ≠ [])
        then dict_append (lower (module method_info)) idx (_method_module_index c)
        else _method_module_index c in
      let export_index' :=
        if is_export m then _method_export_index c ++ [idx] else _method_export_index c in
      mkCache (cache_methods c) (cache_module_vars c) (cache_calls c) (cache_modules c)
              name_index' module_index' export_index') c0 l in
  cache_methods c1 = cache_methods c0 ∧
  cache_module_vars c1 = cache_module_vars c0 ∧
  cache_calls c1 = cache_calls c0 ∧
  cache_modules c1 = cache_modules c0 ∧
  indices_of c1 = foldl index_step (indices_of c0) l.
Proof.
  induction l as [|[idx mi] l IH]; intros c0; [done|].
  cbn [foldl]. cbn zeta in IH |- *.
  destruct (IH (mkCache (cache_methods c0) (cache_module_vars c0) (cache_calls c0)
                  (cache_modules c0)
                  (dict_append (lower (name (method mi))) idx (_method_name_index c0))
                  (if bool_decide (module mi ≠ [])
                   then dict_append (lower (module mi)) idx (_method_module_index c0)
                   else _method_module_index c0)
                  (if is_export (method mi) then _method_export_index c0 ++ [idx]
                   else _method_export_index c0)))
    as (-> & -> & -> & -> & ->).
  done.
Qed.

Lemma rebuild_indices_spec c :
  cache_methods (_rebuild_indices c) = cache_methods c ∧
  cache_module_vars (_rebuild_indices c) = cache_module_vars c ∧
  cache_calls (_rebuild_indices c) = cache_calls c ∧
  cache_modules (_rebuild_indices c) = cache_modules c ∧
  indices_of (_rebuild_indices c) = build (cache_methods c).
Proof.
  pose proof (rebuild_fold (imap (λ idx mi, (idx, mi)) (cache_methods c))
                (mkCache (cache_methods c) (cache_module_vars c) (cache_calls c)
                         (cache_modules c) ∅ ∅ [])) as Hfold.
  cbn zeta in Hfold. exact Hfold.
Qed.

(** The positions of the methods that satisfy [p], in increasing order *)
Definition positions (p : BSLMethodInfo → bool) (ms : list BSLMethodInfo) : list nat :=
  filter (λ i, p <$> ms !! i = Some true) (seq 0 (length ms)).

Lemma positions_snoc p ms mi :
  positions p (ms ++ [mi]) = positions p ms ++ (if p mi then [length ms] else []).
Proof.
  unfold positions. rewrite length_app. cbn [length].
  rewrite Nat.add_1_r, seq_S, filter_app. f_equal.
  - apply filter_ext_elem. intros i Hi. apply elem_of_seq in Hi.
    by rewrite lookup_app_l by lia.
  - cbn [Nat.add]. rewrite filter_cons, filter_nil.
    rewrite list_lookup_middle by done. cbn.
    destruct (p mi); [by rewrite decide_True | by rewrite decide_False].
Qed.

Lemma elem_of_positions p ms i :
  i ∈ positions p ms ↔ ∃ mi, ms !! i = Some mi ∧ p mi = true.
Proof.
  unfold positions. rewrite list_elem_of_filter, elem_of_seq. split.
  - intros [Hp _]. destruct (ms !! i) as [mi|]; [|done].
    exists mi. split; [done|]. by injection Hp.
  - intros (mi & Hi & Hp). rewrite Hi. cbn. rewrite Hp. split; [done|].
    apply lookup_lt_Some in Hi. lia.
Qed.

Lemma NoDup_positions p ms : NoDup (positions p ms).
Proof. apply NoDup_filter, NoDup_seq. Qed.

(** [Some l] for a non-empty list, no entry for the empty one *)
Definition entry (l : list nat) : option (list nat) :=
  match l with [] => None | _ => Some l end.

Lemma entry_snoc (o : option (list nat)) l i :
  o = entry l → Some (default [] o ++ [i]) = entry (l ++ [i]).
Proof. intros ->. by destruct l. Qed.

Definition by_name (k : str) (mi : BSLMethodInfo) : bool :=
  bool_decide (lower (name (method mi)) = k).

Definition by_module (k : str) (mi : BSLMethodInfo) : bool :=
  bool_decide (module mi ≠ []) && bool_decide (lower (module mi) = k).

Definition exported (mi : BSLMethodInfo) : bool := is_export (method mi).

Lemma build_spec ms :
  (∀ k, (build ms).1.1 !! k = entry (positions (by_name k) ms)) ∧
  (∀ k, (build ms).1.2 !! k = entry (positions (by_module k) ms)) ∧
  (build ms).2 = positions exported ms.
Proof.
  induction ms as [|mi ms (IHn & IHm & IHe)] using rev_ind.
  - repeat split; intros; apply lookup_empty.
  - rewrite build_snoc. unfold index_step. cbn [fst snd]. repeat split.
    + intros k. rewrite positions_snoc, dict_append_lookup. unfold by_name at 2.
      case_decide as Hk.
      * rewrite bool_decide_eq_true_2 by done. subst k. by apply entry_snoc.
      * rewrite bool_decide_eq_false_2 by done. by rewrite app_nil_r.
    + intros k. rewrite positions_snoc. unfold by_module at 2.
      case_bool_decide as Hmod; cbn [andb].
      * rewrite dict_append_lookup. case_decide as Hk.
        -- rewrite bool_decide_eq_true_2 by done. subst k. by apply entry_snoc.
        -- rewrite bool_decide_eq_false_2 by done. by rewrite app_nil_r.
      * by rewrite app_nil_r.
    + rewrite positions_snoc, IHe. unfold exported.
      destruct (is_export (method mi)); [done | by rewrite app_nil_r].
Qed.

(** A cache whose indices are those of its method list *)
Definition indices_fresh (c : BSLCache) : Prop :=
  indices_of c = build (cache_methods c).

(** Index validity, as the specification words it: every index entry is a
    position of [methods] that belongs there, every method is in each
    index that should contain it, no position is listed twice and no key
    is left with an empty list. *)
Definition index_consistent (c : BSLCache) : Prop :=
  (∀ k i, i ∈ default [] (_method_name_index c !! k) ↔
          ∃ mi, cache_methods c !! i = Some mi ∧ lower (name (method mi)) = k) ∧
  (∀ k i, i ∈ default [] (_method_module_index c !! k) ↔
          ∃ mi, cache_methods c !! i = Some mi ∧
                module mi ≠ [] ∧ lower (module mi) = k) ∧
  (∀ i, i ∈ _method_export_index c ↔
        ∃ mi, cache_methods c !! i = Some mi ∧ is_export (method mi) = true) ∧
  (∀ k l, _method_name_index c !! k = Some l → l ≠ [] ∧ NoDup l) ∧
  (∀ k l, _method_module_index c !! k = Some l → l ≠ [] ∧ NoDup l) ∧
  NoDup (_method_export_index c).

Lemma default_entry l : default [] (entry l) = l.
Proof. by destruct l. Qed.

Lemma entry_Some l l' : entry l = Some l' → l' = l ∧ l ≠ [].
Proof. destruct l; [done|]. by intros [= <-]. Qed.

Lemma indices_fresh_consistent c : indices_fresh c → index_consistent c.
Proof.
  unfold indices_fresh, indices_of. intros Hfresh.
  destruct (build_spec (cache_methods c)) as (Hn & Hm & He).
  rewrite <- Hfresh in Hn, Hm, He. cbn [fst snd] in Hn, Hm, He.
  repeat split.
  - rewrite Hn, default_entry. intros (mi & ? & Hp)%elem_of_positions.
    exists mi. split; [done|]. by apply bool_decide_eq_true in Hp.
  - intros (mi & ? & Hp). rewrite Hn, default_entry.
    apply elem_of_positions. exists mi. split; [done|]. by apply bool_decide_eq_true.
  - rewrite Hm, default_entry. intros (mi & ? & Hp)%elem_of_positions.
    exists mi. split; [done|].
    apply andb_true_iff in Hp as [H1 H2].
    by apply bool_decide_eq_true in H1, H2.
  - intros (mi & ? & H1 & H2). rewrite Hm, default_entry.
    apply elem_of_positions. exists mi. split; [done|].
    apply andb_true_iff. by split; apply bool_decide_eq_true.
  - rewrite He. intros (mi & ? & Hp)%elem_of_positions. by exists mi.
  - intros (mi & ? & Hp). rewrite He. apply elem_of_positions. by exists mi.
  - rewrite Hn in H. by apply entry_Some in H as [-> ?].
  - rewrite Hn in H. apply entry_Some in H as [-> _]. apply NoDup_positions.
  - rewrite Hm in H. by apply entry_Some in H as [-> ?].
  - rewrite Hm in H. apply entry_Some in H as [-> _]. apply NoDup_positions.
  - rewrite He. apply NoDup_positions.
Qed.

(** Replace the fields of a rebuilt cache by those of the cache it was
    rebuilt from. *)
Ltac rebuilt_fields :=
  match goal with
  | |- context [_rebuild_indices ?c0] =>
      let Hm := fresh "Hm" in
      let Hv := fresh "Hv" in
      let Hc := fresh "Hc" in
      let Hd := fresh "Hd" in
      destruct (rebuild_indices_spec c0) as (Hm & Hv & Hc & Hd & _);
      rewrite ?Hm, ?Hv, ?Hc, ?Hd; clear Hm Hv Hc Hd
  end.

(** ** Every operation keeps the indices fresh *)

Lemma add_method_fresh m fn md c : indices_fresh c → indices_fresh (add_method m fn md c).
Proof.
  unfold indices_fresh. intros Hfresh. cbn [add_method cache_methods].
  rewrite build_snoc, <- Hfresh. done.
Qed.

Lemma add_methods_batch_fold l c :
  add_methods_batch l c = foldl (λ c '(m, fn, md), add_method m fn md c) c l.
Proof. done. Qed.

Lemma add_methods_batch_fresh l : ∀ c,
  indices_fresh c → indices_fresh (add_methods_batch l c).
Proof.
  induction l as [|[[m fn] md] l IH]; intros c Hc; [done|].
  rewrite add_methods_batch_fold. cbn [foldl]. rewrite <- add_methods_batch_fold.
  by apply IH, add_method_fresh.
Qed.

Lemma add_module_vars_batch_fresh l : ∀ c,
  indices_fresh c → indices_fresh (add_module_vars_batch l c).
Proof.
  induction l as [|[v fn] l IH]; intros c Hc; [done|].
  unfold add_module_vars_batch. cbn [foldl]. by apply IH.
Qed.

Lemma add_calls_batch_fresh l : ∀ c,
  indices_fresh c → indices_fresh (add_calls_batch l c).
Proof.
  induction l as [|[[[cp fn] mn] md] l IH]; intros c Hc; [done|].
  unfold add_calls_batch. cbn [foldl]. by apply IH.
Qed.

Lemma remove_file_data_fresh fn c : indices_fresh (remove_file_data fn c).
Proof.
  unfold indices_fresh, remove_file_data, indices_of. cbn [cache_methods
    _method_name_index _method_module_index _method_export_index].
  match goal with |- context [_rebuild_indices ?c0] =>
    destruct (rebuild_indices_spec c0) as (-> & _ & _ & _ & Hidx) end.
  exact Hidx.
Qed.

Lemma apply_op_fresh c o : indices_fresh c → indices_fresh (apply_op c o).
Proof.
  destruct o; cbn [apply_op]; intros Hc; try done.
  - by apply add_method_fresh.
  - by apply add_methods_batch_fresh.
  - by apply add_module_vars_batch_fresh.
  - by apply add_calls_batch_fresh.
  - apply remove_file_data_fresh.
Qed.

Lemma run_ops_fresh ops : indices_fresh (run_ops ops).
Proof.
  unfold run_ops. assert (indices_fresh empty_cache) as H0 by done.
  revert H0. generalize empty_cache.
  induction ops as [|o ops IH]; intros c Hc; [done|].
  cbn [foldl]. by apply IH, apply_op_fresh.
Qed.

(** ** What [remove_file_data] leaves *)

Lemma remove_file_data_methods fn c :
  cache_methods (remove_file_data fn c) = filter (λ mi, filename mi ≠ fn) (cache_methods c).
Proof.
  unfold remove_file_data. cbn [cache_methods].
  rebuilt_fields.
  cbn [cache_methods]. apply (pops_are_filter fn (cache_methods c)).
Qed.

Lemma remove_file_data_module_vars fn c :
  cache_module_vars (remove_file_data fn c) = delete fn (cache_module_vars c).
Proof.
  unfold remove_file_data. cbn [cache_module_vars].
  rebuilt_fields.
  done.
Qed.

Lemma remove_file_data_modules fn c :
  cache_modules (remove_file_data fn c) =
  filter (λ mi, mod_filename mi ≠ fn) (cache_modules c).
Proof.
  unfold remove_file_data. cbn [cache_modules].
  rebuilt_fields.
  done.
Qed.

Lemma remove_file_data_calls fn c k :
  cache_calls (remove_file_data fn c) !! k =
  match cache_calls c !! k with
  | Some l => match filter (λ ci, ci_filename ci ≠ fn) l with
              | [] => None
              | l' => Some l'
              end
  | None => None
  end.
Proof.
  unfold remove_file_data. cbn [cache_calls].
  rebuilt_fields.
  cbn [cache_calls]. set (d := cache_calls c).
  rewrite lookup_foldl_delete, lookup_fmap.
  case_decide as Hin.
  - apply list_elem_of_fmap in Hin as ([k' l] & -> & Hin).
    apply list_elem_of_filter in Hin as [Hempty Hin].
    apply elem_of_map_to_list in Hin. cbn [fst snd] in *.
    by rewrite Hin, Hempty.
  - destruct (d !! k) as [l|] eqn:Hk; [|done]. cbn.
    destruct (filter (λ ci, ci_filename ci ≠ fn) l) as [|ci l'] eqn:Hf; [|done].
    exfalso. apply Hin. apply list_elem_of_fmap. exists (k, l). split; [done|].
    apply list_elem_of_filter. split; [done|]. by apply elem_of_map_to_list.
Qed.

(** C3.  After [remove_file_data f], whatever the cache was: no method, no
    module-variable entry, no call and no module record with filename [f]
    remains (the other records stay, in order); no call-map key maps to an
    empty list; and the three method indices hold exactly the positions of
    the surviving methods.  The indices are consistent after every sequence
    of add, remove and clear operations on a new cache. *)
Theorem remove_file_data_sound (c : BSLCache) (f : str) :
  let c' := remove_file_data f c in
  cache_methods c' = filter (λ mi, filename mi ≠ f) (cache_methods c) ∧
  (∀ mi, mi ∈ cache_methods c' → filename mi ≠ f) ∧
  cache_module_vars c' !! f = None ∧
  (∀ k l, cache_calls c' !! k = Some l →
     l ≠ [] ∧ (∀ ci, ci ∈ l → ci_filename ci ≠ f) ∧
     ∃ l0, cache_calls c !! k = Some l0 ∧ l = filter (λ ci, ci_filename ci ≠ f) l0) ∧
  cache_modules c' = filter (λ mi, mod_filename mi ≠ f) (cache_modules c) ∧
  (∀ mi, mi ∈ cache_modules c' → mod_filename mi ≠ f) ∧
  index_consistent c' ∧
  (∀ ops : list cache_op, index_consistent (run_ops ops)).
Proof.
  cbn zeta. split_and!.
  - apply remove_file_data_methods.
  - intros mi. rewrite remove_file_data_methods.
    by intros Hin%list_elem_of_filter%proj1.
  - rewrite remove_file_data_module_vars. apply lookup_delete_eq.
  - intros k l Hl. rewrite remove_file_data_calls in Hl.
    destruct (cache_calls c !! k) as [l0|]; [|done].
    destruct (filter _ l0) as [|ci0 l1] eqn:Hf; [done|]. injection Hl as <-.
    split_and!; [done | | by exists l0].
    intros ci Hci. rewrite <- Hf in Hci. by apply list_elem_of_filter in Hci as [? _].
  - apply remove_file_data_modules.
  - intros mi. rewrite remove_file_data_modules.
    by intros Hin%list_elem_of_filter%proj1.
  - apply indices_fresh_consistent, remove_file_data_fresh.
  - intros ops. apply indices_fresh_consistent, run_ops_fresh.
Qed.

End WithUnicode.

End CacheProofs.

(* ===================================================================== *)
(** * Properties of the fingerprint                                       *)
(* ===================================================================== *)

Module FingerprintProofs.
Import Text Fingerprint.

(** ** The two transformations of a text that the specification names *)

(** "T with every CR+LF replaced by LF" *)
Definition crlf_to_lf (T : str) : str := replace [CR; LF] [LF] T.

(** "T with every lone CR replaced by LF": a CR is lone when no LF
    follows it. *)
Fixpoint lone_cr_to_lf (T : str) : str :=
  match T with
  | [] => []
  | c :: T' =>
      (if bool_decide (c = CR) && negb (bool_decide (head T' = Some LF)) then LF else c)
        :: lone_cr_to_lf T'
  end.

(** Does a CR stand immediately before a CR+LF pair? *)
Fixpoint has_cr_crlf (T : str) : bool :=
  match T with
  | [] => false
  | c :: T' =>
      (bool_decide (c = CR) && bool_decide (take 2 T' = [CR; LF])) || has_cr_crlf T'
  end.

Fixpoint has_crlf (T : str) : bool :=
  match T with
  | [] => false
  | c :: T' => (bool_decide (c = CR) && bool_decide (head T' = Some LF)) || has_crlf T'
  end.

(** ** The two [replace] calls, step by step *)

Lemma replace_crlf_nil : replace [CR; LF] [LF] [] = [].
Proof. done. Qed.

Lemma replace_crlf_pair s :
  replace [CR; LF] [LF] (CR :: LF :: s) = LF :: replace [CR; LF] [LF] s.
Proof.
  unfold replace. cbn [replace_from].
  rewrite bool_decide_eq_true_2; [done|]. by exists s.
Qed.

Lemma replace_crlf_other c s :
  ¬ (c = CR ∧ head s = Some LF) →
  replace [CR; LF] [LF] (c :: s) = c :: replace [CR; LF] [LF] s.
Proof.
  intros Hno. unfold replace. cbn [replace_from].
  rewrite bool_decide_eq_false_2; [done|].
  intros [k Hk]. injection Hk as -> ->. by apply Hno.
Qed.

Lemma replace_cr s :
  replace [CR] [LF] s = (λ c, if bool_decide (c = CR) then LF else c) <$> s.
Proof.
  unfold replace. induction s as [|c s IH]; [done|].
  cbn [replace_from length Nat.sub]. rewrite fmap_cons.
  destruct (decide (c = CR)) as [->|Hc].
  - rewrite !bool_decide_eq_true_2; [|done|by eexists]. cbn [app]. by rewrite IH.
  - rewrite (bool_decide_eq_false_2 (c = CR)) by done.
    rewrite bool_decide_eq_false_2; [by rewrite IH|].
    intros [k Hk]. by injection Hk as -> _.
Qed.

Lemma replace_crlf_id s : has_crlf s = false → replace [CR; LF] [LF] s = s.
Proof.
  induction s as [|c s IH]; [done|]. cbn [has_crlf].
  intros [Hc Hs]%orb_false_iff.
  rewrite replace_crlf_other, IH; [done | done |].
  intros [-> Hh]. by rewrite !bool_decide_eq_true_2 in Hc.
Qed.

(** ** Idempotence *)

Lemma normalise_no_cr s : CR ∉ normalise s.
Proof.
  unfold normalise. rewrite replace_cr. intros Hin.
  apply list_elem_of_fmap in Hin as (c & Hc & _). by case_bool_decide.
Qed.

Lemma normalise_id s : CR ∉ s → normalise s = s.
Proof.
  intros Hno. unfold normalise.
  assert (has_crlf s = false) as Hcrlf.
  { induction s as [|c s IH]; [done|]. apply not_elem_of_cons in Hno as [Hc Hs].
    cbn [has_crlf]. rewrite IH by done. by rewrite bool_decide_eq_false_2. }
  rewrite replace_crlf_id by done. rewrite replace_cr.
  induction s as [|c s IH]; [done|]. apply not_elem_of_cons in Hno as [Hc Hs].
  cbn in Hcrlf. apply orb_false_iff in Hcrlf as [_ Hcrlf].
  cbn. rewrite bool_decide_eq_false_2 by done. f_equal. by apply IH.
Qed.

Lemma normalise_idempotent s : normalise (normalise s) = normalise s.
Proof. apply normalise_id, normalise_no_cr. Qed.

(** ** Replacing lone CRs first *)

Lemma normalise_lone_cr_to_lf T : normalise (lone_cr_to_lf T) = normalise T.
Proof.
  unfold normalise. rewrite !replace_cr.
  remember (length T) as n eqn:Hn. revert T Hn.
  induction n as [n IH] using lt_wf_ind. intros T Hn.
  destruct T as [|c T]; [done|]. cbn [lone_cr_to_lf].
  destruct (decide (c = CR)) as [->|Hc].
  - rewrite (bool_decide_eq_true_2 (CR = CR)) by done. cbn [andb].
    destruct T as [|x T].
    + by cbn.
    + destruct (decide (x = LF)) as [->|Hx].
      * rewrite bool_decide_eq_true_2 by done. cbn [negb lone_cr_to_lf].
        rewrite (bool_decide_eq_false_2 (LF = CR)) by done. cbn [andb].
        rewrite !replace_crlf_pair. cbn [fmap list_fmap]. f_equal.
        apply (IH (length T)); [subst n; cbn; lia | done].
      * rewrite bool_decide_eq_false_2 by (cbn; congruence). cbn [negb].
        rewrite (replace_crlf_other LF) by (by intros [? _]).
        rewrite (replace_crlf_other CR) by (cbn; intros [_ ?]; congruence).
        cbn [fmap list_fmap]. f_equal.
        apply (IH (length (x :: T))); [subst n; cbn; lia | done].
  - rewrite (bool_decide_eq_false_2 (c = CR)) by done. cbn [andb].
    rewrite !replace_crlf_other by (by intros [? _]).
    cbn [fmap list_fmap]. f_equal.
    apply (IH (length T)); [subst n; cbn; lia | done].
Qed.

(** ** Replacing CR+LF first *)

Lemma crlf_to_lf_no_crlf T : has_cr_crlf T = false → has_crlf (crlf_to_lf T) = false.
Proof.
  unfold crlf_to_lf.
  remember (length T) as n eqn:Hn. revert T Hn.
  induction n as [n IH] using lt_wf_ind. intros T Hn Hno.
  destruct T as [|c T]; [done|].
  cbn [has_cr_crlf] in Hno. apply orb_false_iff in Hno as [Hhere Hno].
  destruct (decide (c = CR)) as [->|Hc].
  - rewrite (bool_decide_eq_true_2 (CR = CR)) in Hhere by done. cbn [andb] in Hhere.
    apply bool_decide_eq_false in Hhere.
    destruct T as [|x T]; [done|].
    destruct (decide (x = LF)) as [->|Hx].
    + rewrite replace_crlf_pair. cbn [has_crlf].
      rewrite (bool_decide_eq_false_2 (LF = CR)) by done. cbn [andb orb].
      cbn [has_cr_crlf] in Hno. apply orb_false_iff in Hno as [_ Hno].
      apply (IH (length T)); [subst n; cbn; lia | done | done].
    + rewrite (replace_crlf_other CR) by (cbn; intros [_ ?]; congruence).
      cbn [has_crlf]. rewrite (IH (length (x :: T))); [| subst n; cbn; lia | done | done].
      rewrite orb_false_r. apply andb_false_iff. right. apply bool_decide_eq_false.
      (* what follows the kept CR is the image of [x :: T], whose head is not LF *)
      destruct (decide (x = CR)) as [->|Hxc].
      * destruct T as [|y T]; [done|].
        destruct (decide (y = LF)) as [->|Hy]; [by exfalso; apply Hhere|].
        by rewrite (replace_crlf_other CR) by (cbn; intros [_ ?]; congruence).
      * rewrite replace_crlf_other by (by intros [? _]). cbn. congruence.
  - rewrite replace_crlf_other by (by intros [? _]). cbn [has_crlf].
    rewrite (bool_decide_eq_false_2 (c = CR)) by done. cbn [andb orb].
    apply (IH (length T)); [subst n; cbn; lia | done | done].
Qed.

Lemma normalise_crlf_to_lf T :
  has_cr_crlf T = false → normalise (crlf_to_lf T) = normalise T.
Proof.
  intros Hno. unfold normalise. fold (crlf_to_lf (crlf_to_lf T)). fold (crlf_to_lf T).
  f_equal. unfold crlf_to_lf at 1. by apply replace_crlf_id, crlf_to_lf_no_crlf.
Qed.

(** Reading the file already normalises its newlines, so the fingerprint
    of a file is the fingerprint of its text. *)
Lemma file_hash_content_hash T : _compute_file_hash (Some T) = content_hash T.
Proof.
  unfold _compute_file_hash, content_hash, read_text. cbn zeta.
  fold (normalise T). fold (normalise (normalise T)).
  by rewrite normalise_idempotent.
Qed.

(** C4, as the claim states it, fails on the text CR CR LF: replacing its
    CR+LF pair gives CR LF, whose normal form is one LF, while the text
    itself (and the text with its lone CR replaced) normalises to two. *)
Lemma hash_stability_counterexample :
  let T := [CR; CR; LF] in
  crlf_to_lf T = [CR; LF] ∧
  lone_cr_to_lf T = [LF; CR; LF] ∧
  normalise (crlf_to_lf T) = [LF] ∧
  normalise T = [LF; LF] ∧
  content_hash (crlf_to_lf T) = u "68b329da9893e34099c7d8ad5cb9c940" ∧
  content_hash T = u "e1c06d85ae7b8b032bef47e42e4c08f9" ∧
  content_hash (crlf_to_lf T) ≠ content_hash (lone_cr_to_lf T) ∧
  content_hash (crlf_to_lf T) ≠ content_hash T ∧
  _compute_file_hash (Some (crlf_to_lf T)) ≠ _compute_file_hash (Some T).
Proof.
  cbn zeta. split_and!; try (vm_compute; reflexivity); vm_compute; discriminate.
Qed.

(** C4, amended.  The fingerprint of a text T equals the fingerprint of T
    with every lone CR replaced by LF, and it equals the fingerprint of T
    with every CR+LF replaced by LF whenever no CR stands immediately
    before a CR+LF pair in T.  Normalisation is idempotent, so
    hash(norm(x)) = hash(norm(norm(x))) for every x, and a normalised text
    contains no CR. *)
Theorem hash_stability (T : str) :
  content_hash (lone_cr_to_lf T) = content_hash T ∧
  _compute_file_hash (Some (lone_cr_to_lf T)) = _compute_file_hash (Some T) ∧
  (has_cr_crlf T = false →
     content_hash (crlf_to_lf T) = content_hash T ∧
     _compute_file_hash (Some (crlf_to_lf T)) = _compute_file_hash (Some T)) ∧
  normalise (normalise T) = normalise T ∧
  MD5.hexdigest (encode_utf8 (normalise T)) =
    MD5.hexdigest (encode_utf8 (normalise (normalise T))) ∧
  content_hash (normalise T) = content_hash T ∧
  CR ∉ normalise T.
Proof.
  rewrite !file_hash_content_hash. unfold content_hash. split_and!.
  - by rewrite normalise_lone_cr_to_lf.
  - by rewrite normalise_lone_cr_to_lf.
  - intros Hno. by rewrite normalise_crlf_to_lf.
  - apply normalise_idempotent.
  - by rewrite normalise_idempotent.
  - by rewrite normalise_idempotent.
  - apply normalise_no_cr.
Qed.

Lemma hash_stability_witness :
  has_cr_crlf [97; CR; LF; 98; CR; 99]%N = false ∧
  content_hash (crlf_to_lf [97; CR; LF; 98; CR; 99]%N) =
    content_hash [97; CR; LF; 98; CR; 99]%N.
Proof.
  split; [reflexivity|].
  exact (proj1 (proj1 (proj2 (proj2 (hash_stability [97; CR; LF; 98; CR; 99]%N))) eq_refl)).
Defined.

End FingerprintProofs.

(* ===================================================================== *)
(** * Properties of the cache statistics file                             *)
(* ===================================================================== *)

Module StatsProofs.
Import Text Cache Stats.

Lemma obj_get_snoc k v fields : obj_get k (fields ++ [(k, v)]) = Some v.
Proof.
  unfold obj_get. rewrite foldl_app. cbn [foldl fst snd].
  by rewrite bool_decide_eq_true_2.
Qed.

(** The [bsl] block of a written document *)
Lemma written_bsl n lang now bsl :
  obj_get (u "bsl")
    [ (u "indexed_files", JInt n); (u "language", JStr lang);
      (u "last_updated", JStr now); (u "bsl", bsl) ] = Some bsl.
Proof.
  apply (obj_get_snoc (u "bsl") bsl
           [ (u "indexed_files", JInt n); (u "language", JStr lang);
             (u "last_updated", JStr now) ]).
Qed.

Lemma previous_bsl_counted fields bsl_fields (n : nat) :
  obj_get (u "bsl") fields = Some (JObj bsl_fields) →
  obj_get (u "methods") bsl_fields = Some (JInt (Z.of_nat n)) →
  n ≠ 0 →
  previous_bsl (JObj fields) = inr (Some (JObj bsl_fields)).
Proof.
  intros Hbsl Hmethods Hn. unfold previous_bsl. rewrite Hbsl.
  assert (truthy (JObj bsl_fields) = true) as ->.
  { destruct bsl_fields; [done|done]. }
  rewrite Hmethods. cbn -[Z.ltb Z.of_nat].
  by rewrite (proj2 (Z.ltb_lt 0 (Z.of_nat n))) by lia.
Qed.

(** C9.  With the dirty flag set, an in-memory symbol cache that reports
    zero methods, and a previous statistics file whose [bsl] block has a
    method count other than zero, the document that is written carries the
    previous [bsl] block unchanged (and differs from the in-memory counts);
    with the dirty flag clear the file is not touched, whatever the other
    inputs are. *)
Theorem save_cache_stats_preserves (local_cache : BSLCache)
    (fields bsl_fields : list (str * json)) (n : nat)
    (indexed_files : nat) (language_id now : str) :
  stat_methods (get_stats local_cache) = 0 →
  obj_get (u "bsl") fields = Some (JObj bsl_fields) →
  obj_get (u "methods") bsl_fields = Some (JInt (Z.of_nat n)) →
  n ≠ 0 →
  (∃ document,
     _save_cache_stats true local_cache (Some (Some (JObj fields)))
                       indexed_files language_id now true = Wrote document ∧
     document = JObj [ (u "indexed_files", JInt (Z.of_nat indexed_files));
                       (u "language", JStr language_id);
                       (u "last_updated", JStr now);
                       (u "bsl", JObj bsl_fields) ] ∧
     (∀ doc_fields, document = JObj doc_fields →
        obj_get (u "bsl") doc_fields = Some (JObj bsl_fields)) ∧
     JObj bsl_fields ≠ stats_dict (get_stats local_cache)) ∧
  (∀ writable document,
     _save_cache_stats true local_cache (Some (Some (JObj fields)))
                       indexed_files language_id now writable = Wrote document →
     ∃ doc_fields, document = JObj doc_fields ∧
                   obj_get (u "bsl") doc_fields = Some (JObj bsl_fields)) ∧
  (∀ cache' stats_file' indexed' language' now' writable',
     _save_cache_stats false cache' stats_file' indexed' language' now' writable'
       = NotAttempted).
Proof.
  intros Hzero Hbsl Hmethods Hn.
  assert (∀ writable,
            _save_cache_stats true local_cache (Some (Some (JObj fields)))
                              indexed_files language_id now writable =
            if writable then
              Wrote (JObj [ (u "indexed_files", JInt (Z.of_nat indexed_files));
                            (u "language", JStr language_id);
                            (u "last_updated", JStr now);
                            (u "bsl", JObj bsl_fields) ])
            else Failed) as Hrun.
  { intros writable. unfold _save_cache_stats. cbn [negb].
    rewrite bool_decide_eq_true_2 by done.
    by rewrite (previous_bsl_counted fields bsl_fields n). }
  split_and!.
  - eexists. split; [apply (Hrun true)|]. split_and!; [done | |].
    + intros doc_fields [= <-]. apply written_bsl.
    + unfold stats_dict. rewrite Hzero. intros [= ->].
      unfold obj_get in Hmethods. cbn [foldl fst snd] in Hmethods.
      repeat match type of Hmethods with
             | context [bool_decide (?a = ?b)] =>
                 let v := eval vm_compute in (bool_decide (a = b)) in
                 change (bool_decide (a = b)) with v in Hmethods
             end.
      injection Hmethods as Hm. lia.
  - intros writable document. rewrite Hrun. destruct writable; [|done].
    intros [= <-]. eexists. split; [done|]. apply written_bsl.
  - done.
Qed.

(** A statistics file left by an earlier run, found after a restart *)
Definition previous_bsl_block : list (str * json) :=
  [ (u "methods", JInt 12); (u "exported_methods", JInt 4);
    (u "module_vars", JInt 2); (u "calls", JInt 31);
    (u "unique_calls", JInt 9); (u "modules", JInt 3) ].

Definition previous_stats_file : list (str * json) :=
  [ (u "indexed_files", JInt 3); (u "language", JStr (u "bsl"));
    (u "last_updated", JStr (u "2025-01-01T00:00:00+00:00"));
    (u "bsl", JObj previous_bsl_block) ].

Lemma save_cache_stats_preserves_witness :
  stat_methods (get_stats empty_cache) = 0 ∧
  obj_get (u "bsl") previous_stats_file = Some (JObj previous_bsl_block) ∧
  obj_get (u "methods") previous_bsl_block = Some (JInt (Z.of_nat 12)) ∧
  12 ≠ 0 ∧
  ∀ writable document,
    _save_cache_stats true empty_cache (Some (Some (JObj previous_stats_file)))
                      3 (u "bsl") (u "2025-06-01T00:00:00+00:00") writable
      = Wrote document →
    ∃ doc_fields, document = JObj doc_fields ∧
                  obj_get (u "bsl") doc_fields = Some (JObj previous_bsl_block).
Proof.
  assert (stat_methods (get_stats empty_cache) = 0) as H1 by reflexivity.
  assert (obj_get (u "bsl") previous_stats_file = Some (JObj previous_bsl_block))
    as H2 by (vm_compute; reflexivity).
  assert (obj_get (u "methods") previous_bsl_block = Some (JInt (Z.of_nat 12)))
    as H3 by (vm_compute; reflexivity).
  assert (12 ≠ 0) as H4 by lia.
  split; [exact H1|]. split; [exact H2|]. split; [exact H3|]. split; [exact H4|].
  exact (proj1 (proj2 (save_cache_stats_preserves empty_cache previous_stats_file
                         previous_bsl_block 12 3 (u "bsl")
                         (u "2025-06-01T00:00:00+00:00") H1 H2 H3 H4))).
Defined.

End StatsProofs.

(* ===================================================================== *)
(** * Properties of the matcher                                           *)
(* ===================================================================== *)

Module RegexProofs.
Import Text Regex.

Section WithUnicode.
Context {U : Unicode}.

(** The cursors of one subject string: index plus remaining length is the
    length of the subject. *)
Definition on_track (total : nat) (c : cursor) : Prop :=
  pos c + length (rest c) = total.

Definition total_of (c : cursor) : nat := pos c + length (rest c).

Lemma on_track_step c x r :
  rest c = x :: r → on_track (total_of c) (mkCursor (S (pos c)) (Some x) r).
Proof. unfold on_track, total_of. intros ->. cbn. lia. Qed.

(** The body of a starred pattern, as [match_re] passes it on *)
Definition body_of {R} (r : re)
    : cursor → captures → continuation R → option R :=
  λ c caps k, match_re r c caps k.

(** ** A match ends at a cursor of the same subject, not to the left *)

Definition reaches {R} (c : cursor) (k : continuation R) (x : R) : Prop :=
  ∃ c' caps', on_track (total_of c) c' ∧ pos c ≤ pos c' ∧ k c' caps' = Some x.

Lemma reaches_here {R} c caps (k : continuation R) x : k c caps = Some x → reaches c k x.
Proof. intros Hk. exists c, caps. by repeat split. Qed.

Lemma reaches_step {R} c x0 r caps (k : continuation R) x :
  rest c = x0 :: r →
  k (mkCursor (S (pos c)) (Some x0) r) caps = Some x → reaches c k x.
Proof.
  intros Hrest Hk. eexists _, caps. split; [by apply on_track_step|].
  split; [cbn; lia | done].
Qed.

Lemma reaches_trans {R} c c1 (k : continuation R) x :
  on_track (total_of c) c1 → pos c ≤ pos c1 → reaches c1 k x → reaches c k x.
Proof.
  intros Htrack Hle (c2 & caps2 & Ht2 & Hle2 & Hk).
  exists c2, caps2. unfold on_track, total_of in *. repeat split; [lia | lia | done].
Qed.

Lemma match_star_sound {R} (body : cursor → captures → continuation R → option R) :
  (∀ c caps k x, body c caps k = Some x → reaches c k x) →
  ∀ n c caps k x, match_star n body c caps k = Some x → reaches c k x.
Proof.
  intros Hbody. induction n as [|n IH]; intros c caps k x; cbn [match_star].
  - apply reaches_here.
  - destruct (body c caps _) as [y|] eqn:Hb.
    + intros [= ->]. apply Hbody in Hb as (c1 & caps1 & Ht & Hle & Hk).
      destruct (pos c <? pos c1) eqn:Hlt; [|done].
      apply IH in Hk. by eapply reaches_trans.
    + apply reaches_here.
Qed.

Lemma match_re_sound {R} (r : re) : ∀ c caps (k : continuation R) x,
  match_re r c caps k = Some x → reaches c k x.
Proof.
  induction r as [| p | | items | items | | | r1 IH1 r2 IH2 | r1 IH1 r2 IH2 | r IH | n r IH];
    intros c caps k x; cbn [match_re].
  - apply reaches_here.
  - destruct (rest c) as [|x0 r'] eqn:Hrest; [done|].
    destruct (ci_eq p x0); [|done]. by apply reaches_step.
  - destruct (rest c) as [|x0 r'] eqn:Hrest; [done|].
    destruct (isspace x0); [|done]. by apply reaches_step.
  - destruct (rest c) as [|x0 r'] eqn:Hrest; [done|].
    destruct (existsb _ items); [|done]. by apply reaches_step.
  - destruct (rest c) as [|x0 r'] eqn:Hrest; [done|].
    destruct (existsb _ items); [done|]. by apply reaches_step.
  - destruct (prev c) as [x0|]; [|apply reaches_here].
    case_bool_decide; [apply reaches_here | done].
  - destruct (xorb _ _); [apply reaches_here | done].
  - intros (c1 & caps1 & Ht & Hle & Hk)%IH1. apply IH2 in Hk.
    by eapply reaches_trans.
  - destruct (match_re r1 c caps k) as [y|] eqn:H1.
    + intros [= ->]. by apply IH1 in H1.
    + apply IH2.
  - apply match_star_sound. intros c0 caps0 k0 x0. apply IH.
  - intros (c1 & caps1 & Ht & Hle & Hk)%IH. by exists c1, ((n, (pos c, pos c1)) :: caps1).
Qed.

(** ** The result depends on the continuation only through the cursors
       that a match can end at *)

Definition agree {R} (c : cursor) (k k' : continuation R) : Prop :=
  ∀ c' caps', on_track (total_of c) c' → pos c ≤ pos c' → k c' caps' = k' c' caps'.

Lemma agree_step {R} c x0 r (k k' : continuation R) caps :
  rest c = x0 :: r → agree c k k' →
  k (mkCursor (S (pos c)) (Some x0) r) caps = k' (mkCursor (S (pos c)) (Some x0) r) caps.
Proof. intros Hrest Hk. apply Hk; [by apply on_track_step | cbn; lia]. Qed.

Lemma agree_here {R} c (k k' : continuation R) caps : agree c k k' → k c caps = k' c caps.
Proof. intros Hk. by apply Hk. Qed.

Lemma agree_later {R} c c1 (k k' : continuation R) :
  on_track (total_of c) c1 → pos c ≤ pos c1 → agree c k k' → agree c1 k k'.
Proof.
  intros Ht Hle Hk c2 caps2 Ht2 Hle2. unfold on_track, total_of in *.
  apply Hk; unfold on_track, total_of; lia.
Qed.

Definition extensional {R} (body : cursor → captures → continuation R → option R) : Prop :=
  ∀ c caps k k', agree c k k' → body c caps k = body c caps k'.

Lemma match_star_ext {R} (body : cursor → captures → continuation R → option R) :
  extensional body → ∀ n, extensional (match_star n body).
Proof.
  intros Hbody. induction n as [|n IH]; intros c caps k k' Hk; cbn [match_star].
  - by apply agree_here.
  - rewrite (Hbody c caps _
               (λ c' caps', if pos c <? pos c' then match_star n body c' caps' k' else None)).
    + by rewrite (agree_here c k k' caps Hk).
    + intros c1 caps1 Ht Hle. destruct (pos c <? pos c1); [|done].
      apply IH. by eapply agree_later.
Qed.

Lemma match_re_ext {R} (r : re) : extensional (@match_re U R r).
Proof.
  induction r as [| p | | items | items | | | r1 IH1 r2 IH2 | r1 IH1 r2 IH2 | r IH | n r IH];
    intros c caps k k' Hk; cbn [match_re].
  - by apply agree_here.
  - destruct (rest c) as [|x0 r'] eqn:Hrest; [done|].
    destruct (ci_eq p x0); [|done]. by apply agree_step.
  - destruct (rest c) as [|x0 r'] eqn:Hrest; [done|].
    destruct (isspace x0); [|done]. by apply agree_step.
  - destruct (rest c) as [|x0 r'] eqn:Hrest; [done|].
    destruct (existsb _ items); [|done]. by apply agree_step.
  - destruct (rest c) as [|x0 r'] eqn:Hrest; [done|].
    destruct (existsb _ items); [done|]. by apply agree_step.
  - destruct (prev c) as [x0|]; [|by apply agree_here].
    case_bool_decide; [by apply agree_here | done].
  - destruct (xorb _ _); [by apply agree_here | done].
  - apply IH1. intros c1 caps1 Ht Hle. apply IH2. by eapply agree_later.
  - rewrite (IH1 c caps k k' Hk). by rewrite (IH2 c caps k k' Hk).
  - apply (match_star_ext (λ c' caps' k', match_re r c' caps' k')); [|done].
    intros c0 caps0 k0 k0'. apply IH.
  - apply IH. intros c1 caps1 Ht Hle. by apply Hk.
Qed.

(** ** The bounds on rounds and positions are never what stops a search *)

(** Any number of rounds above the remaining length gives the same
    result: a starred pattern never stops for lack of rounds. *)
Lemma match_star_rounds {R} (body : cursor → captures → continuation R → option R) :
  extensional body →
  ∀ n m c caps k,
    length (rest c) < n → length (rest c) < m →
    match_star n body c caps k = match_star m body c caps k.
Proof.
  intros Hbody. induction n as [|n IH]; intros m c caps k Hn Hm; [lia|].
  destruct m as [|m]; [lia|]. cbn [match_star].
  rewrite (Hbody c caps _
             (λ c' caps', if pos c <? pos c' then match_star m body c' caps' k else None));
    [done|].
  intros c1 caps1 Ht Hle. destruct (pos c <? pos c1) eqn:Hlt; [|done].
  apply Nat.ltb_lt in Hlt. unfold on_track, total_of in Ht. apply IH; lia.
Qed.

Lemma star_rounds_suffice {R} (r : re) (n : nat) c caps (k : continuation R) :
  length (rest c) < n →
  match_star n (λ c' caps' k', match_re r c' caps' k') c caps k
  = match_re (Star r) c caps k.
Proof.
  intros Hn. cbn [match_re]. apply match_star_rounds; [|done|lia].
  intros c0 caps0 k0 k0'. apply match_re_ext.
Qed.

(** A match lies within the subject, from its cursor on. *)
Lemma match_at_span r c m :
  match_at r c = Some m →
  m_start m = pos c ∧ pos c ≤ m_end m ≤ pos c + length (rest c).
Proof.
  unfold match_at. intros (c' & caps' & Ht & Hle & Hk)%match_re_sound.
  injection Hk as <-. cbn. unfold on_track, total_of in Ht. lia.
Qed.

Lemma search_from_sound r : ∀ n c m c0,
  search_from r n c = Some (m, c0) →
  match_at r c0 = Some m ∧ on_track (total_of c) c0 ∧ pos c ≤ pos c0.
Proof.
  induction n as [|n IH]; intros c m c0; cbn [search_from].
  - destruct (match_at r c) as [m'|] eqn:Hm; [|done]. intros [= <- <-].
    by repeat split.
  - destruct (match_at r c) as [m'|] eqn:Hm.
    + intros [= <- <-]. by repeat split.
    + unfold advance. destruct (rest c) as [|x r'] eqn:Hrest; [done|].
      intros (? & Ht & Hle)%IH. split; [done|].
      unfold on_track, total_of in *. rewrite Hrest. cbn in *. lia.
Qed.

(** More positions than the subject has left change nothing. *)
Lemma search_from_fuel r : ∀ n c,
  length (rest c) ≤ n → search_from r n c = search_from r (length (rest c)) c.
Proof.
  induction n as [|n IH]; intros c Hn.
  - by replace (length (rest c)) with 0 by lia.
  - destruct (rest c) as [|x r'] eqn:Hrest; cbn [length search_from].
    + destruct (match_at r c); [done|]. unfold advance. by rewrite Hrest.
    + destruct (match_at r c); [done|]. unfold advance. rewrite Hrest.
      rewrite IH by (cbn in *; lia). done.
Qed.

Lemma skip_length n : ∀ c, length (rest (skip n c)) ≤ length (rest c).
Proof.
  induction n as [|n IH]; intros c; cbn [skip]; [done|].
  unfold advance. destruct (rest c) as [|x r'] eqn:Hrest; [by rewrite Hrest|].
  etrans; [apply IH|]. cbn. lia.
Qed.

Lemma skip_shorter n c :
  0 < n → rest c ≠ [] → length (rest (skip n c)) < length (rest c).
Proof.
  intros Hn Hrest. destruct n as [|n]; [lia|]. cbn [skip]. unfold advance.
  destruct (rest c) as [|x r'] eqn:Hr; [done|].
  pose proof (skip_length n (mkCursor (S (pos c)) (Some x) r')) as Hle. cbn in *. lia.
Qed.

(** More rounds than the subject has characters left give the same
    matches. *)
Lemma finditer_from_fuel r : ∀ n m c,
  length (rest c) < n → length (rest c) < m →
  finditer_from r n c = finditer_from r m c.
Proof.
  induction n as [|n IH]; intros m c Hn Hm; [lia|].
  destruct m as [|m]; [lia|]. cbn [finditer_from].
  destruct (search_from r (length (rest c)) c) as [[mt c0]|] eqn:Hs; [|done].
  apply search_from_sound in Hs as (Hat & Ht & Hle).
  apply match_at_span in Hat as (Hstart & Hspan).
  assert (length (rest c0) ≤ length (rest c)) as Hlen
    by (unfold on_track, total_of in Ht; lia).
  case_bool_decide as Hw.
  - unfold advance. destruct (rest c0) as [|x r'] eqn:Hr; [done|].
    f_equal. apply IH; cbn in *; lia.
  - f_equal.
    assert (length (rest (skip (m_end mt - m_start mt) c0)) < length (rest c0)) as Hlt.
    { apply skip_shorter; [lia|]. intros Hr. rewrite Hr in Hspan. cbn in Hspan. lia. }
    apply IH; lia.
Qed.

(** Every match that [finditer] reports lies within the subject. *)
Lemma finditer_from_spans r : ∀ n c m,
  m ∈ finditer_from r n c →
  pos c ≤ m_start m ∧ m_start m ≤ m_end m ∧ m_end m ≤ pos c + length (rest c).
Proof.
  induction n as [|n IH]; intros c m; cbn [finditer_from]; [by intros ?%elem_of_nil|].
  destruct (search_from r (length (rest c)) c) as [[mt c0]|] eqn:Hs;
    [|by intros ?%elem_of_nil].
  apply search_from_sound in Hs as (Hat & Ht & Hle).
  apply match_at_span in Hat as (Hstart & Hspan).
  unfold on_track, total_of in Ht.
  assert (m ∈ [mt] ∨ (∃ c1, m ∈ finditer_from r n c1 ∧ pos c0 ≤ pos c1 ∧
                              pos c1 + length (rest c1) = pos c + length (rest c)) →
          pos c ≤ m_start m ∧ m_start m ≤ m_end m ∧ m_end m ≤ pos c + length (rest c))
    as Hcases.
  { intros [->%list_elem_of_singleton|(c1 & Hin & Hle1 & Ht1)]; [lia|].
    apply IH in Hin. lia. }
  assert (∀ k c1, pos c1 + length (rest c1) = pos c + length (rest c) →
                  pos c1 ≤ pos (skip k c1) ∧
                  pos (skip k c1) + length (rest (skip k c1)) = pos c + length (rest c))
    as Hskip.
  { clear. induction k as [|k IHk]; intros c1 Ht1; cbn [skip]; [lia|].
    unfold advance. destruct (rest c1) as [|x r'] eqn:Hr.
    - rewrite Hr. lia.
    - destruct (IHk (mkCursor (S (pos c1)) (Some x) r')) as [? ?];
        cbn [pos rest length] in *; lia. }
  case_bool_decide as Hw.
  - unfold advance. destruct (rest c0) as [|x r'] eqn:Hr.
    + intros Hin. apply Hcases. by left.
    + intros [->|Hin]%elem_of_cons; apply Hcases; [left; left|].
      right. eexists. split; [exact Hin|]. cbn in *. lia.
  - intros [->|Hin]%elem_of_cons; apply Hcases; [left; left|].
    right. eexists. split; [exact Hin|]. apply Hskip. lia.
Qed.

Lemma finditer_spans r s m :
  m ∈ finditer r s → m_start m ≤ m_end m ∧ m_end m ≤ length s.
Proof.
  unfold finditer. intros Hin%finditer_from_spans. cbn in Hin. lia.
Qed.

End WithUnicode.

End RegexProofs.

(* ===================================================================== *)
(** * Properties of the parser                                            *)
(* ===================================================================== *)

Module ParserProofs.
Import Text Regex BSL Parser.

Section WithUnicode.
Context {U : Unicode}.

(** ** Lines and line numbers *)

Lemma split_length sep s : length (split sep s) = S (count sep s).
Proof.
  unfold count. induction s as [|c s IH]; [done|].
  cbn [split]. rewrite filter_cons. case_bool_decide as Hc.
  - rewrite decide_True by done. cbn [length]. by rewrite IH.
  - rewrite decide_False by done.
    destruct (split sep s) as [|l ls]; [done|]. by rewrite <- IH.
Qed.

Lemma count_take_le c n s : count c (take n s) ≤ count c s.
Proof.
  unfold count. revert n. induction s as [|x s IH]; intros [|n]; cbn [take];
    rewrite ?filter_nil, ?filter_cons; cbn [length]; try lia.
  specialize (IH n). destruct (decide (x = c)); cbn [length]; lia.
Qed.

Lemma line_of_lt source p : line_of source p < length (split 10%N source).
Proof.
  unfold line_of. rewrite split_length.
  pose proof (count_take_le 10%N p source). lia.
Qed.

Lemma verify_start_line_lt lines method_name start_line :
  start_line < length lines →
  verify_start_line lines method_name start_line < length lines.
Proof.
  intros Hlt. unfold verify_start_line.
  match goal with |- context [filter ?P ?l] => destruct (filter P l) as [|o os] eqn:Hf end;
    [done|].
  assert (o ∈ filter (λ o,
            match lines !! (start_line + o) with
            | Some line_text =>
                contains method_name line_text &&
                ((contains (u "Процедура") line_text || contains (u "Функция") line_text)
                 && contains method_name line_text)
            | None => false
            end = true) [0; 1; 2]) as Hin by (rewrite Hf; left).
  apply list_elem_of_filter in Hin as [Hok _].
  destruct (lines !! (start_line + o)) eqn:Hl; [|done].
  by apply lookup_lt_Some in Hl.
Qed.

(** ** No operation of the parser raises *)

Lemma getitem_ok {A} (l : list A) i : i < length l → ∃ x, getitem l i = inr x.
Proof.
  intros Hi. unfold getitem. destruct (lookup_lt_is_Some_2 l i Hi) as [x ->]. by exists x.
Qed.

Lemma description_loop_ok lines idxs : ∀ acc,
  Forall (λ i, i < length lines) idxs →
  ∃ r, description_loop lines idxs acc = inr r.
Proof.
  induction idxs as [|i idxs IH]; intros acc Hall; [by eexists|].
  apply Forall_cons in Hall as [Hi Hall]. cbn [description_loop].
  destruct (getitem_ok lines i Hi) as [raw ->]. cbn [bindE].
  repeat (match goal with
          | |- ∃ r, (if ?b then _ else _) = inr r => destruct b
          end);
    solve [by apply IH | by eexists].
Qed.

Lemma _extract_description_before_ok lines line_num :
  line_num ≤ length lines →
  ∃ d, _extract_description_before lines line_num = inr d.
Proof.
  intros Hle. unfold _extract_description_before.
  destruct (description_loop_ok lines (seq (line_num - 20) (line_num - (line_num - 20))) [])
    as [r ->]; [|by eexists].
  apply Forall_forall. intros i Hi%elem_of_seq. lia.
Qed.

Lemma end_loop_ok lines end_pattern idxs : ∀ depth,
  Forall (λ i, i < length lines) idxs →
  ∃ r, end_loop lines end_pattern idxs depth = inr r.
Proof.
  induction idxs as [|i idxs IH]; intros depth Hall; [by eexists|].
  apply Forall_cons in Hall as [Hi Hall]. cbn [end_loop].
  destruct (getitem_ok lines i Hi) as [text ->]. cbn [bindE].
  destruct (search PROC_PATTERN text) as [pm|], (search FUNC_PATTERN text) as [fm|];
    rewrite ?(bool_decide_eq_true_2 (Some _ ≠ None)) by done;
    rewrite ?(bool_decide_eq_false_2 (@None Match ≠ None)) by (by intros ?);
    cbn [orb bindE];
    repeat (match goal with
            | |- ∃ r, (if ?b then _ else _) = inr r => destruct b
            | |- ∃ r, bindE (if ?b then _ else _) _ = inr r => destruct b
            end; cbn [bindE]);
    solve [by apply IH | by eexists].
Qed.

Lemma _find_method_end_ok source start_line is_proc :
  ∃ r, _find_method_end source start_line is_proc = inr r.
Proof.
  unfold _find_method_end. apply end_loop_ok.
  apply Forall_forall. intros i Hi%elem_of_seq. lia.
Qed.

Lemma _parse_method_from_match_ok source m is_proc :
  ∃ r, _parse_method_from_match source (split 10%N source) m is_proc = inr r.
Proof.
  unfold _parse_method_from_match.
  destruct (_find_method_end_ok source
              (verify_start_line (split 10%N source) (group1 source m 1)
                 (line_of source (m_start m))) is_proc) as [[end_line|] ->];
    cbn [bindE]; [|by eexists].
  destruct (_extract_description_before_ok (split 10%N source)
              (verify_start_line (split 10%N source) (group1 source m 1)
                 (line_of source (m_start m)))) as [d ->]; [|by eexists].
  apply Nat.lt_le_incl, verify_start_line_lt, line_of_lt.
Qed.

Lemma mapE_ok {A B} (f : A → E B) l :
  (∀ a, ∃ b, f a = inr b) → ∃ bs, mapE f l = inr bs.
Proof.
  intros Hf. induction l as [|a l [bs IH]]; [by eexists|].
  cbn [mapE]. destruct (Hf a) as [b ->]. cbn [bindE]. rewrite IH. by eexists.
Qed.

Lemma _parse_methods_ok source :
  ∃ ms l, _parse_methods source (split 10%N source) = inr ms ∧ ms = sort_by_line l.
Proof.
  unfold _parse_methods.
  destruct (mapE_ok (λ m, _parse_method_from_match source (split 10%N source) m true)
              (finditer PROC_PATTERN source)) as [procs ->];
    [intros; apply _parse_method_from_match_ok|].
  destruct (mapE_ok (λ m, _parse_method_from_match source (split 10%N source) m false)
              (finditer FUNC_PATTERN source)) as [funcs ->];
    [intros; apply _parse_method_from_match_ok|].
  cbn [bindE]. by eexists _, _.
Qed.

Lemma _parse_module_vars_ok source :
  ∃ vars, _parse_module_vars source (split 10%N source) = inr vars.
Proof.
  unfold _parse_module_vars.
  generalize (finditer MODULE_VAR_PATTERN source). intros ms.
  generalize (@nil (str * BSLModuleVar)). induction ms as [|m ms IH]; intros acc.
  - by eexists.
  - cbn [foldl bindE].
    destruct (_extract_description_before_ok (split 10%N source)
                (line_of source (m_start m))) as [d ->];
      [apply Nat.lt_le_incl, line_of_lt|].
    cbn [bindE]. apply IH.
Qed.

(** [parse] returns, and its result is assembled from the sorted method
    list. *)
Lemma parse_ok source :
  ∃ vars l,
    parse source =
    inr (mkParseResult
           ((λ m, set_calls_position (_parse_method_calls (split 10%N source) m) m)
              <$> sort_by_line l)
           (_parse_global_calls (split 10%N source) (sort_by_line l))
           vars).
Proof.
  unfold parse.
  destruct (_parse_module_vars_ok source) as [vars ->].
  destruct (_parse_methods_ok source) as (ms & l & -> & ->).
  cbn [bindE]. by eexists _, _.
Qed.

(** ** The stable sort by start line *)

Definition by_line (a b : BSLMethod) : Prop := line a ≤ line b.

Lemma elem_of_insert_by_line m l x : x ∈ insert_by_line m l ↔ x = m ∨ x ∈ l.
Proof.
  induction l as [|y l IH]; cbn [insert_by_line].
  - rewrite list_elem_of_singleton. split; [by left | intros [?|?%elem_of_nil]; done].
  - destruct (line m <? line y); rewrite !elem_of_cons; [done|].
    rewrite IH. tauto.
Qed.

Lemma insert_by_line_perm m l : insert_by_line m l ≡ₚ m :: l.
Proof.
  induction l as [|y l IH]; cbn [insert_by_line]; [done|].
  destruct (line m <? line y); [done|]. rewrite IH. apply Permutation_swap.
Qed.

Lemma insert_by_line_sorted m l :
  StronglySorted by_line l → StronglySorted by_line (insert_by_line m l).
Proof.
  induction 1 as [|y l Hsorted IH Hall]; cbn [insert_by_line].
  - repeat constructor.
  - destruct (line m <? line y) eqn:Hlt.
    + apply Nat.ltb_lt in Hlt. constructor; [by constructor|].
      constructor; [unfold by_line; lia|].
      eapply Forall_impl; [exact Hall|]. unfold by_line. intros; lia.
    + apply Nat.ltb_ge in Hlt. constructor; [done|].
      apply Forall_forall. intros x [->|Hx]%elem_of_insert_by_line; [done|].
      by eapply Forall_forall in Hall.
Qed.

Lemma sort_by_line_spec l :
  StronglySorted by_line (sort_by_line l) ∧ sort_by_line l ≡ₚ l.
Proof.
  unfold sort_by_line.
  assert (∀ acc, StronglySorted by_line acc →
            StronglySorted by_line (foldl (λ acc m, insert_by_line m acc) acc l) ∧
            foldl (λ acc m, insert_by_line m acc) acc l ≡ₚ acc ++ l) as Hgen.
  { induction l as [|m l IH]; intros acc Hacc; cbn [foldl].
    - by rewrite app_nil_r.
    - destruct (IH (insert_by_line m acc)) as [Hs Hp]; [by apply insert_by_line_sorted|].
      split; [done|]. rewrite Hp, insert_by_line_perm.
      cbn [app]. apply Permutation_middle. }
  destruct (Hgen [] (SSorted_nil _)) as [Hs Hp]. by split.
Qed.

Lemma sorted_lookup (l : list BSLMethod) :
  StronglySorted by_line l →
  ∀ i j a b, i ≤ j → l !! i = Some a → l !! j = Some b → line a ≤ line b.
Proof.
  induction 1 as [|x l Hsorted IH Hall]; intros i j a b Hij Hi Hj; [done|].
  destruct i as [|i], j as [|j]; cbn in Hi, Hj; try lia.
  - injection Hi as ->. injection Hj as ->. done.
  - injection Hi as ->. apply list_elem_of_lookup_2 in Hj.
    by eapply Forall_forall in Hall.
  - apply (IH i j); [lia | done | done].
Qed.

Lemma sorted_fmap_keep (f : BSLMethod → BSLMethod) l :
  (∀ x, line (f x) = line x) →
  StronglySorted by_line l → StronglySorted by_line (f <$> l).
Proof.
  intros Hf. induction 1 as [|x l Hl IH Hall]; [constructor|].
  rewrite fmap_cons. constructor; [done|].
  apply Forall_fmap. eapply Forall_impl; [exact Hall|].
  intros y Hy. unfold by_line in *. cbn. by rewrite !Hf.
Qed.

(** ** What a parsed method records *)

Lemma _parse_method_from_match_kind source lines m is_proc x :
  _parse_method_from_match source lines m is_proc = inr (Some x) → isproc x = is_proc.
Proof.
  unfold _parse_method_from_match.
  destruct (_find_method_end _ _ _) as [e|[end_line|]]; cbn [bindE]; try done.
  destruct (_extract_description_before _ _) as [e|d]; cbn [bindE]; [done|].
  by intros [= <-].
Qed.

Lemma mapE_Forall2 {A B} (f : A → E B) l bs :
  mapE f l = inr bs → Forall2 (λ a b, f a = inr b) l bs.
Proof.
  revert bs. induction l as [|a l IH]; intros bs; cbn [mapE].
  - intros [= <-]. constructor.
  - destruct (f a) as [e|b] eqn:Hfa; cbn [bindE]; [done|].
    destruct (mapE f l) as [e|bs'] eqn:Hrest; cbn [bindE]; [done|].
    intros [= <-]. constructor; [done | by apply IH].
Qed.

Lemma parsed_kinds source lines is_proc ms rs :
  mapE (λ m, _parse_method_from_match source lines m is_proc) ms = inr rs →
  Forall (λ x, isproc x = is_proc) (omap id rs).
Proof.
  intros Hall%mapE_Forall2. apply Forall_forall. intros x Hx.
  apply list_elem_of_omap in Hx as (o & Ho & Hid). cbn in Hid. subst o.
  apply list_elem_of_lookup in Ho as [i Hi].
  destruct (Forall2_lookup_r _ _ _ _ _ Hall Hi) as (m & _ & Hm).
  by apply _parse_method_from_match_kind in Hm.
Qed.

(** [parse] returns; its methods are the procedures and the functions
    found, sorted together, each with its call sites attached. *)
Lemma parse_structure source :
  ∃ vars procs funcs,
    Forall (λ x, isproc x = true) procs ∧
    Forall (λ x, isproc x = false) funcs ∧
    parse source =
    inr (mkParseResult
           ((λ m, set_calls_position (_parse_method_calls (split 10%N source) m) m)
              <$> sort_by_line (procs ++ funcs))
           (_parse_global_calls (split 10%N source) (sort_by_line (procs ++ funcs)))
           vars).
Proof.
  unfold parse.
  destruct (_parse_module_vars_ok source) as [vars ->]. cbn [bindE].
  unfold _parse_methods.
  destruct (mapE_ok (λ m, _parse_method_from_match source (split 10%N source) m true)
              (finditer PROC_PATTERN source)) as [procs Hprocs];
    [intros; apply _parse_method_from_match_ok|].
  destruct (mapE_ok (λ m, _parse_method_from_match source (split 10%N source) m false)
              (finditer FUNC_PATTERN source)) as [funcs Hfuncs];
    [intros; apply _parse_method_from_match_ok|].
  rewrite Hprocs, Hfuncs. cbn [bindE].
  exists vars, (omap id procs), (omap id funcs).
  split; [exact (parsed_kinds _ _ _ _ _ Hprocs)|].
  split; [exact (parsed_kinds _ _ _ _ _ Hfuncs)|]. reflexivity.
Qed.

(** C8.  [parse] is total: for every input string it returns a
    [BSLParseResult], and none of its operations raises. *)
Theorem parse_total (source : str) :
  (∃ r : BSLParseResult, parse source = inr r) ∧ (∀ e, parse source ≠ inl e).
Proof.
  destruct (parse_ok source) as (vars & l & ->). split; [by eexists | done].
Qed.

(** The sort keeps the methods of one line in the order they had. *)
Lemma filter_insert_by_line n m l :
  StronglySorted by_line l →
  filter (λ x, line x = n) (insert_by_line m l) =
  filter (λ x, line x = n) l ++ (if bool_decide (line m = n) then [m] else []).
Proof.
  induction 1 as [|x l Hsorted IH Hall]; cbn [insert_by_line].
  - case_bool_decide; [by rewrite filter_cons_True|by rewrite filter_cons_False].
  - destruct (line m <? line x) eqn:Hlt.
    + apply Nat.ltb_lt in Hlt. case_bool_decide as Hm.
      * rewrite filter_cons_True by done.
        assert (Forall (λ y, line m < line y) (x :: l)) as Hlater.
        { constructor; [done|]. eapply Forall_impl; [exact Hall|].
          unfold by_line. intros; lia. }
        assert (filter (λ y, line y = n) (x :: l) = []) as ->; [|done].
        clear -Hlater Hm. induction Hlater as [|y l' Hy _ IHl]; [done|].
        rewrite filter_cons_False by lia. done.
      * rewrite filter_cons_False by done. by rewrite app_nil_r.
    + destruct (decide (line x = n)) as [Hx|Hx].
      * rewrite !(filter_cons_True _ x) by done. by rewrite IH.
      * rewrite !(filter_cons_False _ x) by done. by rewrite IH.
Qed.

Lemma filter_sort_by_line n l :
  filter (λ x, line x = n) (sort_by_line l) = filter (λ x, line x = n) l.
Proof.
  unfold sort_by_line.
  assert (∀ acc, StronglySorted by_line acc →
            filter (λ x, line x = n) (foldl (λ acc m, insert_by_line m acc) acc l) =
            filter (λ x, line x = n) acc ++ filter (λ x, line x = n) l) as Hgen.
  { induction l as [|m l IH]; intros acc Hacc; cbn [foldl].
    - by rewrite app_nil_r.
    - rewrite IH by (by apply insert_by_line_sorted).
      rewrite filter_insert_by_line by done. rewrite <- (assoc_L (++)). f_equal.
      case_bool_decide; [by rewrite filter_cons_True|by rewrite filter_cons_False]. }
  apply (Hgen [] (SSorted_nil _)).
Qed.

Lemma filter_fmap_keep (f : BSLMethod → BSLMethod) n (l : list BSLMethod) :
  (∀ x, line (f x) = line x) →
  filter (λ x, line x = n) (f <$> l) = f <$> filter (λ x, line x = n) l.
Proof.
  intros Hf. induction l as [|x l IH]; [done|]. rewrite fmap_cons.
  destruct (decide (line x = n)) as [Hx|Hx].
  - rewrite !filter_cons_True by (by rewrite ?Hf). by rewrite IH.
  - rewrite !filter_cons_False by (by rewrite ?Hf). done.
Qed.

(** C10.  The methods that [parse] returns are in order of non-decreasing
    start line, and they are the procedures and the functions found,
    merged into one sequence: every match of the procedure pattern and
    every match of the function pattern that [_parse_method_from_match]
    makes a method of is in the list exactly once, nothing else is, and
    the methods that start on one line stand in the order in which they
    were found, procedures before functions. *)
Theorem methods_sorted (source : str) :
  ∃ (r : BSLParseResult) (found_procs found_funcs : list (option BSLMethod)),
    parse source = inr r ∧
    mapE (λ m, _parse_method_from_match source (split 10%N source) m true)
         (finditer PROC_PATTERN source) = inr found_procs ∧
    mapE (λ m, _parse_method_from_match source (split 10%N source) m false)
         (finditer FUNC_PATTERN source) = inr found_funcs ∧
    let procs := omap id found_procs in
    let funcs := omap id found_funcs in
    let with_calls :=
      λ m, set_calls_position (_parse_method_calls (split 10%N source) m) m in
    StronglySorted (λ a b, line a ≤ line b) (methods r) ∧
    (∀ i j a b, i ≤ j → methods r !! i = Some a → methods r !! j = Some b →
                line a ≤ line b) ∧
    Forall (λ x, isproc x = true) procs ∧
    Forall (λ x, isproc x = false) funcs ∧
    methods r ≡ₚ with_calls <$> (procs ++ funcs) ∧
    (∀ n, filter (λ m, line m = n) (methods r) =
          with_calls <$> filter (λ m, line m = n) (procs ++ funcs)).
Proof.
  unfold parse.
  destruct (_parse_module_vars_ok source) as [vars ->]. cbn [bindE].
  unfold _parse_methods.
  destruct (mapE_ok (λ m, _parse_method_from_match source (split 10%N source) m true)
              (finditer PROC_PATTERN source)) as [found_procs Hprocs];
    [intros; apply _parse_method_from_match_ok|].
  destruct (mapE_ok (λ m, _parse_method_from_match source (split 10%N source) m false)
              (finditer FUNC_PATTERN source)) as [found_funcs Hfuncs];
    [intros; apply _parse_method_from_match_ok|].
  rewrite Hprocs, Hfuncs. cbn [bindE].
  eexists _, found_procs, found_funcs.
  split; [done|]. split; [done|]. split; [done|]. cbn zeta. cbn [methods].
  set (l := omap id found_procs ++ omap id found_funcs).
  destruct (sort_by_line_spec l) as [Hsorted Hperm].
  assert (StronglySorted by_line
            ((λ m, set_calls_position (_parse_method_calls (split 10%N source) m) m)
               <$> sort_by_line l)) as Hs.
  { by apply sorted_fmap_keep. }
  split_and!.
  - done.
  - by apply sorted_lookup.
  - exact (parsed_kinds _ _ _ _ _ Hprocs).
  - exact (parsed_kinds _ _ _ _ _ Hfuncs).
  - by rewrite Hperm.
  - intros n. rewrite filter_fmap_keep by done. by rewrite filter_sort_by_line.
Qed.

(** ** Call sites *)

Lemma call_matches_line line_num text cp :
  cp ∈ call_matches line_num text → call_line cp = line_num.
Proof.
  unfold call_matches. intros (m & -> & _)%list_elem_of_fmap. done.
Qed.

Lemma call_matches_column line_num text cp :
  cp ∈ call_matches line_num text → character cp ≤ length text.
Proof.
  unfold call_matches. intros (m & -> & Hm)%list_elem_of_fmap. cbn [character].
  apply RegexProofs.finditer_spans in Hm. lia.
Qed.

Lemma elem_of_method_ranges (ms : list BSLMethod) n :
  n ∈ ms ≫= (λ m, seq (line m) (endline m + 1 - line m)) ↔
  ∃ m, m ∈ ms ∧ line m ≤ n ≤ endline m.
Proof.
  rewrite list_elem_of_bind. split.
  - intros (m & Hn%elem_of_seq & Hm). exists m. split; [done | lia].
  - intros (m & Hm & Hn). exists m. split; [|done]. apply elem_of_seq. lia.
Qed.

Lemma elem_of_global_calls lines ms cp :
  cp ∈ _parse_global_calls lines ms ↔
  ∃ line_num text,
    lines !! line_num = Some text ∧
    (∀ m, m ∈ ms → ¬ (line m ≤ line_num ≤ endline m)) ∧
    cp ∈ call_matches line_num text ∧
    lower (call cp) ∉ KEYWORDS.
Proof.
  unfold _parse_global_calls. rewrite list_elem_of_join. split.
  - intros (l & Hcp & Hl). apply elem_of_lookup_imap in Hl as (i & text & -> & Hi).
    case_bool_decide as Hin; [by apply elem_of_nil in Hcp|].
    apply list_elem_of_filter in Hcp as [Hkw Hcp].
    exists i, text. split_and!; try done.
    intros m Hm Hrange. apply Hin, elem_of_method_ranges. by exists m.
  - intros (i & text & Hi & Hout & Hcp & Hkw).
    eexists. split; [|by apply (elem_of_lookup_imap_2 _ lines text i)].
    cbn beta. rewrite bool_decide_eq_false_2.
    + by apply list_elem_of_filter.
    + intros (m & Hm & Hrange)%elem_of_method_ranges. by apply (Hout m).
Qed.

Lemma elem_of_method_calls lines m cp :
  cp ∈ _parse_method_calls lines m →
  (lower (call cp) ∉ KEYWORDS) ∧ call cp ≠ name m ∧
  line m ≤ call_line cp ≤ endline m ∧
  ∃ text, lines !! call_line cp = Some text ∧ cp ∈ call_matches (call_line cp) text.
Proof.
  unfold _parse_method_calls. intros (l & Hcp & Hl)%list_elem_of_join.
  apply elem_of_lookup_imap in Hl as (i & text & -> & Hi).
  apply list_elem_of_filter in Hcp as [[Hkw Hself] Hcp].
  pose proof (call_matches_line _ _ _ Hcp) as Hline.
  pose proof (lookup_lt_Some _ _ _ Hi) as Hlen.
  rewrite length_take in Hlen.
  rewrite lookup_take_lt in Hi by lia. rewrite lookup_drop in Hi.
  split_and!; [done | done | lia | lia |].
  exists text. rewrite Hline. done.
Qed.

(** C7.  In the result of [parse]: no recorded call site, module-level or
    inside a method, has a name whose lower-case form is in the keyword
    set; the call sites of a method lie on its lines and none of them bears
    the method's own name; and the module-level call sites are exactly the
    keyword-free call sites on the lines that lie outside the
    [start line, end line] range of every method.  Names are compared with
    the keywords through [lower]; every call site points into a line of
    the source. *)
Theorem call_sites_filtered (source : str) :
  ∃ r : BSLParseResult,
    parse source = inr r ∧
    (∀ cp, cp ∈ global_calls r → lower (call cp) ∉ KEYWORDS) ∧
    (∀ m cp, m ∈ methods r → cp ∈ calls_position m →
       (lower (call cp) ∉ KEYWORDS) ∧ call cp ≠ name m ∧
       line m ≤ call_line cp ≤ endline m) ∧
    (∀ cp, cp ∈ global_calls r ↔
       ∃ line_num text,
         split 10%N source !! line_num = Some text ∧
         (∀ m, m ∈ methods r → ¬ (line m ≤ line_num ≤ endline m)) ∧
         cp ∈ call_matches line_num text ∧
         lower (call cp) ∉ KEYWORDS) ∧
    (∀ cp, (cp ∈ global_calls r ∨ ∃ m, m ∈ methods r ∧ cp ∈ calls_position m) →
       ∃ text, split 10%N source !! call_line cp = Some text ∧
               character cp ≤ length text).
Proof.
  destruct (parse_ok source) as (vars & l & ->).
  eexists. split; [reflexivity|]. cbn [methods global_calls].
  set (lines := split 10%N source). set (ms := sort_by_line l).
  assert (∀ m, m ∈ (λ m, set_calls_position (_parse_method_calls lines m) m) <$> ms ↔
               ∃ m0, m0 ∈ ms ∧ m = set_calls_position (_parse_method_calls lines m0) m0)
    as Hms.
  { intros m. rewrite list_elem_of_fmap. split.
    - intros (m0 & -> & Hm0). by exists m0.
    - intros (m0 & Hm0 & ->). by exists m0. }
  split_and!.
  - intros cp Hcp%elem_of_global_calls. by destruct Hcp as (? & ? & _ & _ & _ & ?).
  - intros m cp (m0 & Hm0 & ->)%Hms Hcp. cbn [calls_position set_calls_position] in Hcp.
    apply elem_of_method_calls in Hcp as (? & ? & ? & _). done.
  - intros cp. rewrite elem_of_global_calls. split.
    + intros (i & text & Hi & Hout & Hcp & Hkw). exists i, text. split_and!; try done.
      intros m (m0 & Hm0 & ->)%Hms. cbn [line endline set_calls_position]. by apply Hout.
    + intros (i & text & Hi & Hout & Hcp & Hkw). exists i, text. split_and!; try done.
      intros m0 Hm0.
      apply (Hout (set_calls_position (_parse_method_calls lines m0) m0)), Hms.
      by exists m0.
  - intros cp [Hcp|(m & (m0 & Hm0 & ->)%Hms & Hcp)].
    + apply elem_of_global_calls in Hcp as (i & text & Hi & _ & Hcp & _).
      exists text. rewrite (call_matches_line _ _ _ Hcp).
      split; [done | by eapply call_matches_column].
    + cbn [calls_position set_calls_position] in Hcp.
      apply elem_of_method_calls in Hcp as (_ & _ & _ & text & Hi & Hcp).
      exists text. split; [done | by eapply call_matches_column].
Qed.

End WithUnicode.

End ParserProofs.

(* ===================================================================== *)
(** * Worked examples                                                     *)
(* ===================================================================== *)

Module Examples.
Import Text Regex BSL Parser Cache SimpleUnicode.

Definition nl : string := String (ascii_of_nat 10) EmptyString.

Definition unlines (ls : list string) : str :=
  join [10%N] (u <$> ls).

(** A module with a directive, a docstring, parameters, a keyword used
    like a call, a recursive call, a module variable and a function that
    comes after the procedure. *)
Definition sample : str :=
  unlines [ "// Описание";
            "&НаСервере";
            "Процедура Тест(Знач А, Б = 5) Экспорт";
            "    Если(А) Тогда";
            "        Вызов(А);";
            "        Тест(Б);";
            "    КонецЕсли;";
            "КонецПроцедуры";
            "";
            "Перем Икс Экспорт;";
            "функция Другая()";
            "    Возврат Вызов2 (1);";
            "КонецФункции";
            "Глобальный(1); ЕСЛИ(2)" ].

Example parse_sample :
  ∃ r, parse sample = inr r ∧
       (λ m, (name m, line m, endline m, isproc m, is_export m)) <$> methods r
         = [ (u "Тест", 2, 7, true, true); (u "Другая", 10, 12, false, false) ] ∧
       (λ m, (λ cp, (call cp, call_line cp, character cp)) <$> calls_position m)
         <$> methods r
         = [ [ (u "Вызов", 4, 8) ]; [ (u "Вызов2", 11, 12) ] ] ∧
       (λ cp, (call cp, call_line cp, character cp)) <$> global_calls r
         = [ (u "Глобальный", 13, 0) ] ∧
       (λ m, (λ p, (param_name p, byval p, default_value p)) <$> params m) <$> methods r
         = [ [ (u "А", true, None); (u "Б", false, Some (u "5")) ]; [] ] ∧
       module_vars r = [ (u "Икс", mkModuleVar (u "Икс") true (u "Описание")) ].
Proof.
  eexists. split; [vm_compute; reflexivity|]. split_and!; vm_compute; reflexivity.
Qed.

(** A function that stands before a procedure comes first in the result,
    although procedures are collected first. *)
Example parse_merges_kinds :
  ∃ r, parse (unlines [ "Функция Первая()"; "КонецФункции";
                        "Процедура Вторая()"; "КонецПроцедуры" ]) = inr r ∧
       (λ m, (name m, line m, isproc m)) <$> methods r
         = [ (u "Первая", 0, false); (u "Вторая", 2, true) ].
Proof. eexists. split; vm_compute; reflexivity. Qed.

(** Malformed input *)

Example parse_empty : parse [] = inr (mkParseResult [] [] []).
Proof. vm_compute. reflexivity. Qed.

Example parse_unterminated :
  ∃ r, parse (unlines [ "Процедура Открытая()"; "    Вызов(1);" ]) = inr r ∧
       methods r = [] ∧
       call <$> global_calls r = [ u "Открытая"; u "Вызов" ].
Proof. eexists. split; [vm_compute; reflexivity|]. split; vm_compute; reflexivity. Qed.

Example parse_no_trailing_newline :
  ∃ r, parse (u "Процедура А() КонецПроцедуры") = inr r ∧ methods r = [].
Proof. eexists. split; vm_compute; reflexivity. Qed.

Example parse_nested :
  ∃ r, parse (unlines [ "Процедура Внешняя()";
                        "Процедура Внутренняя()";
                        "КонецПроцедуры";
                        "КонецПроцедуры" ]) = inr r ∧
       (λ m, (name m, line m, endline m)) <$> methods r
         = [ (u "Внешняя", 0, 3); (u "Внутренняя", 1, 2) ].
Proof. eexists. split; vm_compute; reflexivity. Qed.

Example parse_all_comments :
  parse (unlines [ "// только комментарии"; "// Вызов(1)"; "/* и ещё */" ])
  = inr (mkParseResult [] [ mkCallPosition (u "Вызов") 1 3 ] []).
Proof. vm_compute. reflexivity. Qed.

(** The symbol cache: three methods in two files; removing the first file
    leaves the third method at position 0 of every index. *)
Definition method_named (n : string) (exported : bool) : BSLMethod :=
  mkMethod (u n) 0 1 true exported [] [] [] [].

Definition filled_cache : BSLCache :=
  run_ops [ AddMethod (method_named "Один" true) (u "a.bsl") (u "МодульА");
            AddMethod (method_named "Два" false) (u "a.bsl") (u "МодульА");
            AddMethod (method_named "ОДИН" true) (u "b.bsl") (u "МодульБ");
            AddCall (mkCallPosition (u "Один") 3 4) (u "a.bsl") (u "Два") (u "МодульА");
            AddCall (mkCallPosition (u "Один") 7 0) (u "b.bsl") (u "ОДИН") (u "МодульБ");
            AddCall (mkCallPosition (u "Два") 1 2) (u "a.bsl") (u "Один") (u "МодульА") ].

Example cache_indices :
  _method_name_index filled_cache !! u "один" = Some [0; 2] ∧
  _method_module_index filled_cache !! u "модульа" = Some [0; 1] ∧
  _method_export_index filled_cache = [0; 2].
Proof. split_and!; vm_compute; reflexivity. Qed.

Example cache_after_removal :
  let c := remove_file_data (u "a.bsl") filled_cache in
  (name ∘ method) <$> cache_methods c = [ u "ОДИН" ] ∧
  _method_name_index c !! u "один" = Some [0] ∧
  _method_name_index c !! u "два" = None ∧
  _method_module_index c !! u "модульа" = None ∧
  _method_export_index c = [0] ∧
  ci_line <$> default [] (cache_calls c !! u "Один") = [7] ∧
  cache_calls c !! u "Два" = None ∧
  remove_file_data (u "a.bsl") c = c.
Proof. cbn zeta. split_and!; vm_compute; reflexivity. Qed.

End Examples.

(* ===================================================================== *)
(** * Properties of supervisor sessions                                   *)
(* ===================================================================== *)

Module SessionProofs.
Import Supervisor SupervisorProofs Session.

(** ** Running monadic code *)

Lemma bind_run {A B} (m : M A) (k : A → M B) w :
  bind m k w = match m w with
               | (inr a, w') => k a w'
               | (inl e, w') => (inl e, w')
               end.
Proof. done. Qed.

(** ** Handles *)

(** What every handle of a registry satisfies at wall-clock time [t] *)
Definition tidy (t : Z) (s : ManagedServerProcess) : Prop :=
  _restart_count s ≤ max_retries ∧
  (∀ t0, _start_time s = Some t0 → (t0 ≤ t)%Z) ∧
  (is_alive s = true → _start_time s ≠ None).

Lemma tidy_mono t t' s : (t ≤ t')%Z → tidy t s → tidy t' s.
Proof.
  intros Ht (Hn & Hs & Ha). split_and!; [done| |done].
  intros t0 H0. specialize (Hs t0 H0). lia.
Qed.

(** An operation on a handle that returns, leaves the registry alone and
    keeps the handle tidy *)
Definition handle_op (f : ManagedServerProcess → M ManagedServerProcess) : Prop :=
  ∀ s w, ∃ s' w',
    f s w = (inr s', w') ∧ servers w' = servers w ∧ (clock w ≤ clock w')%Z ∧
    project_name s' = project_name s ∧ (tidy (clock w) s → tidy (clock w') s').

Definition handle_change (g : ManagedServerProcess → ManagedServerProcess) : Prop :=
  ∀ s, project_name (g s) = project_name s ∧ ∀ t, tidy t s → tidy t (g s).

Lemma handle_op_ret : handle_op ret.
Proof. intros s w. by exists s, w. Qed.

Lemma handle_op_seq f g :
  handle_op f → handle_op g → handle_op (λ s, s1 <- f s ;; g s1).
Proof.
  intros Hf Hg s w.
  destruct (Hf s w) as (s1 & w1 & Hrun1 & Hs1 & Hc1 & Hn1 & Ht1).
  destruct (Hg s1 w1) as (s2 & w2 & Hrun2 & Hs2 & Hc2 & Hn2 & Ht2).
  exists s2, w2. rewrite bind_run, Hrun1, Hrun2.
  split_and!; [done|congruence|lia|congruence|tauto].
Qed.

Lemma handle_op_change f g :
  handle_op f → handle_change g → handle_op (λ s, f (g s)).
Proof.
  intros Hf Hg s w. destruct (Hg s) as [Hn Ht].
  destruct (Hf (g s) w) as (s1 & w1 & Hrun1 & Hs1 & Hc1 & Hn1 & Ht1).
  exists s1, w1. split_and!; [done|done|done|congruence|]. intros H. by apply Ht1, Ht.
Qed.

Lemma handle_op_if (b : ManagedServerProcess → bool) f g :
  handle_op f → handle_op g → handle_op (λ s, if b s then f s else g s).
Proof. intros Hf Hg s w. destruct (b s); [apply Hf|apply Hg]. Qed.

Lemma set_auto_restart_change b : handle_change (set_auto_restart b).
Proof. intros s. split; [done|]. by intros t (? & ? & ?). Qed.

Lemma reset_restart_count_change : handle_change reset_restart_count.
Proof.
  intros s. split; [done|]. intros t (? & ? & ?).
  split_and!; [cbn; lia|done|done].
Qed.

Lemma child_exits_change rc : handle_change (child_exits rc).
Proof.
  intros s. unfold child_exits, tidy, is_alive.
  destruct s as [nm pth prt tr hst ctx mds lvl ar [[ppid [rc'|]]|] st n]; cbn; split; try done.
  intros t (? & ? & ?). done.
Qed.

Lemma start_op : handle_op start.
Proof.
  intros s w. unfold start. destruct (is_alive s) eqn:Halive.
  - by exists s, w.
  - eexists _, _. split; [reflexivity|]. cbn.
    split_and!; [done|lia|done|].
    intros (Hn & Hs & Ha). split_and!; cbn; [done| |done].
    intros t0 [= <-]. lia.
Qed.

Lemma stop_op : handle_op stop.
Proof.
  intros s w. unfold stop, tidy, is_alive.
  destruct s as [nm pth prt tr hst ctx mds lvl ar [[ppid [rc'|]]|] st n]; cbn;
    eexists _, _; (split; [reflexivity|]); cbn;
    (split_and!; [done|lia|done|]); intros (? & ? & ?); done.
Qed.

Lemma backoff_pos n : (0 < backoff n)%Z.
Proof. unfold backoff. apply Z.min_glb_lt; [|lia]. apply Z.pow_pos_nonneg; lia. Qed.

(** [monitor_server] on a live handle: only the stability test runs. *)
Lemma monitor_server_alive s w :
  is_alive s = true →
  monitor_server s w =
  (inr (if match uptime (clock w) s with
            | Some u => bool_decide (STABLE_PERIOD < u)%Z
            | None => false
            end
        then reset_restart_count s else s), w).
Proof.
  intros Halive. unfold monitor_server. rewrite Halive. cbn [negb andb].
  unfold bind, ret, time_time. rewrite Halive. cbn [andb].
  by destruct (match uptime _ _ with Some _ => _ | None => _ end).
Qed.

(** ... and on a dead handle that is not to be restarted: nothing. *)
Lemma monitor_server_off s w :
  is_alive s = false → auto_restart s = false → monitor_server s w = (inr s, w).
Proof.
  intros Hdead Hauto. unfold monitor_server. rewrite Hdead, Hauto. cbn [negb andb].
  unfold bind, ret, time_time. by rewrite Hdead.
Qed.

Lemma monitor_server_op : handle_op monitor_server.
Proof.
  intros s w. destruct (is_alive s) eqn:Halive; [|destruct (auto_restart s) eqn:Hauto].
  - rewrite monitor_server_alive by done. eexists _, _. split; [reflexivity|].
    split_and!; [done|lia| |].
    + by destruct (match uptime _ _ with Some _ => _ | None => _ end).
    + destruct (match uptime _ _ with Some _ => _ | None => _ end); [|done].
      apply reset_restart_count_change.
  - destruct (decide (max_retries ≤ _restart_count s)) as [Hn|Hn].
    + rewrite monitor_server_gives_up by done. eexists _, _. split; [reflexivity|].
      split_and!; [done|lia|done|]. apply set_auto_restart_change.
    + rewrite monitor_server_restarts by (done || lia).
      pose proof (backoff_pos (_restart_count s)).
      eexists _, _. split; [reflexivity|]. unfold after_restart, restarted, tidy.
      cbn [servers clock project_name _restart_count _start_time].
      split_and!; [done|lia|done|]. intros (? & ? & ?).
      split_and!; [lia| |done]. intros t0 [= <-]. lia.
  - rewrite monitor_server_off by done. by exists s, w.
Qed.

(** ** Registries *)

Definition registry_ok (w : World) : Prop :=
  NoDup (keys (servers w)) ∧
  ∀ name s, (name, s) ∈ servers w → project_name s = name ∧ tidy (clock w) s.

Lemma elem_of_dict_set {V} k (v : V) d k' v' :
  (k', v') ∈ dict_set k v d → (k', v') ∈ d ∨ (k' = k ∧ v' = v).
Proof.
  induction d as [|[k0 v0] d IH]; cbn.
  - intros [= -> ->]%list_elem_of_singleton. by right.
  - case_bool_decide as Hk.
    + intros [[= -> ->]|Hin]%elem_of_cons; [by right|]. left. by right.
    + intros [[= -> ->]|Hin]%elem_of_cons; [left; by left|].
      destruct (IH Hin) as [?|?]; [left; by right|by right].
Qed.

Lemma keys_dict_set {V} k (v : V) d : k ∈ keys d → keys (dict_set k v d) = keys d.
Proof.
  unfold keys. induction d as [|[k0 v0] d IH]; [by intros ?%elem_of_nil|].
  rewrite fmap_cons. cbn [dict_set fst]. case_bool_decide as Hk; [by subst|].
  intros [->|Hin]%elem_of_cons; [done|]. rewrite fmap_cons. cbn [fst]. by rewrite IH.
Qed.

Lemma dict_get_Some_keys {V} k (v : V) d : dict_get k d = Some v → (k, v) ∈ d.
Proof.
  induction d as [|[k0 v0] d IH]; cbn; [done|].
  case_bool_decide as Hk; [intros [= <-]; subst; by left|].
  intros H. right. by apply IH.
Qed.

Lemma elem_of_keys {V} k (v : V) d : (k, v) ∈ d → k ∈ keys d.
Proof. intros H. unfold keys. apply list_elem_of_fmap. by exists (k, v). Qed.

Lemma elem_of_dict_del {V} k d (k' : string) (v' : V) : (k', v') ∈ dict_del k d → (k', v') ∈ d.
Proof.
  induction d as [|[k0 v0] d IH]; cbn; [done|].
  case_bool_decide as Hk; [by right|].
  intros [->|Hin]%elem_of_cons; [by left|]. right. by apply IH.
Qed.

Lemma keys_dict_del {V} k (d : list (string * V)) :
  NoDup (keys d) → NoDup (keys (dict_del k d)) ∧ k ∉ keys (dict_del k d).
Proof.
  unfold keys. induction d as [|[k0 v0] d IH]; [intros _; split; [constructor|set_solver]|].
  rewrite fmap_cons. cbn [dict_del fst].
  intros [Hk0 Hd]%NoDup_cons. case_bool_decide as Hk.
  - subst. done.
  - destruct (IH Hd) as [IH1 IH2]. rewrite fmap_cons. cbn [fst]. split.
    + apply NoDup_cons. split; [|done]. intros Hin. apply Hk0.
      apply list_elem_of_fmap in Hin as ([k1 v1] & -> & Hin).
      apply list_elem_of_fmap. exists (k1, v1). split; [done|]. by eapply elem_of_dict_del.
    + intros [->|Hin]%elem_of_cons; done.
Qed.

(** A computation keeps the registry in order, whether it returns or raises. *)
Definition preserves {A} (m : M A) : Prop := ∀ w, registry_ok w → registry_ok (m w).2.

Lemma preserves_ret {A} (a : A) : preserves (ret a).
Proof. by intros w. Qed.

Lemma preserves_raise {A} e : preserves (@raise A e).
Proof. by intros w. Qed.

Lemma preserves_bind {A B} (m : M A) (k : A → M B) :
  preserves m → (∀ a, preserves (k a)) → preserves (bind m k).
Proof.
  intros Hm Hk w Hw. rewrite bind_run. specialize (Hm w Hw).
  destruct (m w) as [[e|a] w']; [done|]. by apply Hk.
Qed.

Lemma preserves_get_servers : preserves get_servers.
Proof. by intros w. Qed.

Lemma preserves_time_time : preserves time_time.
Proof. by intros w. Qed.

Lemma preserves_catch m : preserves m → preserves (catch m).
Proof.
  intros Hm w Hw. unfold catch. specialize (Hm w Hw). by destruct (m w) as [[e|a] w'].
Qed.

Lemma preserves_mapM {A B} (f : A → M B) l : (∀ a, preserves (f a)) → preserves (mapM f l).
Proof.
  intros Hf. induction l as [|a l IH]; [apply preserves_ret|].
  cbn [mapM]. apply preserves_bind; [done|]. intros b.
  apply preserves_bind; [done|]. intros bs. apply preserves_ret.
Qed.

Lemma registry_ok_clock w t :
  (clock w ≤ t)%Z → registry_ok w → registry_ok (mkWorld (servers w) t (next_pid w) (trace w)).
Proof.
  intros Ht [Hnd Hall]. split; [done|]. cbn. intros name s Hin.
  destruct (Hall name s Hin) as [? ?]. split; [done|]. by eapply tidy_mono.
Qed.

Lemma preserves_event_wait t : (0 ≤ t)%Z → preserves (event_wait t).
Proof. intros Ht w Hw. apply registry_ok_clock; [lia|done]. Qed.

Lemma preserves_with_server name f : handle_op f → preserves (with_server name f).
Proof.
  intros Hf w [Hnd Hall]. unfold with_server. rewrite bind_run. cbn.
  destruct (dict_get name (servers w)) as [s|] eqn:Hget; [|done].
  destruct (Hf s w) as (s' & w' & Hrun & Hs & Hc & Hn & Ht).
  rewrite bind_run, Hrun. cbn. rewrite Hs.
  pose proof (dict_get_Some_keys _ _ _ Hget) as Hin.
  destruct (Hall name s Hin) as [Hname Htidy].
  split; cbn [servers clock].
  - rewrite keys_dict_set; [done|]. by eapply elem_of_keys.
  - intros k v [Hold|[-> ->]]%elem_of_dict_set.
    + destruct (Hall k v Hold). split; [done|]. by eapply tidy_mono.
    + split; [congruence|tauto].
Qed.

(** A handle operation run over every entry of a snapshot of the registry *)
Lemma mapM_entries f : handle_op f → ∀ d w,
  ∃ d' w',
    mapM (λ kv : string * ManagedServerProcess, s' <- f kv.2 ;; ret (kv.1, s')) d w
      = (inr d', w') ∧
    servers w' = servers w ∧ (clock w ≤ clock w')%Z ∧ keys d' = keys d ∧
    ∀ k s', (k, s') ∈ d' →
      ∃ s, (k, s) ∈ d ∧ project_name s' = project_name s ∧
           (tidy (clock w) s → tidy (clock w') s').
Proof.
  intros Hf. induction d as [|[k s] d IH]; intros w.
  - exists [], w. split_and!; [done|done|lia|done|]. by intros ?? ?%elem_of_nil.
  - cbn [mapM]. rewrite !bind_run. cbn [fst snd].
    destruct (Hf s w) as (s1 & w1 & -> & Hs1 & Hc1 & Hn1 & Ht1).
    unfold ret at 1. rewrite bind_run.
    destruct (IH w1) as (d' & w' & -> & Hs' & Hc' & Hk' & Hd').
    exists ((k, s1) :: d'), w'. split_and!; [done|congruence|lia| |].
    + unfold keys in *. rewrite !fmap_cons. by rewrite Hk'.
    + intros k0 s0 [[= -> ->]|Hin]%elem_of_cons.
      * exists s. split_and!; [by left|done|]. intros H. eapply tidy_mono; [|by apply Ht1]. done.
      * destruct (Hd' k0 s0 Hin) as (s2 & Hin2 & Hn2 & Ht2).
        exists s2. split_and!; [by right|done|]. intros H. apply Ht2.
        by eapply tidy_mono.
Qed.

Lemma preserves_entries f :
  handle_op f →
  preserves (d <- get_servers ;;
             d' <- mapM (λ kv : string * ManagedServerProcess,
                           s' <- f kv.2 ;; ret (kv.1, s')) d ;;
             put_servers d').
Proof.
  intros Hf w [Hnd Hall]. rewrite bind_run. cbn [get_servers]. rewrite bind_run.
  destruct (mapM_entries f Hf (servers w) w) as (d' & w' & -> & Hs & Hc & Hk & Hd).
  cbn [put_servers snd]. split; cbn [servers clock]; [by rewrite Hk|].
  intros k s' Hin. destruct (Hd k s' Hin) as (s & Hin0 & Hn & Ht).
  destruct (Hall k s Hin0) as [Hname Htidy]. split; [congruence|tauto].
Qed.

Lemma preserves_add_server name path prt tr hst ctx mds lvl :
  preserves (add_server name path prt tr hst ctx mds lvl).
Proof.
  intros w [Hnd Hall]. unfold add_server. rewrite bind_run. cbn [get_servers].
  case_bool_decide as Hin; [done|].
  cbn [put_servers snd]. rewrite dict_set_fresh by done.
  split; cbn [servers clock].
  - unfold keys in *. rewrite fmap_app. apply NoDup_app. split_and!; [done| |apply NoDup_singleton].
    intros k Hk ->%list_elem_of_singleton. done.
  - intros k s [Hold|[= -> ->]%list_elem_of_singleton]%elem_of_app; [by apply Hall|].
    split; [done|]. split_and!; cbn; [lia|done|done].
Qed.

Lemma preserves_find_free_port bindable : preserves (find_free_port bindable).
Proof.
  intros w Hw. unfold find_free_port. rewrite bind_run. cbn [get_servers].
  by destruct (probe_ports _ _ _) as [e|[p|]].
Qed.

Lemma preserves_to_dict s : preserves (to_dict s).
Proof. by intros w Hw. Qed.

Lemma preserves_stop_server name : preserves (stop_server name).
Proof.
  apply preserves_with_server.
  exact (handle_op_change stop _ stop_op (set_auto_restart_change false)).
Qed.

Lemma preserves_start_server name : preserves (start_server name).
Proof.
  apply preserves_with_server.
  exact (handle_op_change start _ start_op (set_auto_restart_change true)).
Qed.

Lemma preserves_restart_server name : preserves (restart_server name).
Proof.
  apply preserves_with_server.
  apply handle_op_seq; [apply stop_op|].
  apply (handle_op_change start (λ s, reset_restart_count (set_auto_restart true s)) start_op).
  intros s. split; [done|]. intros t Ht.
  by apply reset_restart_count_change, set_auto_restart_change.
Qed.

Lemma preserves_remove_server name : preserves (remove_server name).
Proof.
  unfold remove_server. apply preserves_bind.
  - apply preserves_with_server.
    exact (handle_op_change stop _ stop_op (set_auto_restart_change false)).
  - intros _. intros w [Hnd Hall]. rewrite bind_run. cbn [get_servers put_servers snd].
    split; cbn [servers clock].
    + by apply keys_dict_del.
    + intros k s Hin%elem_of_dict_del. by apply Hall.
Qed.

Lemma preserves_start_all : preserves start_all.
Proof.
  apply (preserves_entries
           (λ s, if auto_restart s && negb (is_alive s) then start s else ret s)).
  apply (handle_op_if (λ s, auto_restart s && negb (is_alive s)));
    [apply start_op|apply handle_op_ret].
Qed.

Lemma preserves_shutdown : preserves shutdown.
Proof. apply (preserves_entries stop), stop_op. Qed.

Lemma preserves_monitor_pass : preserves monitor_pass.
Proof. apply (preserves_entries monitor_server), monitor_server_op. Qed.

Lemma preserves_list_servers : preserves list_servers.
Proof.
  unfold list_servers. apply preserves_bind; [apply preserves_get_servers|].
  intros d. apply preserves_mapM, preserves_to_dict.
Qed.

Lemma preserves_run_command c : preserves (run_command c).
Proof.
  unfold run_command. apply preserves_catch.
  destruct (action c) as [a|], (project c) as [p|]; try apply preserves_ret.
  repeat case_bool_decide; try apply preserves_ret;
    [apply preserves_stop_server|apply preserves_start_server|apply preserves_restart_server].
Qed.

Lemma preserves_run_entry cmd : preserves (run_entry cmd).
Proof. destruct cmd; [apply preserves_run_command|apply preserves_raise]. Qed.

Lemma preserves_process_control_commands cmds : preserves (process_control_commands cmds).
Proof.
  unfold process_control_commands. apply preserves_bind.
  - apply preserves_mapM, preserves_run_entry.
  - intros _. apply preserves_ret.
Qed.

Lemma preserves_run_iteration cmds : preserves (run_iteration cmds).
Proof.
  unfold run_iteration. apply preserves_bind; [apply preserves_monitor_pass|]. intros _.
  apply preserves_bind; [apply preserves_process_control_commands|]. intros _.
  by apply preserves_event_wait.
Qed.

Lemma preserves_add_and_start_server bindable path tr hst ctx mds lvl :
  preserves (add_and_start_server bindable path tr hst ctx mds lvl).
Proof.
  unfold add_and_start_server. case_bool_decide; [apply preserves_raise|].
  apply preserves_bind; [apply preserves_get_servers|]. intros d.
  apply preserves_bind; [apply preserves_find_free_port|]. intros prt.
  apply preserves_bind; [apply preserves_add_server|]. intros _.
  apply preserves_bind; [apply preserves_start_server|]. intros _.
  apply preserves_bind; [apply preserves_get_servers|]. intros d'.
  destruct (dict_get _ d'); [apply preserves_to_dict|apply preserves_raise].
Qed.

Lemma preserves_child_exit name rc : preserves (child_exit name rc).
Proof.
  intros w [Hnd Hall]. unfold child_exit. rewrite bind_run. cbn [get_servers].
  destruct (dict_get name (servers w)) as [s|] eqn:Hget; [|done].
  pose proof (dict_get_Some_keys _ _ _ Hget) as Hin.
  cbn [put_servers snd]. split; cbn [servers clock].
  - rewrite keys_dict_set; [done|]. by eapply elem_of_keys.
  - intros k v [Hold|[-> ->]]%elem_of_dict_set; [by apply Hall|].
    destruct (Hall name s Hin) as [Hname Htidy].
    destruct (child_exits_change rc s) as [Hn Ht]. split; [congruence|by apply Ht].
Qed.

Lemma run_step_ok w st : registry_ok w → registry_ok (run_step w st).
Proof.
  intros Hw. destruct st; cbn [run_step]; unfold state_after.
  - by apply preserves_add_server.
  - by apply preserves_start_all.
  - by apply preserves_stop_server.
  - by apply preserves_start_server.
  - by apply preserves_restart_server.
  - by apply preserves_remove_server.
  - by apply preserves_list_servers.
  - by apply preserves_add_and_start_server.
  - by apply preserves_shutdown.
  - by apply preserves_run_iteration.
  - by apply preserves_child_exit.
Qed.

Lemma run_session_ok steps : registry_ok (run_session steps).
Proof.
  unfold run_session.
  assert (registry_ok empty_world) as H0.
  { split; [constructor|]. by intros ?? ?%elem_of_nil. }
  revert H0. generalize empty_world.
  induction steps as [|st steps IH]; intros w Hw; [done|].
  cbn [foldl]. by apply IH, run_step_ok.
Qed.

(** X1.  Whatever calls of the manager's interface, monitor iterations and
    child exits a manager created empty has been through: no project name
    is registered twice, every handle is registered under its own project
    name, and no restart counter exceeds the three allowed attempts. *)
Theorem registry_invariant (steps : list step) :
  let w := run_session steps in
  NoDup (keys (servers w)) ∧
  ∀ name s, (name, s) ∈ servers w →
    dict_get name (servers w) = Some s ∧
    project_name s = name ∧ _restart_count s ≤ 3.
Proof.
  cbn zeta. destruct (run_session_ok steps) as [Hnd Hall]. split; [done|].
  intros name s Hin. destruct (Hall name s Hin) as (Hname & Hcount & _).
  split_and!; [|done|done].
  clear Hall Hname Hcount. revert Hnd Hin. generalize (servers (run_session steps)).
  intros d. unfold keys. induction d as [|[k v] d IH]; [by intros _ ?%elem_of_nil|].
  rewrite fmap_cons. cbn [fst dict_get]. intros [Hk Hd]%NoDup_cons.
  intros [[= -> ->]|Hin]%elem_of_cons.
  - by rewrite bool_decide_eq_true_2.
  - rewrite bool_decide_eq_false_2; [by apply IH|].
    intros ->. apply Hk. apply list_elem_of_fmap. by exists (name, s).
Qed.



Ltac listed := repeat first [ by left | right ].


(** ** Exact effects of the handle operations *)

(** The event [stop] adds: the child is terminated when it runs. *)
Definition stop_events (s : ManagedServerProcess) : list event :=
  match pid s with Some p => [Terminate p] | None => [] end.

Lemma stop_run s w :
  stop s w = (inr (set_process None s),
              mkWorld (servers w) (clock w) (next_pid w) (trace w ++ stop_events s)).
Proof.
  unfold stop, stop_events, pid. destruct w as [d t n tr].
  destruct s as [nm pth prt tr0 hst ctx mds lvl ar [[ppid [rc'|]]|] st c]; cbn;
    by rewrite ?app_nil_r.
Qed.

Lemma start_run_alive s w : is_alive s = true → start s w = (inr s, w).
Proof. intros H. unfold start. by rewrite H. Qed.

Lemma start_run_dead s w :
  is_alive s = false →
  start s w = (inr (set_start_time (Some (clock w))
                      (set_process (Some (mkPopen (next_pid w) None)) s)),
               mkWorld (servers w) (clock w) (S (next_pid w))
                       (trace w ++ [Spawn (project_name s) (next_pid w)])).
Proof. intros H. unfold start. by rewrite H. Qed.

Lemma with_server_unknown name f w :
  dict_get name (servers w) = None →
  with_server name f w = (inl (ValueError ("Unknown project: " +:+ name)), w).
Proof. intros H. unfold with_server. rewrite bind_run. cbn [get_servers]. by rewrite H. Qed.

Lemma with_server_run name f w s s' w' :
  dict_get name (servers w) = Some s → f s w = (inr s', w') →
  with_server name f w =
  (inr tt, mkWorld (dict_set name s' (servers w')) (clock w') (next_pid w') (trace w')).
Proof.
  intros H Hf. unfold with_server. rewrite bind_run. cbn [get_servers]. rewrite H.
  by rewrite bind_run, Hf.
Qed.

Lemma dict_get_set_eq {V} k (v : V) d : dict_get k (dict_set k v d) = Some v.
Proof.
  induction d as [|[k0 v0] d IH]; cbn [dict_set dict_get].
  - by rewrite bool_decide_eq_true_2.
  - case_bool_decide as Hk; cbn [dict_get].
    + by rewrite bool_decide_eq_true_2.
    + by rewrite bool_decide_eq_false_2.
Qed.

Lemma dict_get_set_ne {V} k k' (v : V) d : k' ≠ k → dict_get k' (dict_set k v d) = dict_get k' d.
Proof.
  intros Hne. induction d as [|[k0 v0] d IH]; cbn [dict_set dict_get].
  - by rewrite bool_decide_eq_false_2.
  - case_bool_decide as Hk; cbn [dict_get].
    + subst. by rewrite !bool_decide_eq_false_2 by done.
    + case_bool_decide; [done|apply IH].
Qed.

Lemma dict_get_is_Some {V} k (d : list (string * V)) : k ∈ keys d ↔ is_Some (dict_get k d).
Proof.
  unfold keys. induction d as [|[k0 v0] d IH]; cbn [dict_get].
  - split; [by intros ?%elem_of_nil|by intros [? ?]].
  - rewrite fmap_cons. cbn [fst]. case_bool_decide as Hk.
    + subst. split; [by eexists|intros _; by left].
    + rewrite <- IH. split; [intros [->|?]%elem_of_cons; done|by right].
Qed.

(** The first entry under a key decides what [dict_get] finds. *)
Lemma dict_get_lookup {V} k (v : V) d :
  dict_get k d = Some v ↔
  ∃ i, d !! i = Some (k, v) ∧ ∀ j, j < i → keys d !! j ≠ Some k.
Proof.
  unfold keys. induction d as [|[k0 v0] d IH]; cbn [dict_get].
  - split; [done|]. by intros (i & Hi & _).
  - case_bool_decide as Hk.
    + subst. split.
      * intros [= ->]. exists 0. split; [done|]. lia.
      * intros ([|i] & Hi & Hfirst); [by injection Hi as ->|].
        exfalso. by apply (Hfirst 0); [lia|].
    + rewrite IH. split.
      * intros (i & Hi & Hfirst). exists (S i). split; [done|].
        intros [|j] Hj; [cbn; congruence|]. apply Hfirst. lia.
      * intros ([|i] & Hi & Hfirst); [by injection Hi as -> ->|].
        exists i. split; [done|]. intros j Hj. apply (Hfirst (S j)). lia.
Qed.

(** A handle operation run over the entries leaves alone the entries it
    does nothing to. *)
Lemma mapM_entries_frame f : handle_op f → ∀ d w,
  ∃ d' w',
    mapM (λ kv : string * ManagedServerProcess, s' <- f kv.2 ;; ret (kv.1, s')) d w
      = (inr d', w') ∧
    servers w' = servers w ∧ keys d' = keys d ∧
    ∀ i k s, d !! i = Some (k, s) → (∀ w0, f s w0 = (inr s, w0)) → d' !! i = Some (k, s).
Proof.
  intros Hf. induction d as [|[k s] d IH]; intros w.
  - exists [], w. by split_and!.
  - cbn [mapM]. rewrite !bind_run. cbn [fst snd].
    destruct (Hf s w) as (s1 & w1 & Hrun & Hs1 & _).
    rewrite Hrun. unfold ret at 1. rewrite bind_run.
    destruct (IH w1) as (d' & w' & -> & Hs' & Hk' & Hd').
    exists ((k, s1) :: d'), w'. split_and!; [done|congruence| |].
    + unfold keys in *. rewrite !fmap_cons. by rewrite Hk'.
    + intros [|i] k0 s0 Hi Hnoop.
      * injection Hi as -> ->. rewrite Hnoop in Hrun. by injection Hrun as <- _.
      * by apply (Hd' i).
Qed.

(** [n] passes of the monitor loop, one after another *)
Fixpoint monitor_passes (n : nat) : M unit :=
  match n with
  | O => ret tt
  | S n' => monitor_pass ;;; monitor_passes n'
  end.

Lemma monitor_pass_frame w name s :
  dict_get name (servers w) = Some s → is_alive s = false → auto_restart s = false →
  ∃ w', monitor_pass w = (inr tt, w') ∧ dict_get name (servers w') = Some s.
Proof.
  intros Hget Hdead Hoff.
  destruct (mapM_entries_frame monitor_server monitor_server_op (servers w) w)
    as (d' & w' & Hrun & Hs & Hk & Hd).
  exists (mkWorld d' (clock w') (next_pid w') (trace w')).
  rewrite monitor_pass_unfold, Hrun. split; [done|]. cbn [servers].
  apply dict_get_lookup in Hget as (i & Hi & Hfirst).
  apply dict_get_lookup. exists i. split.
  - apply (Hd i); [done|]. intros w0. by apply monitor_server_off.
  - by rewrite Hk.
Qed.

Lemma monitor_passes_frame n : ∀ w name s,
  dict_get name (servers w) = Some s → is_alive s = false → auto_restart s = false →
  ∃ w', monitor_passes n w = (inr tt, w') ∧ dict_get name (servers w') = Some s.
Proof.
  induction n as [|n IH]; intros w name s Hget Hdead Hoff.
  - by exists w.
  - cbn [monitor_passes]. rewrite bind_run.
    destruct (monitor_pass_frame w name s Hget Hdead Hoff) as (w1 & -> & Hget1).
    by apply IH.
Qed.

(** X3.  [stop_server] on an unknown project raises [ValueError] and
    changes nothing.  On a registered one it terminates the child if one
    runs, and leaves the handle without a process and with [auto_restart]
    off; the other servers are as they were; and however many passes the
    monitor then makes, the handle stays as [stop_server] left it, with
    status ["stopped"]: the monitor does not restart a server that was
    stopped on request. *)
Theorem stop_server_sticks (w : World) (name : string) :
  match dict_get name (servers w) with
  | None => stop_server name w = (inl (ValueError ("Unknown project: " +:+ name)), w)
  | Some s =>
      let s' := set_process None (set_auto_restart false s) in
      ∃ w1,
        stop_server name w = (inr tt, w1) ∧
        trace w1 = trace w ++ stop_events s ∧
        keys (servers w1) = keys (servers w) ∧
        (∀ other, other ≠ name → dict_get other (servers w1) = dict_get other (servers w)) ∧
        status s' = "stopped" ∧
        ∀ n, ∃ w2,
          monitor_passes n w1 = (inr tt, w2) ∧
          dict_get name (servers w2) = Some s'
  end.
Proof.
  destruct (dict_get name (servers w)) as [s|] eqn:Hget.
  - cbn zeta. eexists. split; [|split_and!].
    + unfold stop_server. eapply with_server_run; [done|]. apply stop_run.
    + done.
    + cbn [servers]. apply keys_dict_set, dict_get_is_Some. by rewrite Hget.
    + intros other Hne. cbn [servers]. by apply dict_get_set_ne.
    + done.
    + intros n. apply monitor_passes_frame; [|done|done].
      cbn [servers]. apply dict_get_set_eq.
  - by apply with_server_unknown.
Qed.

Lemma sleeps_app tr1 tr2 : sleeps (tr1 ++ tr2) = sleeps tr1 ++ sleeps tr2.
Proof. apply omap_app. Qed.

Lemma sleeps_stop_events s : sleeps (stop_events s) = [].
Proof. unfold stop_events. by destruct (pid s). Qed.

(** X4.  [restart_server] on a registered project, whatever state its
    handle is in (also one the monitor has given up on): the old child is
    terminated if it runs, exactly one new child is spawned, and the handle
    is left running under the new pid with [auto_restart] on and the
    restart counter at zero, so that if the new child dies the monitor
    restarts it after a back-off of one second.  On an unknown project the
    call raises [ValueError] and changes nothing. *)
Theorem restart_server_revives (w : World) (name : string) (rc : Z) :
  match dict_get name (servers w) with
  | None => restart_server name w = (inl (ValueError ("Unknown project: " +:+ name)), w)
  | Some s =>
      ∃ w' s',
        restart_server name w = (inr tt, w') ∧
        dict_get name (servers w') = Some s' ∧
        status s' = "running" ∧ pid s' = Some (next_pid w) ∧
        _restart_count s' = 0 ∧ auto_restart s' = true ∧
        trace w' = trace w ++ stop_events s ++ [Spawn (project_name s) (next_pid w)] ∧
        let after_crash := crash_cycle rc (child_exits rc s', w') in
        sleeps (trace after_crash.2) = sleeps (trace w) ++ [1%Z] ∧
        _restart_count after_crash.1 = 1
  end.
Proof.
  destruct (dict_get name (servers w)) as [s|] eqn:Hget;
    [|by apply with_server_unknown].
  eexists _, _. split; [|split].
  - unfold restart_server. eapply with_server_run; [done|].
    rewrite bind_run, stop_run. by rewrite start_run_dead.
  - cbn [servers]. apply dict_get_set_eq.
  - split_and!; try done.
    + cbn [trace]. by rewrite <- (assoc_L (++)).
    + cbn zeta. rewrite crash_cycle_restarts by (done || (cbn; unfold max_retries; lia)).
      split; [|done]. unfold after_restart. cbn [snd trace].
      rewrite !sleeps_app, sleeps_stop_events. by rewrite !app_nil_r.
Qed.

(** X5.  The monitor's stability test.  For a live handle the monitor
    changes nothing but the restart counter, which it resets exactly when
    the child has been up for more than 60 seconds (60 seconds exactly is
    not enough).  After a reset the next crash is answered after a
    back-off of one second, whatever the counter was before. *)
Theorem stable_period_resets_backoff (s : ManagedServerProcess) (w : World)
    (t0 : Z) (rc : Z) :
  is_alive s = true → auto_restart s = true → _start_time s = Some t0 →
  let stable := bool_decide (60 < clock w - t0)%Z in
  let s1 := if stable then reset_restart_count s else s in
  monitor_server s w = (inr s1, w) ∧
  _restart_count s1 = (if stable then 0 else _restart_count s) ∧
  (stable = true →
   let after_crash := crash_cycle rc (child_exits rc s1, w) in
   sleeps (trace after_crash.2) = sleeps (trace w) ++ [1%Z] ∧
   _restart_count after_crash.1 = 1).
Proof.
  intros Halive Hauto Hstart. cbn zeta.
  rewrite monitor_server_alive by done. unfold uptime. rewrite Hstart, Halive.
  unfold STABLE_PERIOD. split_and!; [done|by case_bool_decide|].
  intros ->.
  assert (is_alive (child_exits rc (reset_restart_count s)) = false) as Hdead.
  { unfold child_exits, is_alive in *.
    by destruct s as [nm pth prt tr0 hst ctx mds lvl ar [[ppid [rc'|]]|] st c]. }
  assert (auto_restart (child_exits rc (reset_restart_count s)) = true) as Hauto'.
  { unfold child_exits, is_alive in *.
    by destruct s as [nm pth prt tr0 hst ctx mds lvl ar [[ppid [rc'|]]|] st c]. }
  assert (_restart_count (child_exits rc (reset_restart_count s)) = 0) as Hcount.
  { unfold child_exits, is_alive in *.
    by destruct s as [nm pth prt tr0 hst ctx mds lvl ar [[ppid [rc'|]]|] st c]. }
  rewrite crash_cycle_restarts by (done || (rewrite Hcount; unfold max_retries; lia)).
  rewrite child_exits_restarted. unfold after_restart. cbn [fst snd trace _restart_count].
  rewrite Hcount. split; [|done]. by rewrite sleeps_app.
Qed.

Definition steady_worker : ManagedServerProcess :=
  mkServer "alpha" "/tmp/alpha" 9200 Sse "0.0.0.0" None [] None true
           (Some (mkPopen 7 None)) (Some 100%Z) 2.

Definition later_world : World := mkWorld [("alpha", steady_worker)] 161 8 [].

Lemma stable_period_resets_backoff_witness :
  is_alive steady_worker = true ∧ auto_restart steady_worker = true ∧
  _start_time steady_worker = Some 100%Z ∧
  monitor_server steady_worker later_world
    = (inr (reset_restart_count steady_worker), later_world).
Proof.
  split; [reflexivity|]. split; [reflexivity|]. split; [reflexivity|].
  exact (proj1 (stable_period_resets_backoff steady_worker later_world 100 1
                  eq_refl eq_refl eq_refl)).
Defined.

(** ** [shutdown] and [start_all] *)

Lemma mapM_stop d : ∀ w,
  mapM (λ kv : string * ManagedServerProcess, s' <- stop kv.2 ;; ret (kv.1, s')) d w =
  (inr ((λ kv : string * ManagedServerProcess, (kv.1, set_process None kv.2)) <$> d),
   mkWorld (servers w) (clock w) (next_pid w)
           (trace w ++ (values d ≫= stop_events))).
Proof.
  unfold values. induction d as [|[k s] d IH]; intros w.
  - destruct w. cbn. by rewrite app_nil_r.
  - cbn [mapM]. rewrite !bind_run. cbn [fst snd]. rewrite stop_run.
    unfold ret at 1. rewrite bind_run, IH. cbn [servers clock next_pid trace].
    rewrite !fmap_cons. cbn [fst snd mbind list_bind]. unfold ret.
    by rewrite <- (assoc_L (++)).
Qed.

Lemma stop_events_stopped s : stop_events (set_process None s) = [].
Proof. done. Qed.

(** X6.  [shutdown] returns; it terminates exactly the children that
    run, in registration order, and spawns nothing; afterwards every
    server is still registered, holds no process and reports ["stopped"];
    and a second [shutdown] does nothing at all. *)
Theorem shutdown_stops_everything (w : World) :
  ∃ w',
    shutdown w = (inr tt, w') ∧
    trace w' = trace w ++ (Terminate <$> omap pid (values (servers w))) ∧
    keys (servers w') = keys (servers w) ∧
    clock w' = clock w ∧ next_pid w' = next_pid w ∧
    (∀ name s, (name, s) ∈ servers w' → _process s = None ∧ status s = "stopped") ∧
    shutdown w' = (inr tt, w').
Proof.
  assert (∀ l, l ≫= stop_events = Terminate <$> omap pid l) as Hevents.
  { induction l as [|s l IH]; [done|]. cbn [mbind list_bind omap list_omap].
    unfold stop_events at 1. destruct (pid s); cbn; by rewrite <- IH. }
  assert (∀ w0, shutdown w0 =
            (inr tt, mkWorld ((λ kv : string * ManagedServerProcess,
                                 (kv.1, set_process None kv.2)) <$> servers w0)
                             (clock w0) (next_pid w0)
                             (trace w0 ++ (values (servers w0) ≫= stop_events)))) as Hrun.
  { intros w0. unfold shutdown. rewrite bind_run. cbn [get_servers].
    by rewrite bind_run, mapM_stop. }
  eexists. split; [apply Hrun|]. cbn [servers clock next_pid trace].
  split_and!; try done.
  - by rewrite Hevents.
  - unfold keys. rewrite <- list_fmap_compose. by apply list_fmap_ext.
  - intros name s ([k s0] & [= -> ->] & Hin)%list_elem_of_fmap. cbn [snd].
    split; [done|]. unfold status. cbn. by destruct (auto_restart s0).
  - rewrite Hrun. cbn [servers clock next_pid trace]. f_equal. f_equal.
    + rewrite <- list_fmap_compose. by apply list_fmap_ext.
    + assert (∀ d : list (string * ManagedServerProcess),
                values ((λ kv : string * ManagedServerProcess,
                           (kv.1, set_process None kv.2)) <$> d) ≫= stop_events = []) as ->.
      { unfold values. induction d as [|[k s] d IH]; [done|].
        rewrite !fmap_cons. cbn [mbind list_bind snd]. by rewrite IH. }
      by rewrite app_nil_r.
Qed.

(** Does [start_all] start the server of this handle? *)
Definition to_start (s : ManagedServerProcess) : bool :=
  auto_restart s && negb (is_alive s).

Definition start_if_enabled (s : ManagedServerProcess) : M ManagedServerProcess :=
  if auto_restart s && negb (is_alive s) then start s else ret s.

Lemma start_all_unfold w :
  start_all w =
  match mapM (λ kv : string * ManagedServerProcess,
                s' <- start_if_enabled kv.2 ;; ret (kv.1, s')) (servers w) w with
  | (inr d', w') => (inr tt, mkWorld d' (clock w') (next_pid w') (trace w'))
  | (inl e, w') => (inl e, w')
  end.
Proof. done. Qed.

Lemma mapM_start d : ∀ w,
  let started := filter (λ s, to_start s = true) (values d) in
  ∃ d',
    mapM (λ kv : string * ManagedServerProcess,
            s' <- start_if_enabled kv.2 ;; ret (kv.1, s')) d w =
    (inr d',
     mkWorld (servers w) (clock w) (next_pid w + length started)
             (trace w ++ zip_with Spawn (project_name <$> started)
                                  (seq (next_pid w) (length started)))) ∧
    keys d' = keys d ∧
    ∀ i name s, d !! i = Some (name, s) →
      ∃ s', d' !! i = Some (name, s') ∧
            if to_start s
            then is_alive s' = true ∧ auto_restart s' = true ∧
                 _restart_count s' = _restart_count s
            else s' = s.
Proof.
  unfold values. induction d as [|[k s] d IH]; intros w; cbn zeta.
  - exists []. split_and!; [|done|by intros ???].
    destruct w. cbn. by rewrite Nat.add_0_r, app_nil_r.
  - cbn [mapM]. rewrite !bind_run. cbn [fst snd]. rewrite fmap_cons. cbn [snd].
    unfold start_if_enabled at 1. fold (to_start s).
    destruct (to_start s) eqn:Hs.
    + unfold to_start in Hs. apply andb_prop in Hs as [Hauto Hdead%negb_true_iff].
      rewrite start_run_dead by done. unfold ret at 1. rewrite bind_run.
      set (w1 := mkWorld _ _ _ _).
      destruct (IH w1) as (d' & -> & Hk & Hd). unfold ret.
      rewrite filter_cons_True by (unfold to_start; by rewrite Hauto, Hdead).
      eexists. split_and!.
      * subst w1. cbn [servers clock next_pid trace length fmap list_fmap seq zip_with].
        rewrite <- (assoc_L (++)). cbn [app]. do 2 f_equal. lia.
      * unfold keys in *. rewrite !fmap_cons. by rewrite Hk.
      * intros [|i] name s0 Hi.
        -- injection Hi as -> ->. eexists. split; [done|].
           unfold to_start. rewrite Hauto, Hdead. cbn [andb negb]. done.
        -- apply (Hd i name s0 Hi).
    + unfold ret at 1 2. rewrite bind_run.
      destruct (IH w) as (d' & -> & Hk & Hd). unfold ret.
      rewrite filter_cons_False by (by rewrite Hs).
      eexists. split_and!.
      * done.
      * unfold keys in *. rewrite !fmap_cons. by rewrite Hk.
      * intros [|i] name s0 Hi.
        -- injection Hi as -> ->. eexists. split; [done|]. by rewrite Hs.
        -- apply (Hd i name s0 Hi).
Qed.

Lemma mapM_start_noop d : ∀ w,
  (∀ kv, kv ∈ d → to_start kv.2 = false) →
  mapM (λ kv : string * ManagedServerProcess,
          s' <- start_if_enabled kv.2 ;; ret (kv.1, s')) d w = (inr d, w).
Proof.
  induction d as [|[k s] d IH]; intros w Hall; [done|].
  cbn [mapM]. rewrite !bind_run. cbn [fst snd].
  unfold start_if_enabled at 1. fold (to_start s).
  pose proof (Hall (k, s) ltac:(left)) as Hs. cbn [snd] in Hs. rewrite Hs.
  unfold ret at 1 2. rewrite bind_run, IH; [done|].
  intros kv Hin. apply Hall. by right.
Qed.

(** X7.  [start_all] returns; it spawns one child, in registration order,
    for each server that has [auto_restart] on and no running child, and
    none for the others, whose handles it leaves as they are; afterwards
    every server with [auto_restart] on runs; restart counters are not
    touched; and calling it again straight away does nothing. *)
Theorem start_all_starts_enabled (w : World) :
  let started := filter (λ s, to_start s = true) (values (servers w)) in
  ∃ w',
    start_all w = (inr tt, w') ∧
    trace w' = trace w ++ zip_with Spawn (project_name <$> started)
                                 (seq (next_pid w) (length started)) ∧
    keys (servers w') = keys (servers w) ∧
    (∀ i name s, servers w !! i = Some (name, s) →
       ∃ s', servers w' !! i = Some (name, s') ∧
             _restart_count s' = _restart_count s ∧
             (auto_restart s = true → is_alive s' = true) ∧
             (to_start s = false → s' = s)) ∧
    start_all w' = (inr tt, w').
Proof.
  cbn zeta. destruct (mapM_start (servers w) w) as (d' & Hrun & Hk & Hd).
  cbn zeta in Hrun.
  eexists. split; [by rewrite start_all_unfold, Hrun|].
  cbn [servers clock next_pid trace]. split_and!; [done|done| |].
  - intros i name s Hi. destruct (Hd i name s Hi) as (s' & Hi' & Hs').
    exists s'. split; [done|]. unfold to_start in *.
    destruct (auto_restart s) eqn:Hauto, (is_alive s) eqn:Halive; cbn [andb negb] in *;
      try (subst s'; by split_and!); by destruct Hs' as (? & ? & ?).
  - rewrite start_all_unfold. cbn [servers]. rewrite mapM_start_noop; [done|].
    intros [k s'] (i & Hi')%list_elem_of_lookup_1. cbn [snd].
    assert (is_Some (servers w !! i)) as [[k0 s0] Hi].
    { apply lookup_lt_is_Some. apply lookup_lt_Some in Hi'.
      unfold keys in Hk. by rewrite <- (length_fmap fst), <- Hk, length_fmap. }
    destruct (Hd i k0 s0 Hi) as (s1 & Hi1 & Hs1).
    rewrite Hi' in Hi1. injection Hi1 as -> ->.
    destruct (to_start s0) eqn:Hs0.
    + destruct Hs1 as (Ha & _). unfold to_start. rewrite Ha. by rewrite andb_false_r.
    + by subst.
Qed.

(** ** [remove_server] *)

Lemma dict_get_del_ne {V} k k' (d : list (string * V)) :
  k' ≠ k → dict_get k' (dict_del k d) = dict_get k' d.
Proof.
  intros Hne. induction d as [|[k0 v0] d IH]; [done|]. cbn [dict_del dict_get].
  case_bool_decide as Hk; cbn [dict_get].
  - subst. by rewrite bool_decide_eq_false_2.
  - case_bool_decide; [done|apply IH].
Qed.

Lemma dict_get_del_eq {V} k (d : list (string * V)) :
  NoDup (keys d) → dict_get k (dict_del k d) = None.
Proof.
  intros Hnd. apply keys_dict_del with (k := k) in Hnd as [_ Hk].
  destruct (dict_get k (dict_del k d)) eqn:Hget; [|done].
  exfalso. apply Hk, dict_get_is_Some. by rewrite Hget.
Qed.

Lemma dict_del_snoc {V} k (v : V) d : k ∉ keys d → dict_del k (d ++ [(k, v)]) = d.
Proof.
  unfold keys. induction d as [|[k0 v0] d IH]; intros Hk.
  - cbn. by rewrite bool_decide_eq_true_2.
  - rewrite fmap_cons in Hk. cbn [fst] in Hk. apply not_elem_of_cons in Hk as [Hne Hk].
    cbn [app dict_del]. rewrite bool_decide_eq_false_2 by done. by rewrite IH.
Qed.

Lemma remove_server_run name w s :
  dict_get name (servers w) = Some s →
  remove_server name w =
  (inr tt, mkWorld (dict_del name (dict_set name (set_process None (set_auto_restart false s))
                                            (servers w)))
                   (clock w) (next_pid w) (trace w ++ stop_events s)).
Proof.
  intros Hget. unfold remove_server. rewrite bind_run.
  erewrite with_server_run; [|done|apply stop_run]. done.
Qed.

(** X8.  [remove_server] after any session.  An unknown project raises
    [ValueError] and changes nothing.  A registered one has its child
    terminated if it runs and is then forgotten: looking it up finds
    nothing, the other servers are as they were, a further [stop_server]
    on the name raises [ValueError], and [add_server] accepts the name
    again, registering a new handle behind the others.  Conversely,
    registering a new name and removing it at once leaves any manager
    exactly as it was. *)
Theorem remove_server_forgets (steps : list step) (name : string) :
  let w := run_session steps in
  match dict_get name (servers w) with
  | None => remove_server name w = (inl (ValueError ("Unknown project: " +:+ name)), w)
  | Some s =>
      ∃ w',
        remove_server name w = (inr tt, w') ∧
        trace w' = trace w ++ stop_events s ∧
        dict_get name (servers w') = None ∧
        (∀ other, other ≠ name →
           dict_get other (servers w') = dict_get other (servers w)) ∧
        stop_server name w' = (inl (ValueError ("Unknown project: " +:+ name)), w') ∧
        (∀ path prt tr hst ctx mds lvl,
           add_server name path prt tr hst ctx mds lvl w' =
           (inr tt, mkWorld (servers w' ++
                               [(name, mkServer name path prt tr hst ctx mds lvl
                                                true None None 0)])
                            (clock w') (next_pid w') (trace w')))
  end ∧
  (∀ (w0 : World) name0 path prt tr hst ctx mds lvl,
     name0 ∉ keys (servers w0) →
     (add_server name0 path prt tr hst ctx mds lvl ;;; remove_server name0) w0 = (inr tt, w0)).
Proof.
  cbn zeta. split.
  - destruct (run_session_ok steps) as [Hnd _].
    set (w := run_session steps) in *.
    destruct (dict_get name (servers w)) as [s|] eqn:Hget.
    + eexists. split; [by apply remove_server_run|]. cbn [servers clock next_pid trace].
      assert (name ∈ keys (servers w)) as Hin by (apply dict_get_is_Some; by rewrite Hget).
      assert (dict_get name (dict_del name (dict_set name
                (set_process None (set_auto_restart false s)) (servers w))) = None) as Hgone.
      { apply dict_get_del_eq. by rewrite keys_dict_set. }
      split_and!; [done|done| | |].
      * intros other Hne. rewrite dict_get_del_ne by done. by apply dict_get_set_ne.
      * apply with_server_unknown. by cbn [servers].
      * intros. unfold add_server. rewrite bind_run. cbn [get_servers servers].
        rewrite bool_decide_eq_false_2.
        -- cbn [put_servers servers clock next_pid trace]. rewrite dict_set_fresh; [done|].
           rewrite dict_get_is_Some, Hgone. by intros [? ?].
        -- rewrite dict_get_is_Some, Hgone. by intros [? ?].
    + unfold remove_server. rewrite bind_run. by rewrite with_server_unknown.
  - intros w0 name0 path prt tr hst ctx mds lvl Hfresh.
    rewrite bind_run. unfold add_server at 1. rewrite bind_run. cbn [get_servers].
    rewrite bool_decide_eq_false_2 by done. cbn [put_servers].
    rewrite dict_set_fresh by done.
    erewrite remove_server_run.
    2:{ cbn [servers]. rewrite <- (dict_set_fresh name0 _ (servers w0)) by done.
        apply dict_get_set_eq. }
    cbn [servers clock next_pid trace]. unfold stop_events. cbn [pid _process].
    rewrite app_nil_r.
    rewrite <- (dict_set_fresh name0 _ (servers w0)) at 1 by done.
    assert (∀ {V} k (v v' : V) d, dict_set k v' (dict_set k v d) = dict_set k v' d) as Hset.
    { intros V k v v' d. induction d as [|[k0 v0] d IH]; cbn [dict_set].
      - by rewrite bool_decide_eq_true_2.
      - case_bool_decide; cbn [dict_set].
        + by rewrite bool_decide_eq_true_2.
        + rewrite bool_decide_eq_false_2 by done. by rewrite IH. }
    rewrite Hset, dict_set_fresh by done. rewrite dict_del_snoc by done.
    by destruct w0.
Qed.

(** ** Control commands *)

Lemma with_server_keys name f w :
  handle_op f → keys (servers (with_server name f w).2) = keys (servers w).
Proof.
  intros Hf. destruct (dict_get name (servers w)) as [s|] eqn:Hget.
  - destruct (Hf s w) as (s' & w' & Hrun & Hs & _).
    erewrite with_server_run by done. cbn [snd servers]. rewrite Hs.
    apply keys_dict_set, dict_get_is_Some. by rewrite Hget.
  - by rewrite with_server_unknown.
Qed.

Lemma with_server_result name f w :
  handle_op f →
  (with_server name f w).1 = inr tt ∨
  ((with_server name f w) = (inl (ValueError ("Unknown project: " +:+ name)), w) ∧
   name ∉ keys (servers w)).
Proof.
  intros Hf. destruct (dict_get name (servers w)) as [s|] eqn:Hget.
  - destruct (Hf s w) as (s' & w' & Hrun & _). left. by erewrite with_server_run.
  - right. split; [by apply with_server_unknown|].
    rewrite dict_get_is_Some, Hget. by intros [? ?].
Qed.

Lemma stop_server_op : handle_op (λ s, stop (set_auto_restart false s)).
Proof. exact (handle_op_change stop _ stop_op (set_auto_restart_change false)). Qed.

Lemma start_server_op : handle_op (λ s, start (set_auto_restart true s)).
Proof. exact (handle_op_change start _ start_op (set_auto_restart_change true)). Qed.

Lemma restart_server_op :
  handle_op (λ s, s1 <- stop s ;; start (reset_restart_count (set_auto_restart true s1))).
Proof.
  apply handle_op_seq; [apply stop_op|].
  apply (handle_op_change start (λ s, reset_restart_count (set_auto_restart true s)) start_op).
  intros s. split; [done|]. intros t Ht.
  by apply reset_restart_count_change, set_auto_restart_change.
Qed.

(** Does the command loop have something to run for this command? *)
Definition runnable (c : command) (w : World) : Prop :=
  ∃ a p, action c = Some a ∧ project c = Some p ∧
         a ∈ ["stop"; "start"; "restart"] ∧ p ∈ keys (servers w).

Lemma catch_with_server p f w :
  handle_op f →
  ∃ w', catch (with_server p f) w = (inr tt, w') ∧
        keys (servers w') = keys (servers w) ∧
        (p ∉ keys (servers w) → w' = w).
Proof.
  intros Hf. unfold catch. destruct (dict_get p (servers w)) as [s|] eqn:Hget.
  - destruct (Hf s w) as (s' & w' & Hrun & Hs & _).
    erewrite with_server_run by done. eexists. split_and!; [done| |].
    + cbn [servers]. rewrite Hs. apply keys_dict_set, dict_get_is_Some. by rewrite Hget.
    + intros Hno. exfalso. apply Hno, dict_get_is_Some. by rewrite Hget.
  - rewrite with_server_unknown by done. exists w. by split_and!.
Qed.

Lemma run_command_run c w :
  ∃ w', run_command c w = (inr tt, w') ∧
        keys (servers w') = keys (servers w) ∧
        (¬ runnable c w → w' = w).
Proof.
  unfold run_command, runnable.
  destruct (action c) as [a|] eqn:Ha, (project c) as [p|] eqn:Hp;
    try (exists w; split_and!; done).
  case_bool_decide as Hempty; [exists w; by split_and!|].
  repeat case_bool_decide; subst.
  - destruct (catch_with_server p _ w stop_server_op) as (w' & Hrun & Hk & Hw).
    exists w'. split_and!; [done|done|]. intros Hnot. apply Hw. intros Hin. apply Hnot.
    exists "stop", p. split_and!; [done|done|listed|done].
  - destruct (catch_with_server p _ w start_server_op) as (w' & Hrun & Hk & Hw).
    exists w'. split_and!; [done|done|]. intros Hnot. apply Hw. intros Hin. apply Hnot.
    exists "start", p. split_and!; [done|done|listed|done].
  - destruct (catch_with_server p _ w restart_server_op) as (w' & Hrun & Hk & Hw).
    exists w'. split_and!; [done|done|]. intros Hnot. apply Hw. intros Hin. apply Hnot.
    exists "restart", p. split_and!; [done|done|listed|done].
  - exists w. by split_and!.
Qed.

Lemma process_control_commands_unfold cmds w :
  process_control_commands cmds w =
  match mapM run_entry cmds w with
  | (inr _, w') => (inr tt, w')
  | (inl e, w') => (inl e, w')
  end.
Proof. done. Qed.

(** Is the entry a JSON object? *)
Definition is_object (cmd : entry) : bool :=
  match cmd with ObjectEntry _ => true | OtherEntry => false end.

Lemma mapM_run_entry cmds : ∀ w,
  ∃ r w', mapM run_entry cmds w = (r, w') ∧
          keys (servers w') = keys (servers w) ∧
          (if forallb is_object cmds then ∃ us, r = inr us else r = inl AttributeError).
Proof.
  induction cmds as [|[c|] cmds IH]; intros w.
  - exists (inr []), w. split_and!; [done|done|by eexists].
  - cbn [mapM run_entry]. rewrite bind_run.
    destruct (run_command_run c w) as (w1 & -> & Hk1 & _).
    rewrite bind_run. destruct (IH w1) as (r & w' & -> & Hk' & Hr).
    cbn [forallb is_object andb].
    destruct (forallb is_object cmds).
    + destruct Hr as [us ->]. eexists _, w'. split_and!; [done|congruence|by eexists].
    + subst r. eexists _, w'. split_and!; [done|congruence|done].
  - cbn [mapM run_entry]. exists (inl AttributeError), w. by split_and!.
Qed.

Lemma mapM_run_objects objects : ∀ w,
  ∃ us w', mapM run_entry (ObjectEntry <$> objects) w = (inr us, w') ∧
           ∀ rest, mapM run_entry ((ObjectEntry <$> objects) ++ OtherEntry :: rest) w =
                   (inl AttributeError, w').
Proof.
  induction objects as [|c objects IH]; intros w.
  - exists [], w. by split.
  - rewrite fmap_cons. cbn [app mapM run_entry]. rewrite bind_run.
    destruct (run_command_run c w) as (w1 & Hc & _). rewrite Hc.
    rewrite bind_run. destruct (IH w1) as (us & w' & Hrun & Hrest). rewrite Hrun.
    eexists _, w'. split; [done|]. intros rest.
    rewrite bind_run, Hc, bind_run. by rewrite Hrest.
Qed.

(** X9.  The command loop of [_process_control_commands], over a list of
    entries of any JSON shape.  It never registers or removes a server.
    It raises exactly when an entry is not a JSON object, and then
    [AttributeError]: the commands before the first such entry have been
    carried out, those after it are not.  A list of objects never makes it
    raise.  An object that lacks an action or a project, has one that is
    not a string, has an empty project, names an action other than stop,
    start and restart, or names a project that is not registered is
    skipped without any effect, and the commands after it are still
    carried out: a list of commands has the effect of its commands one
    after another. *)
Theorem control_commands_are_contained (cmds : list entry) (w : World) :
  (∃ r w', process_control_commands cmds w = (r, w') ∧
           keys (servers w') = keys (servers w) ∧
           r = if forallb is_object cmds then inr tt else inl AttributeError) ∧
  (∀ objects rest, ∃ w1,
     process_control_commands (ObjectEntry <$> objects) w = (inr tt, w1) ∧
     process_control_commands ((ObjectEntry <$> objects) ++ OtherEntry :: rest) w =
       (inl AttributeError, w1)) ∧
  (∀ c, ¬ runnable c w → process_control_commands [ObjectEntry c] w = (inr tt, w)) ∧
  (∀ cmds1 cmds2,
     process_control_commands (cmds1 ++ cmds2) w =
     (process_control_commands cmds1 ;;; process_control_commands cmds2) w).
Proof.
  split_and!.
  - destruct (mapM_run_entry cmds w) as (r & w' & Hrun & Hk & Hr).
    rewrite process_control_commands_unfold, Hrun.
    destruct (forallb is_object cmds).
    + destruct Hr as [us ->]. by eexists _, w'.
    + subst r. by eexists _, w'.
  - intros objects rest.
    destruct (mapM_run_objects objects w) as (us & w1 & Hrun & Hrest).
    exists w1. by rewrite !process_control_commands_unfold, Hrun, Hrest.
  - intros c Hnot. rewrite process_control_commands_unfold. cbn [mapM run_entry].
    rewrite bind_run. destruct (run_command_run c w) as (w1 & -> & _ & Hw1).
    by rewrite (Hw1 Hnot).
  - intros cmds1 cmds2. rewrite bind_run, !process_control_commands_unfold.
    revert w. induction cmds1 as [|cmd cmds1 IH]; intros w.
    + cbn [app mapM ret]. by rewrite process_control_commands_unfold.
    + cbn [app mapM]. rewrite !bind_run.
      destruct (run_entry cmd w) as [[e|u] w1]; [done|].
      rewrite !bind_run. specialize (IH w1).
      destruct (mapM run_entry (cmds1 ++ cmds2) w1) as [[e|us] w2];
        destruct (mapM run_entry cmds1 w1) as [[e1|us1] w3]; cbn [ret]; try done.
Qed.

(** ** [find_free_port] when no port can be had *)

Lemma probe_ports_none bindable n : ∀ p,
  (∀ q, (p ≤ q < p + Z.of_nat n)%Z → bindable q = false) →
  (p + Z.of_nat n - 1 ≤ 65535)%Z →
  probe_ports bindable p n = inr None.
Proof.
  induction n as [|n IH]; intros p Hbusy Hmax; [done|].
  cbn [probe_ports]. rewrite bool_decide_eq_false_2 by lia.
  rewrite Hbusy by lia. apply IH; [|lia]. intros q ?. apply Hbusy. lia.
Qed.

Lemma probe_ports_overflow bindable n : ∀ p,
  0 < n →
  (∀ q, (p ≤ q < p + Z.of_nat n)%Z → (q ≤ 65535)%Z → bindable q = false) →
  (65535 < p + Z.of_nat n - 1)%Z →
  probe_ports bindable p n = inl OverflowError.
Proof.
  induction n as [|n IH]; intros p Hn Hbusy Hmax; [lia|].
  cbn [probe_ports]. case_bool_decide as Hov; [done|].
  rewrite Hbusy by lia. apply IH; [lia| |lia]. intros q ??. apply Hbusy; lia.
Qed.

(** X10.  [find_free_port] when every port it may try is taken.  The
    search starts one above the highest registered port (at 9200 for an
    empty registry) and covers 100 ports.  When that first port is not
    negative: if none of the ports can be bound and the window ends at or
    below 65535, the call raises [RuntimeError] with the window in its
    message; if the window reaches beyond 65535 the attempt on port 65536
    raises [OverflowError] instead.  Either way the manager is
    unchanged. *)
Theorem find_free_port_failures (bindable : Z → bool) (w : World) :
  let first := start_port (ports_of w) in
  (0 ≤ first)%Z →
  (∀ p, (first ≤ p < first + 100)%Z → (p ≤ 65535)%Z → bindable p = false) →
  find_free_port bindable w =
  (inl (if bool_decide (first + 99 ≤ 65535)%Z
        then RuntimeError ("No free port found in range " +:+ pretty first
                           +:+ "-" +:+ pretty (first + 99)%Z)
        else OverflowError), w).
Proof.
  cbn zeta. intros _ Hbusy. unfold find_free_port. rewrite bind_run. cbn [get_servers].
  fold (ports_of w). fold (start_port (ports_of w)). cbv beta iota.
  case_bool_decide as Hmax.
  - rewrite probe_ports_none; [done| |lia]. intros q Hq. apply Hbusy; lia.
  - rewrite probe_ports_overflow; [done|lia| |lia]. intros q Hq ?. apply Hbusy; lia.
Qed.

Lemma find_free_port_failures_witness :
  find_free_port (λ _, false) empty_world =
  (inl (RuntimeError "No free port found in range 9200-9299"), empty_world).
Proof.
  refine (find_free_port_failures (λ _, false) empty_world _ (λ _ _ _, eq_refl)).
  vm_compute. discriminate.
Defined.

End SessionProofs.

(* ===================================================================== *)
(** * Properties of the logs and the admin handlers                       *)
(* ===================================================================== *)

Module AdminProofs.
Import Text Supervisor SupervisorProofs Session SessionProofs Admin.

(** ** Log files *)

Lemma join_cons {A} (l : list A) ls : mjoin (l :: ls) = l ++ mjoin ls.
Proof. done. Qed.

Lemma readlines_concat s : mjoin (readlines s) = s.
Proof.
  induction s as [|c s IH]; [done|]. cbn [readlines].
  case_bool_decide; [subst; rewrite join_cons; by rewrite IH|].
  destruct (readlines s) as [|l ls]; [by rewrite <- IH|].
  rewrite join_cons in *. by rewrite <- IH.
Qed.

(** A line as [readlines] returns it: text without newlines, then a
    newline unless the text ended first. *)
Definition is_line (l : str) : Prop :=
  ∃ b, (10%N ∉ b) ∧ (l = b ++ [10%N] ∨ (l = b ∧ b ≠ [])).

Lemma readlines_lines s : Forall is_line (readlines s).
Proof.
  induction s as [|c s IH]; [constructor|]. cbn [readlines].
  case_bool_decide as Hc.
  - subst. constructor; [|done]. exists []. split; [by intros ?%elem_of_nil|by left].
  - destruct (readlines s) as [|l ls].
    + repeat constructor. exists [c]. split; [|by right].
      by intros ?%list_elem_of_singleton.
    + apply Forall_cons in IH as [(b & Hb & Hl) IH]. constructor; [|done].
      exists (c :: b). split.
      * intros [?|?]%elem_of_cons; done.
      * destruct Hl as [->| [-> ?]]; [by left|by right].
Qed.

Lemma lstrip_newlines_id s : (∀ c, head s = Some c → c ≠ 10%N) → lstrip_newlines s = s.
Proof.
  destruct s as [|c s]; [done|]. intros H. cbn.
  rewrite bool_decide_eq_false_2; [done|]. by apply H.
Qed.

Lemma rstrip_newlines_id b : 10%N ∉ b → rstrip_newlines b = b.
Proof.
  intros Hb. unfold rstrip_newlines. rewrite lstrip_newlines_id; [apply reverse_involutive|].
  intros c Hc. intros ->. apply Hb. apply elem_of_reverse.
  destruct (reverse b); [done|]. injection Hc as ->. by left.
Qed.

Lemma rstrip_newlines_line l : is_line l →
  (10%N ∉ rstrip_newlines l) ∧ (l = rstrip_newlines l ∨ l = rstrip_newlines l ++ [10%N]).
Proof.
  intros (b & Hb & [->|[-> _]]).
  - assert (rstrip_newlines (b ++ [10%N]) = b) as ->; [|by split; [|right]].
    unfold rstrip_newlines. rewrite reverse_app. cbn [reverse app].
    change (reverse [10%N]) with [10%N]. cbn [app lstrip_newlines].
    rewrite bool_decide_eq_true_2 by done. by apply rstrip_newlines_id.
  - rewrite rstrip_newlines_id by done. by split; [|left].
Qed.

(** X11.  [get_server_logs] for a registered project, a valid log type
    and a readable log file.  Asking for [n] lines with [n] positive gives
    the last [n] lines of the file, or all of them if it has fewer; asking
    for 0 lines gives the whole file, not nothing; a negative [n] drops the
    first [-n] lines.  The lines come without their newline and contain
    neither a newline nor a carriage return, and the lines of the file,
    put together again, are its text.  The manager is not changed. *)
Theorem get_server_logs_window (log_file : string → option (option str))
    (name log_type : string) (n : Z) (w : World) (raw : str) :
  name ∈ keys (servers w) → log_type ∈ ["stderr"; "stdout"] →
  log_file (name +:+ "." +:+ log_type +:+ ".log") = Some (Some raw) →
  let text := Fingerprint.read_text raw in
  let all := rstrip_newlines <$> readlines text in
  get_server_logs log_file name log_type n w =
  (inr (if (0 <? n)%Z then drop (length all - Z.to_nat n) all
        else if (n =? 0)%Z then all
        else drop (Z.to_nat (- n)) all), w) ∧
  (get_server_logs log_file name log_type 0 w = (inr all, w)) ∧
  ((0 < n)%Z → ∃ ls, get_server_logs log_file name log_type n w = (inr ls, w) ∧
                     length ls = Z.to_nat n `min` length all ∧ ls `suffix_of` all) ∧
  (∀ l, l ∈ all → (10%N ∉ l) ∧ (13%N ∉ l)) ∧
  mjoin (readlines text) = text ∧
  length all = length (readlines text).
Proof.
  intros Hname Htype Hfile. cbn zeta.
  assert (∀ m, get_server_logs log_file name log_type m w =
               (inr (rstrip_newlines <$>
                       slice_from (- m) (readlines (Fingerprint.read_text raw))), w)) as Hrun.
  { intros m. unfold get_server_logs. rewrite bind_run. cbn [get_servers].
    rewrite bool_decide_eq_false_2 by (by intros ?).
    rewrite bool_decide_eq_false_2 by (by intros ?). by rewrite Hfile. }
  set (lines := readlines (Fingerprint.read_text raw)) in *.
  assert (∀ m, (0 < m)%Z →
            rstrip_newlines <$> slice_from (- m) lines =
            drop (length (rstrip_newlines <$> lines) - Z.to_nat m)
                 (rstrip_newlines <$> lines)) as Hpos.
  { intros m Hm. unfold slice_from.
    destruct (Z.ltb_spec (- m) 0) as [_|?]; [|lia].
    rewrite Z.opp_involutive, fmap_drop. by rewrite length_fmap. }
  split_and!.
  - rewrite Hrun. f_equal. f_equal.
    destruct (Z.ltb_spec 0 n) as [Hn|Hn]; [by apply Hpos|].
    destruct (Z.eqb_spec n 0) as [->|Hn0]; [done|].
    unfold slice_from. destruct (Z.ltb_spec (- n) 0) as [?|_]; [lia|].
    by rewrite fmap_drop.
  - by rewrite Hrun.
  - intros Hn. eexists. split; [apply Hrun|]. rewrite Hpos by done.
    split; [rewrite length_drop; lia|apply suffix_drop].
  - intros l (l0 & -> & Hin)%list_elem_of_fmap.
    pose proof (readlines_lines (Fingerprint.read_text raw)) as Hall.
    rewrite Forall_forall in Hall. specialize (Hall l0 Hin).
    destruct (rstrip_newlines_line l0 Hall) as [Hlf Hshape]. split; [done|].
    intros Hcr. apply (FingerprintProofs.normalise_no_cr raw).
    change (Fingerprint.normalise raw) with (Fingerprint.read_text raw).
    rewrite <- (readlines_concat (Fingerprint.read_text raw)).
    apply list_elem_of_join. exists l0. split; [|done].
    destruct Hshape as [->| ->]; [done|]. apply elem_of_app. by left.
  - apply readlines_concat.
  - apply length_fmap.
Qed.

(** A log of three lines, and a log directory in which every file holds it *)
Definition three_lines : str := [97; 10; 98; 10; 99; 10]%N.

Lemma get_server_logs_window_witness :
  get_server_logs (λ _, Some (Some three_lines)) "alpha" "stderr" 2 alpha_world
  = (inr [[98]; [99]]%N, alpha_world).
Proof.
  refine (proj1 (get_server_logs_window (λ _, Some (Some three_lines)) "alpha" "stderr" 2
                   alpha_world three_lines _ _ eq_refl)).
  - vm_compute. listed.
  - listed.
Defined.

(** ** The admin handlers *)



End AdminProofs.

(* ===================================================================== *)
(** * Properties of the compose file                                      *)
(* ===================================================================== *)

Module ComposeProofs.
Import Text Stats Compose.

(** ** Decimal numerals hold no underscore *)

Lemma has_char_app c s t :
  Supervisor.has_char c (s +:+ t) = Supervisor.has_char c s || Supervisor.has_char c t.
Proof.
  induction s as [|a s IH]; [done|]. simpl. by rewrite IH, orb_assoc.
Qed.

Lemma pretty_N_char_digit x : pretty_N_char x ≠ "_"%char.
Proof. unfold pretty_N_char. repeat case_match; done. Qed.

Lemma pretty_N_go_underscore x : ∀ s,
  Supervisor.has_char "_" (pretty_N_go x s) = Supervisor.has_char "_" s.
Proof.
  induction (N.lt_wf_0 x) as [x _ IH]; intros s.
  assert (x = 0 ∨ 0 < x)%N as [->|?] by lia; [by rewrite pretty_N_go_0|].
  rewrite pretty_N_go_step by done. rewrite IH by (apply N.div_lt; lia).
  cbn [Supervisor.has_char].
  rewrite bool_decide_eq_false_2; [done|]. apply pretty_N_char_digit.
Qed.

(** A name with a numeric suffix determines both its base and its number. *)
Lemma underscore_split b : ∀ b' d d',
  Supervisor.has_char "_" d = false → Supervisor.has_char "_" d' = false →
  b +:+ String "_" d = b' +:+ String "_" d' → b = b' ∧ d = d'.
Proof.
  induction b as [|c b IH]; intros [|c' b'] d d' Hd Hd' Heq; simpl in Heq.
  - by injection Heq as ->.
  - injection Heq as <- ->. rewrite has_char_app in Hd. simpl in Hd.
    by rewrite orb_true_r in Hd.
  - injection Heq as -> <-. rewrite has_char_app in Hd'. simpl in Hd'.
    by rewrite orb_true_r in Hd'.
  - injection Heq as -> Heq.
    destruct (IH b' d d' Hd Hd' Heq) as [-> ->]. done.
Qed.

Lemma pretty_nat_underscore (n : nat) : Supervisor.has_char "_" (pretty n) = false.
Proof.
  unfold pretty, pretty_nat, pretty, pretty_N. case_decide; [done|].
  by rewrite pretty_N_go_underscore.
Qed.

Lemma suffixed_inj2 b b' k k' :
  Supervisor.suffixed b k = Supervisor.suffixed b' k' → b = b' ∧ k = k'.
Proof.
  unfold Supervisor.suffixed. intros H.
  change ("_" +:+ pretty k) with (String "_" (pretty k)) in H.
  change ("_" +:+ pretty k') with (String "_" (pretty k')) in H.
  apply underscore_split in H as [-> H]; [|apply pretty_nat_underscore..].
  split; [done|]. by apply (inj pretty) in H.
Qed.

Section Mounts.
Context {P : OsPath}.

(** ** [resolve_project_mounts] *)

(** The directories among the paths, normalised, in order *)
Definition directories (project_paths : list string) : list string :=
  filter (λ p, isdir p = true) (normpath <$> project_paths).

(** The name a directory asks for *)
Definition base_of (host_path : string) : string :=
  if bool_decide (basename host_path = "") then "project" else basename host_path.

Definition occurrences (b : string) (l : list string) : nat :=
  length (filter (λ x, x = b) l).

(** The container name of the directory at position [i], given the names
    [bases] that the directories ask for *)
Definition name_at (bases : list string) (i : nat) (b : string) : string :=
  let k := occurrences b (take i bases) in
  if bool_decide (k = 0) then b else Supervisor.suffixed b (S k).

Definition counts_of (bases : list string) (used_names : gmap string nat) : Prop :=
  ∀ b, used_names !! b =
       if bool_decide (occurrences b bases = 0) then None else Some (occurrences b bases).

Lemma occurrences_snoc b l x :
  occurrences b (l ++ [x]) = occurrences b l + (if bool_decide (x = b) then 1 else 0).
Proof.
  unfold occurrences. rewrite filter_app, length_app. f_equal.
  case_bool_decide.
  - by rewrite filter_cons_True.
  - by rewrite filter_cons_False.
Qed.

Lemma resolve_state project_paths :
  let dirs := directories project_paths in
  let bases := base_of <$> dirs in
  ∃ used_names,
    foldl resolve_step (∅, []) project_paths =
    (used_names, imap (λ i h, (h, name_at bases i (base_of h))) dirs) ∧
    counts_of bases used_names.
Proof.
  cbn zeta. induction project_paths as [|p ps IH] using rev_ind.
  - exists ∅. split; [done|]. intros b. by rewrite lookup_empty.
  - destruct IH as (used & Hrun & Hcounts).
    rewrite foldl_app. cbn [foldl]. rewrite Hrun.
    unfold directories in *. rewrite fmap_app, filter_app. cbn [fmap list_fmap].
    unfold resolve_step.
    destruct (isdir (normpath p)) eqn:Hdir; cbn [negb].
    + rewrite filter_cons_True by done. rewrite filter_nil.
      set (dirs := filter _ (normpath <$> ps)) in *.
      fold (base_of (normpath p)). set (b := base_of (normpath p)).
      rewrite fmap_app. cbn [fmap list_fmap]. fold b.
      assert (imap (λ i h, (h, name_at ((base_of <$> dirs) ++ [b]) i (base_of h)))
                   (dirs ++ [normpath p]) =
              imap (λ i h, (h, name_at (base_of <$> dirs) i (base_of h))) dirs ++
              [(normpath p, name_at (base_of <$> dirs) (length dirs) b)]) as ->.
      { rewrite imap_app. cbn [imap]. f_equal.
        - apply imap_ext. intros i h Hi. unfold name_at.
          rewrite take_app_le; [done|]. rewrite length_fmap.
          apply lookup_lt_Some in Hi. lia.
        - rewrite Nat.add_0_r. unfold name_at. fold b.
          rewrite take_app_le by (rewrite length_fmap; lia). done. }
      unfold name_at. rewrite <- (length_fmap base_of dirs), firstn_all.
      pose proof (Hcounts b) as Hb.
      case_bool_decide as Hocc.
      * rewrite Hb. eexists. split; [done|].
        intros b0. rewrite occurrences_snoc.
        destruct (decide (b = b0)) as [<-|Hne].
        -- rewrite lookup_insert_eq, (bool_decide_eq_true_2 (b = b)) by done.
           rewrite bool_decide_eq_false_2 by lia. f_equal. lia.
        -- rewrite lookup_insert_ne by done.
           rewrite (bool_decide_eq_false_2 (b = b0)) by done.
           rewrite Nat.add_0_r. apply Hcounts.
      * rewrite Hb. eexists. split; [done|].
        intros b0. rewrite occurrences_snoc.
        destruct (decide (b = b0)) as [<-|Hne].
        -- rewrite lookup_insert_eq, (bool_decide_eq_true_2 (b = b)) by done.
           rewrite bool_decide_eq_false_2 by lia. f_equal. lia.
        -- rewrite lookup_insert_ne by done.
           rewrite (bool_decide_eq_false_2 (b = b0)) by done.
           rewrite Nat.add_0_r. apply Hcounts.
    + rewrite filter_cons_False by (by rewrite Hdir). rewrite filter_nil, !app_nil_r.
      by exists used.
Qed.

(** X13.  [resolve_project_mounts] keeps, in order, the paths that are
    directories once normalised, and drops the others.  Each directory is
    mounted under the name it asks for (its basename, or ["project"] when
    the basename is empty) if no directory before it asked for the same
    name, and under that name followed by [_k] if it is the [k]-th
    directory, [k] being at least 2, to ask for it. *)
Theorem resolve_project_mounts_names (project_paths : list string) :
  let dirs := directories project_paths in
  let bases := base_of <$> dirs in
  resolve_project_mounts project_paths =
    imap (λ i h, (h, name_at bases i (base_of h))) dirs ∧
  (resolve_project_mounts project_paths).*1 = dirs ∧
  ∀ i h name,
    resolve_project_mounts project_paths !! i = Some (h, name) →
    let k := S (occurrences (base_of h) (take i bases)) in
    dirs !! i = Some h ∧
    name = (if bool_decide (k = 1) then base_of h else Supervisor.suffixed (base_of h) k).
Proof.
  cbn zeta. destruct (resolve_state project_paths) as (used & Hrun & _).
  cbn zeta in Hrun. unfold resolve_project_mounts. rewrite Hrun. cbn [snd].
  split_and!; [done| |].
  - generalize (name_at (base_of <$> directories project_paths)).
    generalize (directories project_paths). clear.
    intros l. induction l as [|h l IH]; intros g; [done|].
    cbn [imap]. rewrite fmap_cons. cbn [fst]. f_equal. apply (IH (g ∘ S)).
  - intros i h name Hi. rewrite list_lookup_imap in Hi.
    destruct (directories project_paths !! i) as [h0|] eqn:Hh; [|done].
    injection Hi as -> <-. split; [done|]. unfold name_at.
    repeat case_bool_decide; try done; lia.
Qed.

(** X14.  The container names that [resolve_project_mounts] gives are
    pairwise distinct, provided no directory asks for a name that is
    another requested name followed by a numeric suffix [_k]. *)
Theorem resolve_project_mounts_distinct (project_paths : list string) :
  let bases := base_of <$> directories project_paths in
  (∀ b b' k, b ∈ bases → b' ∈ bases → b ≠ Supervisor.suffixed b' k) →
  NoDup (resolve_project_mounts project_paths).*2.
Proof.
  cbn zeta. intros Hplain.
  destruct (resolve_state project_paths) as (used & Hrun & _).
  cbn zeta in Hrun. unfold resolve_project_mounts. rewrite Hrun. cbn [snd].
  set (dirs := directories project_paths) in *.
  set (bases := base_of <$> dirs) in *.
  apply NoDup_alt. intros i j n Hi Hj.
  rewrite list_lookup_fmap, list_lookup_imap in Hi, Hj.
  destruct (dirs !! i) as [hi|] eqn:Hdi; [|done].
  destruct (dirs !! j) as [hj|] eqn:Hdj; [|done].
  cbn in Hi, Hj. injection Hi as Hi. injection Hj as Hj.
  assert (bases !! i = Some (base_of hi)) as Hbi.
  { subst bases. by rewrite list_lookup_fmap, Hdi. }
  assert (bases !! j = Some (base_of hj)) as Hbj.
  { subst bases. by rewrite list_lookup_fmap, Hdj. }
  assert (base_of hi ∈ bases) as Hini by (by eapply list_elem_of_lookup_2).
  assert (base_of hj ∈ bases) as Hinj by (by eapply list_elem_of_lookup_2).
  (* The number of earlier requests for a name grows with the position. *)
  assert (∀ b i j, i < j → bases !! i = Some b →
            occurrences b (take i bases) < occurrences b (take j bases)) as Hgrow.
  { clear. intros b i j Hij Hb.
    assert (take j bases = take i bases ++ b :: take (j - S i) (drop (S i) bases)) as ->.
    { pose proof (lookup_lt_Some _ _ _ Hb) as Hlen.
      rewrite <- (take_drop_middle bases i b Hb) at 1.
      rewrite take_app_ge by (rewrite length_take_le; lia).
      rewrite length_take_le by lia. f_equal.
      replace (j - i) with (S (j - S i)) by lia. done. }
    unfold occurrences. rewrite filter_app, length_app, filter_cons_True by done.
    cbn [length]. lia. }
  unfold name_at in Hi, Hj. rewrite <- Hj in Hi. clear Hj.
  destruct (Nat.lt_trichotomy i j) as [Hlt|[->|Hgt]]; [|done|]; exfalso.
  - pose proof (Hgrow _ _ _ Hlt Hbi) as Hg.
    case_bool_decide as Hki; case_bool_decide as Hkj.
    + rewrite Hi in Hg. lia.
    + by apply (Hplain _ _ _ Hini Hinj) in Hi.
    + symmetry in Hi. by apply (Hplain _ _ _ Hinj Hini) in Hi.
    + apply suffixed_inj2 in Hi as [Hb Hk]. rewrite Hb in Hg, Hk. lia.
  - pose proof (Hgrow _ _ _ Hgt Hbj) as Hg.
    case_bool_decide as Hki; case_bool_decide as Hkj.
    + rewrite <- Hi in Hg. lia.
    + by apply (Hplain _ _ _ Hini Hinj) in Hi.
    + symmetry in Hi. by apply (Hplain _ _ _ Hinj Hini) in Hi.
    + apply suffixed_inj2 in Hi as [Hb Hk]. rewrite Hb in Hk. lia.
Qed.

End Mounts.

(** A host on which every path is a directory, with paths given in
    normal form and POSIX base names *)
Definition plain_host : OsPath :=
  {| normpath := id; isdir := λ _, true; basename := Supervisor.basename |}.

Definition three_projects : list string := ["/srv/app"; "/home/me/app"; "/srv/erp"].

Lemma three_projects_plain b b' k :
  b ∈ ["app"; "app"; "erp"] → b' ∈ ["app"; "app"; "erp"] → b ≠ Supervisor.suffixed b' k.
Proof.
  intros Hb _ Heq. apply (f_equal (Supervisor.has_char "_")) in Heq.
  unfold Supervisor.suffixed in Heq. rewrite has_char_app in Heq.
  change ("_" +:+ pretty k) with (String "_" (pretty k)) in Heq.
  cbn [Supervisor.has_char] in Heq. rewrite bool_decide_eq_true_2 in Heq by done.
  cbn [orb] in Heq. rewrite orb_true_r in Heq.
  rewrite !elem_of_cons, elem_of_nil in Hb. by destruct Hb as [->|[->|[->|[]]]].
Qed.

Lemma resolve_project_mounts_distinct_witness :
  (@resolve_project_mounts plain_host three_projects).*2 = ["app"; "app_2"; "erp"] ∧
  NoDup (@resolve_project_mounts plain_host three_projects).*2.
Proof.
  split; [vm_compute; reflexivity|].
  apply (@resolve_project_mounts_distinct plain_host three_projects).
  exact three_projects_plain.
Defined.

(** ** [generate_compose_dict] *)

(** X15.  The ports that [generate_compose_dict] publishes.  The admin
    port is published exactly when it is positive.  The project range
    runs from the base port to the base port plus the number of mounts
    plus the headroom minus one, cut off at 65535; so it is a proper range
    (its end not below its start) exactly when the base port is at most
    65535 and there is at least one mount or some headroom, and when
    nothing is cut off it holds one port per mount and [headroom] more.
    The service gets the data volume followed by one volume per mount, in
    order, and either an image or a build section, never both. *)
Theorem compose_published_ports (docker : DockerSection) (mounts : list (string * string)) :
  let service := serena (generate_compose_dict docker mounts) in
  let first := base_port docker in
  let last := Supervisor.compose_max_port first (port_headroom docker) (length mounts) in
  let range := pretty first +:+ "-" +:+ pretty last +:+ ":" +:+
               pretty first +:+ "-" +:+ pretty last in
  service_ports service =
    (if bool_decide (0 < admin_port docker)%Z
     then [pretty (admin_port docker) +:+ ":" +:+ pretty (admin_port docker); range]
     else [range]) ∧
  (last ≤ 65535)%Z ∧
  ((first ≤ last)%Z ↔
   (first ≤ 65535)%Z ∧ (1 ≤ Z.of_nat (length mounts) + port_headroom docker)%Z) ∧
  ((first + Z.of_nat (length mounts) - 1 + port_headroom docker ≤ 65535)%Z →
   (last - first + 1 = Z.of_nat (length mounts) + port_headroom docker)%Z) ∧
  length (service_volumes service) = S (length mounts) ∧
  (∀ i m, mounts !! i = Some m →
     service_volumes service !! S i = Some (m.1 +:+ ":/projects/" +:+ m.2)) ∧
  (is_Some (service_image service) ↔ service_build service = None).
Proof.
  cbn zeta. unfold generate_compose_dict, Supervisor.compose_max_port.
  cbn zeta. cbn [serena].
  split_and!.
  - destruct (image docker); cbn [service_ports]; by case_bool_decide.
  - case_bool_decide; lia.
  - case_bool_decide; lia.
  - intros H. rewrite bool_decide_eq_false_2 by lia. lia.
  - destruct (image docker); cbn [service_volumes length]; by rewrite length_fmap.
  - intros i m Hm.
    destruct (image docker); cbn [service_volumes];
      rewrite lookup_cons, list_lookup_fmap, Hm; reflexivity.
  - destruct (image docker); cbn [service_image service_build];
      split; (done || by intros [? ?] || by eexists).
Qed.

(** ** [load_docker_config] *)

#[local] Opaque u.

Lemma dict_get_app k d k0 v0 :
  dict_get k (d ++ [(k0, v0)]) =
  match dict_get k d with
  | Some v => Some v
  | None => if bool_decide (k0 = k) then Some v0 else None
  end.
Proof.
  induction d as [|[k1 v1] d IH]; [done|]. cbn [app dict_get].
  destruct (decide (k1 = k)) as [->|Hne].
  - by rewrite !(bool_decide_eq_true_2 (k = k)).
  - by rewrite !(bool_decide_eq_false_2 (k1 = k)).
Qed.

Lemma dict_get_setdefault k d k0 v0 :
  dict_get k (setdefault k0 v0 d) =
  match dict_get k d with
  | Some v => Some v
  | None => if bool_decide (k0 = k) then Some v0 else None
  end.
Proof.
  unfold setdefault. destruct (dict_get k0 d) as [v|] eqn:H0.
  - destruct (dict_get k d) eqn:Hk; [done|].
    case_bool_decide; [|done]. subst. congruence.
  - apply dict_get_app.
Qed.

Lemma dict_get_defaults defaults : ∀ d k,
  dict_get k (foldl (λ s kv, setdefault kv.1 kv.2 s) d defaults) =
  match dict_get k d with
  | Some v => Some v
  | None => dict_get k defaults
  end.
Proof.
  induction defaults as [|[k0 v0] defaults IH]; intros d k.
  - cbn. by destruct (dict_get k d).
  - cbn [foldl fst snd]. rewrite IH, dict_get_setdefault. cbn [dict_get].
    destruct (dict_get k d); [done|]. by case_bool_decide.
Qed.

Lemma defaults_present defaults : ∀ d,
  (∀ kv, kv ∈ defaults → is_Some (dict_get kv.1 d)) →
  foldl (λ s kv, setdefault kv.1 kv.2 s) d defaults = d.
Proof.
  induction defaults as [|[k0 v0] defaults IH]; intros d Hall; [done|].
  cbn [foldl fst snd]. destruct (Hall (k0, v0)) as [v Hv]; [by left|].
  unfold setdefault at 2. cbn [fst] in Hv. rewrite Hv. apply IH.
  intros kv Hin. apply Hall. by right.
Qed.

Lemma json_get_set_eq k v d : dict_get k (Parser.dict_set k v d) = Some v.
Proof.
  induction d as [|[k0 v0] d IH]; cbn [Parser.dict_set dict_get].
  - by rewrite bool_decide_eq_true_2.
  - case_bool_decide; cbn [dict_get].
    + by rewrite bool_decide_eq_true_2.
    + by rewrite bool_decide_eq_false_2.
Qed.

Lemma json_get_set_ne k k' v d : k' ≠ k → dict_get k' (Parser.dict_set k v d) = dict_get k' d.
Proof.
  intros Hne. induction d as [|[k0 v0] d IH]; cbn [Parser.dict_set dict_get].
  - by rewrite bool_decide_eq_false_2.
  - case_bool_decide; cbn [dict_get].
    + subst. by rewrite !bool_decide_eq_false_2.
    + case_bool_decide; [done|apply IH].
Qed.

Lemma dict_set_twice {V} k (v : V) d :
  Parser.dict_set k v (Parser.dict_set k v d) = Parser.dict_set k v d.
Proof.
  induction d as [|[k0 v0] d IH]; cbn [Parser.dict_set].
  - by rewrite bool_decide_eq_true_2.
  - case_bool_decide; cbn [Parser.dict_set].
    + by rewrite bool_decide_eq_true_2.
    + rewrite bool_decide_eq_false_2 by done. by rewrite IH.
Qed.

(** X16.  [load_docker_config] on a document it accepts.  The document
    is a mapping whose [projects] entry is a non-empty list.  In the
    result only the [docker] entry differs: it is a mapping in which every
    key the user gave keeps the user's value, whatever that is, and every
    key of the defaults that the user did not give has its default; a
    [docker] entry that is not a mapping counts as empty.  Loading the
    result again gives the result. *)
Theorem load_docker_config_defaults (data result : json) :
  load_docker_config (Some data) = inr result →
  ∃ fields docker,
    data = JObj fields ∧
    result = JObj (Parser.dict_set (u "docker") (JObj docker) fields) ∧
    (∃ p ps, dict_get (u "projects") fields = Some (JList (p :: ps))) ∧
    (∀ k, dict_get k docker =
          match (match dict_get (u "docker") fields with
                 | Some (JObj given) => dict_get k given
                 | _ => None
                 end) with
          | Some v => Some v
          | None => dict_get k _DOCKER_DEFAULTS
          end) ∧
    (∀ k v, (k, v) ∈ _DOCKER_DEFAULTS → is_Some (dict_get k docker)) ∧
    load_docker_config (Some result) = inr result.
Proof.
  unfold load_docker_config. destruct data as [| | | | |fields]; try done.
  destruct (dict_get (u "projects") fields) as [projects|] eqn:Hprojects; [|done].
  cbn [default]. destruct projects as [| | | |l|]; cbn [is_list negb];
    rewrite ?orb_true_r; try done.
  destruct l as [|p ps]; [done|].
  cbn [truthy is_list negb orb]. intros [= <-].
  set (given := match default (JObj []) (dict_get (u "docker") fields) with
                | JObj s => s
                | _ => []
                end).
  set (docker := foldl (λ s kv, setdefault kv.1 kv.2 s) given _DOCKER_DEFAULTS).
  assert (∀ k, dict_get k docker =
               match (match dict_get (u "docker") fields with
                      | Some (JObj given) => dict_get k given
                      | _ => None
                      end) with
               | Some v => Some v
               | None => dict_get k _DOCKER_DEFAULTS
               end) as Hdocker.
  { intros k. subst docker. rewrite dict_get_defaults. subst given.
    by destruct (dict_get (u "docker") fields) as [[]|]. }
  assert (∀ k v, (k, v) ∈ _DOCKER_DEFAULTS → is_Some (dict_get k docker)) as Hpresent.
  { intros k v Hin. rewrite Hdocker.
    destruct (match dict_get (u "docker") fields with
              | Some (JObj given) => dict_get k given
              | _ => None
              end); [by eexists|].
    unfold _DOCKER_DEFAULTS in *.
    rewrite !elem_of_cons, elem_of_nil in Hin.
    destruct Hin as [Hin|[Hin|[Hin|[Hin|[Hin|[Hin|[Hin|[Hin|[]]]]]]]]];
      injection Hin as -> ->; vm_compute; by eexists. }
  exists fields, docker. split_and!; [done|done|by eexists _, _|done|done|].
  rewrite json_get_set_ne by (vm_compute; discriminate).
  rewrite Hprojects. cbn [default truthy is_list negb orb].
  rewrite json_get_set_eq. cbn [default].
  rewrite defaults_present.
  - by rewrite dict_set_twice.
  - intros [k v] Hin. by apply (Hpresent k v).
Qed.

(** A configuration that names one project and sets the base port *)
#[local] Transparent u.

Definition short_config : json :=
  JObj [ (u "projects", JList [JStr (u "/srv/app")]);
         (u "docker", JObj [(u "base_port", JInt 9300)]) ].

Definition short_config_loaded : json :=
  Eval vm_compute in
    match load_docker_config (Some short_config) with
    | inr result => result
    | inl _ => JNull
    end.

Lemma load_docker_config_defaults_witness :
  load_docker_config (Some short_config) = inr short_config_loaded ∧
  load_docker_config (Some short_config_loaded) = inr short_config_loaded.
Proof.
  assert (load_docker_config (Some short_config) = inr short_config_loaded) as H
    by (vm_compute; reflexivity).
  split; [exact H|].
  destruct (load_docker_config_defaults short_config short_config_loaded H)
    as (fields & docker & _ & _ & _ & _ & _ & Hagain).
  exact Hagain.
Defined.

End ComposeProofs.

(* ===================================================================== *)
(** * Properties of the cache queries                                     *)
(* ===================================================================== *)

Module QueryProofs.
Import Text Regex BSL Cache CacheProofs Queries.

Section WithUnicode.
Context {U : Unicode}.

(** ** What a query asks of a method *)

Definition pattern_holds (p : pattern) (key : str) : bool :=
  match p with
  | RegexPattern r => Parser.is_Some_b (search r key)
  | ExactPattern s => bool_decide (key = lower s)
  end.

Definition name_ok (q : query) (mi : BSLMethodInfo) : bool :=
  match q_name q with
  | Some p => pattern_holds p (lower (name (method mi)))
  | None => true
  end.

(** A method without a module is in no entry of the module index. *)
Definition module_ok (q : query) (mi : BSLMethodInfo) : bool :=
  match q_module q with
  | Some p => bool_decide (module mi ≠ []) && pattern_holds p (lower (module mi))
  | None => true
  end.

(** [is_export] wins over [isExport] when both are given. *)
Definition wanted_export (q : query) : option bool :=
  match q_is_export q, q_isExport q with
  | Some b, _ => Some b
  | None, Some b => Some b
  | None, None => None
  end.

Definition export_ok (q : query) (mi : BSLMethodInfo) : bool :=
  match wanted_export q with
  | Some b => bool_decide (is_export (method mi) = b)
  | None => true
  end.

Definition context_ok (q : query) (mi : BSLMethodInfo) : bool :=
  match q_context q with
  | Some ctx => bool_decide (context (method mi) = ctx)
  | None => true
  end.

Definition isproc_ok (q : query) (mi : BSLMethodInfo) : bool :=
  match q_isproc q with
  | Some b => bool_decide (isproc (method mi) = b)
  | None => true
  end.

(** Does the method answer the query? *)
Definition answers (q : query) (mi : BSLMethodInfo) : bool :=
  name_ok q mi && module_ok q mi && export_ok q mi && context_ok q mi && isproc_ok q mi.

(** ** The candidate positions *)

Section Candidates.
Variable ms : list BSLMethodInfo.

(** The set holds the positions of the methods that satisfy [p]. *)
Definition holds_for (X : gset nat) (p : BSLMethodInfo → bool) : Prop :=
  ∀ i, i ∈ X ↔ ∃ mi, ms !! i = Some mi ∧ p mi = true.

Definition denotes (o : option (gset nat)) (p : BSLMethodInfo → bool) : Prop :=
  match o with
  | Some X => holds_for X p
  | None => ∀ mi, p mi = true
  end.

Lemma range_set_holds : holds_for (range_set (length ms)) (λ _, true).
Proof.
  intros i. unfold range_set. rewrite elem_of_list_to_set, elem_of_seq. split.
  - intros [_ Hi]. destruct (lookup_lt_is_Some_2 ms i) as [mi Hmi]; [lia|]. by exists mi.
  - intros (mi & Hmi & _). apply lookup_lt_Some in Hmi. lia.
Qed.

Lemma holds_for_ext X p p' : (∀ mi, p mi = p' mi) → holds_for X p → holds_for X p'.
Proof.
  intros Hext H i. rewrite (H i). split; intros (mi & ? & ?); exists mi;
    (split; [done|]); by rewrite ?Hext in *.
Qed.

Lemma narrow_denotes o a p p' :
  denotes o p → holds_for a p' → denotes (narrow o a) (λ mi, p mi && p' mi).
Proof.
  intros Ho Ha. destruct o as [X|]; cbn [narrow denotes] in *.
  - intros i. rewrite elem_of_intersection, (Ho i), (Ha i). split.
    + intros [(mi & Hmi & Hp) (mi' & Hmi' & Hp')].
      assert (mi' = mi) as -> by congruence.
      exists mi. by rewrite Hp, Hp'.
    + intros (mi & Hmi & [Hp Hp']%andb_prop). split; by exists mi.
  - eapply holds_for_ext; [|done]. intros mi. by rewrite Ho.
Qed.

Lemma default_denotes o p :
  denotes o p → holds_for (default (range_set (length ms)) o) p.
Proof.
  destruct o as [X|]; cbn [default denotes]; [done|].
  intros Hall. eapply holds_for_ext; [|apply range_set_holds]. intros mi. by rewrite Hall.
Qed.

Lemma positions_holds p : holds_for (list_to_set (positions p ms)) p.
Proof. intros i. by rewrite elem_of_list_to_set, elem_of_positions. Qed.

Lemma entry_positions_holds p :
  holds_for (list_to_set (default [] (entry (positions p ms)))) p.
Proof. rewrite default_entry. apply positions_holds. Qed.

(** The entries of an index built from [ms] for the keys that a pattern
    selects *)
Lemma index_candidates_holds (pat : pattern) (index : gmap str (list nat))
    (by_key : str → BSLMethodInfo → bool) (key : BSLMethodInfo → str)
    (side : BSLMethodInfo → bool) :
  (∀ k, index !! k = entry (positions (by_key k) ms)) →
  (∀ k mi, by_key k mi = side mi && bool_decide (key mi = k)) →
  holds_for (index_candidates pat index) (λ mi, side mi && pattern_holds pat (key mi)).
Proof.
  intros Hindex Hkey. destruct pat as [r|s]; cbn [index_candidates pattern_holds].
  - intros i. rewrite elem_of_union_list. split.
    + intros (Y & (kv & -> & Hkv)%list_elem_of_fmap & Hi).
      destruct kv as [k l]. apply elem_of_map_to_list in Hkv. cbn [fst snd] in Hi.
      destruct (Parser.is_Some_b (search r k)) eqn:Hr; [|by apply elem_of_empty in Hi].
      rewrite Hindex in Hkv. apply entry_Some in Hkv as [-> _].
      apply elem_of_list_to_set, elem_of_positions in Hi as (mi & Hmi & Hby).
      rewrite Hkey in Hby. apply andb_prop in Hby as [Hside Hk].
      apply bool_decide_eq_true_1 in Hk. subst k.
      exists mi. by rewrite Hside, Hr.
    + intros (mi & Hmi & [Hside Hr]%andb_prop).
      set (k := key mi). set (l := positions (by_key k) ms).
      assert (i ∈ l) as Hil.
      { apply elem_of_positions. exists mi. split; [done|].
        rewrite Hkey, Hside. by rewrite bool_decide_eq_true_2. }
      exists (list_to_set l). split; [|by apply elem_of_list_to_set].
      apply list_elem_of_fmap. exists (k, l). cbn [fst snd]. fold k in Hr. rewrite Hr.
      split; [done|]. apply elem_of_map_to_list. rewrite Hindex. fold l.
      destruct l; [by apply elem_of_nil in Hil|done].
  - rewrite Hindex. eapply holds_for_ext; [|apply entry_positions_holds].
    intros mi. by rewrite Hkey.
Qed.

(** Going through the candidate positions gives the methods at them. *)
Lemma omap_positions (p post : BSLMethodInfo → bool) :
  omap (λ idx, match ms !! idx with
               | None => None
               | Some mi => if post mi then Some mi else None
               end) (positions p ms) =
  filter (λ mi, p mi && post mi = true) ms.
Proof.
  clear. induction ms as [|x l IH] using rev_ind; [done|].
  rewrite positions_snoc, omap_app, filter_app. f_equal.
  - rewrite <- IH. apply list_omap_ext. apply Forall2_same_length_lookup_2; [done|].
    intros i a b Ha Hb. assert (a = b) as -> by congruence.
    apply list_elem_of_lookup_2, elem_of_positions in Hb as (mi & Hmi & _).
    rewrite lookup_app_l by (by eapply lookup_lt_Some). done.
  - destruct (p x) eqn:Hp; cbn [omap list_omap].
    + rewrite list_lookup_middle by done. cbn [andb].
      destruct (post x) eqn:Hpost.
      * by rewrite filter_cons_True by (by rewrite Hp).
      * by rewrite filter_cons_False by (by rewrite Hp, Hpost).
    + by rewrite filter_cons_False by (by rewrite Hp).
Qed.

Lemma omap_candidates (X : gset nat) (p post : BSLMethodInfo → bool) :
  holds_for X p →
  omap (λ idx, match ms !! idx with
               | None => None
               | Some mi => if post mi then Some mi else None
               end) (elements X) ≡ₚ
  filter (λ mi, p mi && post mi = true) ms.
Proof.
  intros HX. rewrite <- omap_positions.
  apply omap_Permutation, NoDup_Permutation.
  - apply NoDup_elements.
  - apply NoDup_positions.
  - intros i. by rewrite elem_of_elements, (HX i), elem_of_positions.
Qed.

Lemma denotes_ext o p p' : (∀ mi, p mi = p' mi) → denotes o p → denotes o p'.
Proof.
  intros Hext. destruct o as [X|]; cbn [denotes].
  - by apply holds_for_ext.
  - intros H mi. by rewrite <- Hext.
Qed.

Lemma export_denotes o p (E : gset nat) (b : bool) :
  denotes o p → holds_for E exported →
  holds_for (match o with
             | Some ci => if b then ci ∩ E else ci ∖ E
             | None => if b then E else range_set (length ms) ∖ E
             end)
            (λ mi, p mi && bool_decide (is_export (method mi) = b)).
Proof.
  intros Ho HE.
  assert (holds_for (default (range_set (length ms)) o) p) as Hci
    by by apply default_denotes.
  assert (∀ ci, holds_for ci p →
            holds_for (if b then ci ∩ E else ci ∖ E)
                      (λ mi, p mi && bool_decide (is_export (method mi) = b))) as Hstep.
  { intros ci Hc i. destruct b.
    - rewrite elem_of_intersection, (Hc i), (HE i). unfold exported. split.
      + intros [(mi & Hmi & Hp) (mi' & Hmi' & He)].
        assert (mi' = mi) as -> by congruence.
        exists mi. rewrite Hp, He. by rewrite bool_decide_eq_true_2.
      + intros (mi & Hmi & [Hp He%bool_decide_eq_true_1]%andb_prop).
        split; by exists mi.
    - rewrite elem_of_difference, (Hc i), (HE i). unfold exported. split.
      + intros [(mi & Hmi & Hp) Hno]. exists mi. split; [done|]. rewrite Hp.
        apply bool_decide_eq_true_2. destruct (is_export (method mi)) eqn:He; [|done].
        exfalso. apply Hno. by exists mi.
      + intros (mi & Hmi & [Hp He%bool_decide_eq_true_1]%andb_prop).
        split; [by exists mi|]. intros (mi' & Hmi' & He').
        assert (mi' = mi) as -> by congruence. congruence. }
  destruct o as [ci|]; cbn [default denotes] in *.
  - by apply Hstep.
  - destruct b.
    + intros i. rewrite (HE i). unfold exported. split.
      * intros (mi & Hmi & He). exists mi. rewrite Ho, He.
        by rewrite bool_decide_eq_true_2.
      * intros (mi & Hmi & [_ He%bool_decide_eq_true_1]%andb_prop). by exists mi.
    + by apply (Hstep (range_set (length ms))).
Qed.

End Candidates.

(** ** [find_methods] *)

Lemma is_empty_answers q mi : is_empty q = true → answers q mi = true.
Proof. destruct q as [[] [] [] [] [] []]; done. Qed.

Lemma find_methods_fresh (q : query) (c : BSLCache) :
  indices_fresh c →
  find_methods (Some q) c ≡ₚ filter (λ mi, answers q mi = true) (cache_methods c).
Proof.
  intros Hfresh. unfold find_methods.
  destruct (is_empty q) eqn:Hempty.
  { apply reflexive_eq. induction (cache_methods c) as [|mi l IH]; [done|].
    rewrite filter_cons_True by (by apply is_empty_answers). by rewrite <- IH. }
  set (ms := cache_methods c).
  destruct (build_spec ms) as (Hn & Hm & He).
  unfold indices_fresh, indices_of in Hfresh. fold ms in Hfresh.
  assert (_method_name_index c = (build ms).1.1) as Hni by (by rewrite <- Hfresh).
  assert (_method_module_index c = (build ms).1.2) as Hmi by (by rewrite <- Hfresh).
  assert (_method_export_index c = (build ms).2) as Hei by (by rewrite <- Hfresh).
  rewrite Hni, Hmi, Hei, He. cbn zeta.
  (* by name *)
  set (o1 := match q_name q with
             | Some p => narrow None (index_candidates p (build ms).1.1)
             | None => None
             end).
  assert (denotes ms o1 (name_ok q)) as H1.
  { subst o1. unfold name_ok. destruct (q_name q) as [p|]; [|done].
    apply (denotes_ext ms _ (λ mi, true && (true && pattern_holds p (lower (name (method mi)))))).
    { done. }
    apply (narrow_denotes ms None _ (λ _, true)); [done|].
    apply (index_candidates_holds ms p _ by_name (λ mi, lower (name (method mi))) (λ _, true));
      [done|]. intros k mi. done. }
  (* by module *)
  set (o2 := match q_module q with
             | Some p => narrow o1 (index_candidates p (build ms).1.2)
             | None => o1
             end).
  assert (denotes ms o2 (λ mi, name_ok q mi && module_ok q mi)) as H2.
  { subst o2. unfold module_ok. destruct (q_module q) as [p|].
    - apply (narrow_denotes ms o1 _ (name_ok q)); [done|].
      apply (index_candidates_holds ms p _ by_module (λ mi, lower (module mi))
               (λ mi, bool_decide (module mi ≠ []))); [done|]. intros k mi. done.
    - eapply denotes_ext; [|done]. intros mi. by rewrite andb_true_r. }
  (* by export *)
  set (o3 := if bool_decide (q_is_export q ≠ None ∨ q_isExport q ≠ None)
             then _ else o2).
  assert (denotes ms o3 (λ mi, name_ok q mi && module_ok q mi && export_ok q mi)) as H3.
  { subst o3. unfold export_ok, wanted_export.
    pose proof (positions_holds ms exported) as HE.
    destruct (q_is_export q) as [b|], (q_isExport q) as [b'|]; cbn [default].
    - rewrite bool_decide_eq_true_2 by (left; done).
      destruct o2; by apply (export_denotes ms _ _ _ b H2 HE).
    - rewrite bool_decide_eq_true_2 by (left; done).
      destruct o2; by apply (export_denotes ms _ _ _ b H2 HE).
    - rewrite bool_decide_eq_true_2 by (right; done).
      destruct o2; by apply (export_denotes ms _ _ _ b' H2 HE).
    - rewrite bool_decide_eq_false_2 by (intros [?|?]; done).
      eapply denotes_ext; [|done]. intros mi. by rewrite andb_true_r. }
  apply default_denotes in H3.
  erewrite list_omap_ext.
  - rewrite (omap_candidates ms _ _ (λ mi, context_ok q mi && isproc_ok q mi) H3).
    apply reflexive_eq. apply filter_ext_elem. intros mi _. unfold answers.
    by rewrite !andb_assoc.
  - apply Forall2_same_length_lookup_2; [done|].
    intros i a b Ha Hb. assert (a = b) as -> by congruence.
    destruct (ms !! b) as [mi|]; [|done]. unfold context_ok, isproc_ok.
    destruct (q_context q) as [ctx|], (q_isproc q) as [pr|];
      repeat case_bool_decide; done.
Qed.

(** X17.  [find_methods] on a cache reached from a new one by any
    sequence of add, remove and clear operations.  Without a query, or
    with an empty one, it returns the method list as it is.  Otherwise it
    returns, each once and in some order, exactly the methods that answer
    the query, as a scan of the method list would find them: the name and
    the module are compared in lower case (or searched with the pattern
    when a [$regex] is given), a method without a module answers no query
    that has a [module] entry, [is_export] decides over [isExport] when
    both are given, and context and kind are compared as they are.
    [find_methods_by_module] and [find_exported_methods] are the queries
    they are named after. *)
Theorem find_methods_scans (ops : list cache_op) (q : query) :
  let c := run_ops ops in
  find_methods None c = cache_methods c ∧
  (is_empty q = true → find_methods (Some q) c = cache_methods c) ∧
  find_methods (Some q) c ≡ₚ filter (λ mi, answers q mi = true) (cache_methods c) ∧
  (∀ md, find_methods_by_module md c ≡ₚ
         filter (λ mi, module mi ≠ [] ∧ lower (module mi) = lower md) (cache_methods c)) ∧
  find_exported_methods None c ≡ₚ
    filter (λ mi, is_export (method mi) = true) (cache_methods c).
Proof.
  cbn zeta. pose proof (run_ops_fresh ops) as Hfresh.
  split_and!.
  - done.
  - intros Hempty. unfold find_methods. by rewrite Hempty.
  - by apply find_methods_fresh.
  - intros md. unfold find_methods_by_module. rewrite find_methods_fresh by done.
    apply reflexive_eq, filter_ext_elem. intros mi _.
    unfold answers, name_ok, module_ok, export_ok, context_ok, isproc_ok. cbn.
    rewrite !andb_true_r. rewrite andb_true_iff, !bool_decide_eq_true. done.
  - unfold find_exported_methods. rewrite find_methods_fresh by done.
    apply reflexive_eq, filter_ext_elem. intros mi _.
    unfold answers, name_ok, module_ok, export_ok, context_ok, isproc_ok. cbn.
    rewrite !andb_true_r. by rewrite bool_decide_eq_true.
Qed.

(** ** [find_calls] *)

(** The record [add_call] stores for one entry of a batch *)
Definition call_info_of (x : BSLCallPosition * str * str * str) : BSLCallInfo :=
  let '(cp, fn, method_name, md) := x in
  mkCallInfo fn (call cp) (call_line cp) (character cp) method_name md.

Lemma find_calls_add_call n cp fn mn md c :
  find_calls n (add_call cp fn mn md c) =
  find_calls n c ++ (if decide (call cp = n) then [call_info_of (cp, fn, mn, md)] else []).
Proof.
  unfold find_calls, add_call. cbn [cache_calls call_info_of].
  rewrite dict_append_lookup. case_decide as Hn.
  - by subst n.
  - by rewrite app_nil_r.
Qed.

Lemma add_calls_batch_fold l c :
  add_calls_batch l c =
  foldl (λ c '(cp, fn, method_name, md), add_call cp fn method_name md c) c l.
Proof. done. Qed.

(** X18.  Calls are found under the exact name they were added with, in
    the order in which they were added: after [add_calls_batch], or after
    the same calls added one by one with [add_call], [find_calls] gives
    what it gave before followed by the records of the new calls to that
    name, each with the file, position, calling method and module it was
    added with; and after [remove_file_data] it gives what it gave before
    without the calls made in the removed file. *)
Theorem find_calls_in_order (c : BSLCache) (n : str)
    (calls_data : list (BSLCallPosition * str * str * str)) (fn : str) :
  find_calls n (add_calls_batch calls_data c) =
    find_calls n c ++
    (call_info_of <$> filter (λ x, call x.1.1.1 = n) calls_data) ∧
  add_calls_batch calls_data c =
    foldl (λ c '(cp, fn, method_name, md), add_call cp fn method_name md c) c calls_data ∧
  find_calls n (remove_file_data fn c) =
    filter (λ ci, ci_filename ci ≠ fn) (find_calls n c) ∧
  find_calls n empty_cache = [].
Proof.
  split_and!; [|done| |done].
  - rewrite add_calls_batch_fold. revert c.
    induction calls_data as [|[[[cp f] mn] md] l IH]; intros c.
    + by rewrite app_nil_r.
    + cbn [foldl]. rewrite IH, find_calls_add_call, <- (assoc_L (++)). f_equal.
      destruct (decide (call cp = n)) as [Hn|Hn].
      * by rewrite filter_cons_True by done.
      * by rewrite filter_cons_False by done.
  - unfold find_calls. rewrite remove_file_data_calls.
    destruct (cache_calls c !! n) as [l|]; [|done]. cbn [default].
    change (id l) with l. by destruct (filter _ l).
Qed.

(** ** [get_stats] *)

(** No key of the call map or of the variable map is left with an empty
    list. *)
Definition lists_filled (c : BSLCache) : Prop :=
  (∀ (k : str) l, cache_calls c !! k = Some l → l ≠ []) ∧
  (∀ (k : str) l, cache_module_vars c !! k = Some l → l ≠ []).

Lemma dict_append_filled {A} (k : str) (x : A) (d : gmap str (list A)) :
  (∀ (k' : str) l, d !! k' = Some l → l ≠ []) →
  ∀ (k' : str) l, dict_append k x d !! k' = Some l → l ≠ [].
Proof.
  intros Hd k' l. rewrite dict_append_lookup. case_decide.
  - intros [= <-]. by destruct (default [] (d !! k)).
  - apply Hd.
Qed.

Lemma add_call_filled cp fn mn md c : lists_filled c → lists_filled (add_call cp fn mn md c).
Proof. intros [Hc Hv]. split; [|done]. by apply dict_append_filled. Qed.

Lemma add_module_var_filled v fn c : lists_filled c → lists_filled (add_module_var v fn c).
Proof. intros [Hc Hv]. split; [done|]. by apply dict_append_filled. Qed.

Lemma add_methods_batch_filled l : ∀ c, lists_filled c → lists_filled (add_methods_batch l c).
Proof.
  induction l as [|[[m fn] md] l IH]; intros c Hc; [done|].
  rewrite add_methods_batch_fold. cbn [foldl]. rewrite <- add_methods_batch_fold.
  by apply IH.
Qed.

Lemma add_module_vars_batch_filled l : ∀ c,
  lists_filled c → lists_filled (add_module_vars_batch l c).
Proof.
  induction l as [|[v fn] l IH]; intros c Hc; [done|].
  unfold add_module_vars_batch. cbn [foldl]. by apply IH, (add_module_var_filled v fn).
Qed.

Lemma add_calls_batch_filled l : ∀ c, lists_filled c → lists_filled (add_calls_batch l c).
Proof.
  induction l as [|[[[cp fn] mn] md] l IH]; intros c Hc; [done|].
  rewrite add_calls_batch_fold. cbn [foldl]. rewrite <- add_calls_batch_fold.
  by apply IH, add_call_filled.
Qed.

Lemma remove_file_data_filled fn c : lists_filled c → lists_filled (remove_file_data fn c).
Proof.
  intros [Hc Hv]. split.
  - intros k l. rewrite remove_file_data_calls.
    destruct (cache_calls c !! k) as [l0|]; [|done].
    destruct (filter _ l0) eqn:Hf; [done|]. by intros [= <-].
  - intros k l. rewrite remove_file_data_module_vars.
    intros Hl. apply lookup_delete_Some in Hl as [_ Hl]. by eapply Hv.
Qed.

Lemma run_ops_filled ops : lists_filled (run_ops ops).
Proof.
  unfold run_ops. assert (lists_filled empty_cache) as H0.
  { split; intros k l; cbn [empty_cache cache_calls cache_module_vars];
      by rewrite lookup_empty. }
  revert H0. generalize empty_cache.
  induction ops as [|o ops IH]; intros c Hc; [done|].
  cbn [foldl]. apply IH.
  destruct o; cbn [apply_op];
    first [ done
          | by apply add_module_var_filled
          | by apply add_call_filled
          | by apply add_methods_batch_filled
          | by apply add_module_vars_batch_filled
          | by apply add_calls_batch_filled
          | by apply remove_file_data_filled
          | split; intros k l; cbn [clear cache_calls cache_module_vars];
            by rewrite lookup_empty ].
Qed.

Lemma total_length {A} (d : gmap str (list A)) :
  map_fold (λ _ l n, length l + n) 0 d = length (mjoin (map_to_list d).*2).
Proof.
  rewrite map_fold_foldr. induction (map_to_list d) as [|[k l] kvs IH]; [done|].
  cbn [foldr uncurry]. rewrite fmap_cons. cbn [snd].
  change (mjoin (l :: kvs.*2)) with (l ++ mjoin kvs.*2). by rewrite length_app, IH.
Qed.

Lemma filled_total {A} (d : gmap str (list A)) :
  (∀ (k : str) l, d !! k = Some l → l ≠ []) →
  size d ≤ map_fold (λ _ l n, length l + n) 0 d.
Proof.
  intros Hd. rewrite map_fold_foldr, <- length_map_to_list.
  assert (Forall (λ kv : str * list A, kv.2 ≠ []) (map_to_list d)) as Hall.
  { apply Forall_forall. intros [k l] Hin%elem_of_map_to_list. by eapply Hd. }
  induction Hall as [|[k l] kvs Hl _ IH]; [done|].
  cbn [foldr uncurry length] in *. destruct l; [done|]. cbn [length]. lia.
Qed.

Lemma length_positions p (ms : list BSLMethodInfo) :
  length (positions p ms) = length (filter (λ mi, p mi = true) ms).
Proof.
  induction ms as [|x l IH] using rev_ind; [done|].
  rewrite positions_snoc, filter_app, !length_app, IH. f_equal.
  destruct (p x) eqn:Hp.
  - by rewrite filter_cons_True.
  - by rewrite filter_cons_False by (by rewrite Hp).
Qed.

(** X19.  The statistics of a cache reached from a new one by any
    sequence of add, remove and clear operations are consistent: the
    number of exported methods reported is the number of methods in the
    list that are exported, and so at most the number of methods; the
    number of distinct call names is at most the number of calls, and both
    are zero together; and there are at least as many module variables as
    files that have any. *)
Theorem stats_are_consistent (ops : list cache_op) :
  let c := run_ops ops in
  let s := get_stats c in
  stat_methods s = length (cache_methods c) ∧
  stat_exported_methods s =
    length (filter (λ mi, is_export (method mi) = true) (cache_methods c)) ∧
  stat_exported_methods s ≤ stat_methods s ∧
  stat_unique_calls s ≤ stat_calls s ∧
  (stat_calls s = 0 ↔ stat_unique_calls s = 0) ∧
  size (cache_module_vars c) ≤ stat_module_vars s ∧
  stat_calls s = length (mjoin (map_to_list (cache_calls c)).*2).
Proof.
  cbn zeta. pose proof (run_ops_fresh ops) as Hfresh.
  destruct (run_ops_filled ops) as [Hcalls Hvars].
  set (c := run_ops ops) in *. unfold get_stats.
  cbn [stat_methods stat_exported_methods stat_unique_calls stat_calls stat_module_vars].
  assert (length (_method_export_index c) =
          length (filter (λ mi, is_export (method mi) = true) (cache_methods c))) as Hexp.
  { unfold indices_fresh, indices_of in Hfresh.
    destruct (build_spec (cache_methods c)) as (_ & _ & He).
    assert (_method_export_index c = (build (cache_methods c)).2) as -> by (by rewrite <- Hfresh).
    rewrite He. apply length_positions. }
  pose proof (filled_total _ Hcalls) as Hle.
  split_and!; [done|done| |done| |by apply filled_total|apply total_length].
  - rewrite Hexp. apply length_filter.
  - split; [lia|]. intros Hsize. apply map_size_empty_iff in Hsize. rewrite Hsize.
    apply map_fold_empty.
Qed.

End WithUnicode.

End QueryProofs.

(* ===================================================================== *)
(** * Further properties of the parser                                    *)
(* ===================================================================== *)

Module ParserFacts.
Import Text Regex BSL Parser ParserProofs.

Section WithUnicode.
Context {U : Unicode}.

(** ** Where a method ends *)

Lemma getitem_Some {A} (l : list A) i x : getitem l i = inr x → l !! i = Some x.
Proof. unfold getitem. destruct (l !! i); [by intros [= ->]|done]. Qed.

Lemma end_loop_found lines end_pattern idxs : ∀ depth i,
  end_loop lines end_pattern idxs depth = inr (Some i) →
  i ∈ idxs ∧
  ∃ text, lines !! i = Some text ∧ search end_pattern text ≠ None ∧
          search PROC_PATTERN text = None ∧ search FUNC_PATTERN text = None.
Proof.
  induction idxs as [|j idxs IH]; intros depth i; cbn [end_loop]; [done|].
  destruct (getitem lines j) as [e|text] eqn:Hj; cbn [bindE]; [done|].
  apply getitem_Some in Hj.
  assert (∀ d, end_loop lines end_pattern idxs d = inr (Some i) →
               i ∈ j :: idxs ∧
               ∃ text, lines !! i = Some text ∧ search end_pattern text ≠ None ∧
                       search PROC_PATTERN text = None ∧ search FUNC_PATTERN text = None)
    as Hrest.
  { intros d Hd. destruct (IH d i Hd) as [Hin Htext]. split; [by right|done]. }
  destruct (search PROC_PATTERN text) as [pm|] eqn:Hp.
  { rewrite (bool_decide_eq_true_2 (Some pm ≠ None)) by done. cbn [orb bindE].
    case_bool_decide; apply Hrest. }
  rewrite (bool_decide_eq_false_2 (@None Match ≠ None)) by (by intros ?).
  destruct (search FUNC_PATTERN text) as [fm|] eqn:Hf.
  { rewrite (bool_decide_eq_true_2 (Some fm ≠ None)) by done. cbn [orb bindE].
    case_bool_decide; apply Hrest. }
  rewrite (bool_decide_eq_false_2 (@None Match ≠ None)) by (by intros ?). cbn [orb].
  case_bool_decide as Hend; [|apply Hrest].
  case_bool_decide as Hdepth; [|apply Hrest].
  intros [= <-]. split; [by left|]. by exists text.
Qed.

(** What [_parse_method_from_match] guarantees about a method it returns *)
Definition terminated (lines : list str) (x : BSLMethod) : Prop :=
  line x < endline x ∧ endline x < length lines ∧
  ∃ text,
    lines !! endline x = Some text ∧
    search (if isproc x then PROC_END_PATTERN else FUNC_END_PATTERN) text ≠ None ∧
    search PROC_PATTERN text = None ∧ search FUNC_PATTERN text = None.

Lemma _parse_method_from_match_terminated source m is_proc x :
  _parse_method_from_match source (split 10%N source) m is_proc = inr (Some x) →
  terminated (split 10%N source) x.
Proof.
  unfold _parse_method_from_match.
  set (start_line := verify_start_line _ _ _).
  destruct (_find_method_end source start_line is_proc) as [e|[end_line|]] eqn:Hend;
    cbn [bindE]; try done.
  destruct (_extract_description_before _ _) as [e|d]; cbn [bindE]; [done|].
  intros [= <-]. unfold terminated. cbn [line endline isproc].
  unfold _find_method_end in Hend.
  apply end_loop_found in Hend as [Hin (text & Htext & Hpat & Hproc & Hfunc)].
  apply elem_of_seq in Hin. split_and!; [lia|lia|]. by exists text.
Qed.

Lemma terminated_set_calls lines cps x :
  terminated lines x → terminated lines (set_calls_position cps x).
Proof. done. Qed.

Lemma parsed_terminated source is_proc ms rs :
  mapE (λ m, _parse_method_from_match source (split 10%N source) m is_proc) ms = inr rs →
  Forall (terminated (split 10%N source)) (omap id rs).
Proof.
  intros Hall%mapE_Forall2. apply Forall_forall. intros x Hx.
  apply list_elem_of_omap in Hx as (o & Ho & Hid). cbn in Hid. subst o.
  apply list_elem_of_lookup in Ho as [i Hi].
  destruct (Forall2_lookup_r _ _ _ _ _ Hall Hi) as (m & _ & Hm).
  by apply _parse_method_from_match_terminated in Hm.
Qed.

(** [parse] returns, and every method it returns is terminated. *)
Lemma parse_terminated source :
  ∃ r, parse source = inr r ∧
       Forall (terminated (split 10%N source)) (methods r) ∧
       (∀ m, m ∈ methods r →
             calls_position m = _parse_method_calls (split 10%N source) m).
Proof.
  unfold parse.
  destruct (_parse_module_vars_ok source) as [vars ->]. cbn [bindE].
  unfold _parse_methods.
  destruct (mapE_ok (λ m, _parse_method_from_match source (split 10%N source) m true)
              (finditer PROC_PATTERN source)) as [procs Hprocs];
    [intros; apply _parse_method_from_match_ok|].
  destruct (mapE_ok (λ m, _parse_method_from_match source (split 10%N source) m false)
              (finditer FUNC_PATTERN source)) as [funcs Hfuncs];
    [intros; apply _parse_method_from_match_ok|].
  rewrite Hprocs, Hfuncs. cbn [bindE].
  eexists. split; [reflexivity|]. cbn [methods].
  pose proof (parsed_terminated _ _ _ _ Hprocs) as Hp.
  pose proof (parsed_terminated _ _ _ _ Hfuncs) as Hf.
  destruct (sort_by_line_spec (omap id procs ++ omap id funcs)) as [_ Hperm].
  split.
  - apply Forall_fmap, Forall_forall. intros x Hx. cbn.
    apply terminated_set_calls. rewrite Hperm in Hx.
    apply elem_of_app in Hx as [Hx|Hx]; [by eapply Forall_forall in Hp|
                                         by eapply Forall_forall in Hf].
  - intros m (x & -> & Hx)%list_elem_of_fmap. done.
Qed.

End WithUnicode.

End ParserFacts.

Module ParserExtras.
Import Text Regex BSL Parser ParserProofs ParserFacts.

Section WithUnicode.
Context {U : Unicode}.

(** X20.  Every method that [parse] returns is closed: its end line lies
    after its start line and within the text, holds the closing keyword of
    the method's kind ([КонецПроцедуры] for a procedure, [КонецФункции] for
    a function) and is not itself the declaration of a procedure or a
    function.  A declaration for which no such line is found gives no
    method. *)
Theorem methods_terminated (source : str) :
  ∃ r : BSLParseResult,
    parse source = inr r ∧
    ∀ m, m ∈ methods r →
      line m < endline m ∧ endline m < length (split 10%N source) ∧
      ∃ text,
        split 10%N source !! endline m = Some text ∧
        search (if isproc m then PROC_END_PATTERN else FUNC_END_PATTERN) text ≠ None ∧
        search PROC_PATTERN text = None ∧ search FUNC_PATTERN text = None.
Proof.
  destruct (parse_terminated source) as (r & Hr & Hall & _).
  exists r. split; [done|]. intros m Hm.
  by eapply Forall_forall in Hall.
Qed.

(** ** Module variables *)

Definition vars_keyed (d : list (str * BSLModuleVar)) : Prop :=
  NoDup d.*1 ∧ ∀ k v, (k, v) ∈ d → var_name v = k.

Lemma elem_of_vars_set {V} k (v : V) d k' v' :
  (k', v') ∈ dict_set k v d → (k', v') ∈ d ∨ (k' = k ∧ v' = v).
Proof.
  induction d as [|[k0 v0] d IH]; cbn [dict_set].
  - intros [= -> ->]%list_elem_of_singleton. by right.
  - case_bool_decide as Hk.
    + intros [[= -> ->]|Hin]%elem_of_cons; [by right|]. left. by right.
    + intros [[= -> ->]|Hin]%elem_of_cons; [left; by left|].
      destruct (IH Hin) as [?|?]; [left; by right|by right].
Qed.

Lemma keys_vars_set {V} k (v : V) d :
  (dict_set k v d).*1 = if bool_decide (k ∈ d.*1) then d.*1 else d.*1 ++ [k].
Proof.
  induction d as [|[k0 v0] d IH]; cbn [dict_set].
  - rewrite bool_decide_eq_false_2; [done|]. by intros ?%elem_of_nil.
  - rewrite fmap_cons. cbn [fst]. destruct (decide (k0 = k)) as [->|Hne].
    + rewrite (bool_decide_eq_true_2 (k = k)) by done.
      rewrite bool_decide_eq_true_2 by left. by rewrite fmap_cons.
    + rewrite (bool_decide_eq_false_2 (k0 = k)) by done.
      rewrite fmap_cons, IH. cbn [fst]. destruct (decide (k ∈ d.*1)) as [Hin|Hno].
      * rewrite !bool_decide_eq_true_2; [done|by right|done].
      * rewrite !bool_decide_eq_false_2; [done| |done].
        intros [->|?]%elem_of_cons; done.
Qed.

Lemma dict_set_keyed k v d :
  vars_keyed d → var_name v = k → vars_keyed (dict_set k v d).
Proof.
  intros [Hnd Hall] Hv. split.
  - rewrite keys_vars_set. case_bool_decide as Hin; [done|].
    apply NoDup_app. split_and!; [done| |apply NoDup_singleton].
    intros k0 Hk0 ->%list_elem_of_singleton. done.
  - intros k1 v1 [Hold|[-> ->]]%elem_of_vars_set; [by apply Hall|done].
Qed.

Lemma _parse_module_vars_keyed source lines vars :
  _parse_module_vars source lines = inr vars → vars_keyed vars.
Proof.
  unfold _parse_module_vars.
  generalize (finditer MODULE_VAR_PATTERN source). intros ms.
  assert (vars_keyed []) as H0 by (split; [constructor|by intros ?? ?%elem_of_nil]).
  revert H0. generalize (@nil (str * BSLModuleVar)). revert vars.
  induction ms as [|m ms IH]; intros vars acc Hacc.
  - cbn [foldl]. by intros [= <-].
  - cbn [foldl bindE].
    destruct (_extract_description_before lines (line_of source (m_start m))) as [e|d].
    + cbn [bindE]. clear. intros Hbad. exfalso. revert Hbad.
      induction ms as [|m' ms IH]; [done|]. cbn [foldl bindE]. apply IH.
    + cbn [bindE]. apply IH. by apply dict_set_keyed.
Qed.

(** X21.  The module variables that [parse] returns are keyed by name:
    no name occurs twice, however often a variable is declared, and every
    entry is kept under the name of its variable. *)
Theorem module_vars_keyed_by_name (source : str) :
  ∃ r : BSLParseResult,
    parse source = inr r ∧
    NoDup (module_vars r).*1 ∧
    ∀ k v, (k, v) ∈ module_vars r → var_name v = k.
Proof.
  destruct (parse_ok source) as (vars & l & Hr).
  eexists. split; [exact Hr|]. cbn [module_vars].
  assert (_parse_module_vars source (split 10%N source) = inr vars) as Hvars.
  { unfold parse in Hr.
    destruct (_parse_module_vars source (split 10%N source)) as [e|vars'];
      cbn [bindE] in Hr; [done|].
    destruct (_parse_methods source (split 10%N source)) as [e|ms];
      cbn [bindE] in Hr; [done|]. by injection Hr as _ _ ->. }
  by apply _parse_module_vars_keyed in Hvars.
Qed.

(** ** Descriptions *)

(** The lines [_extract_description_before] looks at: the 20 before
    [line_num], or as many as there are *)
Definition window (lines : list str) (line_num : nat) : list str :=
  take (line_num - (line_num - 20)) (drop (line_num - 20) lines).

(** The text of a [//] comment line *)
Definition comment_text (raw : str) : str := strip (drop 2 (strip raw)).

Lemma comment_not_blank text : startswith (u "//") text = true → text ≠ [].
Proof. intros H ->. by vm_compute in H. Qed.

Lemma description_loop_comments lines : ∀ k a acc,
  a + k ≤ length lines →
  Forall (λ raw, startswith (u "//") (strip raw) = true) (take k (drop a lines)) →
  description_loop lines (seq a k) acc =
  inr (acc ++ (comment_text <$> take k (drop a lines))).
Proof.
  induction k as [|k IH]; intros a acc Hlen Hall.
  - cbn [seq description_loop take fmap list_fmap]. by rewrite app_nil_r.
  - destruct (lookup_lt_is_Some_2 lines a) as [raw Hraw]; [lia|].
    rewrite (drop_S _ _ _ Hraw) in Hall |- *. cbn [take] in Hall |- *.
    apply Forall_cons in Hall as [Hcomment Hall].
    cbn [seq description_loop]. unfold getitem. rewrite Hraw. cbn [bindE].
    rewrite (bool_decide_eq_false_2 (strip raw = [])) by (by apply comment_not_blank).
    rewrite andb_false_r, Hcomment.
    rewrite IH by (done || lia). rewrite fmap_cons, <- (assoc_L (++)). done.
Qed.

(** X22.  When each of the lines that [_extract_description_before] looks
    at (the 20 lines before the declaration, fewer at the top of the text)
    is a [//] comment, the description is made of the texts of these
    comments in reverse order: the comment nearest to the declaration
    comes first. *)
Theorem description_reverses_comments (lines : list str) (line_num : nat) :
  line_num ≤ length lines →
  Forall (λ raw, startswith (u "//") (strip raw) = true) (window lines line_num) →
  _extract_description_before lines line_num =
  inr (strip (join [10%N] (reverse (comment_text <$> window lines line_num)))).
Proof.
  intros Hlen Hall. unfold _extract_description_before, window in *.
  rewrite description_loop_comments by (done || lia). done.
Qed.

(** X23.  When the first of the lines that [_extract_description_before]
    looks at is neither blank nor a comment, the description is empty,
    whatever comments stand between that line and the declaration. *)
Theorem description_lost_behind_code (lines : list str) (line_num : nat) (raw : str) :
  0 < line_num → line_num ≤ length lines →
  lines !! (line_num - 20) = Some raw →
  strip raw ≠ [] →
  startswith (u "//") (strip raw) = false →
  contains (u "/*") (strip raw) = false →
  _extract_description_before lines line_num = inr [].
Proof.
  intros Hpos Hlen Hraw Hcode Hslash Hblock. unfold _extract_description_before.
  destruct (line_num - (line_num - 20)) as [|k] eqn:Hk; [lia|].
  cbn [seq description_loop]. unfold getitem. rewrite Hraw. cbn [bindE].
  rewrite (bool_decide_eq_false_2 (strip raw = [])) by done.
  rewrite andb_false_r, Hslash, Hblock.
  by rewrite bool_decide_eq_true_2.
Qed.

End WithUnicode.

End ParserExtras.

Module ParserExtrasWitnesses.
Import Text Regex BSL Parser ParserExtras SimpleUnicode.

(** Two comment lines above a declaration *)
Definition commented_lines : list str :=
  [u "// first"; u "// second"; u "Процедура F()"].

Lemma description_reverses_comments_witness :
  _extract_description_before commented_lines 2 = inr (u "second" ++ [10%N] ++ u "first").
Proof.
  refine (description_reverses_comments commented_lines 2 _ _).
  - vm_compute. lia.
  - repeat constructor.
Defined.

(** A statement, then a comment, then a declaration *)
Definition code_then_comment : list str :=
  [u "x = 1;"; u "// doc"; u "Процедура F()"].

Lemma description_lost_behind_code_witness :
  _extract_description_before code_then_comment 2 = inr [].
Proof.
  refine (description_lost_behind_code code_then_comment 2 (u "x = 1;") _ _ eq_refl _
            eq_refl eq_refl).
  - lia.
  - vm_compute. lia.
  - vm_compute. discriminate.
Defined.

End ParserExtrasWitnesses.

(* ===================================================================== *)
(** * Properties of indexing                                              *)
(* ===================================================================== *)

Module LanguageServerProofs.
Import Text Regex BSL Cache Parser Fingerprint LanguageServer.
Import CacheProofs FingerprintProofs ParserProofs ParserFacts.

(** ** Fingerprints *)

Lemma length_hex (l : list N) :
  length (l ≫= λ b, [MD5.hex_digit (b / 16); MD5.hex_digit (b mod 16)]) = 2 * length l.
Proof.
  induction l as [|b l IH]; [done|]. rewrite bind_cons, length_app, IH. cbn [length]. lia.
Qed.

Lemma length_le_bytes k n : length (MD5.le_bytes k n) = k.
Proof. revert n. induction k as [|k IH]; intros n; [done|]. cbn. by rewrite IH. Qed.

Lemma hexdigest_length msg : length (MD5.hexdigest msg) = 32.
Proof.
  unfold MD5.hexdigest. rewrite length_hex. unfold MD5.digest.
  destruct (foldl MD5.process_block MD5.initial _) as [[[a b] c] d].
  by rewrite !length_app, !length_le_bytes.
Qed.

(** The text with Windows line ends *)
Definition to_crlf (s : str) : str := replace [LF] [CR; LF] s.

Lemma to_crlf_cons c s :
  to_crlf (c :: s) = (if bool_decide (c = LF) then [CR; LF] else [c]) ++ to_crlf s.
Proof.
  unfold to_crlf, replace. cbn [replace_from length Nat.sub].
  destruct (decide (c = LF)) as [->|Hc].
  - rewrite !bool_decide_eq_true_2; [done|done|by eexists].
  - rewrite (bool_decide_eq_false_2 (c = LF)) by done.
    rewrite bool_decide_eq_false_2; [done|].
    intros [k Hk]. by injection Hk as -> _.
Qed.

Lemma read_text_to_crlf s : CR ∉ s → read_text (to_crlf s) = s.
Proof.
  intros Hs. change (read_text (to_crlf s)) with (normalise (to_crlf s)).
  unfold normalise.
  assert (replace [CR; LF] [LF] (to_crlf s) = s) as ->.
  { induction s as [|c s IH]; [done|]. apply not_elem_of_cons in Hs as [Hc Hs].
    rewrite to_crlf_cons. destruct (decide (c = LF)) as [->|Hlf].
    - rewrite bool_decide_eq_true_2 by done. cbn [app].
      rewrite replace_crlf_pair. by rewrite IH.
    - rewrite bool_decide_eq_false_2 by done. cbn [app].
      rewrite replace_crlf_other by (intros [? _]; done). by rewrite IH. }
  rewrite replace_cr. induction s as [|c s IH]; [done|].
  apply not_elem_of_cons in Hs as [Hc Hs]. rewrite fmap_cons.
  rewrite bool_decide_eq_false_2 by done. by rewrite IH.
Qed.

Lemma read_text_id s : CR ∉ s → read_text s = s.
Proof. apply normalise_id. Qed.

Lemma file_hash_of_text d :
  _compute_file_hash (Some d) = MD5.hexdigest (encode_utf8 (read_text d)).
Proof.
  unfold _compute_file_hash.
  change (replace [CR] [LF] (replace [CR; LF] [LF] (read_text d)))
    with (normalise (normalise d)).
  by rewrite normalise_idempotent.
Qed.

(** X24.  The fingerprint of a file.  [_compute_file_hash] returns the
    empty string exactly when the file could not be read; for a file that
    was read it returns 32 characters.  The line-end convention does not
    enter the fingerprint: a text without carriage returns and the same
    text with every line end written CR LF have the same fingerprint, and
    so have any two files that read as the same text. *)
Theorem file_hash_signals_failure (file : option str) :
  (_compute_file_hash file = [] ↔ file = None) ∧
  (∀ d, length (_compute_file_hash (Some d)) = 32) ∧
  (∀ d, CR ∉ d →
        _compute_file_hash (Some (to_crlf d)) = _compute_file_hash (Some d)) ∧
  (∀ d d', read_text d = read_text d' →
           _compute_file_hash (Some d) = _compute_file_hash (Some d')).
Proof.
  assert (∀ d, length (_compute_file_hash (Some d)) = 32) as Hlen.
  { intros d. rewrite file_hash_of_text. apply hexdigest_length. }
  split_and!; [|done| |].
  - destruct file as [d|]; [|done]. split; [|done].
    intros Hempty. specialize (Hlen d). by rewrite Hempty in Hlen.
  - intros d Hd. rewrite !file_hash_of_text.
    by rewrite read_text_to_crlf, read_text_id.
  - intros d d' Heq. by rewrite !file_hash_of_text, Heq.
Qed.

Lemma file_hash_nonempty d : _compute_file_hash (Some d) ≠ [].
Proof.
  intros H. pose proof (hexdigest_length (encode_utf8 (read_text d))) as Hlen.
  rewrite <- file_hash_of_text, H in Hlen. done.
Qed.

Section WithUnicode.
Context {U : Unicode}.

(** ** Which files are indexed *)

Definition up_to_date (fs : FileSystem) (s : Server) (file_path : str) : Prop :=
  ∃ d symbols,
    fs file_path = Readable d ∧
    _document_symbols_cache s !! file_path = Some (_compute_file_hash (Some d), symbols).

Lemma to_index_false fs s f :
  to_index fs s f = false ↔ enable_hash_prefiltering s = true ∧ up_to_date fs s f.
Proof.
  unfold to_index, up_to_date, _is_file_cached.
  destruct (fs f) as [| |d]; cbn [read_file];
    [cbn; split; [done|]; by intros [_ (d' & symbols' & ? & _)]..|].
  - rewrite bool_decide_eq_false_2 by apply file_hash_nonempty.
    destruct (enable_hash_prefiltering s); cbn [andb].
    + destruct (_document_symbols_cache s !! f) as [[h symbols]|] eqn:Hf.
      * case_bool_decide as Hh.
        -- subst h. split; [|done]. intros _. split; [done|]. by exists d, symbols.
        -- split; [done|]. intros [_ (d' & symbols' & [= <-] & [= Hh' _])]. done.
      * split; [done|]. by intros [_ (d' & symbols' & _ & ?)].
    + split; [done|]. by intros [? _].
Qed.

(** ** Symbols *)

(** The symbol [_create_symbol_from_method] builds when it returns *)
Definition symbol_for (m : BSLMethod) (file_content : str) (lines : list str)
    (abs_path relative_file_path : str) : Symbol :=
  mkSymbol (name m) (if negb (isproc m) then 12 else 6)
    (mkRange
       (mkPosition (line m) (default 0 (lines !! line m ≫= str_find (name m))))
       (mkPosition (clamp_end_line m lines)
                   (default 0 (length <$> lines !! clamp_end_line m lines))))
    abs_path relative_file_path (_extract_method_body file_content m)
    (join (u " | ") ((if bool_decide (context m ≠ []) then [context m] else []) ++
                     (if is_export m then [u "Экспорт"] else [])))
    (if bool_decide (description m ≠ []) then Some (description m) else None).

Lemma guarded_getitem {A B} (lines : list A) i (f : A → B) (d : B) :
  (if bool_decide (i < length lines)
   then text <~ liftE (getitem lines i) ;; inr (f text) else inr d)
  = (inr (default d (f <$> lines !! i)) : L B).
Proof.
  case_bool_decide as Hi.
  - apply lookup_lt_is_Some in Hi as [text Htext].
    unfold getitem. by rewrite Htext.
  - rewrite lookup_ge_None_2 by lia. done.
Qed.

Lemma _create_symbol_from_method_run m file_content lines abs_path relative_file_path :
  _create_symbol_from_method m file_content lines abs_path relative_file_path =
  if startswith [SLASH] abs_path
  then inr (symbol_for m file_content lines abs_path relative_file_path)
  else inl ValueError.
Proof.
  unfold _create_symbol_from_method.
  rewrite (guarded_getitem lines (line m) (λ text, default 0 (str_find (name m) text)) 0).
  cbn [bindL].
  rewrite (guarded_getitem lines (clamp_end_line m lines) length 0).
  cbn [bindL]. unfold as_uri.
  destruct (startswith [SLASH] abs_path); cbn [bindL]; [|done].
  unfold symbol_for. do 3 f_equal.
  destruct (lines !! line m) as [text|]; cbn; [|done].
  by destruct (str_find (name m) text).
Qed.

Lemma mapL_inr {A B} (f : A → L B) (g : A → B) l :
  (∀ x, f x = inr (g x)) → mapL f l = inr (g <$> l).
Proof.
  intros Hf. induction l as [|a l IH]; [done|].
  cbn [mapL]. rewrite Hf. cbn [bindL]. rewrite IH. done.
Qed.

Lemma mapL_inl {A B} (f : A → L B) e l :
  l ≠ [] → (∀ x, f x = inl e) → mapL f l = inl e.
Proof. intros Hl Hf. destruct l as [|a l]; [done|]. cbn [mapL]. by rewrite Hf. Qed.

(** The state [_convert_file_to_document_symbols] leaves when it returns *)
Definition recorded (relative_file_path abs_path file_content file_hash : str)
    (methods : list BSLMethod) (s : Server) : Server :=
  mkServer (repository_root_path s) (enable_hash_prefiltering s)
    (<[relative_file_path :=
         (file_hash,
          (λ m, symbol_for m file_content (split 10%N file_content) abs_path
                  relative_file_path) <$> methods)]> (_document_symbols_cache s))
    true
    (<[relative_file_path := file_hash]> (_raw_document_symbols_cache s))
    true
    (_local_cache s) (_file_content_cache s)
    (if bool_decide (methods ≠ [])
     then {[relative_file_path]} ∪ _converted_files s else _converted_files s).

Lemma _convert_file_to_document_symbols_run rel abs_path file_content file_hash ms md s :
  _convert_file_to_document_symbols rel abs_path file_content file_hash ms md s =
  if startswith [SLASH] abs_path || bool_decide (ms = [])
  then inr (recorded rel abs_path file_content file_hash ms s)
  else inl ValueError.
Proof.
  unfold _convert_file_to_document_symbols.
  destruct (startswith [SLASH] abs_path) eqn:Habs; cbn [orb].
  - erewrite mapL_inr; [done|]. intros m.
    by rewrite _create_symbol_from_method_run, Habs.
  - destruct ms as [|m0 ms]; [done|].
    rewrite (bool_decide_eq_false_2 (m0 :: ms = [])) by done.
    erewrite mapL_inl; [done|done|]. intros m.
    by rewrite _create_symbol_from_method_run, Habs.
Qed.

(** The state [_parse_file_local] leaves for a file it has parsed *)
Definition indexed (rel decoded : str) (r : BSLParseResult) (s : Server) : Server :=
  let abs_path := path_join (repository_root_path s) rel in
  let md := _get_module_for_path abs_path (repository_root_path s) in
  recorded rel abs_path (read_text decoded) (_compute_file_hash (Some decoded)) (methods r)
    (set_local_cache (add_parse_result rel md r (_local_cache s)) s).

Lemma _parse_file_local_run fs rel s :
  _parse_file_local fs rel s =
  match fs rel with
  | Missing => inr s
  | Unreadable => inl OSError
  | Readable decoded =>
      if _is_file_cached (_document_symbols_cache s) rel (_compute_file_hash (Some decoded))
      then inr s
      else if bool_decide (strip (read_text decoded) = []) then inr s
      else
        parse_result <~ liftE (parse (read_text decoded)) ;;
        if startswith [SLASH] (path_join (repository_root_path s) rel) ||
           bool_decide (methods parse_result = [])
        then inr (indexed rel decoded parse_result s)
        else inl ValueError
  end.
Proof.
  unfold _parse_file_local. destruct (fs rel) as [| |decoded]; [done..|].
  cbn zeta.
  change (replace [CR] [LF] (replace [CR; LF] [LF] (read_text decoded)))
    with (normalise (normalise decoded)).
  rewrite normalise_idempotent.
  change (normalise decoded) with (read_text decoded).
  rewrite <- file_hash_of_text.
  change (match _document_symbols_cache s !! rel with
          | Some (cached_hash, _) =>
              bool_decide (cached_hash = _compute_file_hash (Some decoded))
          | None => false
          end)
    with (_is_file_cached (_document_symbols_cache s) rel (_compute_file_hash (Some decoded))).
  destruct (_is_file_cached _ _ _); [done|].
  case_bool_decide; [done|].
  destruct (parse (read_text decoded)) as [e|r]; cbn [liftE bindL]; [done|].
  by rewrite _convert_file_to_document_symbols_run.
Qed.

Lemma path_join_absolute root rel :
  startswith [SLASH] root = true → startswith [SLASH] (path_join root rel) = true.
Proof.
  intros Hroot. unfold path_join.
  destruct (startswith [SLASH] rel) eqn:Hrel; [done|].
  apply bool_decide_eq_true in Hroot as [k ->].
  destruct (_ || _); apply bool_decide_eq_true_2; by eexists.
Qed.

(** X25.  Indexing a file under an absolute repository root.  A file
    that exists but cannot be read makes [_parse_file_local] raise
    [OSError]; for every other file it returns.  A file that does not
    exist, one whose text is blank, and one that is cached under its
    fingerprint leave the server as it was: a blank file is never
    recorded.  Any other file is recorded with one symbol for each parsed
    method, in order.  The entries of the other files are untouched.  A
    file that was read and is not blank is afterwards up to date, and with
    hash prefiltering on [_find_files_to_index] no longer selects it, for
    as long as it reads as the same text. *)
Theorem parsed_file_is_skipped (fs : FileSystem) (rel : str) (s : Server)
    (Habs : startswith [SLASH] (repository_root_path s) = true) :
  match fs rel with
  | Unreadable => _parse_file_local fs rel s = inl OSError
  | found =>
      ∃ s', _parse_file_local fs rel s = inr s' ∧
        enable_hash_prefiltering s' = enable_hash_prefiltering s ∧
        (∀ f, f ≠ rel →
              _document_symbols_cache s' !! f = _document_symbols_cache s !! f) ∧
        match found with
        | Readable decoded =>
            let file_hash := _compute_file_hash (Some decoded) in
            (if _is_file_cached (_document_symbols_cache s) rel file_hash then s' = s
             else if bool_decide (strip (read_text decoded) = []) then s' = s
             else ∃ r symbols,
                    parse (read_text decoded) = inr r ∧
                    _document_symbols_cache s' !! rel = Some (file_hash, symbols) ∧
                    symbol_name <$> symbols = name <$> methods r) ∧
            (strip (read_text decoded) ≠ [] →
             up_to_date fs s' rel ∧
             (enable_hash_prefiltering s = true →
              ∀ (fs' : FileSystem) decoded' all_files,
                fs' rel = Readable decoded' → read_text decoded' = read_text decoded →
                rel ∉ _find_files_to_index fs' all_files s'))
        | _ => s' = s
        end
  end.
Proof.
  rewrite _parse_file_local_run.
  destruct (fs rel) as [| |decoded] eqn:Hfile; [by exists s|done|].
  assert (∀ s' symbols,
            _document_symbols_cache s' !! rel =
              Some (_compute_file_hash (Some decoded), symbols) →
            up_to_date fs s' rel ∧
            (enable_hash_prefiltering s' = true →
             ∀ (fs' : FileSystem) decoded' all_files,
               fs' rel = Readable decoded' → read_text decoded' = read_text decoded →
               rel ∉ _find_files_to_index fs' all_files s')) as Hskip.
  { intros s' symbols Hentry. split; [by exists decoded, symbols|].
    intros Hon fs' decoded' all_files Hfile' Hsame.
    unfold _find_files_to_index. rewrite list_elem_of_filter. intros [Hsel _].
    assert (to_index fs' s' rel = false) as Hno; [|congruence].
    apply to_index_false. split; [done|]. exists decoded', symbols. split; [done|].
    rewrite Hentry. do 2 f_equal. by rewrite !file_hash_of_text, Hsame. }
  cbn zeta. destruct (_is_file_cached _ _ _) eqn:Hcached.
  { exists s. split_and!; [done..|]. intros _.
    unfold _is_file_cached in Hcached.
    destruct (_document_symbols_cache s !! rel) as [[h symbols]|] eqn:Hentry; [|done].
    apply bool_decide_eq_true in Hcached as ->. by apply (Hskip s symbols). }
  case_bool_decide as Hblank; [by exists s|].
  destruct (parse_terminated (read_text decoded)) as (r & Hr & _).
  rewrite Hr. cbn [liftE bindL].
  rewrite path_join_absolute by done. cbn [orb].
  exists (indexed rel decoded r s). split; [done|].
  pose proof (lookup_insert_eq (_document_symbols_cache s) rel
                (_compute_file_hash (Some decoded),
                 (λ m, symbol_for m (read_text decoded) (split 10%N (read_text decoded))
                         (path_join (repository_root_path s) rel) rel) <$> methods r))
    as Hentry.
  split_and!; [done| | |].
  - intros f Hf. unfold indexed, recorded. cbn [_document_symbols_cache].
    by rewrite lookup_insert_ne.
  - eexists r, _. split; [done|]. split; [exact Hentry|].
    by rewrite <- list_fmap_compose.
  - intros _. exact (Hskip (indexed rel decoded r s) _ Hentry).
Qed.

(** ** What indexing adds to the call-graph cache *)









(** X27.  What indexing can raise.  [_parse_file_local] raises [OSError]
    exactly when the file exists but cannot be read, and the [ValueError]
    of [pathlib] exactly when the path of the file under the repository
    root is not absolute and the file has been read, is not cached under
    its fingerprint, is not blank and has at least one method.  It raises
    nothing else: no exception of the parser leaves it. *)
Theorem parse_file_local_raises (fs : FileSystem) (rel : str) (s : Server)
    (e : ls_exn) :
  _parse_file_local fs rel s = inl e ↔
  (e = OSError ∧ fs rel = Unreadable) ∨
  (e = ValueError ∧
   startswith [SLASH] (path_join (repository_root_path s) rel) = false ∧
   ∃ decoded r,
     fs rel = Readable decoded ∧
     _is_file_cached (_document_symbols_cache s) rel (_compute_file_hash (Some decoded))
       = false ∧
     strip (read_text decoded) ≠ [] ∧
     parse (read_text decoded) = inr r ∧ methods r ≠ []).
Proof.
  rewrite _parse_file_local_run. split.
  - destruct (fs rel) as [| |decoded]; [done|intros [= <-]; by left|].
    destruct (_is_file_cached _ _ _) eqn:Hcached; [done|].
    case_bool_decide as Hblank; [done|].
    destruct (parse_terminated (read_text decoded)) as (r & Hr & _).
    rewrite Hr. cbn [liftE bindL].
    destruct (startswith [SLASH] (path_join (repository_root_path s) rel)) eqn:Habs;
      [done|]. cbn [orb].
    destruct (decide (methods r = [])) as [Hms|Hms].
    + by rewrite bool_decide_eq_true_2.
    + rewrite bool_decide_eq_false_2 by done. intros [= <-]. right.
      split_and!; [done..|]. by exists decoded, r.
  - intros [[-> ->]|(-> & Hrel & decoded & r & -> & -> & Hblank & Hr & Hms)]; [done|].
    rewrite (bool_decide_eq_false_2 (strip (read_text decoded) = [])) by done.
    rewrite Hr, Hrel. cbn [liftE bindL orb].
    by rewrite bool_decide_eq_false_2.
Qed.

(** ** Files that are gone *)









(** ** Splitting and joining *)

Lemma split_not_nil sep s : split sep s ≠ [].
Proof.
  destruct s as [|c s]; [done|]. cbn [split].
  case_bool_decide; [done|]. by destruct (split sep s).
Qed.

Lemma split_absent sep s : sep ∉ s → split sep s = [s].
Proof.
  induction s as [|c s IH]; [done|]. intros [Hc Hs]%not_elem_of_cons.
  cbn [split]. rewrite bool_decide_eq_false_2 by done. by rewrite IH.
Qed.

Lemma split_app sep p rest :
  sep ∉ p → split sep (p ++ sep :: rest) = p :: split sep rest.
Proof.
  induction p as [|c p IH]; intros Hp.
  - cbn [app split]. by rewrite bool_decide_eq_true_2.
  - apply not_elem_of_cons in Hp as [Hc Hp]. cbn [app split].
    rewrite bool_decide_eq_false_2 by done. by rewrite IH.
Qed.

Lemma split_join sep ps :
  ps ≠ [] → Forall (λ p, sep ∉ p) ps → split sep (join [sep] ps) = ps.
Proof.
  intros Hne Hps. induction Hps as [|p ps Hp Hps IH]; [done|].
  destruct ps as [|q ps].
  - cbn [join]. by apply split_absent.
  - change (join [sep] (p :: q :: ps)) with (p ++ sep :: join [sep] (q :: ps)).
    rewrite split_app by done. by rewrite IH.
Qed.

Lemma split_parts sep s : Forall (λ p, sep ∉ p) (split sep s).
Proof.
  induction s as [|c s IH]; cbn [split].
  - constructor; [apply not_elem_of_nil|constructor].
  - case_bool_decide as Hc.
    + constructor; [apply not_elem_of_nil|done].
    + destruct (split sep s) as [|l ls].
      * constructor; [|constructor]. by intros ->%list_elem_of_singleton.
      * apply Forall_cons in IH as [Hl Hls]. constructor; [|done].
        by intros [->|?]%elem_of_cons.
Qed.

Lemma replace_absent c new s : c ∉ s → replace [c] new s = s.
Proof.
  unfold replace. induction s as [|x s IH]; [done|].
  intros [Hx Hs]%not_elem_of_cons. cbn [replace_from].
  rewrite bool_decide_eq_false_2; [by rewrite IH|].
  intros [k Hk]. injection Hk as -> _. done.
Qed.

Lemma elem_of_join c sep ps : c ∈ join sep ps → c ∈ sep ∨ ∃ p, p ∈ ps ∧ c ∈ p.
Proof.
  induction ps as [|p ps IH]; [by intros ?%elem_of_nil|].
  destruct ps as [|q ps].
  - cbn [join]. intros Hc. right. exists p. split; [by left|done].
  - change (join sep (p :: q :: ps)) with (p ++ sep ++ join sep (q :: ps)).
    rewrite !elem_of_app. intros [Hc|[Hc|Hc]].
    + right. exists p. split; [by left|done].
    + by left.
    + destruct (IH Hc) as [?|(p' & Hp' & ?)]; [by left|].
      right. exists p'. split; [by right|done].
Qed.

(** ** Module names *)

Definition common (parent_type : str) : bool :=
  startswith (u "CommonModules") parent_type || startswith (u "ОбщиеМодули") parent_type.

Lemma type_mapping_keys : NoDup type_mapping.*1.
Proof. apply (bool_decide_unpack _). by vm_compute. Qed.

Lemma head_filter_key {V} (l : list (str * V)) k v :
  NoDup l.*1 → (k, v) ∈ l → head (filter (λ kv : str * V, kv.1 = k) l) = Some (k, v).
Proof.
  induction l as [|[k' v'] l IH]; [by intros _ ?%elem_of_nil|].
  rewrite fmap_cons. intros [Hk' Hl]%NoDup_cons [[= -> ->]|Hin]%elem_of_cons.
  - by rewrite filter_cons_True.
  - rewrite filter_cons_False; [by apply IH|].
    cbn. intros ->. apply Hk'. apply list_elem_of_fmap. by exists (k, v).
Qed.

Lemma filter_key_missing {V} (l : list (str * V)) k :
  k ∉ l.*1 → filter (λ kv : str * V, kv.1 = k) l = [].
Proof.
  induction l as [|[k' v'] l IH]; [done|]. rewrite fmap_cons.
  intros [Hk Hl]%not_elem_of_cons.
  rewrite filter_cons_False by (cbn; intros Heq; apply Hk; by symmetry).
  by apply IH.
Qed.

#[local] Opaque u.

Lemma _get_module_for_path_parts root ps :
  root ≠ [] → endswith [BACKSLASH] root = false →
  ps ≠ [] → Forall (λ p, (SLASH ∉ p) ∧ (BACKSLASH ∉ p)) ps →
  startswith [SLASH] (join [SLASH] ps) = false →
  _get_module_for_path (path_join root (join [SLASH] ps)) root =
  let hierarchy := length ps in
  if bool_decide (3 < hierarchy) then
    let parent_type := default [] (ps !! (hierarchy - 4)) in
    if common parent_type then default [] (ps !! (hierarchy - 3))
    else
      default parent_type
        (snd <$> head (filter (λ kv : str * str, kv.1 = parent_type) type_mapping))
      ++ u "." ++ default [] (ps !! (hierarchy - 3))
  else [].
Proof.
  intros Hroot Hback Hne Hps Hrel.
  set (rel := join [SLASH] ps) in *.
  assert ((if endswith [BACKSLASH] root || endswith [SLASH] root
           then drop (length root) (path_join root rel)
           else drop (length root + 1) (path_join root rel)) = rel) as Hdrop.
  { unfold path_join. rewrite Hrel, Hback. cbn [orb].
    rewrite (bool_decide_eq_false_2 (root = [])) by done. cbn [orb].
    destruct (endswith [SLASH] root).
    - by rewrite drop_app_length.
    - rewrite app_assoc.
      replace (length root + 1) with (length (root ++ [SLASH]))
        by (rewrite length_app; cbn; lia).
      by rewrite drop_app_length. }
  unfold _get_module_for_path. cbn zeta. rewrite Hdrop.
  assert (BACKSLASH ∉ rel) as Hno.
  { intros [Hin|(p & Hp & Hin)]%elem_of_join.
    - by apply list_elem_of_singleton in Hin.
    - eapply Forall_forall in Hps; [|done]. by destruct Hps. }
  rewrite replace_absent by done.
  unfold rel. rewrite split_join; [done|done|].
  eapply Forall_impl; [done|]. by intros p [? _].
Qed.

(** X29.  The module of an indexed file.  For a repository root that is
    not empty and does not end in a backslash, and a relative path of at
    least four components [... / type / name / x / y], the module that
    [_parse_file_local] passes on is decided by [type] and [name] alone:
    it is [name] when [type] starts with CommonModules or ОбщиеМодули, else
    the Russian name of [type] from the table, or [type] itself when the
    table does not have it, followed by a dot and [name].  For a path of
    fewer than four components it is the empty string. *)
Theorem module_name_from_path (root : str) (pre : list str) (t n a b : str)
    (Hroot : root ≠ [] ∧ endswith [BACKSLASH] root = false)
    (Hparts : Forall (λ p, (SLASH ∉ p) ∧ (BACKSLASH ∉ p)) (pre ++ [t; n; a; b]))
    (Hrel : startswith [SLASH] (join [SLASH] (pre ++ [t; n; a; b])) = false) :
  let md := _get_module_for_path
              (path_join root (join [SLASH] (pre ++ [t; n; a; b]))) root in
  (common t = true → md = n) ∧
  (common t = false → ∀ ru, (t, ru) ∈ type_mapping → md = ru ++ u "." ++ n) ∧
  (common t = false → t ∉ type_mapping.*1 → md = t ++ u "." ++ n) ∧
  (∀ ps, ps ≠ [] → length ps ≤ 3 → Forall (λ p, (SLASH ∉ p) ∧ (BACKSLASH ∉ p)) ps →
         startswith [SLASH] (join [SLASH] ps) = false →
         _get_module_for_path (path_join root (join [SLASH] ps)) root = []).
Proof.
  destruct Hroot as [Hroot Hback]. cbn zeta.
  rewrite _get_module_for_path_parts by (done || by destruct pre).
  cbn zeta. rewrite length_app. cbn [length].
  rewrite bool_decide_eq_true_2 by lia.
  replace (length pre + 4 - 4) with (length pre + 0) by lia.
  replace (length pre + 4 - 3) with (length pre + 1) by lia.
  rewrite !lookup_app_r by lia.
  replace (length pre + 0 - length pre) with 0 by lia.
  replace (length pre + 1 - length pre) with 1 by lia.
  cbn [lookup list_lookup default]. unfold id.
  split_and!.
  - by intros ->.
  - intros -> ru Hru.
    by rewrite (head_filter_key _ _ _ type_mapping_keys Hru).
  - intros -> Hmiss. by rewrite filter_key_missing.
  - intros ps Hne Hlen Hps Hstart.
    rewrite _get_module_for_path_parts by done. cbn zeta.
    by rewrite bool_decide_eq_false_2 by lia.
Qed.

#[local] Transparent u.

(** ** Where a symbol lies *)

Lemma find_from_prefix sub s : ∀ i j,
  find_from sub s i = Some j → ∃ k, j = i + k ∧ sub `prefix_of` drop k s.
Proof.
  induction s as [|c s IH]; intros i j; cbn [find_from]; [done|].
  case_bool_decide as Hp.
  - intros [= <-]. exists 0. split; [lia|done].
  - intros (k & -> & Hk)%IH. exists (S k). split; [lia|done].
Qed.

Lemma str_find_prefix sub s j : str_find sub s = Some j → sub `prefix_of` drop j s.
Proof.
  unfold str_find. case_bool_decide as Hsub.
  - intros [= <-]. subst sub. apply prefix_nil.
  - unfold find. rewrite drop_0. intros (k & -> & Hk)%find_from_prefix. done.
Qed.

Lemma clamp_end_line_terminated m lines :
  endline m < length lines → clamp_end_line m lines = endline m.
Proof.
  intros Hend. unfold clamp_end_line. rewrite bool_decide_eq_true_2 by done. lia.
Qed.

(** X30.  The symbol of a parsed method.  Under an absolute path, for
    every method that [parse] returns for a text, [_create_symbol_from_method]
    returns a symbol that lies within the text: it runs from the line of
    the header to the line of the matching end keyword, which comes later,
    and ends behind the last character of that line.  Its start character
    is a place where the method name stands in the header line, or 0.  Its
    body is the text of exactly these lines, and its kind is 6 for a
    procedure and 12 for a function. *)
Theorem symbols_of_parsed_methods (source abs_path rel : str)
    (Habs : startswith [SLASH] abs_path = true) :
  ∃ r, parse source = inr r ∧
    ∀ m, m ∈ methods r →
      ∃ sym header footer start_char,
        _create_symbol_from_method m source (split 10%N source) abs_path rel = inr sym ∧
        split 10%N source !! line m = Some header ∧
        split 10%N source !! endline m = Some footer ∧
        line m < endline m ∧
        symbol_range sym =
          mkRange (mkPosition (line m) start_char)
                  (mkPosition (endline m) (length footer)) ∧
        (start_char = 0 ∨ name m `prefix_of` drop start_char header) ∧
        split 10%N (symbol_body sym) =
          take (endline m + 1 - line m) (drop (line m) (split 10%N source)) ∧
        length (split 10%N (symbol_body sym)) = endline m + 1 - line m ∧
        symbol_kind sym = (if isproc m then 6 else 12).
Proof.
  destruct (parse_terminated source) as (r & Hr & Hterm & _).
  exists r. split; [done|]. intros m Hm.
  eapply Forall_forall in Hterm; [|done].
  destruct Hterm as (Hlt & Hend & footer & Hfooter & _).
  set (lines := split 10%N source) in *.
  assert (line m < length lines) as Hstart by lia.
  destruct (lookup_lt_is_Some_2 lines (line m) Hstart) as [header Hheader].
  rewrite _create_symbol_from_method_run, Habs.
  eexists _, header, footer, _. split; [done|].
  unfold symbol_for. cbn [symbol_range symbol_body symbol_kind].
  rewrite clamp_end_line_terminated by done. fold lines.
  rewrite Hheader, Hfooter. cbn [fmap option_fmap option_map default mbind option_bind].
  assert (_extract_method_body source m =
          join [10%N] (take (endline m + 1 - line m) (drop (line m) lines))) as Hbody.
  { unfold _extract_method_body. cbn zeta. fold lines.
    rewrite clamp_end_line_terminated by done.
    rewrite (bool_decide_eq_false_2 (endline m < line m)) by lia.
    by rewrite (bool_decide_eq_false_2 (length lines ≤ line m)) by lia. }
  assert (split 10%N (_extract_method_body source m) =
          take (endline m + 1 - line m) (drop (line m) lines)) as Hsplit.
  { rewrite Hbody. apply split_join.
    - intros Hnil. apply (f_equal length) in Hnil.
      rewrite length_take, length_drop in Hnil. cbn in Hnil. lia.
    - apply Forall_take, Forall_drop, split_parts. }
  split_and!; [done|done|done|done| |done| |by destruct (isproc m)].
  - destruct (str_find (name m) header) as [j|] eqn:Hfind; cbn [default]; [|by left].
    right. by apply str_find_prefix.
  - rewrite Hsplit, length_take, length_drop. lia.
Qed.

End WithUnicode.

End LanguageServerProofs.

Module LanguageServerWitnesses.
Import Text Regex BSL Cache Parser Fingerprint LanguageServer CacheProofs LanguageServerProofs.
Import SimpleUnicode.

(** A server for the repository [/repo] with nothing cached *)
Definition new_server : Server :=
  mkServer (u "/repo") true ∅ false ∅ false empty_cache ∅ ∅.

Definition module_text : str :=
  u "Процедура Проверить()" ++ [LF] ++ u "КонецПроцедуры".

Definition module_path : str := u "Documents/Invoice/Ext/ObjectModule.bsl".

(** A repository holding one module *)
Definition one_module : FileSystem :=
  λ path, if bool_decide (path = module_path) then Readable module_text else Missing.

Lemma parsed_file_is_skipped_witness :
  ∃ s', _parse_file_local one_module module_path new_server = inr s' ∧
        enable_hash_prefiltering s' = true.
Proof.
  destruct (parsed_file_is_skipped one_module module_path new_server eq_refl)
    as (s' & Hrun & Hpre & _).
  exists s'. split; [exact Hrun|exact Hpre].
Defined.




Lemma module_name_from_path_witness :
  _get_module_for_path (path_join (u "/repo") module_path) (u "/repo") =
  u "Документы.Invoice".
Proof.
  refine (proj1 (proj2 (module_name_from_path (u "/repo") [] (u "Documents") (u "Invoice")
                          (u "Ext") (u "ObjectModule.bsl") _ _ _))
            _ (u "Документы") _).
  - split; [discriminate|reflexivity].
  - apply (bool_decide_unpack _). vm_compute. exact I.
  - reflexivity.
  - reflexivity.
  - left.
Defined.

Lemma symbols_of_parsed_methods_witness :
  ∃ r, parse module_text = inr r.
Proof.
  destruct (symbols_of_parsed_methods module_text (u "/repo/a.bsl") (u "a.bsl") eq_refl)
    as (r & Hr & _).
  exists r. exact Hr.
Defined.

End LanguageServerWitnesses.
